(** * Balanced-Team-Pie: the synchronisation core

    A shallow embedding of the three layers the application bundles in its
    client library: the text engine [diff_match_patch], the structural engine
    [jsondiff] and the bucket client [simperium].

    Conventions of the embedding.
    - A JavaScript string is the list of its UTF-16 code units ([jsstring]).
    - Integral JavaScript numbers (lengths, indices, counters, versions) are
      [Z]; they are exact as long as they stay below 2^53, which every index
      into a string or array does.  The scores of the bitap matcher are
      IEEE doubles ([float]).
    - A call either returns, throws, or falls outside the embedding
      ([Unknown]: an iteration budget was exhausted, or a value had a run-time
      type the embedding does not represent).  No theorem below draws a
      conclusion from [Unknown].
    - [new Date().getTime()] reads a clock that is part of the state. *)

From Stdlib Require Import ZArith NArith List Bool Lia.
From Stdlib Require Import Strings.String Strings.Ascii.
From Stdlib Require Import Floats Uint63.
From stdpp Require Import base option list gmap.

Local Open Scope Z_scope.
Set Warnings "-register-all".

(** ** Outcomes *)

Inductive exn : Type :=
| Error (msg : string)       (* throw new Error(msg) *)
| TypeError                  (* property access on undefined or null, ... *)
| URIError                   (* encodeURI / decodeURI *)
| ReferenceError             (* a name that stands for nothing *)
| DOMException (name : string).  (* thrown by the host *)

Inductive res (A : Type) : Type :=
| Ret (a : A)
| Throw (e : exn)
| Unknown.
Arguments Ret {A} a.
Arguments Throw {A} e.
Arguments Unknown {A}.

Definition rbind {A B} (m : res A) (k : A -> res B) : res B :=
  match m with
  | Ret a => k a
  | Throw e => Throw e
  | Unknown => Unknown
  end.

Notation "'let!' x ':=' m 'in' k" := (rbind m (fun x => k))
  (at level 10, x pattern, m at level 100, k at level 200).

(** The clock: the readings [(new Date).getTime()] will return, and how many
    have been taken. *)
Record clock : Type := Clock { readings : nat -> Z; reads : nat }.

Definition M (A : Type) : Type := clock -> res A * clock.

Definition mret {A} (a : A) : M A := fun c => (Ret a, c).
Definition mthrow {A} (e : exn) : M A := fun c => (Throw e, c).
Definition munknown {A} : M A := fun c => (Unknown, c).
Definition mbind' {A B} (m : M A) (k : A -> M B) : M B :=
  fun c => match m c with
           | (Ret a, c') => k a c'
           | (Throw e, c') => (Throw e, c')
           | (Unknown, c') => (Unknown, c')
           end.
Definition lift {A} (r : res A) : M A := fun c => (r, c).
Definition getTime : M Z :=
  fun c => (Ret (readings c (reads c)), Clock (readings c) (S (reads c))).

Notation "'do!' x ':=' m 'in' k" := (mbind' m (fun x => k))
  (at level 10, x pattern, m at level 100, k at level 200).

(** ** Strings *)

Definition jsstring : Type := list N.

(** A literal: one code unit per character. *)
Fixpoint js (s : string) : jsstring :=
  match s with
  | EmptyString => []
  | String a s' => N_of_ascii a :: js s'
  end.

Definition fromCharCode (n : Z) : jsstring := [Z.to_N (n mod 65536)].

Fixpoint str_eqb (a b : jsstring) : bool :=
  match a, b with
  | [], [] => true
  | x :: a', y :: b' => N.eqb x y && str_eqb a' b'
  | _, _ => false
  end.

Definition len (s : jsstring) : Z := Z.of_nat (length s).

(** [ToInteger] followed by the clamp of [substring], [indexOf], ... *)
Definition clamp (s : jsstring) (i : Z) : nat :=
  Z.to_nat (Z.min (Z.max i 0) (len s)).

(** [s.substring(a, b)]: arguments are clamped to [0, length] and swapped
    when out of order. *)
Definition substring (s : jsstring) (a b : Z) : jsstring :=
  let a' := clamp s a in
  let b' := clamp s b in
  let lo := Nat.min a' b' in
  let hi := Nat.max a' b' in
  firstn (hi - lo) (skipn lo s).

(** [s.substring(a)] *)
Definition substring_from (s : jsstring) (a : Z) : jsstring :=
  skipn (clamp s a) s.

(** [s.charAt(i)]: the empty string outside the string. *)
Definition charAt (s : jsstring) (i : Z) : jsstring :=
  if (0 <=? i) && (i <? len s) then firstn 1 (skipn (Z.to_nat i) s) else [].

Fixpoint starts_with (p s : jsstring) : bool :=
  match p, s with
  | [], _ => true
  | x :: p', y :: s' => N.eqb x y && starts_with p' s'
  | _ :: _, [] => false
  end.

(** First match of [p] in [s] at or after position [i]; [s] is the part of the
    string from [i] on. *)
Fixpoint find_from (p s : jsstring) (i : Z) : Z :=
  if starts_with p s then i
  else match s with
       | [] => -1
       | _ :: s' => find_from p s' (i + 1)
       end.

(** [s.indexOf(p, from)] *)
Definition indexOf (s p : jsstring) (from : Z) : Z :=
  let k := clamp s from in
  find_from p (skipn k s) (Z.of_nat k).

(** Last match of [p] in [s] that starts at a position [<= bound]. *)
Fixpoint find_last (p s : jsstring) (i bound best : Z) : Z :=
  if bound <? i then best
  else
    let best' := if starts_with p s then i else best in
    match s with
    | [] => best'
    | _ :: s' => find_last p s' (i + 1) bound best'
    end.

(** [s.lastIndexOf(p, from)] *)
Definition lastIndexOf (s p : jsstring) (from : Z) : Z :=
  find_last p s 0 (Z.of_nat (clamp s from)) (-1).

(** [s.lastIndexOf(p)] *)
Definition lastIndexOf_end (s p : jsstring) : Z :=
  find_last p s 0 (len s) (-1).

(** ** The text engine: diffs *)

Inductive dop : Type := DIFF_DELETE | DIFF_INSERT | DIFF_EQUAL.

Definition dop_eqb (a b : dop) : bool :=
  match a, b with
  | DIFF_DELETE, DIFF_DELETE | DIFF_INSERT, DIFF_INSERT
  | DIFF_EQUAL, DIFF_EQUAL => true
  | _, _ => false
  end.

(** A diff tuple [[op, text]]; a diff is an array of them. *)
Definition Diff : Type := (dop * jsstring)%type.
Definition diffs_t : Type := list Diff.

(** The tunable constants of the constructor. *)
Definition Diff_Timeout_ms : Z := 1000.     (* Diff_Timeout = 1.0, in ms *)
Definition Diff_EditCost : Z := 4.
Definition Match_Distance : Z := 1000.
Definition Patch_Margin : Z := 4.
Definition Match_MaxBits : Z := 32.

(** Array access.  Reading a field of a missing element is a TypeError. *)
Definition at_ {A} (l : list A) (i : Z) : res A :=
  if i <? 0 then Throw TypeError
  else match nth_error l (Z.to_nat i) with
       | Some x => Ret x
       | None => Throw TypeError
       end.

Definition alen {A} (l : list A) : Z := Z.of_nat (length l).

(** [a.splice(start, count, items...)] for [0 <= start]. *)
Definition splice {A} (l : list A) (start count : Z) (items : list A) : list A :=
  let s := Z.to_nat (Z.min (Z.max start 0) (alen l)) in
  let c := Z.to_nat (Z.max count 0) in
  firstn s l ++ items ++ skipn (s + c) l.

(** [a[i] = x] for an index inside the array. *)
Definition set_at {A} (l : list A) (i : Z) (x : A) : list A :=
  if (0 <=? i) && (i <? alen l) then splice l i 1 [x] else l.

Definition set_text (l : diffs_t) (i : Z) (t : jsstring) : res diffs_t :=
  let! d := at_ l i in Ret (set_at l i (fst d, t)).

Definition set_op (l : diffs_t) (i : Z) (o : dop) : res diffs_t :=
  let! d := at_ l i in Ret (set_at l i (o, snd d)).

(** [diff_commonPrefix]: binary search for the length of the common prefix. *)
Fixpoint commonPrefix_loop (fuel : nat) (text1 text2 : jsstring)
    (pointermin pointermax pointermid pointerstart : Z) : res Z :=
  match fuel with
  | O => Unknown
  | S fuel' =>
    if pointermin <? pointermid then
      if str_eqb (substring text1 pointerstart pointermid)
                 (substring text2 pointerstart pointermid)
      then commonPrefix_loop fuel' text1 text2 pointermid pointermax
             ((pointermax - pointermid) / 2 + pointermid) pointermid
      else commonPrefix_loop fuel' text1 text2 pointermin pointermid
             ((pointermid - pointermin) / 2 + pointermin) pointerstart
    else Ret pointermid
  end.

Definition is_empty (s : jsstring) : bool :=
  match s with [] => true | _ => false end.

Definition diff_commonPrefix (fuel : nat) (text1 text2 : jsstring) : res Z :=
  if is_empty text1 || is_empty text2
     || negb (str_eqb (charAt text1 0) (charAt text2 0))
  then Ret 0
  else
    let pointermax := Z.min (len text1) (len text2) in
    commonPrefix_loop fuel text1 text2 0 pointermax pointermax 0.

(** [diff_commonSuffix] *)
Fixpoint commonSuffix_loop (fuel : nat) (text1 text2 : jsstring)
    (pointermin pointermax pointermid pointerend : Z) : res Z :=
  match fuel with
  | O => Unknown
  | S fuel' =>
    if pointermin <? pointermid then
      if str_eqb
           (substring text1 (len text1 - pointermid) (len text1 - pointerend))
           (substring text2 (len text2 - pointermid) (len text2 - pointerend))
      then commonSuffix_loop fuel' text1 text2 pointermid pointermax
             ((pointermax - pointermid) / 2 + pointermid) pointermid
      else commonSuffix_loop fuel' text1 text2 pointermin pointermid
             ((pointermid - pointermin) / 2 + pointermin) pointerend
    else Ret pointermid
  end.

Definition diff_commonSuffix (fuel : nat) (text1 text2 : jsstring) : res Z :=
  if is_empty text1 || is_empty text2
     || negb (str_eqb (charAt text1 (len text1 - 1))
                      (charAt text2 (len text2 - 1)))
  then Ret 0
  else
    let pointermax := Z.min (len text1) (len text2) in
    commonSuffix_loop fuel text1 text2 0 pointermax pointermax 0.

(** [diff_commonOverlap_]: length of the longest suffix of [text1] that is a
    prefix of [text2]. *)
Fixpoint commonOverlap_loop (fuel : nat) (text1 text2 : jsstring)
    (text_length best length : Z) : res Z :=
  match fuel with
  | O => Unknown
  | S fuel' =>
    let pattern := substring_from text1 (text_length - length) in
    let found := indexOf text2 pattern 0 in
    if found =? -1 then Ret best
    else
      let length := length + found in
      if (found =? 0)
         || str_eqb (substring_from text1 (text_length - length))
                    (substring text2 0 length)
      then commonOverlap_loop fuel' text1 text2 text_length length (length + 1)
      else commonOverlap_loop fuel' text1 text2 text_length best length
  end.

Definition diff_commonOverlap_ (fuel : nat) (text1 text2 : jsstring) : res Z :=
  let text1_length := len text1 in
  let text2_length := len text2 in
  if (text1_length =? 0) || (text2_length =? 0) then Ret 0
  else
    let text1' := if text2_length <? text1_length
                  then substring_from text1 (text1_length - text2_length)
                  else text1 in
    let text2' := if text1_length <? text2_length
                  then substring text2 0 text1_length
                  else text2 in
    let text_length := Z.min text1_length text2_length in
    if str_eqb text1' text2' then Ret text_length
    else commonOverlap_loop fuel text1' text2' text_length 0 1.

(** [diff_halfMatch_] and its closure [diff_halfMatchI_].  A half match is
    the five strings [text1_a, text1_b, text2_a, text2_b, mid_common]. *)
Record half_match : Type := HalfMatch {
  hm0 : jsstring; hm1 : jsstring; hm2 : jsstring; hm3 : jsstring;
  hm4 : jsstring }.

Record hmI_state : Type := HmI {
  best_common : jsstring;
  best_longtext_a : jsstring; best_longtext_b : jsstring;
  best_shorttext_a : jsstring; best_shorttext_b : jsstring }.

Fixpoint halfMatchI_loop (fuel n : nat) (longtext shorttext seed : jsstring)
    (i j : Z) (st : hmI_state) : res hmI_state :=
  match fuel with
  | O => Unknown
  | S fuel' =>
    let j := indexOf shorttext seed (j + 1) in
    if j =? -1 then Ret st
    else
      let! prefixLength :=
        diff_commonPrefix n (substring_from longtext i)
                            (substring_from shorttext j) in
      let! suffixLength :=
        diff_commonSuffix n (substring longtext 0 i) (substring shorttext 0 j) in
      let st' :=
        if len (best_common st) <? suffixLength + prefixLength then
          HmI (substring shorttext (j - suffixLength) j
                 ++ substring shorttext j (j + prefixLength))
              (substring longtext 0 (i - suffixLength))
              (substring_from longtext (i + prefixLength))
              (substring shorttext 0 (j - suffixLength))
              (substring_from shorttext (j + prefixLength))
        else st in
      halfMatchI_loop fuel' n longtext shorttext seed i j st'
  end.

Definition diff_halfMatchI_ (fuel : nat) (longtext shorttext : jsstring)
    (i : Z) : res (option half_match) :=
  let seed := substring longtext i (i + len longtext / 4) in
  let! st := halfMatchI_loop fuel fuel longtext shorttext seed i (-1)
               (HmI [] [] [] [] []) in
  if len longtext <=? len (best_common st) * 2 then
    Ret (Some (HalfMatch (best_longtext_a st) (best_longtext_b st)
                         (best_shorttext_a st) (best_shorttext_b st)
                         (best_common st)))
  else Ret None.

(** [Math.ceil(n / k)] for [n >= 0], [k > 0]. *)
Definition ceil_div (n k : Z) : Z := (n + k - 1) / k.

Definition diff_halfMatch_ (fuel : nat) (text1 text2 : jsstring)
  : res (option half_match) :=
  if Diff_Timeout_ms <=? 0 then Ret None
  else
    let longtext := if len text2 <? len text1 then text1 else text2 in
    let shorttext := if len text2 <? len text1 then text2 else text1 in
    if (len longtext <? 4) || (len shorttext * 2 <? len longtext) then Ret None
    else
      let! h1 := diff_halfMatchI_ fuel longtext shorttext
                   (ceil_div (len longtext) 4) in
      let! h2 := diff_halfMatchI_ fuel longtext shorttext
                   (ceil_div (len longtext) 2) in
      let pick :=
        match h1, h2 with
        | None, None => None
        | Some a, None => Some a
        | None, Some b => Some b
        | Some a, Some b => Some (if len (hm4 b) <? len (hm4 a) then a else b)
        end in
      match pick with
      | None => Ret None
      | Some hm =>
        if len text2 <? len text1
        then Ret (Some (HalfMatch (hm0 hm) (hm1 hm) (hm2 hm) (hm3 hm) (hm4 hm)))
        else Ret (Some (HalfMatch (hm2 hm) (hm3 hm) (hm0 hm) (hm1 hm) (hm4 hm)))
      end.

(** [diff_cleanupMerge].  The state of the first sweep. *)
Record merge_state : Type := MergeState {
  ms_diffs : diffs_t;
  ms_pointer : Z;
  ms_count_delete : Z;
  ms_count_insert : Z;
  ms_text_delete : jsstring;
  ms_text_insert : jsstring }.

(** The body of [case DIFF_EQUAL] when [count_delete + count_insert > 1]. *)
Definition merge_factor (n : nat) (st : merge_state) : res merge_state :=
  let diffs := ms_diffs st in
  let pointer := ms_pointer st in
  let cd := ms_count_delete st in
  let ci := ms_count_insert st in
  let text_delete := ms_text_delete st in
  let text_insert := ms_text_insert st in
  let! (diffs, pointer, text_delete, text_insert) :=
    if negb (cd =? 0) && negb (ci =? 0) then
      (* Factor out any common prefixes. *)
      let! commonlength := diff_commonPrefix n text_insert text_delete in
      let! (diffs, pointer, text_delete, text_insert) :=
        if negb (commonlength =? 0) then
          let! prev_is_equal :=
            if 0 <? pointer - cd - ci then
              let! d := at_ diffs (pointer - cd - ci - 1) in
              Ret (dop_eqb (fst d) DIFF_EQUAL)
            else Ret false in
          let! (diffs, pointer) :=
            if prev_is_equal then
              let! d := at_ diffs (pointer - cd - ci - 1) in
              let! diffs' := set_text diffs (pointer - cd - ci - 1)
                               (snd d ++ substring text_insert 0 commonlength) in
              Ret (diffs', pointer)
            else
              Ret (splice diffs 0 0
                     [(DIFF_EQUAL, substring text_insert 0 commonlength)],
                   pointer + 1) in
          Ret (diffs, pointer, substring_from text_delete commonlength,
               substring_from text_insert commonlength)
        else Ret (diffs, pointer, text_delete, text_insert) in
      (* Factor out any common suffixes. *)
      let! commonlength := diff_commonSuffix n text_insert text_delete in
      if negb (commonlength =? 0) then
        let! d := at_ diffs pointer in
        let! diffs' := set_text diffs pointer
                         (substring_from text_insert
                            (len text_insert - commonlength) ++ snd d) in
        Ret (diffs',
             pointer,
             substring text_delete 0 (len text_delete - commonlength),
             substring text_insert 0 (len text_insert - commonlength))
      else Ret (diffs, pointer, text_delete, text_insert)
    else Ret (diffs, pointer, text_delete, text_insert) in
  (* Delete the offending records and add the merged ones. *)
  let diffs :=
    if cd =? 0 then
      splice diffs (pointer - cd - ci) (cd + ci) [(DIFF_INSERT, text_insert)]
    else if ci =? 0 then
      splice diffs (pointer - cd - ci) (cd + ci) [(DIFF_DELETE, text_delete)]
    else
      splice diffs (pointer - cd - ci) (cd + ci)
             [(DIFF_DELETE, text_delete); (DIFF_INSERT, text_insert)] in
  let pointer := pointer - cd - ci + (if cd =? 0 then 0 else 1)
                 + (if ci =? 0 then 0 else 1) + 1 in
  Ret (MergeState diffs pointer cd ci text_delete text_insert).

Fixpoint merge_sweep (fuel n : nat) (st : merge_state) : res merge_state :=
  match fuel with
  | O => Unknown
  | S fuel' =>
    let diffs := ms_diffs st in
    let pointer := ms_pointer st in
    if pointer <? alen diffs then
      let! d := at_ diffs pointer in
      match fst d with
      | DIFF_INSERT =>
        merge_sweep fuel' n
          (MergeState diffs (pointer + 1) (ms_count_delete st)
             (ms_count_insert st + 1) (ms_text_delete st)
             (ms_text_insert st ++ snd d))
      | DIFF_DELETE =>
        merge_sweep fuel' n
          (MergeState diffs (pointer + 1) (ms_count_delete st + 1)
             (ms_count_insert st) (ms_text_delete st ++ snd d)
             (ms_text_insert st))
      | DIFF_EQUAL =>
        (* Upon reaching an equality, check for prior redundancies. *)
        let! (diffs, pointer) :=
          if 1 <? ms_count_delete st + ms_count_insert st then
            let! st' := merge_factor n st in
            Ret (ms_diffs st', ms_pointer st')
          else
            let! prev_is_equal :=
              if negb (pointer =? 0) then
                let! p := at_ diffs (pointer - 1) in
                Ret (dop_eqb (fst p) DIFF_EQUAL)
              else Ret false in
            if prev_is_equal then
              (* Merge this equality with the previous one. *)
              let! p := at_ diffs (pointer - 1) in
              let! diffs' := set_text diffs (pointer - 1) (snd p ++ snd d) in
              Ret (splice diffs' pointer 1 [], pointer)
            else Ret (diffs, pointer + 1) in
        merge_sweep fuel' n (MergeState diffs pointer 0 0 [] [])
      end
    else Ret st
  end.

(** Second pass: single edits surrounded on both sides by equalities that can
    be shifted sideways to eliminate an equality. *)
Fixpoint merge_shift (fuel : nat) (diffs : diffs_t) (pointer : Z)
    (changes : bool) : res (diffs_t * bool) :=
  match fuel with
  | O => Unknown
  | S fuel' =>
    if pointer <? alen diffs - 1 then
      let! prev := at_ diffs (pointer - 1) in
      let! next := at_ diffs (pointer + 1) in
      let! cur := at_ diffs pointer in
      if dop_eqb (fst prev) DIFF_EQUAL && dop_eqb (fst next) DIFF_EQUAL then
        if str_eqb (substring_from (snd cur) (len (snd cur) - len (snd prev)))
                   (snd prev)
        then
          (* Shift the edit over the previous equality. *)
          let diffs1 :=
            set_at diffs pointer
              (fst cur,
               snd prev ++ substring (snd cur) 0
                             (len (snd cur) - len (snd prev))) in
          let diffs2 :=
            set_at diffs1 (pointer + 1) (fst next, snd prev ++ snd next) in
          merge_shift fuel' (splice diffs2 (pointer - 1) 1 []) (pointer + 1) true
        else if str_eqb (substring (snd cur) 0 (len (snd next))) (snd next)
        then
          (* Shift the edit over the next equality. *)
          let diffs1 :=
            set_at diffs (pointer - 1) (fst prev, snd prev ++ snd next) in
          let diffs2 :=
            set_at diffs1 pointer
              (fst cur,
               substring_from (snd cur) (len (snd next)) ++ snd next) in
          merge_shift fuel' (splice diffs2 (pointer + 1) 1 []) (pointer + 1) true
        else merge_shift fuel' diffs (pointer + 1) changes
      else merge_shift fuel' diffs (pointer + 1) changes
    else Ret (diffs, changes)
  end.

(** [diffs.pop()] when the last entry has empty text. *)
Definition pop_dummy (diffs : diffs_t) : res diffs_t :=
  let! last := at_ diffs (alen diffs - 1) in
  if is_empty (snd last) then Ret (firstn (length diffs - 1) diffs)
  else Ret diffs.

Fixpoint diff_cleanupMerge (fuel n : nat) (diffs : diffs_t) : res diffs_t :=
  match fuel with
  | O => Unknown
  | S fuel' =>
    (* Add a dummy entry at the end. *)
    let diffs := diffs ++ [(DIFF_EQUAL, [])] in
    let! st := merge_sweep n n (MergeState diffs 0 0 0 [] []) in
    let! diffs := pop_dummy (ms_diffs st) in
    let! (diffs, changes) := merge_shift n diffs 1 false in
    (* If shifts were made, the diff needs reordering and another sweep. *)
    if changes then diff_cleanupMerge fuel' n diffs else Ret diffs
  end.

(** [diff_cleanupSemanticLossless] and its scoring closure.  The regular
    expressions are tested on single code units (or on the ends of a string):
    [nonAlphaNumericRegex_ = /[^a-zA-Z0-9]/], [whitespaceRegex_ = /\s/],
    [linebreakRegex_ = /[\r\n]/], [blanklineEndRegex_ = /\n\r?\n$/],
    [blanklineStartRegex_ = /^\r?\n\r?\n/]. *)
Definition nonAlphaNumeric (c : N) : bool :=
  negb (((97 <=? c) && (c <=? 122)) || ((65 <=? c) && (c <=? 90))
        || ((48 <=? c) && (c <=? 57)))%N.

(** The class [\s]: WhiteSpace and LineTerminator code units. *)
Definition whitespace (c : N) : bool :=
  (((9 <=? c) && (c <=? 13)) || (c =? 32) || (c =? 160) || (c =? 5760)
   || ((8192 <=? c) && (c <=? 8202)) || (c =? 8232) || (c =? 8233)
   || (c =? 8239) || (c =? 8287) || (c =? 12288) || (c =? 65279))%N.

Definition linebreak (c : N) : bool := ((c =? 13) || (c =? 10))%N.

Definition blanklineEnd (s : jsstring) : bool :=
  match rev s with
  | 10%N :: 10%N :: _ => true
  | 10%N :: 13%N :: 10%N :: _ => true
  | _ => false
  end.

Definition blanklineStart (s : jsstring) : bool :=
  match s with
  | 10%N :: 10%N :: _ => true
  | 13%N :: 10%N :: 10%N :: _ => true
  | 10%N :: 13%N :: 10%N :: _ => true
  | 13%N :: 10%N :: 13%N :: 10%N :: _ => true
  | _ => false
  end.

Definition diff_cleanupSemanticScore_ (one two : jsstring) : Z :=
  match rev one, two with
  | [], _ | _, [] => 6     (* Edges are the best. *)
  | char1 :: _, char2 :: _ =>
    let nonAlphaNumeric1 := nonAlphaNumeric char1 in
    let nonAlphaNumeric2 := nonAlphaNumeric char2 in
    let whitespace1 := nonAlphaNumeric1 && whitespace char1 in
    let whitespace2 := nonAlphaNumeric2 && whitespace char2 in
    let lineBreak1 := whitespace1 && linebreak char1 in
    let lineBreak2 := whitespace2 && linebreak char2 in
    let blankLine1 := lineBreak1 && blanklineEnd one in
    let blankLine2 := lineBreak2 && blanklineStart two in
    if blankLine1 || blankLine2 then 5
    else if lineBreak1 || lineBreak2 then 4
    else if nonAlphaNumeric1 && negb whitespace1 && whitespace2 then 3
    else if whitespace1 || whitespace2 then 2
    else if nonAlphaNumeric1 || nonAlphaNumeric2 then 1
    else 0
  end.

Record lossless_best : Type := LosslessBest {
  bestEquality1 : jsstring; bestEdit : jsstring; bestEquality2 : jsstring;
  bestScore : Z }.

(** Step character by character right, looking for the best fit. *)
Fixpoint lossless_slide (fuel : nat) (equality1 edit equality2 : jsstring)
    (best : lossless_best) : res lossless_best :=
  match fuel with
  | O => Unknown
  | S fuel' =>
    if str_eqb (charAt edit 0) (charAt equality2 0) then
      let equality1 := equality1 ++ charAt edit 0 in
      let edit := substring_from edit 1 ++ charAt equality2 0 in
      let equality2 := substring_from equality2 1 in
      let score := diff_cleanupSemanticScore_ equality1 edit
                   + diff_cleanupSemanticScore_ edit equality2 in
      (* The >= encourages trailing rather than leading whitespace. *)
      lossless_slide fuel' equality1 edit equality2
        (if bestScore best <=? score
         then LosslessBest equality1 edit equality2 score
         else best)
    else Ret best
  end.

Fixpoint lossless_loop (fuel n : nat) (diffs : diffs_t) (pointer : Z)
  : res diffs_t :=
  match fuel with
  | O => Unknown
  | S fuel' =>
    if pointer <? alen diffs - 1 then
      let! prev := at_ diffs (pointer - 1) in
      let! next := at_ diffs (pointer + 1) in
      if dop_eqb (fst prev) DIFF_EQUAL && dop_eqb (fst next) DIFF_EQUAL then
        (* This is a single edit surrounded by equalities. *)
        let! cur := at_ diffs pointer in
        let equality1 := snd prev in
        let edit := snd cur in
        let equality2 := snd next in
        (* First, shift the edit as far left as possible. *)
        let! commonOffset := diff_commonSuffix n equality1 edit in
        let '(equality1, edit, equality2) :=
          if negb (commonOffset =? 0) then
            let commonString := substring_from edit (len edit - commonOffset) in
            (substring equality1 0 (len equality1 - commonOffset),
             commonString ++ substring edit 0 (len edit - commonOffset),
             commonString ++ equality2)
          else (equality1, edit, equality2) in
        let! best :=
          lossless_slide n equality1 edit equality2
            (LosslessBest equality1 edit equality2
               (diff_cleanupSemanticScore_ equality1 edit
                + diff_cleanupSemanticScore_ edit equality2)) in
        if negb (str_eqb (snd prev) (bestEquality1 best)) then
          (* We have an improvement, save it back to the diff. *)
          let '(diffs, pointer) :=
            if negb (is_empty (bestEquality1 best))
            then (set_at diffs (pointer - 1) (fst prev, bestEquality1 best),
                  pointer)
            else (splice diffs (pointer - 1) 1 [], pointer - 1) in
          let! diffs := set_text diffs pointer (bestEdit best) in
          let! (diffs, pointer) :=
            if negb (is_empty (bestEquality2 best))
            then (let! diffs := set_text diffs (pointer + 1)
                                  (bestEquality2 best) in
                  Ret (diffs, pointer))
            else Ret (splice diffs (pointer + 1) 1 [], pointer - 1) in
          lossless_loop fuel' n diffs (pointer + 1)
        else lossless_loop fuel' n diffs (pointer + 1)
      else lossless_loop fuel' n diffs (pointer + 1)
    else Ret diffs
  end.

Definition diff_cleanupSemanticLossless (fuel : nat) (diffs : diffs_t)
  : res diffs_t :=
  lossless_loop fuel fuel diffs 1.

(** The stack [equalities] with its own length variable.  The length is
    decremented twice in a row, so it can go below zero; the array then holds
    entries at negative indices, which is why it is a map here. *)
Definition eq_read (equalities : gmap Z Z) (i : Z) : res Z :=
  match equalities !! i with
  | Some p => Ret p
  | None => Throw TypeError
  end.

Record semantic_state : Type := SemanticState {
  ss_diffs : diffs_t;
  ss_changes : bool;
  ss_equalities : gmap Z Z;
  ss_equalitiesLength : Z;
  ss_lastequality : option jsstring;
  ss_pointer : Z;
  length_insertions1 : Z; length_deletions1 : Z;
  length_insertions2 : Z; length_deletions2 : Z }.

Fixpoint semantic_loop (fuel : nat) (st : semantic_state)
  : res semantic_state :=
  match fuel with
  | O => Unknown
  | S fuel' =>
    let diffs := ss_diffs st in
    let pointer := ss_pointer st in
    if pointer <? alen diffs then
      let! d := at_ diffs pointer in
      if dop_eqb (fst d) DIFF_EQUAL then
        (* Equality found. *)
        semantic_loop fuel'
          (SemanticState diffs (ss_changes st)
             (<[ss_equalitiesLength st := pointer]> (ss_equalities st))
             (ss_equalitiesLength st + 1) (Some (snd d)) (pointer + 1)
             (length_insertions2 st) (length_deletions2 st) 0 0)
      else
        (* An insertion or deletion. *)
        let li2 := if dop_eqb (fst d) DIFF_INSERT
                   then length_insertions2 st + len (snd d)
                   else length_insertions2 st in
        let ld2 := if dop_eqb (fst d) DIFF_INSERT
                   then length_deletions2 st
                   else length_deletions2 st + len (snd d) in
        let eliminate :=
          match ss_lastequality st with
          | Some lastequality =>
            (len lastequality
               <=? Z.max (length_insertions1 st) (length_deletions1 st))
            && (len lastequality <=? Z.max li2 ld2)
          | None => false
          end in
        match ss_lastequality st, eliminate with
        | Some lastequality, true =>
          let eqlen := ss_equalitiesLength st in
          let! e := eq_read (ss_equalities st) (eqlen - 1) in
          (* Duplicate record. *)
          let diffs := splice diffs e 0 [(DIFF_DELETE, lastequality)] in
          (* Change second copy to insert. *)
          let! diffs := set_op diffs (e + 1) DIFF_INSERT in
          (* Throw away the equality we just deleted, and the previous one. *)
          let eqlen := eqlen - 1 - 1 in
          let! pointer :=
            if 0 <? eqlen then eq_read (ss_equalities st) (eqlen - 1)
            else Ret (-1) in
          semantic_loop fuel'
            (SemanticState diffs true (ss_equalities st) eqlen None
               (pointer + 1) 0 0 0 0)
        | _, _ =>
          semantic_loop fuel'
            (SemanticState diffs (ss_changes st) (ss_equalities st)
               (ss_equalitiesLength st) (ss_lastequality st) (pointer + 1)
               (length_insertions1 st) (length_deletions1 st) li2 ld2)
        end
    else Ret st
  end.

(** Find any overlaps between deletions and insertions. *)
Fixpoint overlap_loop (fuel n : nat) (diffs : diffs_t) (pointer : Z)
  : res diffs_t :=
  match fuel with
  | O => Unknown
  | S fuel' =>
    if pointer <? alen diffs then
      let! prev := at_ diffs (pointer - 1) in
      let! cur := at_ diffs pointer in
      if dop_eqb (fst prev) DIFF_DELETE && dop_eqb (fst cur) DIFF_INSERT then
        let deletion := snd prev in
        let insertion := snd cur in
        let! overlap_length1 := diff_commonOverlap_ n deletion insertion in
        let! overlap_length2 := diff_commonOverlap_ n insertion deletion in
        if overlap_length2 <=? overlap_length1 then
          if (len deletion <=? 2 * overlap_length1)
             || (len insertion <=? 2 * overlap_length1) then
            (* Overlap found.  Insert an equality and trim the edits. *)
            let diffs := splice diffs pointer 0
                           [(DIFF_EQUAL, substring insertion 0 overlap_length1)] in
            let! diffs := set_text diffs (pointer - 1)
                            (substring deletion 0
                               (len deletion - overlap_length1)) in
            let! diffs := set_text diffs (pointer + 1)
                            (substring_from insertion overlap_length1) in
            overlap_loop fuel' n diffs (pointer + 1 + 1 + 1)
          else overlap_loop fuel' n diffs (pointer + 1 + 1)
        else
          if (len deletion <=? 2 * overlap_length2)
             || (len insertion <=? 2 * overlap_length2) then
            (* Reverse overlap found. *)
            let diffs := splice diffs pointer 0
                           [(DIFF_EQUAL, substring deletion 0 overlap_length2)] in
            let diffs := set_at diffs (pointer - 1)
                           (DIFF_INSERT,
                            substring insertion 0
                              (len insertion - overlap_length2)) in
            let diffs := set_at diffs (pointer + 1)
                           (DIFF_DELETE,
                            substring_from deletion overlap_length2) in
            overlap_loop fuel' n diffs (pointer + 1 + 1 + 1)
          else overlap_loop fuel' n diffs (pointer + 1 + 1)
      else overlap_loop fuel' n diffs (pointer + 1)
    else Ret diffs
  end.

Definition diff_cleanupSemantic (fuel : nat) (diffs : diffs_t) : res diffs_t :=
  let! st := semantic_loop fuel
               (SemanticState diffs false ∅ 0 None 0 0 0 0 0) in
  (* Normalize the diff. *)
  let! diffs := if ss_changes st
                then diff_cleanupMerge fuel fuel (ss_diffs st)
                else Ret (ss_diffs st) in
  let! diffs := diff_cleanupSemanticLossless fuel diffs in
  overlap_loop fuel fuel diffs 1.

(** [diff_cleanupEfficiency] *)
Record efficiency_state : Type := EfficiencyState {
  es_diffs : diffs_t;
  es_changes : bool;
  es_equalities : gmap Z Z;
  es_equalitiesLength : Z;
  es_lastequality : jsstring;
  es_pointer : Z;
  pre_ins : bool; pre_del : bool; post_ins : bool; post_del : bool }.

Definition b2z (b : bool) : Z := if b then 1 else 0.

Fixpoint efficiency_loop (fuel : nat) (st : efficiency_state)
  : res efficiency_state :=
  match fuel with
  | O => Unknown
  | S fuel' =>
    let diffs := es_diffs st in
    let pointer := es_pointer st in
    if pointer <? alen diffs then
      let! d := at_ diffs pointer in
      if dop_eqb (fst d) DIFF_EQUAL then
        (* Equality found. *)
        if (len (snd d) <? Diff_EditCost) && (post_ins st || post_del st) then
          (* Candidate found. *)
          efficiency_loop fuel'
            (EfficiencyState diffs (es_changes st)
               (<[es_equalitiesLength st := pointer]> (es_equalities st))
               (es_equalitiesLength st + 1) (snd d) (pointer + 1)
               (post_ins st) (post_del st) false false)
        else
          (* Not a candidate, and can never become one. *)
          efficiency_loop fuel'
            (EfficiencyState diffs (es_changes st) (es_equalities st)
               0 [] (pointer + 1) (pre_ins st) (pre_del st) false false)
      else
        (* An insertion or deletion. *)
        let post_del' := if dop_eqb (fst d) DIFF_DELETE then true
                         else post_del st in
        let post_ins' := if dop_eqb (fst d) DIFF_DELETE then post_ins st
                         else true in
        let lastequality := es_lastequality st in
        if negb (is_empty lastequality)
           && ((pre_ins st && pre_del st && post_ins' && post_del')
               || ((2 * len lastequality <? Diff_EditCost)
                   && (b2z (pre_ins st) + b2z (pre_del st)
                       + b2z post_ins' + b2z post_del' =? 3)))
        then
          let eqlen := es_equalitiesLength st in
          let! e := eq_read (es_equalities st) (eqlen - 1) in
          (* Duplicate record. *)
          let diffs := splice diffs e 0 [(DIFF_DELETE, lastequality)] in
          (* Change second copy to insert. *)
          let! diffs := set_op diffs (e + 1) DIFF_INSERT in
          let eqlen := eqlen - 1 in
          if pre_ins st && pre_del st then
            (* No changes made which could affect previous entry. *)
            efficiency_loop fuel'
              (EfficiencyState diffs true (es_equalities st) 0 []
                 (pointer + 1) (pre_ins st) (pre_del st) true true)
          else
            let eqlen := eqlen - 1 in
            let! pointer :=
              if 0 <? eqlen then eq_read (es_equalities st) (eqlen - 1)
              else Ret (-1) in
            efficiency_loop fuel'
              (EfficiencyState diffs true (es_equalities st) eqlen []
                 (pointer + 1) (pre_ins st) (pre_del st) false false)
        else
          efficiency_loop fuel'
            (EfficiencyState diffs (es_changes st) (es_equalities st)
               (es_equalitiesLength st) lastequality (pointer + 1)
               (pre_ins st) (pre_del st) post_ins' post_del')
    else Ret st
  end.

Definition diff_cleanupEfficiency (fuel : nat) (diffs : diffs_t)
  : res diffs_t :=
  let! st := efficiency_loop fuel
               (EfficiencyState diffs false ∅ 0 [] 0 false false false false) in
  if es_changes st then diff_cleanupMerge fuel fuel (es_diffs st)
  else Ret (es_diffs st).

(** [diff_linesToChars_].  [lineArray] is an array that is only appended to
    and read by index; [lineHash] is a plain object used as a dictionary from
    lines to indices.

    Two properties of a plain object show through:
    - once the object owns a property named hasOwnProperty, the test
      [lineHash.hasOwnProperty ? lineHash.hasOwnProperty(line) : ...] finds a
      number where it expects the inherited method (every stored index is at
      least 1, hence truthy) and the call is a TypeError;
    - assigning a number to the property [__proto__] creates no own
      property. *)
Record line_tables : Type := LineTables {
  lineArray : gmap Z jsstring;
  lineArrayLength : Z;
  lineHash : gmap jsstring Z }.

Definition hasOwnProperty_name : jsstring :=
  Eval cbv in js "hasOwnProperty".
Definition proto_name : jsstring := Eval cbv in js "__proto__".

Definition lineHash_has (h : gmap jsstring Z) (line : jsstring) : res bool :=
  match h !! hasOwnProperty_name with
  | Some _ => Throw TypeError
  | None => Ret (match h !! line with Some _ => true | None => false end)
  end.

Definition lineHash_set (h : gmap jsstring Z) (line : jsstring) (i : Z)
  : gmap jsstring Z :=
  if str_eqb line proto_name then h else <[line := i]> h.

(** The closure [diff_linesToCharsMunge_].  The loop walks the text line by
    line; [text] is the part from [lineStart] on, and the loop condition
    [lineEnd < text.length - 1] says that this part is not empty. *)
Fixpoint diff_linesToCharsMunge_ (fuel : nat) (text : jsstring)
    (t : line_tables) : res (jsstring * line_tables) :=
  match fuel with
  | O => Unknown
  | S fuel' =>
    if is_empty text then Ret ([], t)
    else
      let lineEnd := indexOf text [10%N] 0 in
      let lineEnd := if lineEnd =? -1 then len text - 1 else lineEnd in
      let line := substring text 0 (lineEnd + 1) in
      let rest := substring_from text (lineEnd + 1) in
      let! known := lineHash_has (lineHash t) line in
      let! (c, t) :=
        if known then
          match lineHash t !! line with
          | Some i => Ret (fromCharCode i, t)
          | None => Unknown
          end
        else
          Ret (fromCharCode (lineArrayLength t),
               LineTables (<[lineArrayLength t := line]> (lineArray t))
                          (lineArrayLength t + 1)
                          (lineHash_set (lineHash t) line (lineArrayLength t))) in
      let! (chars, t) := diff_linesToCharsMunge_ fuel' rest t in
      Ret (c ++ chars, t)
  end.

Definition diff_linesToChars_ (fuel : nat) (text1 text2 : jsstring)
  : res (jsstring * jsstring * gmap Z jsstring) :=
  (* The zeroth element of the array of unique strings is blank. *)
  let t := LineTables {[ 0 := [] ]} 1 ∅ in
  let! (chars1, t) := diff_linesToCharsMunge_ fuel text1 t in
  let! (chars2, t) := diff_linesToCharsMunge_ fuel text2 t in
  Ret (chars1, chars2, lineArray t).

(** [diff_charsToLines_]: [text.join('')] writes a missing entry as the empty
    string. *)
Definition diff_charsToLines_ (diffs : diffs_t) (lineArray : gmap Z jsstring)
  : diffs_t :=
  map (fun d : Diff =>
         (fst d,
          concat (map (fun c => default [] (lineArray !! Z.of_N c)) (snd d))))
      diffs.

(** [diff_bisect_]: the middle snake of Myers' O(ND) algorithm. *)

(** Random access to the code units of a string. *)
Fixpoint index_from (s : jsstring) (i : Z) (m : gmap Z N) : gmap Z N :=
  match s with
  | [] => m
  | c :: s' => index_from s' (i + 1) (<[i := c]> m)
  end.
Definition index_string (s : jsstring) : gmap Z N := index_from s 0 ∅.

(** [a.charAt(i) == b.charAt(j)], both possibly outside their string. *)
Definition charAt_eq (a : gmap Z N) (i : Z) (b : gmap Z N) (j : Z) : bool :=
  match a !! i, b !! j with
  | Some x, Some y => N.eqb x y
  | None, None => true
  | _, _ => false
  end.

(** [new Array(n)] with every element set to [-1]. *)
Fixpoint fill_array (n : nat) (i : Z) (m : gmap Z Z) : gmap Z Z :=
  match n with
  | O => m
  | S n' => fill_array n' (i + 1) (<[i := -1]> m)
  end.

(** Reading an element as a number; a missing element is outside the
    embedding. *)
Definition aread (v : gmap Z Z) (i : Z) : res Z :=
  match v !! i with
  | Some x => Ret x
  | None => Unknown
  end.

Record bisect_ctx : Type := BisectCtx {
  text1_at : gmap Z N; text2_at : gmap Z N;
  text1_length : Z; text2_length : Z;
  max_d : Z; v_offset : Z; v_length : Z;
  delta : Z; front : bool }.

Record bisect_vars : Type := BisectVars {
  v1 : gmap Z Z; v2 : gmap Z Z;
  k1start : Z; k1end : Z; k2start : Z; k2end : Z }.

Fixpoint front_snake (fuel : nat) (c : bisect_ctx) (x1 y1 : Z) : res (Z * Z) :=
  match fuel with
  | O => Unknown
  | S fuel' =>
    if (x1 <? text1_length c) && (y1 <? text2_length c)
       && charAt_eq (text1_at c) x1 (text2_at c) y1
    then front_snake fuel' c (x1 + 1) (y1 + 1)
    else Ret (x1, y1)
  end.

Fixpoint reverse_snake (fuel : nat) (c : bisect_ctx) (x2 y2 : Z)
  : res (Z * Z) :=
  match fuel with
  | O => Unknown
  | S fuel' =>
    if (x2 <? text1_length c) && (y2 <? text2_length c)
       && charAt_eq (text1_at c) (text1_length c - x2 - 1)
                    (text2_at c) (text2_length c - y2 - 1)
    then reverse_snake fuel' c (x2 + 1) (y2 + 1)
    else Ret (x2, y2)
  end.

(** The furthest point of the neighbouring diagonals. *)
Definition furthest (v : gmap Z Z) (k d k_offset : Z) : res Z :=
  if k =? - d then aread v (k_offset + 1)
  else if k =? d then
    let! a := aread v (k_offset - 1) in Ret (a + 1)
  else
    let! a := aread v (k_offset - 1) in
    let! b := aread v (k_offset + 1) in
    if a <? b then Ret b else Ret (a + 1).

(** Walk the front path one step.  The result is either the updated vectors
    or the point at which the two paths overlap. *)
Fixpoint front_path (fuel n : nat) (c : bisect_ctx) (d k1 : Z)
    (b : bisect_vars) : res (bisect_vars + Z * Z) :=
  match fuel with
  | O => Unknown
  | S fuel' =>
    if k1 <=? d - k1end b then
      let k1_offset := v_offset c + k1 in
      let! x1 := furthest (v1 b) k1 d k1_offset in
      let y1 := x1 - k1 in
      let! (x1, y1) := front_snake n c x1 y1 in
      let b := BisectVars (<[k1_offset := x1]> (v1 b)) (v2 b)
                          (k1start b) (k1end b) (k2start b) (k2end b) in
      if text1_length c <? x1 then
        (* Ran off the right of the graph. *)
        front_path fuel' n c d (k1 + 2)
          (BisectVars (v1 b) (v2 b) (k1start b) (k1end b + 2)
                      (k2start b) (k2end b))
      else if text2_length c <? y1 then
        (* Ran off the bottom of the graph. *)
        front_path fuel' n c d (k1 + 2)
          (BisectVars (v1 b) (v2 b) (k1start b + 2) (k1end b)
                      (k2start b) (k2end b))
      else if front c then
        let k2_offset := v_offset c + delta c - k1 in
        if (0 <=? k2_offset) && (k2_offset <? v_length c) then
          let! m := aread (v2 b) k2_offset in
          if negb (m =? -1) then
            (* Mirror x2 onto top-left coordinate system. *)
            let x2 := text1_length c - m in
            if x2 <=? x1 then Ret (inr (x1, y1))   (* Overlap detected. *)
            else front_path fuel' n c d (k1 + 2) b
          else front_path fuel' n c d (k1 + 2) b
        else front_path fuel' n c d (k1 + 2) b
      else front_path fuel' n c d (k1 + 2) b
    else Ret (inl b)
  end.

(** Walk the reverse path one step. *)
Fixpoint reverse_path (fuel n : nat) (c : bisect_ctx) (d k2 : Z)
    (b : bisect_vars) : res (bisect_vars + Z * Z) :=
  match fuel with
  | O => Unknown
  | S fuel' =>
    if k2 <=? d - k2end b then
      let k2_offset := v_offset c + k2 in
      let! x2 := furthest (v2 b) k2 d k2_offset in
      let y2 := x2 - k2 in
      let! (x2, y2) := reverse_snake n c x2 y2 in
      let b := BisectVars (v1 b) (<[k2_offset := x2]> (v2 b))
                          (k1start b) (k1end b) (k2start b) (k2end b) in
      if text1_length c <? x2 then
        (* Ran off the left of the graph. *)
        reverse_path fuel' n c d (k2 + 2)
          (BisectVars (v1 b) (v2 b) (k1start b) (k1end b)
                      (k2start b) (k2end b + 2))
      else if text2_length c <? y2 then
        (* Ran off the top of the graph. *)
        reverse_path fuel' n c d (k2 + 2)
          (BisectVars (v1 b) (v2 b) (k1start b) (k1end b)
                      (k2start b + 2) (k2end b))
      else if negb (front c) then
        let k1_offset := v_offset c + delta c - k2 in
        if (0 <=? k1_offset) && (k1_offset <? v_length c) then
          let! m := aread (v1 b) k1_offset in
          if negb (m =? -1) then
            let x1 := m in
            let y1 := v_offset c + x1 - k1_offset in
            (* Mirror x2 onto top-left coordinate system. *)
            let x2 := text1_length c - x2 in
            if x2 <=? x1 then Ret (inr (x1, y1))   (* Overlap detected. *)
            else reverse_path fuel' n c d (k2 + 2) b
          else reverse_path fuel' n c d (k2 + 2) b
        else reverse_path fuel' n c d (k2 + 2) b
      else reverse_path fuel' n c d (k2 + 2) b
    else Ret (inl b)
  end.

(** The loop over [d]; [None] when it ends without an overlap (the deadline
    was reached, or the texts have nothing in common). *)
Fixpoint bisect_loop (fuel n : nat) (c : bisect_ctx) (deadline d : Z)
    (b : bisect_vars) : M (option (Z * Z)) :=
  match fuel with
  | O => munknown
  | S fuel' =>
    if d <? max_d c then
      do! now := getTime in
      (* Bail out if deadline is reached. *)
      if deadline <? now then mret None
      else
        do! r := lift (front_path n n c d (- d + k1start b) b) in
        match r with
        | inr xy => mret (Some xy)
        | inl b =>
          do! r := lift (reverse_path n n c d (- d + k2start b) b) in
          match r with
          | inr xy => mret (Some xy)
          | inl b => bisect_loop fuel' n c deadline (d + 1) b
          end
        end
    else mret None
  end.

(** The type of [diff_main] once its optional arguments are filled in. *)
Definition diff_main_t : Type := jsstring -> jsstring -> bool -> Z -> M diffs_t.

(** [diff_bisectSplit_] *)
Definition diff_bisectSplit_ (diff_main : diff_main_t)
    (text1 text2 : jsstring) (x y deadline : Z) : M diffs_t :=
  let text1a := substring text1 0 x in
  let text2a := substring text2 0 y in
  let text1b := substring_from text1 x in
  let text2b := substring_from text2 y in
  (* Compute both diffs serially. *)
  do! diffs := diff_main text1a text2a false deadline in
  do! diffsb := diff_main text1b text2b false deadline in
  mret (diffs ++ diffsb).

Definition diff_bisect_ (diff_main : diff_main_t) (n : nat)
    (text1 text2 : jsstring) (deadline : Z) : M diffs_t :=
  let text1_length := len text1 in
  let text2_length := len text2 in
  let max_d := (text1_length + text2_length + 1) / 2 in
  let v_offset := max_d in
  let v_length := 2 * max_d in
  let v1 := <[v_offset + 1 := 0]> (fill_array (Z.to_nat v_length) 0 ∅) in
  let v2 := <[v_offset + 1 := 0]> (fill_array (Z.to_nat v_length) 0 ∅) in
  let delta := text1_length - text2_length in
  (* If the total number of characters is odd, then the front path will
     collide with the reverse path. *)
  let front := Z.odd delta in
  let c := BisectCtx (index_string text1) (index_string text2)
                     text1_length text2_length max_d v_offset v_length
                     delta front in
  do! r := bisect_loop n n c deadline 0 (BisectVars v1 v2 0 0 0 0) in
  match r with
  | Some (x, y) => diff_bisectSplit_ diff_main text1 text2 x y deadline
  | None =>
    (* Diff took too long and hit the deadline or number of diffs equals
       number of characters, no commonality at all. *)
    mret [(DIFF_DELETE, text1); (DIFF_INSERT, text2)]
  end.

(** [diff_lineMode_]: the loop that rediffs the replacement blocks. *)
Fixpoint lineMode_loop (fuel : nat) (diff_main : diff_main_t) (deadline : Z)
    (st : merge_state) : M diffs_t :=
  match fuel with
  | O => munknown
  | S fuel' =>
    let diffs := ms_diffs st in
    let pointer := ms_pointer st in
    if pointer <? alen diffs then
      do! d := lift (at_ diffs pointer) in
      match fst d with
      | DIFF_INSERT =>
        lineMode_loop fuel' diff_main deadline
          (MergeState diffs (pointer + 1) (ms_count_delete st)
             (ms_count_insert st + 1) (ms_text_delete st)
             (ms_text_insert st ++ snd d))
      | DIFF_DELETE =>
        lineMode_loop fuel' diff_main deadline
          (MergeState diffs (pointer + 1) (ms_count_delete st + 1)
             (ms_count_insert st) (ms_text_delete st ++ snd d)
             (ms_text_insert st))
      | DIFF_EQUAL =>
        (* Upon reaching an equality, check for prior redundancies. *)
        let cd := ms_count_delete st in
        let ci := ms_count_insert st in
        do! (diffs, pointer) :=
          if (1 <=? cd) && (1 <=? ci) then
            (* Delete the offending records and add the merged ones. *)
            do! a := diff_main (ms_text_delete st) (ms_text_insert st)
                       false deadline in
            let diffs := splice diffs (pointer - cd - ci) (cd + ci) [] in
            let pointer := pointer - cd - ci in
            let diffs := splice diffs pointer 0 a in
            mret (diffs, pointer + alen a)
          else mret (diffs, pointer) in
        lineMode_loop fuel' diff_main deadline
          (MergeState diffs (pointer + 1) 0 0 [] [])
      end
    else mret diffs
  end.

Definition diff_lineMode_ (diff_main : diff_main_t) (n : nat)
    (text1 text2 : jsstring) (deadline : Z) : M diffs_t :=
  (* Scan the text on a line-by-line basis first. *)
  do! (chars1, chars2, linearray) := lift (diff_linesToChars_ n text1 text2) in
  do! diffs := diff_bisect_ diff_main n chars1 chars2 deadline in
  (* Convert the diff back to original text. *)
  let diffs := diff_charsToLines_ diffs linearray in
  (* Eliminate freak matches (e.g. blank lines) *)
  do! diffs := lift (diff_cleanupSemantic n diffs) in
  (* Rediff any replacement blocks, this time character-by-character.
     Add a dummy entry at the end. *)
  let diffs := diffs ++ [(DIFF_EQUAL, [])] in
  do! diffs := lineMode_loop n diff_main deadline
                 (MergeState diffs 0 0 0 [] []) in
  (* Remove the dummy entry at the end. *)
  mret (firstn (length diffs - 1) diffs).

(** [diff_compute_] *)
Definition diff_compute_ (diff_main : diff_main_t) (n : nat)
    (text1 text2 : jsstring) (checklines : bool) (deadline : Z) : M diffs_t :=
  if is_empty text1 then
    (* Just add some text (speedup). *)
    mret [(DIFF_INSERT, text2)]
  else if is_empty text2 then
    (* Just delete some text (speedup). *)
    mret [(DIFF_DELETE, text1)]
  else
    let longtext := if len text2 <? len text1 then text1 else text2 in
    let shorttext := if len text2 <? len text1 then text2 else text1 in
    let i := indexOf longtext shorttext 0 in
    if negb (i =? -1) then
      (* Shorter text is inside the longer text (speedup).  Swap insertions
         for deletions if diff is reversed. *)
      let op := if len text2 <? len text1 then DIFF_DELETE else DIFF_INSERT in
      mret [(op, substring longtext 0 i);
            (DIFF_EQUAL, shorttext);
            (op, substring_from longtext (i + len shorttext))]
    else if len shorttext =? 1 then
      (* Single character string.  After the previous speedup, the character
         can't be an equality. *)
      mret [(DIFF_DELETE, text1); (DIFF_INSERT, text2)]
    else
      (* Check to see if the problem can be split in two. *)
      do! hm := lift (diff_halfMatch_ n text1 text2) in
      match hm with
      | Some hm =>
        (* Send both pairs off for separate processing. *)
        do! diffs_a := diff_main (hm0 hm) (hm2 hm) checklines deadline in
        do! diffs_b := diff_main (hm1 hm) (hm3 hm) checklines deadline in
        (* Merge the results. *)
        mret (diffs_a ++ [(DIFF_EQUAL, hm4 hm)] ++ diffs_b)
      | None =>
        if checklines && (100 <? len text1) && (100 <? len text2)
        then diff_lineMode_ diff_main n text1 text2 deadline
        else diff_bisect_ diff_main n text1 text2 deadline
      end.

(** [diff_main] with its optional arguments filled in.  [fuel] bounds the
    depth of the recursion, [n] the iterations of every loop. *)
Fixpoint diff_main_rec (fuel n : nat) (text1 text2 : jsstring)
    (checklines : bool) (deadline : Z) : M diffs_t :=
  match fuel with
  | O => munknown
  | S fuel' =>
    (* Check for equality (speedup). *)
    if str_eqb text1 text2 then
      if negb (is_empty text1) then mret [(DIFF_EQUAL, text1)] else mret []
    else
      (* Trim off common prefix (speedup). *)
      do! commonlength := lift (diff_commonPrefix n text1 text2) in
      let commonprefix := substring text1 0 commonlength in
      let text1 := substring_from text1 commonlength in
      let text2 := substring_from text2 commonlength in
      (* Trim off common suffix (speedup). *)
      do! commonlength := lift (diff_commonSuffix n text1 text2) in
      let commonsuffix := substring_from text1 (len text1 - commonlength) in
      let text1 := substring text1 0 (len text1 - commonlength) in
      let text2 := substring text2 0 (len text2 - commonlength) in
      (* Compute the diff on the middle block. *)
      do! diffs := diff_compute_ (diff_main_rec fuel' n) n text1 text2
                     checklines deadline in
      (* Restore the prefix and suffix. *)
      let diffs := if negb (is_empty commonprefix)
                   then (DIFF_EQUAL, commonprefix) :: diffs else diffs in
      let diffs := if negb (is_empty commonsuffix)
                   then diffs ++ [(DIFF_EQUAL, commonsuffix)] else diffs in
      lift (diff_cleanupMerge n n diffs)
  end.

(** [diff_main(text1, text2, opt_checklines, opt_deadline)].  Strings are
    never null here, so the null check does not appear. *)
Definition diff_main (fuel : nat) (text1 text2 : jsstring)
    (opt_checklines : option bool) (opt_deadline : option Z) : M diffs_t :=
  (* Set a deadline by which time the diff must be complete. *)
  do! deadline :=
    match opt_deadline with
    | Some t => mret t
    | None =>
      if Diff_Timeout_ms <=? 0 then munknown
      else do! now := getTime in mret (now + Diff_Timeout_ms)
    end in
  let checklines := default true opt_checklines in
  diff_main_rec fuel fuel text1 text2 checklines deadline.

(** [diff_text1]: the source text (all equalities and deletions). *)
Definition diff_text1 (diffs : diffs_t) : jsstring :=
  concat (map (fun d : Diff =>
                 if dop_eqb (fst d) DIFF_INSERT then [] else snd d) diffs).

(** [diff_text2]: the destination text (all equalities and insertions). *)
Definition diff_text2 (diffs : diffs_t) : jsstring :=
  concat (map (fun d : Diff =>
                 if dop_eqb (fst d) DIFF_DELETE then [] else snd d) diffs).

(** [diff_levenshtein] *)
Fixpoint levenshtein_loop (diffs : diffs_t) (levenshtein insertions deletions : Z)
  : Z :=
  match diffs with
  | [] => levenshtein + Z.max insertions deletions
  | (DIFF_INSERT, data) :: ds =>
    levenshtein_loop ds levenshtein (insertions + len data) deletions
  | (DIFF_DELETE, data) :: ds =>
    levenshtein_loop ds levenshtein insertions (deletions + len data)
  | (DIFF_EQUAL, _) :: ds =>
    (* A deletion and an insertion is one substitution. *)
    levenshtein_loop ds (levenshtein + Z.max insertions deletions) 0 0
  end.
Definition diff_levenshtein (diffs : diffs_t) : Z := levenshtein_loop diffs 0 0 0.

(** [diff_xIndex]: [loc] is a location in text1, the result the equivalent
    location in text2. *)
Fixpoint xIndex_loop (diffs : diffs_t) (loc chars1 chars2 last_chars1 last_chars2 : Z)
  : Z :=
  match diffs with
  | [] => last_chars2 + (loc - last_chars1)
  | (op, text) :: ds =>
    let chars1 := if dop_eqb op DIFF_INSERT then chars1 else chars1 + len text in
    let chars2 := if dop_eqb op DIFF_DELETE then chars2 else chars2 + len text in
    if loc <? chars1 then
      (* Overshot the location.  Was the location deleted? *)
      if dop_eqb op DIFF_DELETE then last_chars2
      else last_chars2 + (loc - last_chars1)
    else xIndex_loop ds loc chars1 chars2 chars1 chars2
  end.
Definition diff_xIndex (diffs : diffs_t) (loc : Z) : Z :=
  xIndex_loop diffs loc 0 0 0 0.

(** ** The delta codec *)

(** [encodeURI].  The characters left alone are the reserved ones
    [; / ? : @ & = + $ ,], the unescaped ones (letters, digits and
    [- _ . ! ~ * ' ( )]) and [#]. *)
Definition is_alpha (c : N) : bool :=
  (((97 <=? c) && (c <=? 122)) || ((65 <=? c) && (c <=? 90)))%N.
Definition is_digit (c : N) : bool := ((48 <=? c) && (c <=? 57))%N.

Definition uriReserved (c : N) : bool :=
  existsb (N.eqb c) [59; 47; 63; 58; 64; 38; 61; 43; 36; 44]%N.
Definition uriMark (c : N) : bool :=
  existsb (N.eqb c) [45; 95; 46; 33; 126; 42; 39; 40; 41]%N.
Definition uriUnescaped (c : N) : bool := is_alpha c || is_digit c || uriMark c.

Definition hex_digit (n : N) : N :=
  (if n <? 10 then 48 + n else 55 + n)%N.     (* 0-9, A-F *)
Definition percent_octet (b : N) : jsstring :=
  [37%N; hex_digit (b / 16); hex_digit (b mod 16)].

(** The UTF-8 octets of a code point. *)
Definition utf8_octets (v : N) : list N :=
  (if v <? 128 then [v]
   else if v <? 2048 then [192 + v / 64; 128 + v mod 64]
   else if v <? 65536 then
     [224 + v / 4096; 128 + (v / 64) mod 64; 128 + v mod 64]
   else
     [240 + v / 262144; 128 + (v / 4096) mod 64; 128 + (v / 64) mod 64;
      128 + v mod 64])%N.

Fixpoint encodeURI (s : jsstring) : res jsstring :=
  match s with
  | [] => Ret []
  | c :: s' =>
    if uriReserved c || uriUnescaped c || (c =? 35)%N then
      let! r := encodeURI s' in Ret (c :: r)
    else if ((56320 <=? c) && (c <=? 57343))%N then
      Throw URIError                      (* a lone low surrogate *)
    else if negb ((55296 <=? c) && (c <=? 56319))%N then
      let! r := encodeURI s' in
      Ret (concat (map percent_octet (utf8_octets c)) ++ r)
    else
      match s' with
      | [] => Throw URIError              (* a high surrogate at the end *)
      | k :: s'' =>
        if negb ((56320 <=? k) && (k <=? 57343))%N then Throw URIError
        else
          let v := ((c - 55296) * 1024 + (k - 56320) + 65536)%N in
          let! r := encodeURI s'' in
          Ret (concat (map percent_octet (utf8_octets v)) ++ r)
      end
  end.

(** [s.replace(/%20/g, ' ')] *)
Fixpoint replace_percent20 (s : jsstring) : jsstring :=
  match s with
  | 37%N :: 50%N :: 48%N :: s' => 32%N :: replace_percent20 s'
  | c :: s' => c :: replace_percent20 s'
  | [] => []
  end.

(** The decimal digits of a non-negative number, as [String(n)] writes it. *)
Fixpoint digits_of (fuel : nat) (n : Z) (acc : jsstring) : jsstring :=
  match fuel with
  | O => acc
  | S fuel' =>
    let acc := Z.to_N (48 + n mod 10) :: acc in
    if n <? 10 then acc else digits_of fuel' (n / 10) acc
  end.
Definition decimal (n : Z) : jsstring :=
  if n <? 0 then 45%N :: digits_of (S (Z.to_nat (Z.log2 (- n)))) (- n) []
  else digits_of (S (Z.to_nat (Z.log2 n))) n [].

(** [a.join(sep)] on an array of strings. *)
Fixpoint join (sep : jsstring) (l : list jsstring) : jsstring :=
  match l with
  | [] => []
  | [x] => x
  | x :: l' => x ++ sep ++ join sep l'
  end.

Definition tab : jsstring := [9%N].

(** [diff_toDelta] *)
Fixpoint toDelta_tokens (diffs : diffs_t) : res (list jsstring) :=
  match diffs with
  | [] => Ret []
  | (op, text) :: ds =>
    let! token :=
      match op with
      | DIFF_INSERT => let! e := encodeURI text in Ret (43%N :: e)
      | DIFF_DELETE => Ret (45%N :: decimal (len text))
      | DIFF_EQUAL => Ret (61%N :: decimal (len text))
      end in
    let! rest := toDelta_tokens ds in
    Ret (token :: rest)
  end.

Definition diff_toDelta (diffs : diffs_t) : res jsstring :=
  let! text := toDelta_tokens diffs in
  Ret (replace_percent20 (join tab text)).

(** [decodeURI].  An escape that decodes to a reserved character or to [#]
    is left as it is. *)
Definition hex_value (c : N) : option N :=
  (if is_digit c then Some (c - 48)
   else if (65 <=? c) && (c <=? 70) then Some (c - 55)
   else if (97 <=? c) && (c <=? 102) then Some (c - 87)
   else None)%N.

(** The octet written [%XY] at the head of [s], and what follows it. *)
Definition read_octet (s : jsstring) : option (N * jsstring) :=
  match s with
  | 37%N :: h :: l :: s' =>
    match hex_value h, hex_value l with
    | Some a, Some b => Some ((a * 16 + b)%N, s')
    | _, _ => None
    end
  | _ => None
  end.

(** [n] continuation octets [10xxxxxx], accumulated into [v]. *)
Fixpoint read_continuation (n : nat) (s : jsstring) (v : N)
  : option (N * jsstring) :=
  match n with
  | O => Some (v, s)
  | S n' =>
    match read_octet s with
    | Some (b, s') =>
      if ((128 <=? b) && (b <? 192))%N
      then read_continuation n' s' (v * 64 + (b - 128))%N
      else None
    | None => None
    end
  end.

Fixpoint decodeURI_loop (fuel : nat) (s : jsstring) : res jsstring :=
  match fuel with
  | O => Unknown
  | S fuel' =>
    match s with
    | [] => Ret []
    | c :: s' =>
      if negb (c =? 37)%N then
        let! r := decodeURI_loop fuel' s' in Ret (c :: r)
      else
        match read_octet s with
        | None => Throw URIError
        | Some (b, rest) =>
          if (b <? 128)%N then
            let! r := decodeURI_loop fuel' rest in
            if uriReserved b || (b =? 35)%N
            then Ret (firstn 3 s ++ r)
            else Ret (b :: r)
          else
            (* A multi-octet sequence: 110xxxxx, 1110xxxx or 11110xxx. *)
            let lead :=
              (if (192 <=? b) && (b <? 224) then Some (1%nat, b - 192, 128)
               else if (224 <=? b) && (b <? 240) then Some (2%nat, b - 224, 2048)
               else if (240 <=? b) && (b <? 248) then Some (3%nat, b - 240, 65536)
               else None)%N in
            match lead with
            | None => Throw URIError
            | Some (n, v0, least) =>
              match read_continuation n rest v0 with
              | None => Throw URIError
              | Some (v, rest') =>
                (* Not the shortest form, a surrogate, or beyond U+10FFFF. *)
                if ((v <? least) || ((55296 <=? v) && (v <=? 57343))
                    || (1114111 <? v))%N
                then Throw URIError
                else
                  let! r := decodeURI_loop fuel' rest' in
                  if (v <? 65536)%N then Ret (v :: r)
                  else
                    Ret ((((v - 65536) / 1024) mod 1024 + 55296)%N
                         :: (((v - 65536) mod 1024) + 56320)%N :: r)
              end
            end
        end
    end
  end.

Definition decodeURI (s : jsstring) : res jsstring :=
  decodeURI_loop (S (length s)) s.

(** [parseInt(s, 10)]; [None] is NaN. *)
Fixpoint skip_whitespace (s : jsstring) : jsstring :=
  match s with
  | c :: s' => if whitespace c then skip_whitespace s' else s
  | [] => []
  end.

Fixpoint digits_value (s : jsstring) (acc : Z) (seen : bool) : option Z :=
  match s with
  | c :: s' =>
    if is_digit c then digits_value s' (acc * 10 + Z.of_N (c - 48)) true
    else if seen then Some acc else None
  | [] => if seen then Some acc else None
  end.

(** A value is negative ([n < 0]) only when it is not zero. *)
Definition parseInt10 (s : jsstring) : option Z :=
  match skip_whitespace s with
  | 45%N :: s' => option_map Z.opp (digits_value s' 0 false)
  | 43%N :: s' => digits_value s' 0 false
  | s' => digits_value s' 0 false
  end.

(** [s.split(/\t/g)] *)
Fixpoint split_tab (s cur : jsstring) : list jsstring :=
  match s with
  | [] => [rev cur]
  | c :: s' =>
    if (c =? 9)%N then rev cur :: split_tab s' [] else split_tab s' (c :: cur)
  end.

(** [diff_fromDelta] *)
Fixpoint fromDelta_loop (text1 : jsstring) (tokens : list jsstring)
    (pointer : Z) : res (diffs_t * Z) :=
  match tokens with
  | [] => Ret ([], pointer)
  | token :: tokens' =>
    (* Each token begins with a one character parameter which specifies the
       operation of this token (delete, insert, equality). *)
    let param := substring_from token 1 in
    match token with
    | 43%N :: _ =>
      match decodeURI param with
      | Ret text =>
        let! (ds, p) := fromDelta_loop text1 tokens' pointer in
        Ret ((DIFF_INSERT, text) :: ds, p)
      | Throw _ => Throw (Error "Illegal escape in diff_fromDelta")
      | Unknown => Unknown
      end
    | 45%N :: _ | 61%N :: _ =>
      match parseInt10 param with
      | None => Throw (Error "Invalid number in diff_fromDelta")
      | Some n =>
        if n <? 0 then Throw (Error "Invalid number in diff_fromDelta")
        else
          let text := substring text1 pointer (pointer + n) in
          let op := if str_eqb (charAt token 0) [61%N]
                    then DIFF_EQUAL else DIFF_DELETE in
          let! (ds, p) := fromDelta_loop text1 tokens' (pointer + n) in
          Ret ((op, text) :: ds, p)
      end
    | [] =>
      (* Blank tokens are ok (from a trailing \t). *)
      fromDelta_loop text1 tokens' pointer
    | _ :: _ =>
      (* Anything else is an error. *)
      Throw (Error "Invalid diff operation in diff_fromDelta")
    end
  end.

Definition diff_fromDelta (text1 delta : jsstring) : res diffs_t :=
  let tokens := split_tab delta [] in
  let! (diffs, pointer) := fromDelta_loop text1 tokens 0 in
  if negb (pointer =? len text1)
  then Throw (Error "Delta length does not equal source text length")
  else Ret diffs.

(** ** The text engine: match *)

(** 32-bit integers of the bitwise operators. *)
Definition ToInt32 (z : Z) : Z := (z + 2147483648) mod 4294967296 - 2147483648.
Definition shl (a b : Z) : Z := ToInt32 (Z.shiftl (ToInt32 a) (b mod 32)).
Definition bor (a b : Z) : Z := Z.lor (ToInt32 a) (ToInt32 b).
Definition band (a b : Z) : Z := Z.land (ToInt32 a) (ToInt32 b).

(** [match_alphabet_]: for every character of the pattern, the bit mask of
    its positions. *)
Fixpoint alphabet_loop (pattern : jsstring) (plen i : Z) (s : gmap N Z)
  : gmap N Z :=
  match pattern with
  | [] => s
  | c :: p' =>
    alphabet_loop p' plen (i + 1)
      (<[c := bor (default 0 (s !! c)) (shl 1 (plen - i - 1))]> s)
  end.
Definition match_alphabet_ (pattern : jsstring) : gmap N Z :=
  alphabet_loop pattern (len pattern) 0 ∅.

(** [s[text.charAt(j - 1)]] as an operand of [&]: a missing entry, and the
    entry of the empty string, read as 0. *)
Definition charMatch_at (s : gmap N Z) (text : gmap Z N) (i : Z) : Z :=
  match text !! i with
  | Some c => default 0 (s !! c)
  | None => 0
  end.

(** The number [z >= 0] as a double. *)
Definition to_float (z : Z) : float := PrimFloat.of_uint63 (Uint63.of_Z z).

Definition Match_Threshold : float := 0.5%float.

(** The closure [match_bitapScore_]: the score for a match with [e] errors at
    location [x] (0.0 = good, 1.0 = bad).  [Match_Distance] is not zero. *)
Definition match_bitapScore_ (pattern : jsstring) (loc e x : Z) : float :=
  let accuracy := (to_float e / to_float (len pattern))%float in
  let proximity := Z.abs (loc - x) in
  (accuracy + to_float proximity / to_float Match_Distance)%float.

(** [Math.min] on two numbers neither of which is NaN. *)
Definition fmin (a b : float) : float := if PrimFloat.ltb b a then b else a.

(** The binary search for how far from [loc] a match with [d] errors may
    stray. *)
Fixpoint bitap_bin (fuel : nat) (pattern : jsstring) (loc d : Z)
    (score_threshold : float) (bin_min bin_mid bin_max : Z) : res (Z * Z) :=
  match fuel with
  | O => Unknown
  | S fuel' =>
    if bin_min <? bin_mid then
      if PrimFloat.leb (match_bitapScore_ pattern loc d (loc + bin_mid))
                       score_threshold
      then bitap_bin fuel' pattern loc d score_threshold
             bin_mid ((bin_max - bin_mid) / 2 + bin_mid) bin_max
      else bitap_bin fuel' pattern loc d score_threshold
             bin_min ((bin_mid - bin_min) / 2 + bin_min) bin_mid
    else Ret (bin_mid, bin_max)
  end.

Record bitap_scan : Type := BitapScan {
  bs_rd : gmap Z Z;
  bs_score_threshold : float;
  bs_best_loc : Z }.

(** The scan of one error level, from [finish] down to [start]. *)
Fixpoint bitap_row (fuel : nat) (pattern : jsstring) (s : gmap N Z)
    (text : gmap Z N) (loc d matchmask : Z) (last_rd : gmap Z Z)
    (j start : Z) (st : bitap_scan) : res bitap_scan :=
  match fuel with
  | O => Unknown
  | S fuel' =>
    if start <=? j then
      let rd := bs_rd st in
      let charMatch := charMatch_at s text (j - 1) in
      let rd_next := default 0 (rd !! (j + 1)) in
      let v :=
        if d =? 0 then
          (* First pass: exact match. *)
          band (bor (shl rd_next 1) 1) charMatch
        else
          (* Subsequent passes: fuzzy match. *)
          bor (bor (band (bor (shl rd_next 1) 1) charMatch)
                   (bor (shl (bor (default 0 (last_rd !! (j + 1)))
                                  (default 0 (last_rd !! j))) 1) 1))
              (default 0 (last_rd !! (j + 1))) in
      let rd := <[j := v]> rd in
      if negb (band v matchmask =? 0) then
        let score := match_bitapScore_ pattern loc d (j - 1) in
        (* This match will almost certainly be better than any existing
           match.  But check anyway. *)
        if PrimFloat.leb score (bs_score_threshold st) then
          let best_loc := j - 1 in
          if loc <? best_loc then
            (* When passing loc, don't exceed our current distance from loc. *)
            bitap_row fuel' pattern s text loc d matchmask last_rd (j - 1)
              (Z.max 1 (2 * loc - best_loc)) (BitapScan rd score best_loc)
          else
            (* Already passed loc, downhill from here on in. *)
            Ret (BitapScan rd score best_loc)
        else
          bitap_row fuel' pattern s text loc d matchmask last_rd (j - 1) start
            (BitapScan rd (bs_score_threshold st) (bs_best_loc st))
      else
        bitap_row fuel' pattern s text loc d matchmask last_rd (j - 1) start
          (BitapScan rd (bs_score_threshold st) (bs_best_loc st))
    else Ret st
  end.

(** The loop over the number of errors [d]. *)
Fixpoint bitap_levels (fuel n : nat) (pattern : jsstring) (s : gmap N Z)
    (text : jsstring) (text_at : gmap Z N) (loc matchmask d bin_max : Z)
    (last_rd : gmap Z Z) (score_threshold : float) (best_loc : Z) : res Z :=
  match fuel with
  | O => Unknown
  | S fuel' =>
    if d <? len pattern then
      (* Scan for the best match; each iteration allows for one more error. *)
      let! (bin_mid, _) :=
        bitap_bin n pattern loc d score_threshold 0 bin_max bin_max in
      (* Use the result from this iteration as the maximum for the next. *)
      let bin_max := bin_mid in
      let start := Z.max 1 (loc - bin_mid + 1) in
      let finish := Z.min (loc + bin_mid) (len text) + len pattern in
      let rd : gmap Z Z := {[ finish + 1 := shl 1 d - 1 ]} in
      let! st := bitap_row n pattern s text_at loc d matchmask last_rd
                   finish start (BitapScan rd score_threshold best_loc) in
      (* No hope for a (better) match at greater error levels. *)
      if PrimFloat.ltb (bs_score_threshold st)
                       (match_bitapScore_ pattern loc (d + 1) loc)
      then Ret (bs_best_loc st)
      else bitap_levels fuel' n pattern s text text_at loc matchmask (d + 1)
             bin_max (bs_rd st) (bs_score_threshold st) (bs_best_loc st)
    else Ret best_loc
  end.

(** [match_bitap_] *)
Definition match_bitap_ (fuel : nat) (text pattern : jsstring) (loc : Z)
  : res Z :=
  if Match_MaxBits <? len pattern then
    Throw (Error "Pattern too long for this browser.")
  else
    (* Initialise the alphabet. *)
    let s := match_alphabet_ pattern in
    (* Highest score beyond which we give up. *)
    let score_threshold := Match_Threshold in
    (* Is there a nearby exact match? (speedup) *)
    let best_loc := indexOf text pattern loc in
    let score_threshold :=
      if negb (best_loc =? -1) then
        let score_threshold :=
          fmin (match_bitapScore_ pattern loc 0 best_loc) score_threshold in
        (* What about in the other direction? (speedup) *)
        let best_loc := lastIndexOf text pattern (loc + len pattern) in
        if negb (best_loc =? -1)
        then fmin (match_bitapScore_ pattern loc 0 best_loc) score_threshold
        else score_threshold
      else score_threshold in
    (* Initialise the bit arrays. *)
    let matchmask := shl 1 (len pattern - 1) in
    bitap_levels fuel fuel pattern s text (index_string text) loc matchmask 0
      (len pattern + len text) ∅ score_threshold (-1).

(** [match_main]: strings and the location are never null here. *)
Definition match_main (fuel : nat) (text pattern : jsstring) (loc : Z)
  : res Z :=
  let loc := Z.max 0 (Z.min loc (len text)) in
  if str_eqb text pattern then
    (* Shortcut (potentially not guaranteed by the algorithm) *)
    Ret 0
  else if len text =? 0 then
    (* Nothing to match. *)
    Ret (-1)
  else if str_eqb (substring text loc (loc + len pattern)) pattern then
    (* Perfect match at the perfect spot!  (Includes case of null pattern) *)
    Ret loc
  else
    (* Do a fuzzy compare. *)
    match_bitap_ fuel text pattern loc.

(** ** The text engine: patch *)

(** [patch_obj].  [start1] and [start2] are null in a fresh object; they are
    assigned before they are read, and null reads as 0 in arithmetic. *)
Record patch_obj : Type := Patch {
  p_diffs : diffs_t;
  start1 : Z; start2 : Z;
  length1 : Z; length2 : Z }.

Definition new_patch : patch_obj := Patch [] 0 0 0 0.

(** [patch_addContext_]: increase the context until it is unique, but don't
    let the pattern expand beyond [Match_MaxBits]. *)
Fixpoint addContext_loop (fuel : nat) (patch : patch_obj) (text pattern : jsstring)
    (padding : Z) : res Z :=
  match fuel with
  | O => Unknown
  | S fuel' =>
    if negb (indexOf text pattern 0 =? lastIndexOf_end text pattern)
       && (len pattern <? Match_MaxBits - Patch_Margin - Patch_Margin)
    then
      let padding := padding + Patch_Margin in
      addContext_loop fuel' patch text
        (substring text (start2 patch - padding)
                   (start2 patch + length1 patch + padding))
        padding
    else Ret padding
  end.

Definition patch_addContext_ (fuel : nat) (patch : patch_obj) (text : jsstring)
  : res patch_obj :=
  if len text =? 0 then Ret patch
  else
    let pattern := substring text (start2 patch) (start2 patch + length1 patch) in
    let! padding := addContext_loop fuel patch text pattern 0 in
    (* Add one chunk for good luck. *)
    let padding := padding + Patch_Margin in
    (* Add the prefix. *)
    let prefix := substring text (start2 patch - padding) (start2 patch) in
    let diffs := if negb (is_empty prefix)
                 then (DIFF_EQUAL, prefix) :: p_diffs patch
                 else p_diffs patch in
    (* Add the suffix. *)
    let suffix := substring text (start2 patch + length1 patch)
                            (start2 patch + length1 patch + padding) in
    let diffs := if negb (is_empty suffix)
                 then diffs ++ [(DIFF_EQUAL, suffix)] else diffs in
    (* Roll back the start points and extend the lengths. *)
    Ret (Patch diffs (start1 patch - len prefix) (start2 patch - len prefix)
               (length1 patch + len prefix + len suffix)
               (length2 patch + len prefix + len suffix)).

(** [patch_make(text1, diffs)] (the call format of method 3). *)
Record make_state : Type := MakeState {
  mk_patches : list patch_obj;
  mk_patch : patch_obj;
  patchDiffLength : Z;
  char_count1 : Z; char_count2 : Z;
  prepatch_text : jsstring; postpatch_text : jsstring }.

Fixpoint patch_make_loop (n : nat) (diffs : diffs_t) (st : make_state)
  : res make_state :=
  match diffs with
  | [] => Ret st
  | (diff_type, diff_text) :: ds =>
    let is_last := match ds with [] => true | _ => false end in
    let patch := mk_patch st in
    (* A new patch starts here. *)
    let patch :=
      if (patchDiffLength st =? 0) && negb (dop_eqb diff_type DIFF_EQUAL)
      then Patch (p_diffs patch) (char_count1 st) (char_count2 st)
                 (length1 patch) (length2 patch)
      else patch in
    let! st' :=
      match diff_type with
      | DIFF_INSERT =>
        Ret (MakeState (mk_patches st)
               (Patch (p_diffs patch ++ [(diff_type, diff_text)])
                      (start1 patch) (start2 patch) (length1 patch)
                      (length2 patch + len diff_text))
               (patchDiffLength st + 1) (char_count1 st) (char_count2 st)
               (prepatch_text st)
               (substring (postpatch_text st) 0 (char_count2 st) ++ diff_text
                ++ substring_from (postpatch_text st) (char_count2 st)))
      | DIFF_DELETE =>
        Ret (MakeState (mk_patches st)
               (Patch (p_diffs patch ++ [(diff_type, diff_text)])
                      (start1 patch) (start2 patch)
                      (length1 patch + len diff_text) (length2 patch))
               (patchDiffLength st + 1) (char_count1 st) (char_count2 st)
               (prepatch_text st)
               (substring (postpatch_text st) 0 (char_count2 st)
                ++ substring_from (postpatch_text st)
                     (char_count2 st + len diff_text)))
      | DIFF_EQUAL =>
        if (len diff_text <=? 2 * Patch_Margin)
           && negb (patchDiffLength st =? 0) && negb is_last then
          (* Small equality inside a patch. *)
          Ret (MakeState (mk_patches st)
                 (Patch (p_diffs patch ++ [(diff_type, diff_text)])
                        (start1 patch) (start2 patch)
                        (length1 patch + len diff_text)
                        (length2 patch + len diff_text))
                 (patchDiffLength st + 1) (char_count1 st) (char_count2 st)
                 (prepatch_text st) (postpatch_text st))
        else if (2 * Patch_Margin <=? len diff_text)
                && negb (patchDiffLength st =? 0) then
          (* Time for a new patch. *)
          let! patch := patch_addContext_ n patch (prepatch_text st) in
          (* Unlike Unidiff, our patch lists have a rolling context.  Update
             prepatch text & pos to reflect the application of the just
             completed patch. *)
          Ret (MakeState (mk_patches st ++ [patch]) new_patch 0
                 (char_count2 st) (char_count2 st)
                 (postpatch_text st) (postpatch_text st))
        else
          Ret (MakeState (mk_patches st) patch (patchDiffLength st)
                 (char_count1 st) (char_count2 st)
                 (prepatch_text st) (postpatch_text st))
      end in
    (* Update the current character count. *)
    let cc1 := if dop_eqb diff_type DIFF_INSERT then char_count1 st'
               else char_count1 st' + len diff_text in
    let cc2 := if dop_eqb diff_type DIFF_DELETE then char_count2 st'
               else char_count2 st' + len diff_text in
    patch_make_loop n ds
      (MakeState (mk_patches st') (mk_patch st') (patchDiffLength st')
                 cc1 cc2 (prepatch_text st') (postpatch_text st'))
  end.

Definition patch_make (fuel : nat) (text1 : jsstring) (diffs : diffs_t)
  : res (list patch_obj) :=
  if alen diffs =? 0 then Ret []     (* Get rid of the null case. *)
  else
    (* Start with text1 (prepatch_text) and apply the diffs until we arrive at
       text2 (postpatch_text). *)
    let! st := patch_make_loop fuel diffs
                 (MakeState [] new_patch 0 0 0 text1 text1) in
    (* Pick up the leftover patch if not empty. *)
    if negb (patchDiffLength st =? 0) then
      let! patch := patch_addContext_ fuel (mk_patch st) (prepatch_text st) in
      Ret (mk_patches st ++ [patch])
    else Ret (mk_patches st).

(** [patch_addPadding]: the padding is the code units 1 .. [Patch_Margin]. *)
Definition nullPadding : jsstring := [1; 2; 3; 4]%N.

Definition pad_first (patch : patch_obj) : patch_obj :=
  let paddingLength := Patch_Margin in
  match p_diffs patch with
  | (DIFF_EQUAL, t) :: ds =>
    if len t <? paddingLength then
      (* Grow first equality. *)
      let extraLength := paddingLength - len t in
      Patch ((DIFF_EQUAL, substring_from nullPadding (len t) ++ t) :: ds)
            (start1 patch - extraLength) (start2 patch - extraLength)
            (length1 patch + extraLength) (length2 patch + extraLength)
    else patch
  | ds =>
    (* Add nullPadding equality. *)
    Patch ((DIFF_EQUAL, nullPadding) :: ds)
          (start1 patch - paddingLength) (start2 patch - paddingLength)
          (length1 patch + paddingLength) (length2 patch + paddingLength)
  end.

Definition pad_last (patch : patch_obj) : patch_obj :=
  let paddingLength := Patch_Margin in
  match rev (p_diffs patch) with
  | (DIFF_EQUAL, t) :: ds =>
    if len t <? paddingLength then
      (* Grow last equality. *)
      let extraLength := paddingLength - len t in
      Patch (rev ds ++ [(DIFF_EQUAL, t ++ substring nullPadding 0 extraLength)])
            (start1 patch) (start2 patch)
            (length1 patch + extraLength) (length2 patch + extraLength)
    else patch
  | _ =>
    (* Add nullPadding equality. *)
    Patch (p_diffs patch ++ [(DIFF_EQUAL, nullPadding)])
          (start1 patch) (start2 patch)
          (length1 patch + paddingLength) (length2 patch + paddingLength)
  end.

(** The list of patches is not empty when this is called. *)
Definition patch_addPadding (patches : list patch_obj) : list patch_obj :=
  (* Bump all the patches forward. *)
  let patches :=
    map (fun p => Patch (p_diffs p) (start1 p + Patch_Margin)
                        (start2 p + Patch_Margin) (length1 p) (length2 p))
        patches in
  (* Add some padding on start of first diff. *)
  let patches := match patches with
                 | p :: ps => pad_first p :: ps
                 | [] => []
                 end in
  (* Add some padding on end of last diff. *)
  match rev patches with
  | p :: ps => rev ps ++ [pad_last p]
  | [] => []
  end.

(** [patch_splitMax]: the pieces one oversized patch is broken into. *)
Record split_state : Type := SplitState {
  big_diffs : diffs_t;           (* bigpatch.diffs *)
  sp_patch : patch_obj;
  sp_start1 : Z; sp_start2 : Z;
  sp_empty : bool }.

Fixpoint split_fill (fuel : nat) (st : split_state) : res split_state :=
  match fuel with
  | O => Unknown
  | S fuel' =>
    let patch_size := Match_MaxBits in
    let patch := sp_patch st in
    match big_diffs st with
    | [] => Ret st
    | (diff_type, diff_text) :: rest =>
      if length1 patch <? patch_size - Patch_Margin then
        match diff_type, p_diffs patch with
        | DIFF_INSERT, _ =>
          (* Insertions are harmless. *)
          split_fill fuel'
            (SplitState rest
               (Patch (p_diffs patch ++ [(diff_type, diff_text)])
                      (start1 patch) (start2 patch) (length1 patch)
                      (length2 patch + len diff_text))
               (sp_start1 st) (sp_start2 st + len diff_text) false)
        | DIFF_DELETE, [(DIFF_EQUAL, _)] =>
          if 2 * patch_size <? len diff_text then
            (* This is a large deletion.  Let it pass in one chunk. *)
            split_fill fuel'
              (SplitState rest
                 (Patch (p_diffs patch ++ [(diff_type, diff_text)])
                        (start1 patch) (start2 patch)
                        (length1 patch + len diff_text) (length2 patch))
                 (sp_start1 st + len diff_text) (sp_start2 st) false)
          else split_take fuel' st diff_type diff_text rest
        | _, _ => split_take fuel' st diff_type diff_text rest
        end
      else Ret st
    end
  end
(** Deletion or equality.  Only take as much as we can stomach. *)
with split_take (fuel : nat) (st : split_state) (diff_type : dop)
    (text0 : jsstring) (rest : diffs_t) : res split_state :=
  match fuel with
  | O => Unknown
  | S fuel' =>
    let patch_size := Match_MaxBits in
    let patch := sp_patch st in
    let diff_text :=
      substring text0 0 (patch_size - length1 patch - Patch_Margin) in
    let is_equal := dop_eqb diff_type DIFF_EQUAL in
    let patch' :=
      Patch (p_diffs patch ++ [(diff_type, diff_text)])
            (start1 patch) (start2 patch)
            (length1 patch + len diff_text)
            (if is_equal then length2 patch + len diff_text
             else length2 patch) in
    let big' :=
      if str_eqb diff_text text0 then rest
      else (diff_type, substring_from text0 (len diff_text)) :: rest in
    split_fill fuel'
      (SplitState big' patch' (sp_start1 st + len diff_text)
         (if is_equal then sp_start2 st + len diff_text else sp_start2 st)
         (if is_equal then sp_empty st else false))
  end.

Fixpoint split_big (fuel n : nat) (big : diffs_t) (s1 s2 : Z)
    (precontext : jsstring) : res (list patch_obj) :=
  match fuel with
  | O => Unknown
  | S fuel' =>
    if alen big =? 0 then Ret []
    else
      (* Create one of several smaller patches. *)
      let patch :=
        if negb (is_empty precontext)
        then Patch [(DIFF_EQUAL, precontext)]
                   (s1 - len precontext) (s2 - len precontext)
                   (len precontext) (len precontext)
        else Patch [] (s1 - len precontext) (s2 - len precontext) 0 0 in
      let! st := split_fill n (SplitState big patch s1 s2 true) in
      let patch := sp_patch st in
      (* Compute the head context for the next patch. *)
      let precontext := diff_text2 (p_diffs patch) in
      let precontext :=
        substring_from precontext (len precontext - Patch_Margin) in
      (* Append the end context for this patch. *)
      let postcontext := substring (diff_text1 (big_diffs st)) 0 Patch_Margin in
      let patch :=
        if negb (is_empty postcontext) then
          let diffs :=
            match rev (p_diffs patch) with
            | (DIFF_EQUAL, t) :: ds => rev ds ++ [(DIFF_EQUAL, t ++ postcontext)]
            | _ => p_diffs patch ++ [(DIFF_EQUAL, postcontext)]
            end in
          Patch diffs (start1 patch) (start2 patch)
                (length1 patch + len postcontext)
                (length2 patch + len postcontext)
        else patch in
      let! more := split_big fuel' n (big_diffs st) (sp_start1 st)
                     (sp_start2 st) precontext in
      Ret (if sp_empty st then more else patch :: more)
  end.

Fixpoint patch_splitMax (fuel : nat) (patches : list patch_obj)
  : res (list patch_obj) :=
  match patches with
  | [] => Ret []
  | p :: ps =>
    let! pieces :=
      if Match_MaxBits <? length1 p
      then split_big fuel fuel (p_diffs p) (start1 p) (start2 p) []
      else Ret [p] in
    let! rest := patch_splitMax fuel ps in
    Ret (pieces ++ rest)
  end.

(** [patch_apply]: the patched text and, for every patch, whether it was
    applied. *)
Definition Patch_DeleteThreshold : float := 0.5%float.

(** The walk over the diffs of one patch when the match is imperfect. *)
Fixpoint apply_mods (mods diffs : diffs_t) (start_loc index1 index2 : Z)
    (text : jsstring) : jsstring :=
  match mods with
  | [] => text
  | (op, t) :: ms =>
    let index2 := if dop_eqb op DIFF_EQUAL then index2
                  else diff_xIndex diffs index1 in
    let text :=
      match op with
      | DIFF_INSERT =>
        substring text 0 (start_loc + index2) ++ t
        ++ substring_from text (start_loc + index2)
      | DIFF_DELETE =>
        substring text 0 (start_loc + index2)
        ++ substring_from text (start_loc + diff_xIndex diffs (index1 + len t))
      | DIFF_EQUAL => text
      end in
    let index1 := if dop_eqb op DIFF_DELETE then index1 else index1 + len t in
    apply_mods ms diffs start_loc index1 index2 text
  end.

Fixpoint patch_apply_loop (fuel : nat) (patches : list patch_obj)
    (text : jsstring) (delta : Z) : M (jsstring * list bool) :=
  match patches with
  | [] => mret (text, [])
  | patch :: ps =>
    let expected_loc := start2 patch + delta in
    let text1 := diff_text1 (p_diffs patch) in
    do! (start_loc, end_loc) := lift (
      if Match_MaxBits <? len text1 then
        (* patch_splitMax will only provide an oversized pattern in the case
           of a monster delete. *)
        let! start_loc :=
          match_main fuel text (substring text1 0 Match_MaxBits) expected_loc in
        if negb (start_loc =? -1) then
          let! end_loc :=
            match_main fuel text
              (substring_from text1 (len text1 - Match_MaxBits))
              (expected_loc + len text1 - Match_MaxBits) in
          if (end_loc =? -1) || (end_loc <=? start_loc)
          then Ret (-1, end_loc)   (* Can't find valid trailing context. *)
          else Ret (start_loc, end_loc)
        else Ret (start_loc, -1)
      else
        let! start_loc := match_main fuel text text1 expected_loc in
        Ret (start_loc, -1)) in
    if start_loc =? -1 then
      (* No match found.  Subtract the delta for this failed patch from
         subsequent patches. *)
      do! (text, results) :=
        patch_apply_loop fuel ps text
          (delta - (length2 patch - length1 patch)) in
      mret (text, false :: results)
    else
      (* Found a match. *)
      let delta := start_loc - expected_loc in
      let text2 :=
        if end_loc =? -1
        then substring text start_loc (start_loc + len text1)
        else substring text start_loc (end_loc + Match_MaxBits) in
      do! (text, ok) :=
        if str_eqb text1 text2 then
          (* Perfect match, just shove the replacement text in. *)
          mret (substring text 0 start_loc ++ diff_text2 (p_diffs patch)
                ++ substring_from text (start_loc + len text1), true)
        else
          (* Imperfect match.  Run a diff to get a framework of equivalent
             indices. *)
          do! diffs := diff_main fuel text1 text2 (Some false) None in
          if (Match_MaxBits <? len text1)
             && PrimFloat.ltb Patch_DeleteThreshold
                  (to_float (diff_levenshtein diffs) / to_float (len text1))
          then
            (* The end points match, but the content is unacceptably bad. *)
            mret (text, false)
          else
            do! diffs := lift (diff_cleanupSemanticLossless fuel diffs) in
            mret (apply_mods (p_diffs patch) diffs start_loc 0 0 text, true) in
      do! (text, results) := patch_apply_loop fuel ps text delta in
      mret (text, ok :: results)
  end.

Definition patch_apply (fuel : nat) (patches : list patch_obj) (text : jsstring)
  : M (jsstring * list bool) :=
  if alen patches =? 0 then mret (text, [])
  else
    (* The deep copy of the patches is the list itself. *)
    let patches := patch_addPadding patches in
    let text := nullPadding ++ text ++ nullPadding in
    do! patches := lift (patch_splitMax fuel patches) in
    do! (text, results) := patch_apply_loop fuel patches text 0 in
    (* Strip the padding off. *)
    mret (substring text (len nullPadding) (len text - len nullPadding),
          results).

(** ** The structural engine: values

    JSON values, with [undefined] for what a missing property reads as and
    [NaN] for what arithmetic on it gives.  An object is the list of its own
    properties in enumeration order. *)
Inductive Value : Type :=
| VUndefined
| VNull
| VBool (b : bool)
| VNum (n : Z)
| VNaN
| VStr (s : jsstring)
| VArr (elems : list Value)
| VObj (props : list (jsstring * Value)).

(** A structural diff maps keys to operations [{o: ..., v: ...}].  [OpEmpty]
    is the object [{}] that [diff] returns for equal values; [OpUndefined] is
    the value [undefined] stored in place of an operation. *)
Inductive op : Type :=
| OpIns (v : Value)                      (* o: '+' *)
| OpDel                                  (* o: '-' *)
| OpRep (v : Value)                      (* o: 'r' *)
| OpInt (v : Z)                          (* o: 'I' *)
| OpList (v : list (jsstring * op))      (* o: 'L' *)
| OpObj (v : list (jsstring * op))       (* o: 'O' *)
| OpText (v : jsstring)                  (* o: 'd' *)
| OpEmpty
| OpUndefined.

Definition objdiff : Type := list (jsstring * op).

(** *** Objects as dictionaries

    Properties are looked up among the own ones.  The names of the members
    of [Object.prototype] are the exception: reading one that the object does
    not own finds the inherited member, and writing [__proto__] does not
    create a property; both are outside the embedding. *)
Definition proto_members : list jsstring :=
  Eval cbv in
    map js ["constructor"; "toString"; "toLocaleString"; "valueOf";
            "hasOwnProperty"; "isPrototypeOf"; "propertyIsEnumerable";
            "__proto__"; "__defineGetter__"; "__defineSetter__";
            "__lookupGetter__"; "__lookupSetter__"]%string.

Definition proto_member (k : jsstring) : bool := existsb (str_eqb k) proto_members.

Fixpoint lookup {A} (k : jsstring) (l : list (jsstring * A)) : option A :=
  match l with
  | [] => None
  | (k', v) :: l' => if str_eqb k k' then Some v else lookup k l'
  end.

Fixpoint remove {A} (k : jsstring) (l : list (jsstring * A)) : list (jsstring * A) :=
  match l with
  | [] => []
  | (k', v) :: l' => if str_eqb k k' then l' else (k', v) :: remove k l'
  end.

(** [k in o] *)
Definition has_in {A} (k : jsstring) (l : list (jsstring * A)) : res bool :=
  match lookup k l with
  | Some _ => Ret true
  | None => if proto_member k then Unknown else Ret false
  end.

(** [o[k]], [None] when it is undefined. *)
Definition get_prop {A} (k : jsstring) (l : list (jsstring * A)) : res (option A) :=
  match lookup k l with
  | Some v => Ret (Some v)
  | None => if proto_member k then Unknown else Ret None
  end.

(** An array index: a canonical decimal numeral below 2^32 - 1.  Objects
    enumerate such keys first, in ascending order, and the other keys after
    them in the order of their creation. *)
Definition array_index (k : jsstring) : option Z :=
  match k with
  | [] => None
  | c :: k' =>
    if forallb is_digit k && (negb (c =? 48)%N || is_empty k') then
      match digits_value k 0 false with
      | Some n => if n <? 4294967295 then Some n else None
      | None => None
      end
    else None
  end.

Fixpoint insert_index {A} (n : Z) (k : jsstring) (v : A)
    (l : list (jsstring * A)) : list (jsstring * A) :=
  match l with
  | [] => [(k, v)]
  | (k', v') :: l' =>
    match array_index k' with
    | Some n' => if n <? n' then (k, v) :: l else (k', v') :: insert_index n k v l'
    | None => (k, v) :: l
    end
  end.

Fixpoint replace_prop {A} (k : jsstring) (v : A) (l : list (jsstring * A))
  : list (jsstring * A) :=
  match l with
  | [] => []
  | (k', v') :: l' =>
    if str_eqb k k' then (k', v) :: l' else (k', v') :: replace_prop k v l'
  end.

(** [o[k] = v] *)
Definition set_prop {A} (k : jsstring) (v : A) (l : list (jsstring * A))
  : res (list (jsstring * A)) :=
  if str_eqb k proto_name then Unknown
  else
    match lookup k l with
    | Some _ => Ret (replace_prop k v l)
    | None =>
      match array_index k with
      | Some n => Ret (insert_index n k v l)
      | None => Ret (l ++ [(k, v)])
      end
    end.

(** [entries]: the number of own properties. *)
Definition entries {A} (l : list (jsstring * A)) : Z := alen l.

(** [typeOf] *)
Inductive jstype : Type :=
| TUndefined | TNull | TBoolean | TNumber | TString | TArray | TObject.

Definition typeOf (v : Value) : jstype :=
  match v with
  | VUndefined => TUndefined
  | VNull => TNull
  | VBool _ => TBoolean
  | VNum _ | VNaN => TNumber
  | VStr _ => TString
  | VArr _ => TArray
  | VObj _ => TObject
  end.

Definition jstype_eqb (a b : jstype) : bool :=
  match a, b with
  | TUndefined, TUndefined | TNull, TNull | TBoolean, TBoolean
  | TNumber, TNumber | TString, TString | TArray, TArray
  | TObject, TObject => true
  | _, _ => false
  end.

(** [deepCopy].  [typeof null] is ['object'], so null is copied as an object
    with no properties. *)
Fixpoint deepCopy (obj : Value) : res Value :=
  match obj with
  | VArr elems =>
    let! out :=
      (fix copy_elems (l : list Value) : res (list Value) :=
         match l with
         | [] => Ret []
         | x :: l' =>
           let! y := deepCopy x in
           let! r := copy_elems l' in
           Ret (y :: r)
         end) elems in
    Ret (VArr out)
  | VObj props =>
    let! out :=
      (fix copy_props (l out : list (jsstring * Value))
         : res (list (jsstring * Value)) :=
         match l with
         | [] => Ret out
         | (i, x) :: l' =>
           let! y := deepCopy x in
           let! out := set_prop i y out in
           copy_props l' out
         end) props [] in
    Ret (VObj out)
  | VNull => Ret (VObj [])
  | _ => Ret obj
  end.

(** [a === b] on values that are neither arrays nor objects. *)
Definition strict_equal (a b : Value) : bool :=
  match a, b with
  | VUndefined, VUndefined | VNull, VNull => true
  | VBool x, VBool y => Bool.eqb x y
  | VNum x, VNum y => x =? y
  | VStr x, VStr y => str_eqb x y
  | _, _ => false
  end.

(** [equals], [list_equals], [object_equals] *)
Fixpoint equals (a b : Value) : res bool :=
  if negb (jstype_eqb (typeOf a) (typeOf b)) then Ret false
  else
    match a, b with
    | VArr la, VArr lb =>
      (* list_equals *)
      if negb (alen la =? alen lb) then Ret false
      else
        (fix list_equals (la lb : list Value) : res bool :=
           match la, lb with
           | x :: la', y :: lb' =>
             let! e := equals x y in
             if negb e then Ret false else list_equals la' lb'
           | _, _ => Ret true
           end) la lb
    | VObj pa, VObj pb =>
      (* object_equals *)
      let! r :=
        (fix in_a (l : list (jsstring * Value)) : res bool :=
           match l with
           | [] => Ret true
           | (key, x) :: l' =>
             let! present := has_in key pb in
             if negb present then Ret false
             else
               let! e := equals x (default VUndefined (lookup key pb)) in
               if negb e then Ret false else in_a l'
           end) pa in
      if negb r then Ret false
      else
        (fix in_b (l : list (jsstring * Value)) : res bool :=
           match l with
           | [] => Ret true
           | (key, _) :: l' =>
             let! present := has_in key pa in
             if negb present then Ret false else in_b l'
           end) pb
    | _, _ => Ret (strict_equal a b)
    end.

(** [_common_prefix] and [_common_suffix] of two arrays. *)
Fixpoint common_prefix_loop (a b : list Value) (i : Z) : res Z :=
  match a, b with
  | x :: a', y :: b' =>
    let! e := equals x y in
    if negb e then Ret i else common_prefix_loop a' b' (i + 1)
  | _, _ => Ret i
  end.
Definition _common_prefix (a b : list Value) : res Z := common_prefix_loop a b 0.

Definition _common_suffix (a b : list Value) : res Z :=
  if Z.min (alen a) (alen b) =? 0 then Ret 0
  else common_prefix_loop (rev a) (rev b) 0.

(** [a.slice(from, to)] for [0 <= from]. *)
Definition slice {A} (l : list A) (from to : Z) : list A :=
  let f := Z.to_nat (Z.min (Z.max from 0) (alen l)) in
  let t := Z.to_nat (Z.min (Z.max to 0) (alen l)) in
  firstn (t - f) (skipn f l).

(** The two loops of [object_diff], over the own properties of [a] and then
    of [b]. *)
Fixpoint object_diff_a (diff : Value -> Value -> M op)
    (b : list (jsstring * Value)) (l : list (jsstring * Value))
    (diffs : objdiff) : M objdiff :=
  match l with
  | [] => mret diffs
  | (key, x) :: l' =>
    do! present := lift (has_in key b) in
    if present then
      let y := default VUndefined (lookup key b) in
      do! e := lift (equals x y) in
      if negb e then
        do! d := diff x y in
        do! diffs := lift (set_prop key d diffs) in
        object_diff_a diff b l' diffs
      else object_diff_a diff b l' diffs
    else
      do! diffs := lift (set_prop key OpDel diffs) in
      object_diff_a diff b l' diffs
  end.

Fixpoint object_diff_b (a : list (jsstring * Value))
    (l : list (jsstring * Value)) (diffs : objdiff) : M objdiff :=
  match l with
  | [] => mret diffs
  | (key, y) :: l' =>
    do! present := lift (has_in key a) in
    if negb present then
      do! diffs := lift (set_prop key (OpIns y) diffs) in
      object_diff_b a l' diffs
    else object_diff_b a l' diffs
  end.

(** [diff]: the recursion is on the first value. *)
Fixpoint diff (fuel : nat) (a b : Value) {struct a} : M op :=
  do! e := lift (equals a b) in
  if e then mret OpEmpty
  else if negb (jstype_eqb (typeOf a) (typeOf b)) then mret (OpRep b)
  else
    match a, b with
    | VBool _, _ | VNum _, _ | VNaN, _ | VArr _, _ => mret (OpRep b)
    | VObj pa, VObj pb =>
      (* object_diff(a, b) *)
      do! diffs := object_diff_a (diff fuel) pb pa [] in
      do! diffs := object_diff_b pa pb diffs in
      mret (OpObj diffs)
    | VStr sa, VStr sb =>
      do! diffs := diff_main fuel sa sb None None in
      do! diffs := if 2 <? alen diffs
                   then lift (diff_cleanupEfficiency fuel diffs)
                   else mret diffs in
      if 0 <? alen diffs then
        do! delta := lift (diff_toDelta diffs) in
        mret (OpText delta)
      else mret OpEmpty
    | _, _ => mret OpEmpty
    end.

(** [object_diff(a, b)]: the empty diff when either side is null or
    undefined.  Only objects are enumerated here. *)
Definition object_diff (fuel : nat) (a b : Value) : M objdiff :=
  match a, b with
  | VUndefined, _ | VNull, _ | _, VUndefined | _, VNull => mret []
  | VObj pa, VObj pb =>
    do! diffs := object_diff_a (diff fuel) pb pa [] in
    object_diff_b pa pb diffs
  | _, _ => munknown
  end.

(** [list_diff] *)
Fixpoint list_diff_loop (fuel : nat) (a b : list Value) (i prefix_len : Z)
    (diffs : objdiff) : M objdiff :=
  match a, b with
  | x :: a', y :: b' =>
    do! e := lift (equals x y) in
    do! diffs :=
      if negb e then
        do! d := diff fuel x y in
        lift (set_prop (decimal (i + prefix_len)) d diffs)
      else mret diffs in
    list_diff_loop fuel a' b' (i + 1) prefix_len diffs
  | _ :: a', [] =>
    do! diffs := lift (set_prop (decimal (i + prefix_len)) OpDel diffs) in
    list_diff_loop fuel a' [] (i + 1) prefix_len diffs
  | [], y :: b' =>
    do! diffs := lift (set_prop (decimal (i + prefix_len)) (OpIns y) diffs) in
    (fix only_b (b : list Value) (i : Z) (diffs : objdiff) : M objdiff :=
       match b with
       | [] => mret diffs
       | y :: b' =>
         do! diffs := lift (set_prop (decimal (i + prefix_len)) (OpIns y) diffs) in
         only_b b' (i + 1) diffs
       end) b' (i + 1) diffs
  | [], [] => mret diffs
  end.

Definition list_diff (fuel : nat) (a b : list Value) : M objdiff :=
  let lena := alen a in
  let lenb := alen b in
  do! prefix_len := lift (_common_prefix a b) in
  do! suffix_len := lift (_common_suffix a b) in
  let a := slice a prefix_len (lena - suffix_len) in
  let b := slice b prefix_len (lenb - suffix_len) in
  list_diff_loop fuel a b 0 prefix_len [].

(** *** Applying a structural diff *)

(** [x += n] for a number [n]: strings concatenate, booleans and null convert
    to numbers, undefined gives NaN.  Adding to an array or an object
    converts it to a string, which is outside the embedding. *)
Definition js_add (x : Value) (n : Z) : res Value :=
  match x with
  | VNum m => Ret (VNum (m + n))
  | VNaN | VUndefined => Ret VNaN
  | VNull => Ret (VNum n)
  | VBool b => Ret (VNum (b2z b + n))
  | VStr s => Ret (VStr (s ++ decimal n))
  | VArr _ | VObj _ => Unknown
  end.

(** [diff_fromDelta(text1, delta)] for a [text1] that is not a string.  It
    never returns diffs that [patch_make] accepts: a keep or delete token
    calls [text1.substring], and the final test reads [text1.length]. *)
Fixpoint fromDelta_untyped (text1 : Value) (tokens : list jsstring) : res Value :=
  match tokens with
  | [] =>
    match text1 with
    | VUndefined | VNull => Throw TypeError
    | VArr [] => Throw (Error "Unknown call format to patch_make.")
    | _ => Throw (Error "Delta length does not equal source text length")
    end
  | token :: tokens' =>
    match token with
    | 43%N :: _ =>
      match decodeURI (substring_from token 1) with
      | Ret _ => fromDelta_untyped text1 tokens'
      | Throw _ => Throw (Error "Illegal escape in diff_fromDelta")
      | Unknown => Unknown
      end
    | 45%N :: _ | 61%N :: _ =>
      match parseInt10 (substring_from token 1) with
      | None => Throw (Error "Invalid number in diff_fromDelta")
      | Some n =>
        if n <? 0 then Throw (Error "Invalid number in diff_fromDelta")
        else Throw TypeError
      end
    | [] => fromDelta_untyped text1 tokens'
    | _ :: _ => Throw (Error "Invalid diff operation in diff_fromDelta")
    end
  end.

(** The three calls of the ['d'] case:
    [diff_fromDelta], [patch_make], [patch_apply], and the text of the
    result. *)
Definition apply_delta (fuel : nat) (cur : Value) (delta : jsstring) : M Value :=
  match cur with
  | VStr text =>
    do! dmp_diffs := lift (diff_fromDelta text delta) in
    do! dmp_patches := lift (patch_make fuel text dmp_diffs) in
    do! dmp_result := patch_apply fuel dmp_patches text in
    mret (VStr (fst dmp_result))
  | _ => lift (fromDelta_untyped cur (split_tab delta []))
  end.

(** [a < b] on strings: the order of [Array.prototype.sort()]. *)
Fixpoint str_ltb (a b : jsstring) : bool :=
  match a, b with
  | _, [] => false
  | [], _ :: _ => true
  | x :: a', y :: b' =>
    if (x <? y)%N then true else if (y <? x)%N then false else str_ltb a' b'
  end.

Fixpoint insert_sorted {A} (k : jsstring) (v : A) (l : list (jsstring * A))
  : list (jsstring * A) :=
  match l with
  | [] => [(k, v)]
  | (k', v') :: l' =>
    if str_ltb k k' then (k, v) :: l else (k', v') :: insert_sorted k v l'
  end.

(** The entries of an object, by sorted key. *)
Definition sort_keys {A} (l : list (jsstring * A)) : list (jsstring * A) :=
  fold_left (fun acc kv => insert_sorted (fst kv) (snd kv) acc) l [].

(** [Number(k)] for a key written with decimal digits only. *)
Definition key_number (k : jsstring) : res Z :=
  if negb (is_empty k) && forallb is_digit k then
    match digits_value k 0 false with
    | Some n => if n <? 2 ^ 53 then Ret n else Unknown
    | None => Unknown
    end
  else Unknown.

(** [patched[i]] on an array. *)
Definition elem (l : list Value) (i : Z) : Value :=
  if i <? 0 then VUndefined else nth (Z.to_nat i) l VUndefined.

(** [patched[i] = v] on an array, for [0 <= i]; the array grows when [i] is
    beyond its end. *)
Definition set_elem (l : list Value) (i : Z) (v : Value) : res (list Value) :=
  if i <? 0 then Unknown
  else if i <? alen l then Ret (set_at l i v)
  else Ret (l ++ repeat VUndefined (Z.to_nat (i - alen l)) ++ [v]).

(** [patched.splice(start, count, items...)] *)
Definition js_splice (l : list Value) (start count : Z) (items : list Value)
  : list Value :=
  let start := if start <? 0 then Z.max (alen l + start) 0
               else Z.min start (alen l) in
  let count := Z.min (Z.max count 0) (alen l - start) in
  splice l start count items.

(** The arguments [[s_index, 1].concat(v)]: an array is spread. *)
Definition concat_arg (v : Value) : list Value :=
  match v with
  | VArr l => l
  | _ => [v]
  end.

(** [apply_object_diff] and [apply_list_diff].  Both recurse into the nested
    diffs of ['O'] and ['L'] operations, so the recursion is on the operation
    that carries the diff: [apply_diff (OpObj diffs) s] is
    [apply_object_diff(s, diffs)] and [apply_diff (OpList diffs) s] is
    [apply_list_diff(s, diffs)]. *)
Fixpoint apply_diff (fuel : nat) (o : op) (s : Value) {struct o} : M Value :=
  match o with
  | OpObj diffs =>
    do! patched := lift (deepCopy s) in
    (fix each (ds : list (jsstring * op)) (patched : Value) : M Value :=
       match ds with
       | [] => mret patched
       | (key, op) :: ds' =>
         match op, patched with
         | OpEmpty, _ => each ds' patched
         | OpUndefined, _ | _, VUndefined => mthrow TypeError
         | _, VObj props =>
           do! props :=
             match op with
             | OpIns v | OpRep v => lift (set_prop key v props)
             | OpDel => mret (remove key props)
             | OpInt v =>
               do! cur := lift (get_prop key props) in
               do! r := lift (js_add (default VUndefined cur) v) in
               lift (set_prop key r props)
             | OpList _ | OpObj _ =>
               do! cur := lift (get_prop key props) in
               do! r := apply_diff fuel op (default VUndefined cur) in
               lift (set_prop key r props)
             | OpText delta =>
               do! cur := lift (get_prop key props) in
               do! r := apply_delta fuel (default VUndefined cur) delta in
               lift (set_prop key r props)
             | OpEmpty | OpUndefined => mret props
             end in
           each ds' (VObj props)
         | _, _ => munknown
         end
       end) diffs patched
  | OpList diffs =>
    do! patched := lift (deepCopy s) in
    let indexes :=
      sort_keys (map (fun kv : jsstring * op =>
                        (fst kv, (snd kv, apply_diff fuel (snd kv)))) diffs) in
    (fix each (ds : list (jsstring * (op * (Value -> M Value))))
         (patched : Value) (deleted : list Z) : M Value :=
       match ds with
       | [] => mret patched
       | (index, (op, recurse)) :: ds' =>
         match op, patched with
         | OpUndefined, _ => mthrow TypeError
         | OpEmpty, _ => each ds' patched deleted
         | _, VUndefined => mthrow TypeError
         | _, VArr l =>
           do! n := lift (key_number index) in
           let shift := alen (filter (fun x => x <=? n) deleted) in
           let s_index := n - shift in
           match op with
           | OpIns v =>
             each ds' (VArr (js_splice l s_index 1 (concat_arg v))) deleted
           | OpDel =>
             each ds' (VArr (js_splice l s_index 1 [])) (deleted ++ [s_index])
           | OpRep v =>
             do! l := lift (set_elem l s_index v) in
             each ds' (VArr l) deleted
           | OpInt v =>
             do! r := lift (js_add (elem l s_index) v) in
             do! l := lift (set_elem l s_index r) in
             each ds' (VArr l) deleted
           | OpList _ | OpObj _ =>
             do! r := recurse (elem l s_index) in
             do! l := lift (set_elem l s_index r) in
             each ds' (VArr l) deleted
           | OpText delta =>
             do! r := apply_delta fuel (elem l s_index) delta in
             do! l := lift (set_elem l s_index r) in
             each ds' (VArr l) deleted
           | OpEmpty | OpUndefined => each ds' patched deleted
           end
         | _, _ => munknown
         end
       end) indexes patched []
  | _ => munknown
  end.

(** [apply_object_diff(s, diffs)]; [diffs] may be undefined, and then there
    is nothing to enumerate. *)
Definition apply_object_diff (fuel : nat) (s : Value) (diffs : option objdiff)
  : M Value :=
  apply_diff fuel (OpObj (default [] diffs)) s.

Definition apply_list_diff (fuel : nat) (s : Value) (diffs : objdiff) : M Value :=
  apply_diff fuel (OpList diffs) s.

(** *** Transforming one diff over another *)

(** [deepCopy] of a diff object: the values it carries are copied as values
    are. *)
Fixpoint deepCopy_op (o : op) : res op :=
  let copy_entries :=
    fix copy_entries (l out : list (jsstring * op)) : res (list (jsstring * op)) :=
      match l with
      | [] => Ret out
      | (i, x) :: l' =>
        let! y := deepCopy_op x in
        let! out := set_prop i y out in
        copy_entries l' out
      end in
  match o with
  | OpIns v => let! v := deepCopy v in Ret (OpIns v)
  | OpRep v => let! v := deepCopy v in Ret (OpRep v)
  | OpList d => let! d := copy_entries d [] in Ret (OpList d)
  | OpObj d => let! d := copy_entries d [] in Ret (OpObj d)
  | OpDel | OpInt _ | OpText _ | OpEmpty | OpUndefined => Ret o
  end.

Definition deepCopy_diff (d : objdiff) : res objdiff :=
  let! o := deepCopy_op (OpObj d) in
  match o with
  | OpObj d' => Ret d'
  | _ => Unknown
  end.

(** [s[key]] for the base value of a transformation.  On an array the key is
    an index, or the literal key [sindex] of the call in
    [transform_list_diff], which no array has. *)
Definition sindex_name : jsstring := Eval cbv in js "sindex".
Definition index_name : jsstring := Eval cbv in js "index".

Definition index_value (s : Value) (key : jsstring) : res Value :=
  match s with
  | VObj props => let! v := get_prop key props in Ret (default VUndefined v)
  | VUndefined | VNull => Throw TypeError
  | VArr l =>
    match array_index key with
    | Some i => Ret (elem l i)
    | None => if str_eqb key sindex_name then Ret VUndefined else Unknown
    end
  | _ => Unknown
  end.

(** What one pass of the loop of [transform_object_diff] does to
    [ad_new[key]]. *)
Inductive key_action : Type :=
| Keep
| Delete
| Assign (o : op).

Definition act (a : key_action) (key : jsstring) (d : objdiff) : res objdiff :=
  match a with
  | Keep => Ret d
  | Delete => Ret (remove key d)
  | Assign o => set_prop key o d
  end.

(** [a <= b] on strings. *)
Definition str_leb (a b : jsstring) : bool := negb (str_ltb b a).

(** The keys of the operations of [bd] whose [o] is [c]. *)
Fixpoint keys_with (is_c : op -> bool) (bd : objdiff) : res (list jsstring) :=
  match bd with
  | [] => Ret []
  | (_, OpUndefined) :: _ => Throw TypeError
  | (index, o) :: bd' =>
    let! r := keys_with is_c bd' in
    Ret (if is_c o then index :: r else r)
  end.

Definition is_ins (o : op) : bool := match o with OpIns _ => true | _ => false end.
Definition is_del (o : op) : bool := match o with OpDel => true | _ => false end.

(** The loop of [transform_object_diff], for the operation transformer
    [rec].  The function returns from inside the loop, at the end of the
    first pass that does not [continue]; when every pass continues, or there
    is none, the loop ends and nothing is returned. *)
Fixpoint transform_object_each (rec : op -> op -> Value -> M key_action)
    (bd : objdiff) (s : Value) (ad_new : objdiff) (l : list (jsstring * op))
  : M (option objdiff) :=
  match l with
  | [] => mret None
  | (key, aop) :: l' =>
    do! present := lift (has_in key bd) in
    if negb present then transform_object_each rec bd s ad_new l'
    else
      do! sk := lift (index_value s key) in
      let bop := default OpUndefined (lookup key bd) in
      do! a := rec aop bop sk in
      do! ad_new := lift (act a key ad_new) in
      mret (Some ad_new)
  end.

Definition transform_object_with (rec : op -> op -> Value -> M key_action)
    (ad bd : objdiff) (s : Value) : M (option objdiff) :=
  do! ad_new := lift (deepCopy_diff ad) in
  transform_object_each rec bd s ad_new ad.

(** The loop of [transform_list_diff]. *)
Fixpoint transform_list_each (rec : op -> op -> Value -> M key_action)
    (bd : objdiff) (s : Value) (b_inserts b_deletes : list jsstring)
    (l : list (jsstring * op)) (ad_new : objdiff) : M objdiff :=
  match l with
  | [] => mret ad_new
  | (index, op) :: l' =>
    (* The length of an array literal that holds one array. *)
    let shift_r := alen [filter (fun x => str_leb x index) b_inserts] in
    let shift_l := alen [filter (fun x => str_leb x index) b_deletes] in
    (* index + shift_r - shift_l: the key is a string, so the sum appends the
       digits of shift_r to it. *)
    do! n := lift (key_number (index ++ decimal shift_r)) in
    let index := n - shift_l in
    let sindex := decimal index in
    do! ad_new := lift (set_prop sindex op ad_new) in
    do! present := lift (has_in sindex bd) in
    if present then
      (* bd.index: the property named index. *)
      do! bd_index := lift (get_prop index_name bd) in
      let bd_index := default OpUndefined bd_index in
      match op, bd_index with
      | OpUndefined, _ => mthrow TypeError
      | OpIns _, OpUndefined | OpDel, OpUndefined => mthrow TypeError
      | OpIns _, OpIns _ =>
        transform_list_each rec bd s b_inserts b_deletes l' ad_new
      | OpDel, OpDel =>
        transform_list_each rec bd s b_inserts b_deletes l'
          (remove sindex ad_new)
      | _, _ =>
        (* transform_object_diff({sindex: op}, {sindex: bd.index}, s): the
           keys of both literals are the name sindex. *)
        do! diff := transform_object_with rec [(sindex_name, op)]
                      [(sindex_name, bd_index)] s in
        do! ad_new :=
          lift (set_prop sindex
                  (default OpUndefined (lookup sindex (default [] diff)))
                  ad_new) in
        transform_list_each rec bd s b_inserts b_deletes l' ad_new
      end
    else transform_list_each rec bd s b_inserts b_deletes l' ad_new
  end.

Definition transform_list_with (rec : op -> op -> Value -> M key_action)
    (ad bd : objdiff) (s : Value) : M objdiff :=
  do! b_inserts := lift (keys_with is_ins bd) in
  do! b_deletes := lift (keys_with is_del bd) in
  transform_list_each rec bd s b_inserts b_deletes ad [].

(** The body of the loop of [transform_object_diff] for a key that both
    diffs have.  The recursion is on the local operation.

    A diff that is undefined and a diff with no entries are enumerated alike
    by every function of the engine; the payload of an ['O'] operation that
    is undefined is written as the empty diff. *)
Fixpoint transform_op (fuel : nat) (aop bop : op) (sk : Value) {struct aop}
  : M key_action :=
  match aop, bop with
  | OpUndefined, _ | _, OpUndefined => mthrow TypeError
  | OpIns av, OpIns bv =>
    do! e := lift (equals av bv) in
    if e then mret Delete
    else do! d := diff fuel bv av in mret (Assign d)
  | OpDel, OpDel => mret Delete
  | OpObj av, OpDel =>
    do! v := apply_diff fuel (OpObj av) sk in mret (Assign (OpIns v))
  | OpList av, OpDel =>
    do! v := apply_diff fuel (OpList av) sk in mret (Assign (OpIns v))
  | OpInt av, OpDel =>
    do! v := lift (js_add sk av) in mret (Assign (OpIns v))
  | OpText av, OpDel =>
    do! v := apply_delta fuel sk av in mret (Assign (OpIns v))
  | OpObj av, OpObj bv =>
    do! r := transform_object_with (transform_op fuel) av bv sk in
    mret (Assign (OpObj (default [] r)))
  | OpList av, OpList bv =>
    do! r := transform_list_with (transform_op fuel) av bv sk in
    mret (Assign (OpObj r))
  | OpText av, OpText bv =>
    match sk with
    | VStr sk =>
      do! a_diffs := lift (diff_fromDelta sk av) in
      do! a_patches := lift (patch_make fuel sk a_diffs) in
      do! b_diffs := lift (diff_fromDelta sk bv) in
      do! b_patches := lift (patch_make fuel sk b_diffs) in
      do! b_result := patch_apply fuel b_patches sk in
      let b_text := fst b_result in
      do! ab_result := patch_apply fuel a_patches b_text in
      let ab_text := fst ab_result in
      if negb (str_eqb ab_text b_text) then
        do! dmp_diffs := diff_main fuel b_text ab_text None None in
        do! dmp_diffs := if 2 <? alen dmp_diffs
                         then lift (diff_cleanupEfficiency fuel dmp_diffs)
                         else mret dmp_diffs in
        if 0 <? alen dmp_diffs then
          do! delta := lift (diff_toDelta dmp_diffs) in
          mret (Assign (OpText delta))
        else mret Delete
      else mret Delete
    | _ =>
      do! _ := lift (fromDelta_untyped sk (split_tab av [])) in munknown
    end
  | _, _ => mret Keep
  end.

(** [transform_object_diff(ad, bd, s)]; [None] is undefined. *)
Definition transform_object_diff (fuel : nat) (ad bd : objdiff) (s : Value)
  : M (option objdiff) :=
  transform_object_with (transform_op fuel) ad bd s.

(** [transform_list_diff(ad, bd, s)] *)
Definition transform_list_diff (fuel : nat) (ad bd : objdiff) (s : Value)
  : M objdiff :=
  transform_list_with (transform_op fuel) ad bd s.

(** ** The bucket client *)

(** A change record, as the client queues it ([sv] and [v] are optional)
    and as the server echoes it back (with [clientid], [ev], [cv], and
    possibly [error] and [ccids]).  An absent field is [None]. *)
Record change : Type := Change {
  c_id : jsstring;
  c_ccid : option jsstring;
  c_ccids : option (list jsstring);
  c_clientid : option jsstring;
  c_sv : option Z;
  c_ev : option Z;
  c_cv : option jsstring;
  c_o : option jsstring;
  c_v : option objdiff;
  c_error : option Z }.

(** An entry of the store: the last snapshot the server confirmed, its
    version, the local working copy, the change in flight and whether the
    coalescing timer is armed. *)
Record entity : Type := Entity {
  e_object : Value;
  e_version : option Z;
  e_last : Value;
  e_change : option change;
  e_check : bool }.

(** What [setTimeout] was asked to run. *)
Inductive task : Type :=
| RefreshStore
| CheckUpdate (id : jsstring).

(** What the window has for [localStorage]. *)
Inductive host : Type :=
| NotInWindow                (* ['localStorage' in window] is false *)
| Denied                     (* reading [window.localStorage] throws *)
| IsNull                     (* [window.localStorage] is null *)
| IsStorage.                 (* a Storage object *)

(** [localStorage]: what the window has for it, and the items of this client
    in it, which are the two of [_save_meta] and the entities of
    [_save_entity] (kept as they are rather than as their JSON text).
    [setItem] throws when the storage is full or switched off:
    [ls_refuses n] says whether its call number [n] does, and [ls_calls]
    counts the calls. *)
Record storage : Type := Storage {
  ls_host : host;
  ls_refuses : nat -> bool;
  ls_calls : nat;
  ls_ccid : option jsstring;
  ls_last_cv : option jsstring;
  ls_entities : list (jsstring * entity) }.

(** The client.  The callbacks of the user interface are fields, as in the
    source; [cb_notify] is only ever called, so a flag says whether it is set
    and [notified] records its calls. *)
Record client : Type := Client {
  clientid : jsstring;
  ccid : Z;
  last_cv : Value;
  store : list (jsstring * entity);
  send_queue : list change;
  initialized : bool;
  cb_get_data : option (jsstring -> Value);
  cb_notify : bool;
  notified : list (jsstring * Value);
  local_storage : storage;
  timers : list task;
  now : clock }.

Definition C (A : Type) : Type := client -> res A * client.

Definition cret {A} (a : A) : C A := fun c => (Ret a, c).
Definition cthrow {A} (e : exn) : C A := fun c => (Throw e, c).
Definition cunknown {A} : C A := fun c => (Unknown, c).
Definition cbind {A B} (m : C A) (k : A -> C B) : C B :=
  fun c => match m c with
           | (Ret a, c') => k a c'
           | (Throw e, c') => (Throw e, c')
           | (Unknown, c') => (Unknown, c')
           end.
Notation "'run!' x ':=' m 'in' k" := (cbind m (fun x => k))
  (at level 10, x pattern, m at level 100, k at level 200).

Definition liftR {A} (r : res A) : C A := fun c => (r, c).

Definition set_now (c : client) (t : clock) : client :=
  Client (clientid c) (ccid c) (last_cv c) (store c) (send_queue c)
         (initialized c) (cb_get_data c) (cb_notify c) (notified c)
         (local_storage c) (timers c) t.

(** Running an operation of the engines on the client's clock. *)
Definition liftM {A} (m : M A) : C A :=
  fun c => let (r, t) := m (now c) in (r, set_now c t).

Definition read : C client := fun c => (Ret c, c).
Definition write (c' : client) : C unit := fun _ => (Ret tt, c').

Definition is_nullish (v : Value) : bool :=
  match v with VUndefined | VNull => true | _ => false end.

(** [if (v)] *)
Definition truthy (v : Value) : bool :=
  match v with
  | VUndefined | VNull | VNaN | VBool false => false
  | VNum n => negb (n =? 0)
  | VStr s => negb (is_empty s)
  | VBool true | VArr _ | VObj _ => true
  end.

(** [String(v)] for a value that is not an array or an object. *)
Definition to_string (v : Value) : res jsstring :=
  match v with
  | VStr s => Ret s
  | VNum n => Ret (decimal n)
  | VUndefined => Ret (js "undefined")
  | VNull => Ret (js "null")
  | VBool true => Ret (js "true")
  | VBool false => Ret (js "false")
  | VNaN => Ret (js "NaN")
  | VArr _ | VObj _ => Unknown
  end.

(** [get]: null for an unknown id, a deep copy of the snapshot otherwise. *)
Definition get (id : jsstring) : C Value :=
  run! c := read in
  run! e := liftR (get_prop id (store c)) in
  match e with
  | Some e => liftR (deepCopy (e_object e))
  | None => cret VNull
  end.

(** [try { m } catch (error) { handler }] *)
Definition try_catch {A} (m : C A) (handler : exn -> C A) : C A :=
  fun c => match m c with
           | (Throw e, c') => handler e c'
           | r => r
           end.

Definition set_storage (c : client) (ls : storage) : client :=
  Client (clientid c) (ccid c) (last_cv c) (store c) (send_queue c)
         (initialized c) (cb_get_data c) (cb_notify c) (notified c)
         ls (timers c) (now c).

(** [supports_html5_storage] *)
Definition supports_html5_storage : C bool :=
  try_catch
    (run! c := read in
     match ls_host (local_storage c) with
     | NotInWindow => cret false
     | Denied => cthrow (DOMException "SecurityError")
     | IsNull => cret false
     | IsStorage => cret true
     end)
    (fun _ => cret false).

(** The name [localStorage], read to call a method of the storage. *)
Definition localStorage : C unit :=
  run! c := read in
  match ls_host (local_storage c) with
  | NotInWindow => cthrow ReferenceError
  | Denied => cthrow (DOMException "SecurityError")
  | IsNull => cthrow TypeError
  | IsStorage => cret tt
  end.

(** [localStorage.setItem(key, value)]; [put] writes the item. *)
Definition setItem (put : storage -> res storage) : C unit :=
  run! _ := localStorage in
  run! c := read in
  let ls := local_storage c in
  let counted := Storage (ls_host ls) (ls_refuses ls) (S (ls_calls ls))
                         (ls_ccid ls) (ls_last_cv ls) (ls_entities ls) in
  run! _ := write (set_storage c counted) in
  if ls_refuses ls (ls_calls ls) then
    cthrow (DOMException "QuotaExceededError")
  else
    run! ls := liftR (put counted) in
    write (set_storage c ls).

Definition put_ccid (v : jsstring) (ls : storage) : res storage :=
  Ret (Storage (ls_host ls) (ls_refuses ls) (ls_calls ls)
               (Some v) (ls_last_cv ls) (ls_entities ls)).

Definition put_last_cv (v : jsstring) (ls : storage) : res storage :=
  Ret (Storage (ls_host ls) (ls_refuses ls) (ls_calls ls)
               (ls_ccid ls) (Some v) (ls_entities ls)).

(** The item of an entity.  The item of an entry that is undefined is the
    text [undefined], which is outside the embedding. *)
Definition put_entity (id : jsstring) (store_data : option entity)
    (ls : storage) : res storage :=
  match store_data with
  | Some e =>
    let! es := set_prop id e (ls_entities ls) in
    Ret (Storage (ls_host ls) (ls_refuses ls) (ls_calls ls)
                 (ls_ccid ls) (ls_last_cv ls) es)
  | None => Unknown
  end.

(** [_save_meta] *)
Definition _save_meta : C bool :=
  run! supported := supports_html5_storage in
  if negb supported then cret false
  else
    try_catch
      (run! c := read in
       run! _ := setItem (put_ccid (decimal (ccid c))) in
       run! cv := liftR (to_string (last_cv c)) in
       run! _ := setItem (put_last_cv cv) in
       cret true)
      (fun _ => cret false).

Definition set_store (c : client) (s : list (jsstring * entity)) : client :=
  Client (clientid c) (ccid c) (last_cv c) s (send_queue c)
         (initialized c) (cb_get_data c) (cb_notify c) (notified c)
         (local_storage c) (timers c) (now c).

Definition set_entities (c : client) (es : list (jsstring * entity)) : client :=
  let ls := local_storage c in
  set_storage c (Storage (ls_host ls) (ls_refuses ls) (ls_calls ls)
                         (ls_ccid ls) (ls_last_cv ls) es).

(** [JSON.parse(JSON.stringify(v))] for a value inside an array or an
    object: [undefined] and [NaN] come back as null, and a property that
    holds [undefined] does not come back. *)
Fixpoint json_copy (v : Value) : Value :=
  let copy_props :=
    fix copy_props (l : list (jsstring * Value)) : list (jsstring * Value) :=
      match l with
      | [] => []
      | (_, VUndefined) :: l' => copy_props l'
      | (k, x) :: l' => (k, json_copy x) :: copy_props l'
      end in
  match v with
  | VUndefined | VNull | VNaN => VNull
  | VBool _ | VNum _ | VStr _ => v
  | VArr elems => VArr (map json_copy elems)
  | VObj props => VObj (copy_props props)
  end.

(** An operation of a diff, and a diff, as the objects they are. *)
Fixpoint op_value (o : op) : Value :=
  let diff_props :=
    fix diff_props (l : list (jsstring * op)) : list (jsstring * Value) :=
      match l with
      | [] => []
      | (k, x) :: l' => (k, op_value x) :: diff_props l'
      end in
  match o with
  | OpIns v => VObj [(js "o", VStr (js "+")); (js "v", v)]
  | OpDel => VObj [(js "o", VStr (js "-"))]
  | OpRep v => VObj [(js "o", VStr (js "r")); (js "v", v)]
  | OpInt n => VObj [(js "o", VStr (js "I")); (js "v", VNum n)]
  | OpList d => VObj [(js "o", VStr (js "L")); (js "v", VObj (diff_props d))]
  | OpObj d => VObj [(js "o", VStr (js "O")); (js "v", VObj (diff_props d))]
  | OpText delta => VObj [(js "o", VStr (js "d")); (js "v", VStr delta)]
  | OpEmpty => VObj []
  | OpUndefined => VUndefined
  end.

Definition diff_value (d : objdiff) : Value :=
  VObj (map (fun kv => (fst kv, op_value (snd kv))) d).

(** A property that is there when the field is. *)
Definition field {A} (k : string) (f : A -> Value) (x : option A)
  : list (jsstring * Value) :=
  match x with
  | Some a => [(js k, f a)]
  | None => []
  end.

(** A change record as the object it is. *)
Definition change_value (ch : change) : Value :=
  VObj ([(js "id", VStr (c_id ch))]
        ++ field "ccid" VStr (c_ccid ch)
        ++ field "ccids" (fun l => VArr (map VStr l)) (c_ccids ch)
        ++ field "clientid" VStr (c_clientid ch)
        ++ field "sv" VNum (c_sv ch)
        ++ field "ev" VNum (c_ev ch)
        ++ field "cv" VStr (c_cv ch)
        ++ field "o" VStr (c_o ch)
        ++ field "v" diff_value (c_v ch)
        ++ field "error" VNum (c_error ch)).

(** An entry of the store as the object it is, for the comparison of
    [_save_entity].  Its other properties ([id], [check], [modified]) hold a
    string, a number or null, which JSON gives back as they are. *)
Definition entity_value (e : entity) : Value :=
  VObj [(js "object", e_object e);
        (js "version", match e_version e with
                       | Some v => VNum v
                       | None => VNull
                       end);
        (js "last", e_last e);
        (js "change", match e_change e with
                      | Some ch => change_value ch
                      | None => VNull
                      end)].

(** [this.jd.equals(store_data, JSON.parse(localStorage.getItem(key)))],
    after [setItem] has stored the JSON text of [store_data] under the key.
    A property of the entry that holds [undefined] does not come back, one
    that is missing changes nothing: the fields do not tell the two apart,
    so the answer is then outside the embedding. *)
Definition read_back (e : entity) : res bool :=
  match e_object e, e_last e with
  | VUndefined, _ | _, VUndefined => Unknown
  | _, _ => equals (entity_value e) (json_copy (entity_value e))
  end.

(** [_save_entity] *)
Definition _save_entity (id : jsstring) : C bool :=
  run! c := read in
  run! store_data := liftR (get_prop id (store c)) in
  run! stored :=
    try_catch
      (run! _ := setItem (put_entity id store_data) in cret true)
      (fun _ => cret false) in
  if negb stored then cret false
  else
    match store_data with
    | Some e => liftR (read_back e)
    | None => cunknown
    end.

(** [_remove_entity] *)
Definition _remove_entity (id : jsstring) : C unit :=
  run! _ := localStorage in
  run! c := read in
  write (set_entities c (remove id (ls_entities (local_storage c)))).

(** A call of [cb_notify]. *)
Definition notify (key : jsstring) (data : Value) : C unit :=
  run! c := read in
  if cb_notify c then
    write (Client (clientid c) (ccid c) (last_cv c) (store c) (send_queue c)
             (initialized c) (cb_get_data c) (cb_notify c)
             (notified c ++ [(key, data)])
             (local_storage c) (timers c) (now c))
  else cthrow TypeError.

(** [_notify_client].  When [get_data] answers with an array, the cursor of
    a text field is tracked through the change, which is outside the
    embedding. *)
Definition _notify_client (fuel : nat) (key : jsstring)
    (new_object orig_object : Value) (diff : option objdiff) : C unit :=
  run! c := read in
  match cb_get_data c with
  | None => notify key new_object
  | Some get_data =>
    let c_object := get_data key in
    match c_object with
    | VArr _ => cunknown
    | _ =>
      if negb (is_nullish c_object) && negb (is_nullish orig_object) then
        run! o_diff := liftM (object_diff fuel orig_object c_object) in
        run! (t_object, t_diff) :=
          if entries o_diff =? 0 then cret (orig_object, diff)
          else
            match diff with
            | None => cthrow TypeError     (* key in undefined *)
            | Some diff =>
              run! t_diff :=
                liftM (transform_object_diff fuel o_diff diff orig_object) in
              cret (new_object, t_diff)
            end in
        run! new_data := liftM (apply_object_diff fuel t_object t_diff) in
        notify key new_data
      else if truthy new_object then notify key new_object
      else notify key VNull
    end
  end.

(** [_make_change] *)
Definition _make_change (fuel : nat) (id : jsstring) : C (option change) :=
  run! c := read in
  run! s_data := liftR (get_prop id (store c)) in
  if existsb (fun change => str_eqb id (c_id change)) (send_queue c) then
    (* found pending change, aborting *)
    cret None
  else
    let ccid0 := ccid c in
    run! _ := write (Client (clientid c) (ccid c + 1) (last_cv c) (store c)
                       (send_queue c) (initialized c) (cb_get_data c)
                       (cb_notify c) (notified c) (local_storage c)
                       (timers c) (now c)) in
    let mk sv o v :=
      Change id (Some (decimal ccid0)) None None sv None None o v None in
    match s_data with
    | None => cthrow TypeError
    | Some s_data =>
      let from_last (k : Value -> C (option change)) : C (option change) :=
        if negb (is_nullish (e_last s_data)) then k (e_last s_data)
        else cret None in
      let finish (c_object : Value) : C (option change) :=
        let sv := e_version s_data in
        match c_object, sv with
        | VNull, Some _ =>
          (* DELETION requested *)
          cret (Some (mk sv (Some (js "-")) None))
        | _, _ =>
          if negb (is_nullish c_object) && negb (is_nullish (e_object s_data))
          then
            run! v := liftM (object_diff fuel (e_object s_data) c_object) in
            if entries v =? 0 then cret None
            else cret (Some (mk sv (Some (js "M")) (Some v)))
          else cret None
        end in
      if negb (initialized c) then from_last finish
      else
        match cb_get_data c with
        | None => from_last finish
        | Some get_data =>
          let c_object := get_data id in
          match c_object with
          | VArr l => finish (elem l 0)
          | _ => finish c_object
          end
        end
    end.

Definition opt_str_eqb (a b : option jsstring) : bool :=
  match a, b with
  | Some x, Some y => str_eqb x y
  | _, _ => false
  end.

(** The test of the inner loop of [on_changes]: the change acknowledges the
    pending change. *)
Definition acknowledges (c : client) (change pending : change) : bool :=
  opt_str_eqb (c_clientid change) (Some (clientid c))
  && str_eqb (c_id change) (c_id pending)
  && (opt_str_eqb (c_ccid change) (c_ccid pending)
      || match c_ccids change, c_ccid pending with
         | Some ccids, Some p => existsb (str_eqb p) ccids
         | _, _ => false
         end).

Definition set_version (e : entity) (v : option Z) : entity :=
  Entity (e_object e) v (e_last e) (e_change e) (e_check e).

(** [this.data.store[id]['version'] = null] *)
Definition invalidate (id : jsstring) : C unit :=
  run! c := read in
  run! e := liftR (get_prop id (store c)) in
  match e with
  | Some e =>
    run! s := liftR (set_prop id (set_version e None) (store c)) in
    write (set_store c s)
  | None => cthrow TypeError
  end.

(** [this.data.last_cv = change['cv']]: an absent field reads as undefined. *)
Definition set_last_cv (cv : option jsstring) : C unit :=
  run! c := read in
  write (Client (clientid c) (ccid c)
           (match cv with Some s => VStr s | None => VUndefined end)
           (store c) (send_queue c)
           (initialized c) (cb_get_data c) (cb_notify c) (notified c)
           (local_storage c) (timers c) (now c)).

Definition set_queue (q : list change) : C unit :=
  run! c := read in
  write (Client (clientid c) (ccid c) (last_cv c) (store c) q
           (initialized c) (cb_get_data c) (cb_notify c) (notified c)
           (local_storage c) (timers c) (now c)).


(** The local variables of [on_changes] that live across the batch. *)
Record batch : Type := Batch {
  check_updates : list jsstring;
  reload_needed : bool }.

(** The first part of a pass of the loop of [on_changes]: the pending
    changes that the change acknowledges are taken off the queue.  The result
    is the list of them. *)
Definition pending_changes : Type := list change.

Definition settle_pending (change : change) : C pending_changes :=
  run! c := read in
  let pending_to_delete := filter (acknowledges c change) (send_queue c) in
  if alen pending_to_delete =? 0 then cret pending_to_delete
  else
    run! e := liftR (get_prop (c_id change) (store c)) in
    match e with
    | None => cthrow TypeError
    | Some e =>
      run! s := liftR (set_prop (c_id change)
                         (Entity (e_object e) (e_version e) (e_last e) None
                                 (e_check e))
                         (store c)) in
      run! _ := write (set_store c s) in
      run! _ := set_queue (filter (fun p => negb (acknowledges c change p))
                                  (send_queue c)) in
      cret pending_to_delete
    end.

(** A change that carries an error: the result is the new [reload_needed]. *)
Definition on_error (change : change) (error : Z) (reload_needed : bool)
  : C bool :=
  if error =? 409 then
    (* duplicate change, ignoring *)
    cret reload_needed
  else
    (* 405: bad version; anything else: error for last change, reloading *)
    run! c := read in
    run! present := liftR (has_in (c_id change) (store c)) in
    run! _ := if present then invalidate (c_id change) else cret tt in
    cret true.

(** A change that carries none: its operation is carried out.  The result
    is the new [reload_needed]. *)
Definition on_operation (fuel : nat) (change : change) (local : bool)
    (reload_needed : bool) : C bool :=
  let id := c_id change in
  if opt_str_eqb (c_o change) (Some (js "-")) then
    run! c := read in
    run! _ := write (set_store c (remove id (store c))) in
    run! _ := _remove_entity id in
    run! _ := if negb local then _notify_client fuel id VNull VNull None
              else cret tt in
    cret reload_needed
  else if opt_str_eqb (c_o change) (Some (js "M")) then
    run! c := read in
    run! s_data := liftR (get_prop id (store c)) in
    let sv_matches :=
      match c_sv change, s_data with
      | Some sv, Some e =>
        match e_version e with
        | Some v => v =? sv
        | None => false
        end
      | Some _, None => false
      | None, _ => true
      end in
    if sv_matches then
      run! e :=
        match s_data with
        | Some e => cret e
        | None =>
          let e := Entity (VObj []) None VNull None false in
          run! s := liftR (set_prop id e (store c)) in
          run! _ := write (set_store c s) in
          cret e
        end in
      run! orig_object := liftR (deepCopy (e_object e)) in
      run! object := liftM (apply_object_diff fuel (e_object e)
                              (c_v change)) in
      run! c := read in
      run! s := liftR (set_prop id
                         (Entity object (c_ev change) (e_last e)
                                 (e_change e) (e_check e))
                         (store c)) in
      run! _ := write (set_store c s) in
      run! new_object := liftR (deepCopy object) in
      run! _ := _save_entity id in
      run! _ := if negb local
                then _notify_client fuel id new_object orig_object
                       (c_v change)
                else cret tt in
      cret reload_needed
    else
      let old_or_duplicate :=
        match s_data, c_ev change with
        | Some e, Some ev =>
          match e_version e with
          | Some v => ev <=? v
          | None => false
          end
        | _, _ => false
        end in
      if old_or_duplicate then
        (* old or duplicate change received, ignoring *)
        cret reload_needed
      else
        (* version mismatch, couldn't apply change *)
        run! _ := match s_data with
                  | Some _ => invalidate id
                  | None => cret tt
                  end in
        cret true
  else
    (* no operation found for change *)
    cret reload_needed.

(** The end of the pass for a change without error. *)
Definition checkpoint (change : change) (reload_needed : bool) : C unit :=
  if negb reload_needed then
    run! _ := set_last_cv (c_cv change) in
    run! _ := _save_meta in
    cret tt
  else cret tt.

(** One pass of the loop of [on_changes]. *)
Definition on_change (fuel : nat) (change : change) (b : batch) : C batch :=
  run! pending_to_delete := settle_pending change in
  let local := negb (alen pending_to_delete =? 0) in
  let check_updates :=
    check_updates b ++ map (fun _ => c_id change) pending_to_delete in
  match c_error change with
  | Some error =>
    run! reload_needed := on_error change error (reload_needed b) in
    cret (Batch check_updates reload_needed)
  | None =>
    run! reload_needed := on_operation fuel change local (reload_needed b) in
    run! _ := checkpoint change reload_needed in
    cret (Batch check_updates reload_needed)
  end.




(** ** Objects with identity

    The functions above compute with values.  Whether a call changes an
    object it was given is a question about the objects themselves: here
    arrays and objects are cells of a heap and a value refers to its cell, so
    that two values can share one.  The diffs stay values: they are only
    read. *)
Inductive hval : Type :=
| HUndefined
| HNull
| HBool (b : bool)
| HNum (n : Z)
| HNaN
| HStr (s : jsstring)
| HRef (l : nat).

Inductive cell : Type :=
| CObj (props : list (jsstring * hval))
| CArr (elems : list hval).

(** Cells are allocated at increasing addresses; [next] is the first free
    one. *)
Record heap : Type := Heap { cells : gmap nat cell; next : nat }.

Definition HM (A : Type) : Type := heap * clock -> res A * (heap * clock).

Definition hret {A} (a : A) : HM A := fun s => (Ret a, s).
Definition hthrow {A} (e : exn) : HM A := fun s => (Throw e, s).
Definition hunknown {A} : HM A := fun s => (Unknown, s).
Definition hbind {A B} (m : HM A) (k : A -> HM B) : HM B :=
  fun s => match m s with
           | (Ret a, s') => k a s'
           | (Throw e, s') => (Throw e, s')
           | (Unknown, s') => (Unknown, s')
           end.
Notation "'hdo!' x ':=' m 'in' k" := (hbind m (fun x => k))
  (at level 10, x pattern, m at level 100, k at level 200).

Definition hliftR {A} (r : res A) : HM A := fun s => (r, s).
Definition hliftM {A} (m : M A) : HM A :=
  fun s => let (r, t) := m (snd s) in (r, (fst s, t)).

(** [{}] and [[]]: a new cell. *)
Definition alloc (c : cell) : HM nat :=
  fun s =>
    let h := fst s in
    (Ret (next h), (Heap (<[next h := c]> (cells h)) (S (next h)), snd s)).

Definition read_cell (l : nat) : HM cell :=
  fun s => match cells (fst s) !! l with
           | Some c => (Ret c, s)
           | None => (Unknown, s)
           end.

(** An assignment to a property or an element of the object at [l]. *)
Definition write_cell (l : nat) (c : cell) : HM unit :=
  fun s =>
    let h := fst s in
    match cells h !! l with
    | Some _ => (Ret tt, (Heap (<[l := c]> (cells h)) (next h), snd s))
    | None => (Unknown, s)
    end.

(** [obj[key]] and [obj[i]] *)
Definition helem (l : list hval) (i : Z) : hval :=
  if i <? 0 then HUndefined else nth (Z.to_nat i) l HUndefined.

Definition hget (obj : hval) (key : jsstring) : HM hval :=
  match obj with
  | HRef l =>
    hdo! c := read_cell l in
    match c with
    | CObj props =>
      hdo! v := hliftR (get_prop key props) in hret (default HUndefined v)
    | CArr elems =>
      match array_index key with
      | Some i => hret (helem elems i)
      | None => hunknown
      end
    end
  | HUndefined | HNull => hthrow TypeError
  | _ => hunknown
  end.

Definition hset_elem (l : list hval) (i : Z) (v : hval) : res (list hval) :=
  if i <? 0 then Unknown
  else if i <? alen l then Ret (set_at l i v)
  else Ret (l ++ repeat HUndefined (Z.to_nat (i - alen l)) ++ [v]).

(** [obj[key] = v] *)
Definition hset (obj : hval) (key : jsstring) (v : hval) : HM unit :=
  match obj with
  | HRef l =>
    hdo! c := read_cell l in
    match c with
    | CObj props =>
      hdo! props := hliftR (set_prop key v props) in write_cell l (CObj props)
    | CArr elems =>
      match array_index key with
      | Some i =>
        hdo! elems := hliftR (hset_elem elems i v) in write_cell l (CArr elems)
      | None => hunknown
      end
    end
  | HUndefined | HNull => hthrow TypeError
  | _ => hunknown
  end.

(** [delete obj[key]] on an object. *)
Definition hdelete (obj : hval) (key : jsstring) : HM unit :=
  match obj with
  | HRef l =>
    hdo! c := read_cell l in
    match c with
    | CObj props => write_cell l (CObj (remove key props))
    | CArr _ => hunknown
    end
  | HUndefined | HNull => hthrow TypeError
  | _ => hunknown
  end.

(** [obj[i]] and [obj[i] = v] for a number [i]. *)
Definition hget_index (obj : hval) (i : Z) : HM hval :=
  match obj with
  | HRef l =>
    hdo! c := read_cell l in
    match c with
    | CArr elems => hret (helem elems i)
    | CObj _ => hunknown
    end
  | HUndefined | HNull => hthrow TypeError
  | _ => hunknown
  end.

Definition hset_index (obj : hval) (i : Z) (v : hval) : HM unit :=
  match obj with
  | HRef l =>
    hdo! c := read_cell l in
    match c with
    | CArr elems =>
      hdo! elems := hliftR (hset_elem elems i v) in write_cell l (CArr elems)
    | CObj _ => hunknown
    end
  | HUndefined | HNull => hthrow TypeError
  | _ => hunknown
  end.

(** The loops of [deepCopy], for the function [copy] that copies a value:
    [out[i] = copy(obj[i])] for the indices below [n] from [i] on, and for
    the keys of [obj]. *)
Fixpoint copy_elems (copy : hval -> HM hval) (obj out : hval) (n : nat) (i : Z)
  : HM unit :=
  match n with
  | O => hret tt
  | S n' =>
    hdo! x := hget_index obj i in
    hdo! y := copy x in
    hdo! _ := hset_index out i y in
    copy_elems copy obj out n' (i + 1)
  end.

Fixpoint copy_props (copy : hval -> HM hval) (obj out : hval)
    (keys : list jsstring) : HM unit :=
  match keys with
  | [] => hret tt
  | i :: keys' =>
    hdo! x := hget obj i in
    hdo! y := copy x in
    hdo! _ := hset out i y in
    copy_props copy obj out keys'
  end.

(** [deepCopy]: [fuel] bounds the depth of the recursion. *)
Fixpoint deepCopy_h (fuel : nat) (obj : hval) : HM hval :=
  match fuel with
  | O => hunknown
  | S fuel' =>
    match obj with
    | HRef l =>
      hdo! c := read_cell l in
      match c with
      | CArr elems =>
        hdo! out := alloc (CArr []) in
        hdo! _ := copy_elems (deepCopy_h fuel') obj (HRef out)
                    (length elems) 0 in
        hret (HRef out)
      | CObj props =>
        hdo! out := alloc (CObj []) in
        hdo! _ := copy_props (deepCopy_h fuel') obj (HRef out)
                    (map fst props) in
        hret (HRef out)
      end
    | HNull => hdo! out := alloc (CObj []) in hret (HRef out)
    | _ => hret obj
    end
  end.

(** A value of a diff, placed in the heap.  In the source the value is an
    object of the diff and the assignment [patched[key] = op['v']] shares it;
    here it gets cells of its own. *)
Fixpoint alloc_value (v : Value) : HM hval :=
  match v with
  | VUndefined => hret HUndefined
  | VNull => hret HNull
  | VBool b => hret (HBool b)
  | VNum n => hret (HNum n)
  | VNaN => hret HNaN
  | VStr s => hret (HStr s)
  | VArr elems =>
    hdo! hs :=
      (fix go (l : list Value) : HM (list hval) :=
         match l with
         | [] => hret []
         | x :: l' =>
           hdo! y := alloc_value x in
           hdo! r := go l' in
           hret (y :: r)
         end) elems in
    hdo! l := alloc (CArr hs) in
    hret (HRef l)
  | VObj props =>
    hdo! hs :=
      (fix go (l : list (jsstring * Value)) : HM (list (jsstring * hval)) :=
         match l with
         | [] => hret []
         | (k, x) :: l' =>
           hdo! y := alloc_value x in
           hdo! r := go l' in
           hret ((k, y) :: r)
         end) props in
    hdo! l := alloc (CObj hs) in
    hret (HRef l)
  end.

(** [x += n] *)
Definition hadd (x : hval) (n : Z) : res hval :=
  match x with
  | HNum m => Ret (HNum (m + n))
  | HNaN | HUndefined => Ret HNaN
  | HNull => Ret (HNum n)
  | HBool b => Ret (HNum (b2z b + n))
  | HStr s => Ret (HStr (s ++ decimal n))
  | HRef _ => Unknown
  end.

(** What [diff_fromDelta] sees of a value that is not a string. *)
Definition shape (cur : hval) : HM Value :=
  match cur with
  | HUndefined => hret VUndefined
  | HNull => hret VNull
  | HBool b => hret (VBool b)
  | HNum n => hret (VNum n)
  | HNaN => hret VNaN
  | HStr s => hret (VStr s)
  | HRef l =>
    hdo! c := read_cell l in
    match c with
    | CArr [] => hret (VArr [])
    | CArr (_ :: _) => hret (VArr [VUndefined])
    | CObj _ => hret (VObj [])
    end
  end.

(** The ['d'] case. *)
Definition apply_delta_h (fuel : nat) (cur : hval) (delta : jsstring) : HM hval :=
  match cur with
  | HStr text =>
    hdo! dmp_diffs := hliftR (diff_fromDelta text delta) in
    hdo! dmp_patches := hliftR (patch_make fuel text dmp_diffs) in
    hdo! dmp_result := hliftM (patch_apply fuel dmp_patches text) in
    hret (HStr (fst dmp_result))
  | _ =>
    hdo! v := shape cur in
    hdo! _ := hliftR (fromDelta_untyped v (split_tab delta [])) in
    hunknown
  end.

(** One pass of the loop of [apply_object_diff]. *)
Definition apply_object_op (fuel : nat) (rec : op -> hval -> HM hval)
    (patched : hval) (key : jsstring) (o : op) : HM unit :=
  match o with
  | OpEmpty => hret tt
  | OpUndefined => hthrow TypeError
  | OpIns v | OpRep v =>
    hdo! x := alloc_value v in hset patched key x
  | OpDel => hdelete patched key
  | OpInt v =>
    hdo! cur := hget patched key in
    hdo! r := hliftR (hadd cur v) in
    hset patched key r
  | OpList _ | OpObj _ =>
    hdo! cur := hget patched key in
    hdo! r := rec o cur in
    hset patched key r
  | OpText delta =>
    hdo! cur := hget patched key in
    hdo! r := apply_delta_h fuel cur delta in
    hset patched key r
  end.

Fixpoint apply_object_each (fuel : nat) (rec : op -> hval -> HM hval)
    (patched : hval) (ds : objdiff) : HM unit :=
  match ds with
  | [] => hret tt
  | (key, o) :: ds' =>
    hdo! _ := apply_object_op fuel rec patched key o in
    apply_object_each fuel rec patched ds'
  end.

Definition apply_object_with (fuel : nat) (rec : op -> hval -> HM hval)
    (s : hval) (diffs : objdiff) : HM hval :=
  hdo! patched := deepCopy_h fuel s in
  hdo! _ := apply_object_each fuel rec patched diffs in
  hret patched.

(** [patched.splice(start, count, items...)] on the array at [l]. *)
Definition hsplice (patched : hval) (start count : Z) (items : list hval)
  : HM unit :=
  match patched with
  | HRef l =>
    hdo! c := read_cell l in
    match c with
    | CArr elems =>
      let start := if start <? 0 then Z.max (alen elems + start) 0
                   else Z.min start (alen elems) in
      let count := Z.min (Z.max count 0) (alen elems - start) in
      write_cell l (CArr (splice elems start count items))
    | CObj _ => hunknown
    end
  | HUndefined | HNull => hthrow TypeError
  | _ => hunknown
  end.

(** The arguments [[s_index, 1].concat(v)]: an array is spread. *)
Definition hconcat_arg (v : hval) : HM (list hval) :=
  match v with
  | HRef l =>
    hdo! c := read_cell l in
    match c with
    | CArr elems => hret elems
    | CObj _ => hret [v]
    end
  | _ => hret [v]
  end.

(** An array, as [apply_list_diff] needs its argument to be. *)
Definition is_array (patched : hval) : HM unit :=
  match patched with
  | HRef l =>
    hdo! c := read_cell l in
    match c with
    | CArr _ => hret tt
    | CObj _ => hunknown
    end
  | HUndefined | HNull => hthrow TypeError
  | _ => hunknown
  end.

(** One pass of the loop of [apply_list_diff]; [recurse] is the nested call
    for this operation. *)
Definition apply_list_op (fuel : nat) (patched : hval) (index : jsstring)
    (o : op) (recurse : hval -> HM hval) (deleted : list Z) : HM (list Z) :=
  match o with
  | OpEmpty => hret deleted
  | OpUndefined => hthrow TypeError
  | _ =>
    hdo! _ := is_array patched in
    hdo! n := hliftR (key_number index) in
    let shift := alen (filter (fun x => x <=? n) deleted) in
    let s_index := n - shift in
    match o with
    | OpIns v =>
      hdo! x := alloc_value v in
      hdo! items := hconcat_arg x in
      hdo! _ := hsplice patched s_index 1 items in
      hret deleted
    | OpDel =>
      hdo! _ := hsplice patched s_index 1 [] in
      hret (deleted ++ [s_index])
    | OpRep v =>
      hdo! x := alloc_value v in
      hdo! _ := hset_index patched s_index x in
      hret deleted
    | OpInt v =>
      hdo! cur := hget_index patched s_index in
      hdo! r := hliftR (hadd cur v) in
      hdo! _ := hset_index patched s_index r in
      hret deleted
    | OpList _ | OpObj _ =>
      hdo! cur := hget_index patched s_index in
      hdo! r := recurse cur in
      hdo! _ := hset_index patched s_index r in
      hret deleted
    | OpText delta =>
      hdo! cur := hget_index patched s_index in
      hdo! r := apply_delta_h fuel cur delta in
      hdo! _ := hset_index patched s_index r in
      hret deleted
    | OpEmpty | OpUndefined => hret deleted
    end
  end.

Fixpoint apply_list_each (fuel : nat) (patched : hval)
    (ds : list (jsstring * (op * (hval -> HM hval)))) (deleted : list Z)
  : HM unit :=
  match ds with
  | [] => hret tt
  | (index, (o, recurse)) :: ds' =>
    hdo! deleted := apply_list_op fuel patched index o recurse deleted in
    apply_list_each fuel patched ds' deleted
  end.

Definition apply_list_with (fuel : nat) (s : hval)
    (diffs : list (jsstring * (op * (hval -> HM hval)))) : HM hval :=
  hdo! patched := deepCopy_h fuel s in
  hdo! _ := apply_list_each fuel patched (sort_keys diffs) [] in
  hret patched.

(** [apply_object_diff] and [apply_list_diff] on the heap, as
    [apply_diff] is on values. *)
Fixpoint apply_diff_h (fuel : nat) (o : op) (s : hval) {struct o} : HM hval :=
  match o with
  | OpObj diffs => apply_object_with fuel (apply_diff_h fuel) s diffs
  | OpList diffs =>
    apply_list_with fuel s
      (map (fun kv : jsstring * op =>
              (fst kv, (snd kv, apply_diff_h fuel (snd kv)))) diffs)
  | _ => hunknown
  end.

Definition apply_object_diff_h (fuel : nat) (s : hval) (diffs : option objdiff)
  : HM hval :=
  apply_diff_h fuel (OpObj (default [] diffs)) s.

(** The store of the client and [get], with the snapshots in the heap. *)
Record hentity : Type := HEntity {
  h_object : hval;
  h_version : option Z }.

Definition get_h (fuel : nat) (store : list (jsstring * hentity))
    (id : jsstring) : HM hval :=
  hdo! e := hliftR (get_prop id store) in
  match e with
  | Some e => deepCopy_h fuel (h_object e)
  | None => hret HNull
  end.

(** ** The notions the properties are stated with *)

(** A clock that stands still: every reading is the same instant, so no
    deadline of the text engine passes. *)
Definition still : clock := Clock (fun _ => 0) 0.

(** The outcome of a computation started on the still clock. *)
Definition outcome {A} (m : M A) : res A := fst (m still).

Definition is_unknown {A} (r : res A) : bool :=
  match r with Unknown => true | _ => false end.

(** The client as the constructor leaves it when localStorage holds nothing
    of it, and [set_notify]. *)
Definition new_client (id : jsstring) : client :=
  Client id 1 (VNum 0) [] [] false None false [] (Storage IsStorage (fun _ => false) 0 None None []) [] still.

Definition set_notify (c : client) : client :=
  Client (clientid c) (ccid c) (last_cv c) (store c) (send_queue c)
         (initialized c) (cb_get_data c) true (notified c)
         (local_storage c) (timers c) (now c).

(** *** Malformed deltas

    A delta is a tab-separated list of tokens: [+text] with [text] escaped,
    [-n] and [=n] with [n] a count, and blank tokens.  It is malformed for a
    text when a token has a bad escape, a bad count or another first
    character, or when the counts do not add up to the length of the text. *)
Inductive token_class : Type :=
| TInsert
| TCount (n : Z)
| TBlank
| TBad.

Definition classify (token : jsstring) : token_class :=
  match token with
  | [] => TBlank
  | 43%N :: param =>
    match decodeURI param with
    | Ret _ => TInsert
    | _ => TBad
    end
  | 45%N :: param | 61%N :: param =>
    match parseInt10 param with
    | Some n => if n <? 0 then TBad else TCount n
    | None => TBad
    end
  | _ :: _ => TBad
  end.

Definition is_bad (token : jsstring) : bool :=
  match classify token with TBad => true | _ => false end.

Fixpoint counted (tokens : list jsstring) : Z :=
  match tokens with
  | [] => 0
  | token :: tokens' =>
    match classify token with
    | TCount n => n + counted tokens'
    | _ => counted tokens'
    end
  end.

Definition malformed_delta (text delta : jsstring) : bool :=
  let tokens := split_tab delta [] in
  existsb is_bad tokens || negb (counted tokens =? len text).

(** *** Heaps

    [changes_from n h h']: from [h] to [h'] no cell below address [n] has
    changed, and none has been given back. *)
Definition changes_from (n : nat) (h h' : heap) : Prop :=
  (next h <= next h')%nat /\
  forall l, (l < n)%nat -> cells h' !! l = cells h !! l.

(** Every cell is below [next]. *)
Definition wf (h : heap) : Prop :=
  forall l, (next h <= l)%nat -> cells h !! l = None.

(** [preserved h h']: every cell of [h] is in [h'] as it was. *)
Definition preserved (h h' : heap) : Prop :=
  forall l c, cells h !! l = Some c -> cells h' !! l = Some c.

(** A value that is not an object of the heap below [n]. *)
Definition new_from (n : nat) (v : hval) : Prop :=
  match v with
  | HRef l => (n <= l)%nat
  | _ => True
  end.

(** The value that [v] stands for in [h], read to depth [d]: [None] when
    [v] is deeper than that or refers to no cell. *)
Fixpoint read_elems (read : hval -> option Value) (l : list hval)
  : option (list Value) :=
  match l with
  | [] => Some []
  | x :: l' =>
    match read x, read_elems read l' with
    | Some y, Some r => Some (y :: r)
    | _, _ => None
    end
  end.

Fixpoint read_props (read : hval -> option Value) (l : list (jsstring * hval))
  : option (list (jsstring * Value)) :=
  match l with
  | [] => Some []
  | (k, x) :: l' =>
    match read x, read_props read l' with
    | Some y, Some r => Some ((k, y) :: r)
    | _, _ => None
    end
  end.

Fixpoint read_value (d : nat) (h : heap) (v : hval) : option Value :=
  match v with
  | HUndefined => Some VUndefined
  | HNull => Some VNull
  | HBool b => Some (VBool b)
  | HNum n => Some (VNum n)
  | HNaN => Some VNaN
  | HStr s => Some (VStr s)
  | HRef l =>
    match d with
    | O => None
    | S d' =>
      match cells h !! l with
      | Some (CArr elems) => option_map VArr (read_elems (read_value d' h) elems)
      | Some (CObj props) => option_map VObj (read_props (read_value d' h) props)
      | None => None
      end
    end
  end.

(** No object of the value owns a property named [__proto__]. *)
Fixpoint no_proto (v : Value) : bool :=
  match v with
  | VArr elems => forallb no_proto elems
  | VObj props =>
    forallb (fun kv => negb (str_eqb (fst kv) proto_name) && no_proto (snd kv))
            props
  | _ => true
  end.

(** *** Inputs

    The exception of [match_bitap_]. *)
Definition too_long : exn := Error "Pattern too long for this browser.".

(** A client with two entities: [A], whose working copy is the confirmed
    object, and [B], whose working copy has a property more. *)
Definition two_entities : client :=
  Client (js "me") 1 (VNum 0)
    [(js "A", Entity (VObj []) None (VObj []) None false);
     (js "B", Entity (VObj []) None (VObj [(js "x", VNum 1)]) None false)]
    [] false None true [] (Storage IsStorage (fun _ => false) 0 None None []) [] still.


(** *** The checkpoint

    [same_cv c c']: the checkpoint [last_cv] and its copy in localStorage are
    in [c'] what they are in [c]. *)
Definition same_cv (c c' : client) : Prop :=
  last_cv c' = last_cv c /\
  ls_last_cv (local_storage c') = ls_last_cv (local_storage c).





Definition any {A} : A -> Prop := fun _ => True.




Definition modification : change :=
  Change (js "B") None None None None (Some 1) (Some (js "X"))
         (Some (js "M")) (Some []) None.


(** *** Frames

    A value is new for [n] when it is not an object below [n]; a cell is new
    when its values are, and a heap is closed above [n] when its cells at
    [n] and above are new: nothing new refers to an object below [n]. *)
Definition cell_new (n : nat) (c : cell) : Prop :=
  match c with
  | CObj props => Forall (fun kv => new_from n (snd kv)) props
  | CArr elems => Forall (new_from n) elems
  end.

Definition new_closed (n : nat) (h : heap) : Prop :=
  forall l c, (n <= l)%nat -> cells h !! l = Some c -> cell_new n c.

(** [frame n h0 h]: [h] has come from [h0] by allocations and by writes to
    cells at [n] and above, where [n] is not beyond what [h0] has
    allocated. *)
Definition frame (n : nat) (h0 h : heap) : Prop :=
  (n <= next h0)%nat /\ changes_from n h0 h /\ new_closed n h /\ wf h.

(** [hoare I m Q]: [m] keeps the invariant [I] of the heap, and what it
    returns satisfies [Q]. *)
Definition hoare {A} (I : heap -> Prop) (m : HM A) (Q : A -> Prop) : Prop :=
  forall st, I (fst st) ->
    I (fst (snd (m st))) /\ forall a, fst (m st) = Ret a -> Q a.

(** [l] is an object that can be reached from [v] in [h]. *)
Inductive reach (h : heap) : hval -> nat -> Prop :=
| reach_here l : reach h (HRef l) l
| reach_prop l props k v l' :
    cells h !! l = Some (CObj props) -> In (k, v) props -> reach h v l' ->
    reach h (HRef l) l'
| reach_elem l elems v l' :
    cells h !! l = Some (CArr elems) -> In v elems -> reach h v l' ->
    reach h (HRef l) l'.


(** A value that can be read, as a value in which no object owns
    [__proto__]. *)
Definition readable (read : hval -> option Value) (x : hval) : Prop :=
  exists t, read x = Some t /\ no_proto t = true.

(** The object at [out] has the string [text] under [key]. *)
Definition has_text (out : nat) (key text : jsstring) (h : heap) : Prop :=
  wf h /\
  exists props, cells h !! out = Some (CObj props) /\
                lookup key props = Some (HStr text).


(** A heap with one object, [{n: 1, t: "abc"}], and a diff of it whose
    second operation has a delta that keeps two characters of the three. *)
Definition one_note : heap :=
  Heap {[ 0%nat := CObj [(js "n", HNum 1); (js "t", HStr (js "abc"))] ]} 1.

Definition bad_diff : objdiff :=
  [(js "n", OpInt 1); (js "t", OpText (js "=2")); (js "z", OpDel)].

(** A heap with the snapshot [{a: [1, null]}] of an entity. *)
Definition one_entity : heap :=
  Heap {[ 0%nat := CObj [(js "a", HRef 1)]; 1%nat := CArr [HNum 1; HNull] ]} 2.


(** *** Counts of a text diff

    The numbers of characters that a diff inserts and deletes. *)
Definition inserted (diffs : diffs_t) : Z :=
  len (concat (map (fun d : Diff =>
                      if dop_eqb (fst d) DIFF_INSERT then snd d else []) diffs)).

Definition deleted (diffs : diffs_t) : Z :=
  len (concat (map (fun d : Diff =>
                      if dop_eqb (fst d) DIFF_DELETE then snd d else []) diffs)).


(** A client with a change for [A] in its send queue. *)
Definition pending_client : client :=
  Client (js "me") 5 (VNum 0)
    [(js "A", Entity (VObj []) None (VObj [(js "x", VNum 1)]) None false)]
    [Change (js "A") (Some (js "4")) None None None None None
            (Some (js "M")) (Some [(js "x", OpIns (VNum 1))]) None]
    false None true [] (Storage IsStorage (fun _ => false) 0 None None []) [] still.


(** *** Common prefixes and suffixes *)

(** The length of the longest common prefix, and of the longest common
    suffix. *)
Fixpoint prefix_length (a b : jsstring) : nat :=
  match a, b with
  | x :: a', y :: b' => if N.eqb x y then S (prefix_length a' b') else O
  | _, _ => O
  end.

Definition suffix_length (a b : jsstring) : nat :=
  prefix_length (rev a) (rev b).

(** The search that [diff_commonPrefix] and [diff_commonSuffix] make, for
    the test [same from to] of a segment. *)
Fixpoint halving (same : Z -> Z -> bool) (fuel : nat)
    (pointermin pointermax pointermid pointerstart : Z) : res Z :=
  match fuel with
  | O => Unknown
  | S fuel' =>
    if pointermin <? pointermid then
      if same pointerstart pointermid
      then halving same fuel' pointermid pointermax
             ((pointermax - pointermid) / 2 + pointermid) pointermid
      else halving same fuel' pointermin pointermid
             ((pointermid - pointermin) / 2 + pointermin) pointerstart
    else Ret pointermid
  end.

(** *** Decimal numerals and escapes *)

(** The character of a decimal digit. *)
Definition digit (d : Z) : N := Z.to_N (48 + d).

(** A string of 16-bit code units, as every string of the program is. *)
Definition code_units (s : jsstring) : Prop :=
  Forall (fun c => (c < 65536)%N) s.

(** [e], with its [%20] written as spaces, stands for [text]: it is made of
    whole escapes, holds no tab, and decodes to [text]. *)
Definition decoded (e text : jsstring) : Prop :=
  (forall R, replace_percent20 (e ++ R)
             = replace_percent20 e ++ replace_percent20 R) /\
  Forall (fun c => c <> 9%N) (replace_percent20 e) /\
  forall fuel, (length (replace_percent20 e) < fuel)%nat ->
    decodeURI_loop fuel (replace_percent20 e) = Ret text.

(** *** The texts of a diff *)

(** A diff rebuilds the two texts it was computed from. *)
Definition rebuilds (diffs : diffs_t) (text1 text2 : jsstring) : Prop :=
  diff_text1 diffs = text1 /\ diff_text2 diffs = text2.

(** The entries before the pointer end with an equality, if there are any. *)
Definition ends_equal (pre : diffs_t) : Prop :=
  pre = [] \/ exists pre' e, pre = pre' ++ [(DIFF_EQUAL, e)].

(** The first sweep of [diff_cleanupMerge], at an entry: the entries are
    [pre], the run of insertions and deletions counted so far, and the rest;
    the two texts collected are those of the run. *)
Definition sweep_inv (st : merge_state) : Prop :=
  exists pre run post,
    ms_diffs st = pre ++ run ++ post /\
    ms_pointer st = alen pre + alen run /\
    ms_count_delete st + ms_count_insert st = alen run /\
    0 <= ms_count_delete st /\ 0 <= ms_count_insert st /\
    (ms_count_delete st = 0 -> ms_text_delete st = []) /\
    (ms_count_insert st = 0 -> ms_text_insert st = []) /\
    ms_text_delete st = diff_text1 run /\
    ms_text_insert st = diff_text2 run /\
    ends_equal pre.

(** The same while the run is being factored: the texts [td] and [ti] are
    what is left of the run, which stands before the equality [e]. *)
Definition factor_inv (cd ci : Z) (text1 text2 : jsstring)
    (diffs : diffs_t) (pointer : Z) (td ti : jsstring) : Prop :=
  exists pre run e post,
    diffs = pre ++ run ++ (DIFF_EQUAL, e) :: post /\
    pointer = alen pre + alen run /\
    alen run = cd + ci /\
    ends_equal pre /\
    text1 = diff_text1 pre ++ td ++ e ++ diff_text1 post /\
    text2 = diff_text2 pre ++ ti ++ e ++ diff_text2 post.

(** The best half match found so far splits the two texts around the same
    middle. *)
Definition half_inv (longtext shorttext : jsstring) (st : hmI_state) : Prop :=
  best_common st = [] \/
  (longtext = best_longtext_a st ++ best_common st ++ best_longtext_b st /\
   shorttext = best_shorttext_a st ++ best_common st ++ best_shorttext_b st).

(** The line-by-line pass is not taken: it is asked for only on texts of
    more than 100 characters each. *)
Definition line_mode_off (checklines : bool) (text1 text2 : jsstring) : Prop :=
  checklines = false \/ len text1 <= 100 \/ len text2 <= 100.

(** The line-by-line pass, if it is taken, has a code unit for every line:
    the two texts have fewer than 65535 characters together. *)
Definition lines_fit (checklines : bool) (text1 text2 : jsstring) : Prop :=
  line_mode_off checklines text1 text2 \/ len text1 + len text2 < 65535.

(** What is known of the recursive calls. *)
Definition rebuilding (diff_main : diff_main_t) : Prop :=
  forall text1 text2 checklines deadline clk diffs clk',
    lines_fit checklines text1 text2 ->
    diff_main text1 text2 checklines deadline clk = (Ret diffs, clk') ->
    rebuilds diffs text1 text2.

(** *** Plain values and structural diffs *)

(** No two properties have the same key. *)
Fixpoint unique_keys {A} (l : list (jsstring * A)) : bool :=
  match l with
  | [] => true
  | (k, _) :: l' => negb (existsb (str_eqb k) (map fst l')) && unique_keys l'
  end.

Definition is_name (k : jsstring) : bool :=
  match array_index k with None => true | Some _ => false end.

(** Array indices first, in ascending order, then the other keys. *)
Fixpoint indices_first (lo : Z) (ks : list jsstring) : bool :=
  match ks with
  | [] => true
  | k :: ks' =>
    match array_index k with
    | Some n => (lo <? n) && indices_first n ks'
    | None => forallb is_name ks'
    end
  end.

(** The properties of an object as it enumerates them, none of them named
    like a member of [Object.prototype]. *)
Definition enumeration_order {A} (l : list (jsstring * A)) : bool :=
  indices_first (-1) (map fst l) && unique_keys l
  && forallb (fun kv => negb (proto_member (fst kv))) l.

(** A value made of booleans, numbers, strings, arrays and objects. *)
Fixpoint plain (v : Value) : bool :=
  match v with
  | VBool _ | VNum _ | VStr _ => true
  | VArr elems => forallb plain elems
  | VObj props =>
    enumeration_order props && forallb (fun kv => plain (snd kv)) props
  | VUndefined | VNull | VNaN => false
  end.

(** The loops of [object_equals], [apply_object_diff] and [deepCopy], by
    name. *)
Definition object_equals_a (pb : list (jsstring * Value))
  : list (jsstring * Value) -> res bool :=
  fix in_a (l : list (jsstring * Value)) : res bool :=
    match l with
    | [] => Ret true
    | (key, x) :: l' =>
      let! present := has_in key pb in
      if negb present then Ret false
      else
        let! e := equals x (default VUndefined (lookup key pb)) in
        if negb e then Ret false else in_a l'
    end.

Definition object_equals_b (pa : list (jsstring * Value))
  : list (jsstring * Value) -> res bool :=
  fix in_b (l : list (jsstring * Value)) : res bool :=
    match l with
    | [] => Ret true
    | (key, _) :: l' =>
      let! present := has_in key pa in
      if negb present then Ret false else in_b l'
    end.

Fixpoint list_equals (la lb : list Value) : res bool :=
  match la, lb with
  | x :: la', y :: lb' =>
    let! e := equals x y in
    if negb e then Ret false else list_equals la' lb'
  | _, _ => Ret true
  end.

Fixpoint copy_list (l : list Value) : res (list Value) :=
  match l with
  | [] => Ret []
  | x :: l' =>
    let! y := deepCopy x in
    let! r := copy_list l' in
    Ret (y :: r)
  end.

Fixpoint copy_object (l out : list (jsstring * Value))
  : res (list (jsstring * Value)) :=
  match l with
  | [] => Ret out
  | (i, x) :: l' =>
    let! y := deepCopy x in
    let! out := set_prop i y out in
    copy_object l' out
  end.

(** The loop of [apply_object_diff], by name. *)
Definition apply_each (fuel : nat) : list (jsstring * op) -> Value -> M Value :=
  fix each (ds : list (jsstring * op)) (patched : Value) : M Value :=
    match ds with
    | [] => mret patched
    | (key, op) :: ds' =>
      match op, patched with
      | OpEmpty, _ => each ds' patched
      | OpUndefined, _ | _, VUndefined => mthrow TypeError
      | _, VObj props =>
        do! props :=
          match op with
          | OpIns v | OpRep v => lift (set_prop key v props)
          | OpDel => mret (remove key props)
          | OpInt v =>
            do! cur := lift (get_prop key props) in
            do! r := lift (js_add (default VUndefined cur) v) in
            lift (set_prop key r props)
          | OpList _ | OpObj _ =>
            do! cur := lift (get_prop key props) in
            do! r := apply_diff fuel op (default VUndefined cur) in
            lift (set_prop key r props)
          | OpText delta =>
            do! cur := lift (get_prop key props) in
            do! r := apply_delta fuel (default VUndefined cur) delta in
            lift (set_prop key r props)
          | OpEmpty | OpUndefined => mret props
          end in
        each ds' (VObj props)
      | _, _ => munknown
      end
    end.

(** A diff made of ['+'], ['-'], ['r'] and ['O'] operations only. *)
Fixpoint structural (o : op) : bool :=
  match o with
  | OpIns _ | OpDel | OpRep _ => true
  | OpObj d => forallb (fun kv => structural (snd kv)) d
  | _ => false
  end.

Definition structural_diff (d : objdiff) : bool :=
  forallb (fun kv => structural (snd kv)) d.

(** What [diff] may have given for two values. *)
Definition diff_of (fuel : nat) (x y : Value) (o : op) : Prop :=
  exists c c', diff fuel x y c = (Ret o, c').

(** The entry of key [k] in the diff of two objects. *)
Definition diff_entry (fuel : nat) (pa pb : list (jsstring * Value))
    (k : jsstring) (entry : option op) : Prop :=
  match lookup k pa, lookup k pb with
  | Some x, Some y =>
    (equals x y = Ret true /\ entry = None) \/
    (equals x y = Ret false /\ exists o, diff_of fuel x y o /\ entry = Some o)
  | Some _, None => entry = Some OpDel
  | None, Some y => entry = Some (OpIns y)
  | None, None => entry = None
  end.

(** The patched object agrees with the target at key [k]. *)
Definition agrees (pb r : list (jsstring * Value)) (k : jsstring) : Prop :=
  match lookup k pb with
  | Some y => exists v, lookup k r = Some v /\ equals v y = Ret true
  | None => lookup k r = None
  end.

(** What the round trip says of one pair of objects. *)
Definition round_trip (fuel : nat) (a : Value) : Prop :=
  forall pa pb d c c',
    a = VObj pa ->
    plain (VObj pa) = true -> plain (VObj pb) = true ->
    object_diff fuel (VObj pa) (VObj pb) c = (Ret d, c') ->
    structural_diff d = true ->
    exists r,
      (forall clk, apply_diff fuel (OpObj d) (VObj pa) clk = (Ret r, clk)) /\
      equals r (VObj pb) = Ret true.

(** A record before and after an edit. *)
Definition record_before : list (jsstring * Value) :=
  [(js "0", VNum 7); (js "a", VNum 1);
   (js "b", VObj [(js "c", VBool true); (js "d", VStr (js "s"))]);
   (js "e", VArr [VNum 1; VNum 2])].

Definition record_after : list (jsstring * Value) :=
  [(js "0", VNum 7); (js "a", VNum 2);
   (js "b", VObj [(js "c", VBool true); (js "d", VStr (js "s"));
                  (js "f", VNum 3)]);
   (js "g", VStr (js "new"))].

(** *** The cleanup passes and the line-by-line pass *)

(** The equality last pushed is the entry its index names. *)
Definition last_pushed (diffs : diffs_t) (equalities : gmap Z Z)
    (equalitiesLength : Z) (lastequality : jsstring) : Prop :=
  exists e, equalities !! (equalitiesLength - 1) = Some e /\
            at_ diffs e = Ret (DIFF_EQUAL, lastequality).

(** In [diff_cleanupEfficiency], a candidate equality is the one last
    pushed. *)
Definition efficiency_inv (st : efficiency_state) : Prop :=
  is_empty (es_lastequality st) = false ->
  last_pushed (es_diffs st) (es_equalities st) (es_equalitiesLength st)
    (es_lastequality st).

(** The same in [diff_cleanupSemantic]. *)
Definition semantic_inv (st : semantic_state) : Prop :=
  forall lastequality, ss_lastequality st = Some lastequality ->
  last_pushed (ss_diffs st) (ss_equalities st) (ss_equalitiesLength st)
    lastequality.

(** The three texts of an edit between two equalities, slid sideways: the
    whole and the two equalities together stay what they were. *)
Definition slid (whole sides : jsstring) (best : lossless_best) : Prop :=
  bestEquality1 best ++ bestEdit best ++ bestEquality2 best = whole /\
  bestEquality1 best ++ bestEquality2 best = sides.

(** An equality, or nothing when its text is empty. *)
Definition equality_or_nothing (t : jsstring) : diffs_t :=
  if negb (is_empty t) then [(DIFF_EQUAL, t)] else [].

(** The last [k] characters of [text1] are the first [k] of [text2]. *)
Definition overlap (text1 text2 : jsstring) (k : Z) : Prop :=
  0 <= k <= len text1 /\ k <= len text2 /\
  substring_from text1 (len text1 - k) = substring text2 0 k.

(** The text a string of line numbers stands for. *)
Definition lines_of (lineArray : gmap Z jsstring) (chars : jsstring) : jsstring :=
  concat (map (fun c => default [] (lineArray !! Z.of_N c)) chars).

(** The tables of [diff_linesToChars_]: the array is filled below its
    length, and the hash holds indices of the lines themselves. *)
Definition tables_ok (t : line_tables) : Prop :=
  1 <= lineArrayLength t /\
  (forall i, lineArrayLength t <= i -> lineArray t !! i = None) /\
  (forall line i, lineHash t !! line = Some i ->
                  lineArray t !! i = Some line /\ 0 <= i < lineArrayLength t).

(** The loop of [diff_lineMode_], at an entry: the entries are [pre], the
    run of insertions and deletions counted so far, and the rest; the two
    texts collected are those of the run; the diff rebuilds the two texts
    and still ends with the dummy entry. *)
Definition rediff_inv (text1 text2 : jsstring) (st : merge_state) : Prop :=
  exists pre run post,
    ms_diffs st = pre ++ run ++ post /\
    ms_pointer st = alen pre + alen run /\
    ms_count_delete st + ms_count_insert st = alen run /\
    0 <= ms_count_delete st /\ 0 <= ms_count_insert st /\
    ms_text_delete st = diff_text1 run /\
    ms_text_insert st = diff_text2 run /\
    rebuilds (ms_diffs st) text1 text2 /\
    exists body, ms_diffs st = body ++ [(DIFF_EQUAL, [])].

(** An operation that holds no ['L'] and no ['I'] operation, at any depth,
    and no missing one. *)
Fixpoint no_list_op (o : op) : bool :=
  match o with
  | OpIns _ | OpDel | OpRep _ | OpText _ | OpEmpty => true
  | OpObj d => forallb (fun kv => no_list_op (snd kv)) d
  | OpInt _ | OpList _ | OpUndefined => false
  end.

(** Two texts of more than 100 characters each, with lines changed
    throughout: what the line-by-line pass is for. *)
Definition report_before : jsstring :=
  js "alpha one" ++ [10%N] ++ js "bravo two" ++ [10%N] ++
  js "charlie three" ++ [10%N] ++ js "delta four" ++ [10%N] ++
  js "echo five" ++ [10%N] ++ js "foxtrot six" ++ [10%N] ++
  js "golf seven" ++ [10%N] ++ js "hotel eight" ++ [10%N] ++
  js "india nine" ++ [10%N] ++ js "juliet ten" ++ [10%N] ++
  js "kilo eleven" ++ [10%N].

Definition report_after : jsstring :=
  js "alpha 1" ++ [10%N] ++ js "bravo two" ++ [10%N] ++
  js "charlie 3" ++ [10%N] ++ js "delta four" ++ [10%N] ++
  js "echo 5" ++ [10%N] ++ js "foxtrot six" ++ [10%N] ++
  js "golf 7" ++ [10%N] ++ js "hotel eight" ++ [10%N] ++
  js "india 9" ++ [10%N] ++ js "juliet ten" ++ [10%N] ++
  js "kilo 11 and some more text to be long" ++ [10%N] ++
  js "lima twelve is a new line at the end".

(** ** Properties of the diff engines *)

(** *** Transformation *)

(** When no key of the local diff is in the remote one, every pass of the
    loop of [transform_object_diff] continues and the function returns
    nothing. *)
Lemma transform_object_each_disjoint rec bd s ad_new l clk :
  forallb (fun kv => match has_in (fst kv) bd with
                     | Ret false => true
                     | _ => false
                     end) l = true ->
  transform_object_each rec bd s ad_new l clk = (Ret None, clk).
Proof.
  induction l as [|[key aop] l IH]; simpl; intros H.
  - reflexivity.
  - apply andb_prop in H as [Hk Hl].
    unfold mbind', lift at 1.
    destruct (has_in key bd) as [[|] | |]; try discriminate.
    simpl. apply IH, Hl.
Qed.

(** C1: convergence of the transformation fails in the code.  For the base
    object [{}], the local diff [{a: +1}] and the remote diff [{b: +2}], each
    transformation over the other returns undefined, since the diffs share
    no key; applying it changes nothing.  So the replica that applied the
    remote diff first ends as [{b: 2}] and the one that applied the local
    diff first ends as [{a: 1}]. *)
Theorem transform_object_diff_diverges :
  let s := VObj [] in
  let ad := [(js "a", OpIns (VNum 1))] in
  let bd := [(js "b", OpIns (VNum 2))] in
  outcome (transform_object_diff 100 ad bd s) = Ret None /\
  outcome (transform_object_diff 100 bd ad s) = Ret None /\
  (exists s_b,
      outcome (apply_object_diff 100 s (Some bd)) = Ret s_b /\
      outcome (apply_object_diff 100 s_b None) = Ret (VObj [(js "b", VNum 2)])) /\
  (exists s_a,
      outcome (apply_object_diff 100 s (Some ad)) = Ret s_a /\
      outcome (apply_object_diff 100 s_a None) = Ret (VObj [(js "a", VNum 1)])).
Proof.
  cbv zeta. repeat split.
  - exists (VObj [(js "b", VNum 2)]). split; vm_compute; reflexivity.
  - exists (VObj [(js "a", VNum 1)]). split; vm_compute; reflexivity.
Qed.

(** *** Structural diff and patch *)

(** C2: the round trip of [object_diff] and [apply_object_diff] fails in the
    code.  For [a = b = {x: null}] the diff is empty and applying it returns
    the copy of [a], in which [deepCopy] has turned the null into an object
    with no properties: [{x: {}}], which is not [b]. *)
Theorem object_diff_round_trip_null :
  let a := VObj [(js "x", VNull)] in
  let b := VObj [(js "x", VNull)] in
  outcome (object_diff 100 a b) = Ret [] /\
  outcome (apply_object_diff 100 a (Some [])) = Ret (VObj [(js "x", VObj [])]) /\
  equals (VObj [(js "x", VObj [])]) b = Ret false.
Proof. cbv zeta. repeat split; vm_compute; reflexivity. Qed.

(** The round trip fails as well when two strings differ inside a surrogate
    pair: the text diff splits the pair and [encodeURI] throws on the half
    it is given, so [object_diff] does not return. *)
Lemma object_diff_surrogates :
  let a := VObj [(js "t", VStr [55357; 56832]%N)] in
  let b := VObj [(js "t", VStr [55357; 56833]%N)] in
  outcome (object_diff 100 a b) = Throw URIError.
Proof. vm_compute. reflexivity. Qed.

(** *** Text diff *)

(** C3: [diff_main] does not return a diff for every pair of strings.  When
    both texts are longer than 100 characters and share nothing, the texts
    are diffed by line, and the table of the lines seen so far is an object
    indexed by the line.  Once the line [hasOwnProperty] is in the table,
    looking up the next line calls a number: for fifty lines [a] followed by
    the line [hasOwnProperty] against fifty-one lines [b], [diff_main]
    throws a TypeError. *)
Theorem diff_main_line_table :
  let text1 := concat (repeat (js "a
") 50) ++ js "hasOwnProperty" in
  let text2 := concat (repeat (js "b
") 51) in
  outcome (diff_main 100 text1 text2 None None) = Throw TypeError.
Proof. vm_compute. reflexivity. Qed.

(** *** Transformation of list diffs *)

(** C4: [transform_list_diff] does not rekey index [i] to
    [i + |B+ <= i| - |B- <= i|].  With an empty remote diff the deletion at
    index 1 should stay at index 1; the code computes the shifts as the
    length of an array that holds one array, which is 1, and adds the first
    to the key as a string: the key becomes ["11" - 1], that is 10. *)
Theorem transform_list_diff_rekeys_wrongly :
  outcome (transform_list_diff 100 [(js "1", OpDel)] [] (VArr [VNum 1; VNum 2]))
  = Ret [(js "10", OpDel)].
Proof. vm_compute. reflexivity. Qed.

(** When the new key is a key of the remote diff, the remote operation is
    read from the property named [index], which the diff does not have. *)
Lemma transform_list_diff_reads_index :
  outcome (transform_list_diff 100 [(js "1", OpDel)] [(js "10", OpDel)]
             (VArr [VNum 1; VNum 2]))
  = Throw TypeError.
Proof. vm_compute. reflexivity. Qed.

(** *** The delta codec *)

(** C5: the round trip through [diff_toDelta] and [diff_fromDelta] fails in
    the code for two strings that differ inside a surrogate pair.  The diff
    of U+1F600 and U+1F601 keeps the high surrogate and replaces the low one;
    [encodeURI] throws on the lone low surrogate of the insertion, so
    [diff_toDelta] produces no delta to decode. *)
Theorem diff_toDelta_surrogates :
  let a := [55357; 56832]%N in
  let b := [55357; 56833]%N in
  let diffs := [(DIFF_EQUAL, [55357%N]); (DIFF_DELETE, [56832%N]);
                (DIFF_INSERT, [56833%N])] in
  outcome (diff_main 100 a b None None) = Ret diffs /\
  diff_toDelta diffs = Throw URIError.
Proof. cbv zeta. split; vm_compute; reflexivity. Qed.

(** *** Match *)

(** The guard of [match_bitap_]. *)
Lemma match_bitap_too_long fuel text pattern loc :
  Match_MaxBits < len pattern ->
  match_bitap_ fuel text pattern loc = Throw too_long.
Proof.
  intros H. unfold match_bitap_.
  apply Z.ltb_lt in H. rewrite H. reflexivity.
Qed.

(** C6, as the claim has it, fails: a pattern of 33 code units is longer
    than [Match_MaxBits], and [match_main] answers 0 for it when the text is
    the pattern itself. *)
Lemma match_main_long_pattern_answered :
  (Match_MaxBits <? len (repeat 97%N 33)) = true /\
  match_main 100 (repeat 97%N 33) (repeat 97%N 33) 0 = Ret 0.
Proof. split; vm_compute; reflexivity. Qed.

(** C6, amended: a pattern longer than [Match_MaxBits] is refused by
    [match_bitap_], which [match_main] calls last.  [match_main] answers 0
    when the text is the pattern, -1 when the text is empty and the clamped
    location when the pattern is found there; in every other case it throws
    [Pattern too long for this browser.] *)
Theorem match_main_pattern_too_long fuel text pattern loc :
  Match_MaxBits < len pattern ->
  match_main fuel text pattern loc =
  let loc := Z.max 0 (Z.min loc (len text)) in
  if str_eqb text pattern then Ret 0
  else if len text =? 0 then Ret (-1)
  else if str_eqb (substring text loc (loc + len pattern)) pattern then Ret loc
  else Throw too_long.
Proof.
  intros H. unfold match_main. cbv zeta.
  rewrite (match_bitap_too_long fuel text pattern _ H). reflexivity.
Qed.

(** The pattern of 33 code units is refused in a text that is not the
    pattern and does not have it at the location. *)
Lemma match_main_pattern_too_long_witness :
  Match_MaxBits < len (repeat 97%N 33) /\
  match_main 100 (js "xx" ++ repeat 97%N 33) (repeat 97%N 33) 0 = Throw too_long.
Proof.
  split.
  - reflexivity.
  - rewrite (match_main_pattern_too_long 100 (js "xx" ++ repeat 97%N 33)
               (repeat 97%N 33) 0 eq_refl).
    vm_compute. reflexivity.
Defined.

(** ** Properties of the client *)

Ltac break_match :=
  match goal with
  | |- context [match ?x with _ => _ end] => destruct x eqn:?
  end.

Lemma str_eqb_eq a b : str_eqb a b = true -> a = b.
Proof.
  revert b. induction a as [|x a IH]; intros [|y b]; simpl; try discriminate.
  - reflexivity.
  - intros H. apply andb_prop in H as [Hx Hab].
    apply N.eqb_eq in Hx. rewrite (IH b Hab), Hx. reflexivity.
Qed.

Lemma str_eqb_refl a : str_eqb a a = true.
Proof.
  induction a as [|x a IH]; simpl; [reflexivity|].
  rewrite N.eqb_refl. exact IH.
Qed.

Lemma get_prop_lookup {A} k (l : list (jsstring * A)) e :
  get_prop k l = Ret e -> lookup k l = e.
Proof.
  unfold get_prop. destruct (lookup k l); [congruence|].
  destruct (proto_member k); congruence.
Qed.

(** *** The change counter *)

Lemma liftM_ccid {A} (m : M A) c : ccid (snd (liftM m c)) = ccid c.
Proof. unfold liftM. destruct (m (now c)). reflexivity. Qed.

(** A call that gets past the pending changes counts one change, whatever
    it returns, and the record it emits carries the count it found. *)
Lemma make_change_step fuel id c e :
  get_prop id (store c) = Ret e ->
  existsb (fun change => str_eqb id (c_id change)) (send_queue c) = false ->
  ccid (snd (_make_change fuel id c)) = ccid c + 1 /\
  (forall ch, fst (_make_change fuel id c) = Ret (Some ch) ->
              c_ccid ch = Some (decimal (ccid c))).
Proof.
  intros He Hq. unfold _make_change, cbind, read, liftR, write.
  rewrite He, Hq. cbn [negb].
  destruct e as [s_data|]; [|split; [reflexivity | discriminate]].
  unfold cret.
  repeat first
    [ match goal with
      | |- context [liftM ?m ?c1] =>
        let H := fresh "Hccid" in
        pose proof (liftM_ccid m c1) as H;
        destruct (liftM m c1) as [? ?]; cbn [snd ccid] in H
      end
    | break_match ];
    cbn [fst snd ccid]; (split; [assumption || reflexivity|]);
    intros ch Hch; try discriminate; inversion Hch; reflexivity.
Qed.

(** A call that finds a pending change for the id returns null and counts
    nothing. *)
Lemma make_change_pending fuel id c e :
  get_prop id (store c) = Ret e ->
  existsb (fun change => str_eqb id (c_id change)) (send_queue c) = true ->
  _make_change fuel id c = (Ret None, c).
Proof.
  intros He Hq. unfold _make_change, cbind, read, liftR.
  rewrite He, Hq. reflexivity.
Qed.

Lemma make_change_emits fuel id c ch :
  fst (_make_change fuel id c) = Ret (Some ch) ->
  c_ccid ch = Some (decimal (ccid c)).
Proof.
  intros H.
  destruct (get_prop id (store c)) as [e| |] eqn:He;
    [|unfold _make_change, cbind, read, liftR in H; rewrite He in H;
      discriminate..].
  destruct (existsb (fun change => str_eqb id (c_id change)) (send_queue c))
    eqn:Hq.
  - rewrite (make_change_pending fuel id c e He Hq) in H. discriminate.
  - exact (proj2 (make_change_step fuel id c e He Hq) ch H).
Qed.

(** C9: a call of [_make_change] for an id of the store that has no pending
    change in the queue leaves the counter [ccid] one higher, whatever it
    returns: a record, null, or an exception.  The record it returns, if
    any, carries the count the call found; so when a later call, made when
    the counter is no lower than the first call left it, returns a record
    too, the number of that record is strictly higher. *)
Theorem make_change_counts fuel id c e :
  get_prop id (store c) = Ret e ->
  existsb (fun change => str_eqb id (c_id change)) (send_queue c) = false ->
  ccid (snd (_make_change fuel id c)) = ccid c + 1 /\
  (forall ch, fst (_make_change fuel id c) = Ret (Some ch) ->
     c_ccid ch = Some (decimal (ccid c)) /\
     forall fuel' id' c' ch',
       ccid (snd (_make_change fuel id c)) <= ccid c' ->
       fst (_make_change fuel' id' c') = Ret (Some ch') ->
       exists n n', c_ccid ch = Some (decimal n) /\
                    c_ccid ch' = Some (decimal n') /\ n < n').
Proof.
  intros He Hq.
  destruct (make_change_step fuel id c e He Hq) as [Hc Hch].
  split; [exact Hc|].
  intros ch H. split; [exact (Hch ch H)|].
  intros fuel' id' c' ch' Hle H'.
  exists (ccid c), (ccid c'). repeat split.
  - exact (Hch ch H).
  - exact (make_change_emits fuel' id' c' ch' H').
  - lia.
Qed.

(** The call for [A] finds nothing to send and returns null; it counts all
    the same. *)
Lemma make_change_counts_witness :
  fst (_make_change 100 (js "A") two_entities) = Ret None /\
  ccid (snd (_make_change 100 (js "A") two_entities)) = ccid two_entities + 1.
Proof.
  split.
  - vm_compute. reflexivity.
  - exact (proj1 (make_change_counts 100 (js "A") two_entities
                    (Some (Entity (VObj []) None (VObj []) None false))
                    eq_refl eq_refl)).
Defined.

(** The numbers of the records are not consecutive: between the records for
    [B] numbered 1 and 3, the call for [A] used number 2 and sent nothing. *)
Lemma make_change_skips :
  let r1 := _make_change 100 (js "B") two_entities in
  let r2 := _make_change 100 (js "A") (snd r1) in
  let r3 := _make_change 100 (js "B") (snd r2) in
  option_map c_ccid (match fst r1 with Ret ch => ch | _ => None end)
  = Some (Some (js "1")) /\
  fst r2 = Ret None /\
  option_map c_ccid (match fst r3 with Ret ch => ch | _ => None end)
  = Some (Some (js "3")).
Proof. cbv zeta. repeat split; vm_compute; reflexivity. Qed.

(** *** The checkpoint of the changes *)

Lemma same_cv_refl c : same_cv c c.
Proof. split; reflexivity. Qed.





























Lemma lookup_replace_prop {A} k (v : A) l x :
  lookup k l = Some x -> lookup k (replace_prop k v l) = Some v.
Proof.
  induction l as [|[k' v'] l IH]; simpl; [discriminate|].
  destruct (str_eqb k k') eqn:E; simpl; rewrite E; [reflexivity | exact IH].
Qed.






(** The same change received by a client in a window whose [localStorage]
    is null, and by one whose storage is full: the modification is applied
    and [last_cv] becomes its [cv], but nothing is persisted. *)
Lemma on_change_checkpoint_unsaved :
  let without := Storage IsNull (fun _ => false) 0 None None [] in
  let full := Storage IsStorage (fun _ => true) 0 None None [] in
  let c := set_notify (new_client (js "me")) in
  let r1 := on_change 100 modification (Batch [] false) (set_storage c without) in
  let r2 := on_change 100 modification (Batch [] false) (set_storage c full) in
  fst r1 = Ret (Batch [] false) /\
  last_cv (snd r1) = VStr (js "X") /\
  ls_last_cv (local_storage (snd r1)) = None /\
  fst r2 = Ret (Batch [] false) /\
  last_cv (snd r2) = VStr (js "X") /\
  ls_last_cv (local_storage (snd r2)) = None /\
  ls_calls (local_storage (snd r2)) = 2%nat.
Proof. cbv zeta. repeat split; vm_compute; reflexivity. Qed.

(** ** Properties of the objects

    *** Rules *)

Lemma hoare_bind {A B} Inv (m : HM A) (k : A -> HM B) Q R :
  hoare Inv m Q -> (forall a, Q a -> hoare Inv (k a) R) -> hoare Inv (hbind m k) R.
Proof.
  intros Hm Hk st Hst. unfold hbind.
  destruct (Hm st Hst) as [H1 H2].
  destruct (m st) as [[a|e|] st1]; cbn [fst snd] in *.
  - apply (Hk a (H2 a eq_refl) st1 H1).
  - split; [assumption | discriminate].
  - split; [assumption | discriminate].
Qed.

Lemma hoare_weaken {A} Inv (m : HM A) (Q R : A -> Prop) :
  hoare Inv m Q -> (forall a, Q a -> R a) -> hoare Inv m R.
Proof.
  intros Hm HQ st Hst. destruct (Hm st Hst) as [H1 H2].
  split; [assumption | intros a Ha; apply HQ, H2, Ha].
Qed.

Lemma hoare_ret {A} Inv (a : A) (Q : A -> Prop) : Q a -> hoare Inv (hret a) Q.
Proof. intros Ha st Hst. split; [assumption | intros a' [= <-]; assumption]. Qed.

Lemma hoare_throw {A} Inv e (Q : A -> Prop) : hoare Inv (hthrow e) Q.
Proof. intros st Hst. split; [assumption | discriminate]. Qed.

Lemma hoare_unknown {A} Inv (Q : A -> Prop) : hoare Inv hunknown Q.
Proof. intros st Hst. split; [assumption | discriminate]. Qed.

Lemma hoare_liftR {A} Inv (r : res A) :
  hoare Inv (hliftR r) (fun a => r = Ret a).
Proof. intros st Hst. split; [assumption | intros a Ha; exact Ha]. Qed.

Lemma hoare_liftM {A} Inv (m : M A) : hoare Inv (hliftM m) any.
Proof.
  intros st Hst. unfold hliftM. destruct (m (snd st)) as [r t].
  split; [exact Hst | intros; exact I].
Qed.

Section Frame.
Variables (n : nat) (h0 : heap).

Lemma hoare_alloc c :
  cell_new n c -> hoare (frame n h0) (alloc c) (fun l => (n <= l)%nat).
Proof.
  intros Hc [h clk] (Hn & [Hnext Hcells] & Hclosed & Hwf). cbn in *.
  split; [|intros a [= <-]; lia].
  split; [assumption|]. split; [|split].
  - split; cbn; [lia|]. intros l Hl.
    rewrite lookup_insert_ne by lia. apply Hcells, Hl.
  - intros l c' Hl. cbn. destruct (decide (next h = l)) as [<-|Hne].
    + rewrite lookup_insert_eq. intros [= <-]. exact Hc.
    + rewrite lookup_insert_ne by assumption. apply Hclosed, Hl.
  - intros l Hl. cbn in *. rewrite lookup_insert_ne by lia. apply Hwf. lia.
Qed.

Lemma hoare_read_cell l :
  hoare (frame n h0) (read_cell l) (fun c => (n <= l)%nat -> cell_new n c).
Proof.
  intros [h clk] Hst. unfold read_cell. cbn [fst].
  destruct (cells h !! l) as [c|] eqn:E; cbn [fst snd];
    (split; [assumption|]); [|discriminate].
  intros a [= <-] Hl. destruct Hst as (_ & _ & Hclosed & _).
  exact (Hclosed l c Hl E).
Qed.

Lemma hoare_write_cell l c :
  (n <= l)%nat -> cell_new n c -> hoare (frame n h0) (write_cell l c) any.
Proof.
  intros Hl Hc [h clk] Hst. cbn [fst] in Hst.
  destruct Hst as (Hn & [Hnext Hcells] & Hclosed & Hwf).
  unfold write_cell. cbn [fst].
  destruct (cells h !! l) as [c0|] eqn:E; cbn [fst snd];
    [|split; [repeat split; assumption | discriminate]].
  split; [|intros; exact I].
  split; [assumption|]. split; [|split].
  - split; cbn; [lia|]. intros l' Hl'.
    rewrite lookup_insert_ne by lia. apply Hcells, Hl'.
  - intros l' c' Hl'. cbn. destruct (decide (l = l')) as [<-|Hne].
    + rewrite lookup_insert_eq. intros [= <-]. exact Hc.
    + rewrite lookup_insert_ne by assumption. apply Hclosed, Hl'.
  - intros l' Hl'. cbn in *.
    destruct (decide (l = l')) as [<-|Hne].
    + rewrite (Hwf l Hl') in E. discriminate.
    + rewrite lookup_insert_ne by assumption. apply Hwf, Hl'.
Qed.
End Frame.

(** *** Lists of properties and of elements *)

Lemma Forall_lookup_prop {A} (P : A -> Prop) k (l : list (jsstring * A)) v :
  Forall (fun kv => P (snd kv)) l -> lookup k l = Some v -> P v.
Proof.
  induction 1 as [|[k' v'] l Hv Hl IH]; simpl; [discriminate|].
  destruct (str_eqb k k'); [intros [= <-]; exact Hv | exact IH].
Qed.

Lemma Forall_replace_prop {A} (P : A -> Prop) k v (l : list (jsstring * A)) :
  P v -> Forall (fun kv => P (snd kv)) l ->
  Forall (fun kv => P (snd kv)) (replace_prop k v l).
Proof.
  intros Hv. induction 1 as [|[k' v'] l Hv' Hl IH]; simpl; [constructor|].
  destruct (str_eqb k k'); constructor; assumption.
Qed.

Lemma Forall_insert_index {A} (P : A -> Prop) i k v (l : list (jsstring * A)) :
  P v -> Forall (fun kv => P (snd kv)) l ->
  Forall (fun kv => P (snd kv)) (insert_index i k v l).
Proof.
  intros Hv. induction 1 as [|[k' v'] l Hv' Hl IH]; simpl.
  - repeat constructor. exact Hv.
  - destruct (array_index k') as [i'|]; [destruct (i <? i')|];
      repeat (constructor; try assumption).
Qed.

Lemma Forall_set_prop {A} (P : A -> Prop) k v (l l' : list (jsstring * A)) :
  P v -> Forall (fun kv => P (snd kv)) l -> set_prop k v l = Ret l' ->
  Forall (fun kv => P (snd kv)) l'.
Proof.
  intros Hv Hl. unfold set_prop.
  destruct (str_eqb k proto_name); [discriminate|].
  destruct (lookup k l); [|destruct (array_index k)]; intros [= <-].
  - apply Forall_replace_prop; assumption.
  - apply Forall_insert_index; assumption.
  - apply Forall_app. split; [assumption | repeat constructor; exact Hv].
Qed.

Lemma Forall_remove {A} (P : A -> Prop) k (l : list (jsstring * A)) :
  Forall (fun kv => P (snd kv)) l -> Forall (fun kv => P (snd kv)) (remove k l).
Proof.
  induction 1 as [|[k' v'] l Hv' Hl IH]; simpl; [constructor|].
  destruct (str_eqb k k'); [assumption | constructor; assumption].
Qed.

Lemma Forall_splice {A} (P : A -> Prop) (l : list A) s c items :
  Forall P l -> Forall P items -> Forall P (splice l s c items).
Proof.
  intros Hl Hi. unfold splice.
  repeat (apply Forall_app; split);
    [apply Forall_take | | apply Forall_drop]; assumption.
Qed.

Lemma Forall_hset_elem (P : hval -> Prop) l i v l' :
  P HUndefined -> P v -> Forall P l -> hset_elem l i v = Ret l' -> Forall P l'.
Proof.
  intros Hu Hv Hl. unfold hset_elem, set_at.
  destruct (i <? 0); [discriminate|].
  destruct (i <? alen l); intros [= <-].
  - destruct (_ && _); [|assumption].
    apply Forall_splice; [assumption | repeat constructor; exact Hv].
  - repeat (apply Forall_app; split); [assumption | | repeat constructor; exact Hv].
    apply List.Forall_forall. intros x Hx. apply repeat_spec in Hx. subst x. exact Hu.
Qed.

Lemma helem_Forall (P : hval -> Prop) l i :
  P HUndefined -> Forall P l -> P (helem l i).
Proof.
  intros Hu Hl. unfold helem. destruct (i <? 0); [exact Hu|].
  generalize (Z.to_nat i). induction Hl as [|x l Hx Hl IH]; intros [|k];
    simpl; auto.
Qed.

Lemma hadd_new n x k r : hadd x k = Ret r -> new_from n r.
Proof. destruct x; simpl; intros [= <-]; exact I. Qed.

Lemma Value_ind' (P : Value -> Prop) :
  P VUndefined -> P VNull -> (forall b, P (VBool b)) -> (forall n, P (VNum n)) ->
  P VNaN -> (forall s, P (VStr s)) ->
  (forall elems, Forall P elems -> P (VArr elems)) ->
  (forall props, Forall (fun kv => P (snd kv)) props -> P (VObj props)) ->
  forall v, P v.
Proof.
  intros Hu Hn Hb Hz Hnan Hs Ha Ho.
  fix IH 1.
  intros [| |b|z| |s|elems|props];
    [exact Hu | exact Hn | apply Hb | apply Hz | exact Hnan | apply Hs | |].
  - apply Ha. induction elems as [|x l IHl]; constructor; [apply IH | exact IHl].
  - apply Ho. induction props as [|[k x] l IHl]; constructor;
      [apply IH | exact IHl].
Qed.

Section Frame2.
Variables (n : nat) (h0 : heap).

(** The rule for a computation, by its shape. *)
Ltac hrule :=
  lazymatch goal with
  | |- hoare _ (hret _) _ => apply hoare_ret
  | |- hoare _ (hthrow _) _ => apply hoare_throw
  | |- hoare _ hunknown _ => apply hoare_unknown
  | |- hoare _ (hliftR _) _ => apply hoare_liftR
  | |- hoare _ (hliftM _) _ => apply hoare_liftM
  | |- hoare _ (read_cell _) _ => apply hoare_read_cell
  | |- hoare _ (write_cell _ _) _ => apply hoare_write_cell
  | |- hoare _ (alloc _) _ => apply hoare_alloc
  | |- hoare _ (hbind _ _) _ => eapply hoare_bind; [|intros ? ?]
  end.

Lemma hoare_any {A} (m : HM A) Q : hoare (frame n h0) m Q -> hoare (frame n h0) m any.
Proof. intros H. eapply hoare_weaken; [exact H | intros; exact I]. Qed.

Lemma hoare_hget obj key :
  new_from n obj -> hoare (frame n h0) (hget obj key) (new_from n).
Proof.
  intros Hobj. unfold hget. destruct obj; try (hrule; exact I).
  hrule; [hrule|]. specialize (H Hobj). destruct a as [props|elems].
  - hrule; [hrule|]. hrule. cbn beta in H0. apply get_prop_lookup in H0.
    destruct a as [v|]; [|exact I].
    exact (Forall_lookup_prop _ _ _ _ H H0).
  - destruct (array_index key); hrule.
    apply helem_Forall; [exact I | exact H].
Qed.

Lemma hoare_hget_any obj key : hoare (frame n h0) (hget obj key) any.
Proof.
  unfold hget. destruct obj; try (hrule; exact I).
  hrule; [hrule|]. destruct a as [props|elems].
  - hrule; [hrule|]. hrule. exact I.
  - destruct (array_index key); hrule. exact I.
Qed.

Lemma hoare_hset obj key v :
  new_from n obj -> new_from n v -> hoare (frame n h0) (hset obj key v) any.
Proof.
  intros Hobj Hv. unfold hset. destruct obj; try (hrule; exact I).
  hrule; [hrule|]. specialize (H Hobj). destruct a as [props|elems].
  - hrule; [hrule|]. hrule; [exact Hobj|]. cbn beta in H0.
    exact (Forall_set_prop _ _ _ _ _ Hv H H0).
  - destruct (array_index key); [|hrule].
    hrule; [hrule|]. hrule; [exact Hobj|]. cbn beta in H0.
    exact (Forall_hset_elem _ _ _ _ _ I Hv H H0).
Qed.

Lemma hoare_hdelete obj key :
  new_from n obj -> hoare (frame n h0) (hdelete obj key) any.
Proof.
  intros Hobj. unfold hdelete. destruct obj; try (hrule; exact I).
  hrule; [hrule|]. specialize (H Hobj). destruct a as [props|elems]; hrule.
  - exact Hobj.
  - apply Forall_remove. exact H.
Qed.

Lemma hoare_hget_index obj i :
  new_from n obj -> hoare (frame n h0) (hget_index obj i) (new_from n).
Proof.
  intros Hobj. unfold hget_index. destruct obj; try (hrule; exact I).
  hrule; [hrule|]. specialize (H Hobj). destruct a as [props|elems]; hrule.
  apply helem_Forall; [exact I | exact H].
Qed.

Lemma hoare_hget_index_any obj i : hoare (frame n h0) (hget_index obj i) any.
Proof.
  unfold hget_index. destruct obj; try (hrule; exact I).
  hrule; [hrule|]. destruct a as [props|elems]; hrule. exact I.
Qed.

Lemma hoare_hset_index obj i v :
  new_from n obj -> new_from n v ->
  hoare (frame n h0) (hset_index obj i v) any.
Proof.
  intros Hobj Hv. unfold hset_index. destruct obj; try (hrule; exact I).
  hrule; [hrule|]. specialize (H Hobj). destruct a as [props|elems]; [hrule|].
  hrule; [hrule|]. hrule; [exact Hobj|]. cbn beta in H0.
  exact (Forall_hset_elem _ _ _ _ _ I Hv H H0).
Qed.

Lemma hoare_hsplice obj start count items :
  new_from n obj -> Forall (new_from n) items ->
  hoare (frame n h0) (hsplice obj start count items) any.
Proof.
  intros Hobj Hi. unfold hsplice. destruct obj; try (hrule; exact I).
  hrule; [hrule|]. specialize (H Hobj). destruct a as [props|elems]; hrule.
  - exact Hobj.
  - apply Forall_splice; assumption.
Qed.

Lemma hoare_hconcat_arg v :
  new_from n v -> hoare (frame n h0) (hconcat_arg v) (Forall (new_from n)).
Proof.
  intros Hv. unfold hconcat_arg.
  destruct v; try (hrule; repeat constructor; exact Hv).
  hrule; [hrule|]. specialize (H Hv). destruct a as [props|elems]; hrule.
  - repeat constructor. exact Hv.
  - exact H.
Qed.

Lemma hoare_is_array v : hoare (frame n h0) (is_array v) any.
Proof.
  unfold is_array. destruct v; try (hrule; exact I).
  hrule; [hrule|]. destruct a; hrule. exact I.
Qed.

Lemma hoare_shape v : hoare (frame n h0) (shape v) any.
Proof.
  unfold shape. destruct v; try (hrule; exact I).
  hrule; [hrule|]. destruct a as [|[|]]; hrule; exact I.
Qed.

Lemma hoare_apply_delta fuel cur delta :
  hoare (frame n h0) (apply_delta_h fuel cur delta) (new_from n).
Proof.
  unfold apply_delta_h.
  destruct cur;
    try (hrule; [apply hoare_shape|]; hrule; [hrule|]; hrule).
  repeat (hrule; [hrule|]). hrule. exact I.
Qed.

Lemma hoare_alloc_value v :
  hoare (frame n h0) (alloc_value v) (new_from n).
Proof.
  induction v as [| |b|z| |s|elems IH|props IH] using Value_ind';
    try (apply hoare_ret; exact I).
  - cbn [alloc_value].
    eapply hoare_bind with (Q := Forall (new_from n)).
    + induction IH as [|x l Hx Hl IHl].
      * apply hoare_ret. constructor.
      * hrule; [exact Hx|]. hrule; [exact IHl|]. hrule.
        constructor; assumption.
    + intros hs Hhs. hrule; [hrule; exact Hhs|]. hrule. exact H.
  - cbn [alloc_value].
    eapply hoare_bind with (Q := Forall (fun kv => new_from n (snd kv))).
    + induction IH as [|[k x] l Hx Hl IHl].
      * apply hoare_ret. constructor.
      * hrule; [exact Hx|]. hrule; [exact IHl|]. hrule.
        constructor; assumption.
    + intros hs Hhs. hrule; [hrule; exact Hhs|]. hrule. exact H.
Qed.

Lemma hoare_copy_elems copy obj out k :
  (forall x, hoare (frame n h0) (copy x) (new_from n)) -> new_from n out ->
  forall i, hoare (frame n h0) (copy_elems copy obj out k i) any.
Proof.
  intros Hcopy Hout. induction k as [|k IH]; intros i; cbn [copy_elems].
  - apply hoare_ret. exact I.
  - hrule; [apply hoare_hget_index_any|]. hrule; [apply Hcopy|].
    hrule; [apply hoare_hset_index; assumption | apply IH].
Qed.

Lemma hoare_copy_props copy obj out keys :
  (forall x, hoare (frame n h0) (copy x) (new_from n)) -> new_from n out ->
  hoare (frame n h0) (copy_props copy obj out keys) any.
Proof.
  intros Hcopy Hout. induction keys as [|i keys IH]; cbn [copy_props].
  - apply hoare_ret. exact I.
  - hrule; [apply hoare_hget_any|]. hrule; [apply Hcopy|].
    hrule; [apply hoare_hset; assumption | exact IH].
Qed.

Lemma hoare_deepCopy fuel :
  forall obj, hoare (frame n h0) (deepCopy_h fuel obj) (new_from n).
Proof.
  induction fuel as [|fuel IH]; intros obj; [apply hoare_unknown|].
  cbn [deepCopy_h]. destruct obj; try (apply hoare_ret; exact I).
  - hrule; [hrule; constructor|]. hrule. exact H.
  - hrule; [hrule|]. destruct a as [props|elems].
    + hrule; [hrule; constructor|].
      hrule; [apply hoare_copy_props; assumption|]. hrule. exact H0.
    + hrule; [hrule; constructor|].
      hrule; [apply hoare_copy_elems; assumption|]. hrule. exact H0.
Qed.

Lemma hoare_apply_object_op fuel rec patched key o :
  (forall s, hoare (frame n h0) (rec o s) (new_from n)) ->
  new_from n patched ->
  hoare (frame n h0) (apply_object_op fuel rec patched key o) any.
Proof.
  intros Hrec Hp. unfold apply_object_op. destruct o.
  - hrule; [apply hoare_alloc_value|]. apply hoare_hset; assumption.
  - apply hoare_hdelete. exact Hp.
  - hrule; [apply hoare_alloc_value|]. apply hoare_hset; assumption.
  - hrule; [apply hoare_hget; exact Hp|]. hrule; [hrule|].
    apply hoare_hset; [exact Hp | exact (hadd_new _ _ _ _ H0)].
  - hrule; [apply hoare_hget; exact Hp|]. hrule; [apply Hrec|].
    apply hoare_hset; assumption.
  - hrule; [apply hoare_hget; exact Hp|]. hrule; [apply Hrec|].
    apply hoare_hset; assumption.
  - hrule; [apply hoare_hget; exact Hp|]. hrule; [apply hoare_apply_delta|].
    apply hoare_hset; assumption.
  - apply hoare_ret. exact I.
  - apply hoare_throw.
Qed.

Lemma hoare_apply_object_each fuel rec patched ds :
  Forall (fun kv : jsstring * op =>
            forall s, hoare (frame n h0) (rec (snd kv) s) (new_from n)) ds ->
  new_from n patched ->
  hoare (frame n h0) (apply_object_each fuel rec patched ds) any.
Proof.
  intros Hds Hp. induction Hds as [|[key o] ds Ho Hds IH]; cbn [apply_object_each].
  - apply hoare_ret. exact I.
  - hrule; [apply hoare_apply_object_op; assumption | exact IH].
Qed.

Lemma hoare_apply_object_with fuel rec s ds :
  Forall (fun kv : jsstring * op =>
            forall s, hoare (frame n h0) (rec (snd kv) s) (new_from n)) ds ->
  hoare (frame n h0) (apply_object_with fuel rec s ds) (new_from n).
Proof.
  intros Hds. unfold apply_object_with.
  hrule; [apply hoare_deepCopy|].
  hrule; [apply hoare_apply_object_each; assumption|].
  hrule. exact H.
Qed.

Lemma hoare_apply_list_op fuel patched index o recurse deleted :
  (forall s, hoare (frame n h0) (recurse s) (new_from n)) ->
  new_from n patched ->
  hoare (frame n h0) (apply_list_op fuel patched index o recurse deleted) any.
Proof.
  intros Hrec Hp. unfold apply_list_op.
  destruct o;
    try (hrule; [apply hoare_is_array|]; hrule; [hrule|]);
    try (apply hoare_ret; exact I); try apply hoare_throw.
  - hrule; [apply hoare_alloc_value|].
    hrule; [apply hoare_hconcat_arg; assumption|].
    hrule; [apply hoare_hsplice; assumption|]. hrule. exact I.
  - hrule; [apply hoare_hsplice; [assumption | constructor]|]. hrule. exact I.
  - hrule; [apply hoare_alloc_value|].
    hrule; [apply hoare_hset_index; assumption|]. hrule. exact I.
  - hrule; [apply hoare_hget_index; exact Hp|]. hrule; [hrule|].
    hrule; [apply hoare_hset_index; [exact Hp | exact (hadd_new _ _ _ _ H2)]|].
    hrule. exact I.
  - hrule; [apply hoare_hget_index; exact Hp|]. hrule; [apply Hrec|].
    hrule; [apply hoare_hset_index; assumption|]. hrule. exact I.
  - hrule; [apply hoare_hget_index; exact Hp|]. hrule; [apply Hrec|].
    hrule; [apply hoare_hset_index; assumption|]. hrule. exact I.
  - hrule; [apply hoare_hget_index; exact Hp|].
    hrule; [apply hoare_apply_delta|].
    hrule; [apply hoare_hset_index; assumption|]. hrule. exact I.
Qed.

Lemma hoare_apply_list_each fuel patched ds :
  Forall (fun x : jsstring * (op * (hval -> HM hval)) =>
            forall s, hoare (frame n h0) (snd (snd x) s) (new_from n)) ds ->
  new_from n patched ->
  forall deleted,
    hoare (frame n h0) (apply_list_each fuel patched ds deleted) any.
Proof.
  intros Hds Hp.
  induction Hds as [|[index [o recurse]] ds Ho Hds IH]; intros deleted;
    cbn [apply_list_each].
  - apply hoare_ret. exact I.
  - hrule; [apply hoare_apply_list_op; assumption | apply IH].
Qed.
End Frame2.

Lemma Forall_insert_sorted {A} (P : jsstring * A -> Prop) k v l :
  P (k, v) -> Forall P l -> Forall P (insert_sorted k v l).
Proof.
  intros Hv. induction 1 as [|[k' v'] l Hx Hl IH]; simpl.
  - repeat constructor. exact Hv.
  - destruct (str_ltb k k'); repeat (constructor; try assumption).
Qed.

Lemma Forall_sort_keys {A} (P : jsstring * A -> Prop) l :
  Forall P l -> Forall P (sort_keys l).
Proof.
  unfold sort_keys. intros Hl.
  assert (Forall P []) as Hacc by constructor. revert Hacc.
  generalize (@nil (jsstring * A)).
  induction Hl as [|[k v] l Hx Hl IH]; intros acc Hacc; simpl; [exact Hacc|].
  apply IH, Forall_insert_sorted; assumption.
Qed.

Lemma op_ind' (P : op -> Prop) :
  (forall v, P (OpIns v)) -> P OpDel -> (forall v, P (OpRep v)) ->
  (forall z, P (OpInt z)) ->
  (forall d, Forall (fun kv => P (snd kv)) d -> P (OpList d)) ->
  (forall d, Forall (fun kv => P (snd kv)) d -> P (OpObj d)) ->
  (forall s, P (OpText s)) -> P OpEmpty -> P OpUndefined ->
  forall o, P o.
Proof.
  intros Hi Hd Hr Hz Hl Ho Ht He Hu.
  fix IH 1.
  intros [v| |v|z|d|d|s| |];
    [apply Hi | exact Hd | apply Hr | apply Hz | | | apply Ht | exact He
     | exact Hu].
  - apply Hl. induction d as [|[k x] l IHl]; constructor; [apply IH | exact IHl].
  - apply Ho. induction d as [|[k x] l IHl]; constructor; [apply IH | exact IHl].
Qed.

Lemma hoare_apply_diff n h0 fuel o :
  forall s, hoare (frame n h0) (apply_diff_h fuel o s) (new_from n).
Proof.
  induction o as [v| |v|z|d IH|d IH|t| |] using op_ind'; intros s;
    try apply hoare_unknown.
  - cbn [apply_diff_h]. unfold apply_list_with.
    eapply hoare_bind; [apply hoare_deepCopy | intros patched Hp].
    eapply hoare_bind; [|intros _ _; apply hoare_ret; exact Hp].
    apply hoare_apply_list_each; [|exact Hp].
    apply Forall_sort_keys, Forall_map.
    eapply Forall_impl; [exact IH|]. intros [k o] H. exact H.
  - cbn [apply_diff_h]. apply hoare_apply_object_with. exact IH.
Qed.

Lemma frame_refl h : wf h -> frame (next h) h h.
Proof.
  intros Hwf. split; [lia|]. split; [split; [lia | reflexivity]|].
  split; [|exact Hwf].
  intros l c Hl Hc. rewrite (Hwf l Hl) in Hc. discriminate.
Qed.

Lemma frame_preserved h h' : wf h -> frame (next h) h h' -> preserved h h'.
Proof.
  intros Hwf (_ & [_ Hcells] & _ & _) l c Hc.
  rewrite Hcells; [exact Hc|].
  destruct (Nat.lt_ge_cases l (next h)) as [Hl|Hl]; [exact Hl|].
  rewrite (Hwf l Hl) in Hc. discriminate.
Qed.

(** *** Deltas *)

(** Case analysis on a code unit, far enough to tell the ones below 128
    apart. *)
Ltac by_code c :=
  destruct c as [|c]; [|do 7 (try destruct c as [c|c|])].

Lemma read_octet_length s b rest :
  read_octet s = Some (b, rest) -> (length rest + 3 = length s)%nat.
Proof.
  unfold read_octet. destruct s as [|c [|h [|l s']]];
    try discriminate; try (by_code c; discriminate).
  by_code c; try discriminate.
  destruct (hex_value h), (hex_value l); try discriminate.
  intros [= _ <-]. simpl. lia.
Qed.

Lemma read_continuation_length k : forall s v v' rest,
  read_continuation k s v = Some (v', rest) -> (length rest <= length s)%nat.
Proof.
  induction k as [|k IH]; simpl; intros s v v' rest.
  - intros [= _ <-]. lia.
  - destruct (read_octet s) as [[b s']|] eqn:E; [|discriminate].
    apply read_octet_length in E.
    destruct (_ && _); [|discriminate].
    intros H. apply IH in H. lia.
Qed.

Lemma rbind_known {A B} (m : res A) (k : A -> res B) :
  is_unknown m = false -> (forall a, is_unknown (k a) = false) ->
  is_unknown (rbind m k) = false.
Proof. destruct m; simpl; auto. Qed.

Lemma decodeURI_loop_known fuel : forall s,
  (length s < fuel)%nat -> is_unknown (decodeURI_loop fuel s) = false.
Proof.
  induction fuel as [|fuel IH]; intros s Hs; [lia|].
  destruct s as [|c s']; [reflexivity|]. cbn [decodeURI_loop].
  cbn [length] in Hs.
  destruct (negb (c =? 37)%N).
  - apply rbind_known; [apply IH; lia | reflexivity].
  - destruct (read_octet (c :: s')) as [[b rest]|] eqn:E; [|reflexivity].
    apply read_octet_length in E. cbn [length] in E.
    destruct (b <? 128)%N.
    + apply rbind_known; [apply IH; lia|].
      intros r. destruct (_ || _); reflexivity.
    + match goal with
      | |- context [match ?lead with Some _ => _ | None => _ end] =>
        destruct lead as [[[k v0] least]|]; [|reflexivity]
      end.
      destruct (read_continuation k rest v0) as [[v rest']|] eqn:E';
        [|reflexivity].
      apply read_continuation_length in E'.
      destruct (_ || _); [reflexivity|].
      apply rbind_known; [apply IH; lia|].
      intros r. destruct (v <? 65536)%N; reflexivity.
Qed.

Lemma decodeURI_known s : is_unknown (decodeURI s) = false.
Proof. apply decodeURI_loop_known. lia. Qed.

Lemma substring_from_1 c param : substring_from (c :: param) 1 = param.
Proof.
  unfold substring_from, clamp, len. cbn [length].
  replace (Z.to_nat _) with 1%nat by lia. reflexivity.
Qed.

(** What [diff_fromDelta] does with the tokens of a delta: it throws when
    one is bad, and otherwise arrives at the sum of the counts. *)
Lemma fromDelta_loop_spec text tokens : forall p,
  if existsb is_bad tokens
  then exists e, fromDelta_loop text tokens p = Throw e
  else exists ds, fromDelta_loop text tokens p = Ret (ds, p + counted tokens).
Proof.
  induction tokens as [|token tokens IH]; intros p.
  - cbn. exists []. rewrite Z.add_0_r. reflexivity.
  - cbn [existsb counted]. unfold is_bad at 1.
    destruct token as [|c param].
    + cbn. apply IH.
    + destruct (N.eq_dec c 43%N) as [->|H43];
        [|destruct (N.eq_dec c 45%N) as [->|H45];
          [|destruct (N.eq_dec c 61%N) as [->|H61]]].
      * cbn [classify fromDelta_loop]. rewrite substring_from_1.
        pose proof (decodeURI_known param) as Hk.
        destruct (decodeURI param) as [text'| |]; [|eexists; reflexivity
                                                   |discriminate].
        cbn [orb]. specialize (IH p).
        destruct (existsb is_bad tokens).
        -- destruct IH as [e ->]. exists e. reflexivity.
        -- destruct IH as [ds ->]. eexists. reflexivity.
      * cbn [classify fromDelta_loop]. rewrite substring_from_1.
        destruct (parseInt10 param) as [k|]; [|eexists; reflexivity].
        destruct (k <? 0); [eexists; reflexivity|].
        cbn [orb]. specialize (IH (p + k)).
        destruct (existsb is_bad tokens).
        -- destruct IH as [e ->]. exists e. reflexivity.
        -- destruct IH as [ds ->]. eexists. cbn. rewrite Z.add_assoc.
           reflexivity.
      * cbn [classify fromDelta_loop]. rewrite substring_from_1.
        destruct (parseInt10 param) as [k|]; [|eexists; reflexivity].
        destruct (k <? 0); [eexists; reflexivity|].
        cbn [orb]. specialize (IH (p + k)).
        destruct (existsb is_bad tokens).
        -- destruct IH as [e ->]. exists e. reflexivity.
        -- destruct IH as [ds ->]. eexists. cbn. rewrite Z.add_assoc.
           reflexivity.
      * by_code c; try congruence; cbn; eexists; reflexivity.
Qed.

(** [diff_fromDelta] throws on the malformed deltas, and on no other. *)
Lemma diff_fromDelta_malformed text delta :
  if malformed_delta text delta
  then exists e, diff_fromDelta text delta = Throw e
  else exists ds, diff_fromDelta text delta = Ret ds.
Proof.
  unfold malformed_delta, diff_fromDelta.
  pose proof (fromDelta_loop_spec text (split_tab delta []) 0) as H.
  destruct (existsb is_bad (split_tab delta [])).
  - destruct H as [e ->]. exists e. reflexivity.
  - destruct H as [ds ->]. cbn [orb rbind]. rewrite Z.add_0_l.
    destruct (negb (counted (split_tab delta []) =? len text));
      eexists; reflexivity.
Qed.

(** *** Running a sequence *)

Lemma hbind_ret {A B} (m : HM A) (k : A -> HM B) st a st' :
  m st = (Ret a, st') -> hbind m k st = k a st'.
Proof. intros H. unfold hbind. rewrite H. reflexivity. Qed.

Lemma hget_obj l props k x st :
  cells (fst st) !! l = Some (CObj props) -> lookup k props = Some x ->
  hget (HRef l) k st = (Ret x, st).
Proof.
  intros Hc Hk. unfold hget, hbind, read_cell, hliftR, get_prop, hret.
  rewrite Hc, Hk. reflexivity.
Qed.

Lemma hset_obj l acc acc' k v st :
  cells (fst st) !! l = Some (CObj acc) -> set_prop k v acc = Ret acc' ->
  hset (HRef l) k v st
  = (Ret tt, (Heap (<[l := CObj acc']> (cells (fst st))) (next (fst st)), snd st)).
Proof.
  intros Hc Hk. unfold hset, hbind, read_cell, hliftR, write_cell.
  rewrite Hc, Hk. cbn [fst snd]. rewrite Hc. reflexivity.
Qed.

Lemma hget_index_arr l elems i st :
  cells (fst st) !! l = Some (CArr elems) ->
  hget_index (HRef l) i st = (Ret (helem elems i), st).
Proof.
  intros Hc. unfold hget_index, hbind, read_cell, hret. rewrite Hc. reflexivity.
Qed.

Lemma hset_index_arr l acc acc' i v st :
  cells (fst st) !! l = Some (CArr acc) -> hset_elem acc i v = Ret acc' ->
  hset_index (HRef l) i v st
  = (Ret tt, (Heap (<[l := CArr acc']> (cells (fst st))) (next (fst st)), snd st)).
Proof.
  intros Hc Hk. unfold hset_index, hbind, read_cell, hliftR, write_cell.
  rewrite Hc, Hk. cbn [fst snd]. rewrite Hc. reflexivity.
Qed.

(** *** Lookups *)

Lemma lookup_In {A} k (l : list (jsstring * A)) x :
  lookup k l = Some x -> In (k, x) l.
Proof.
  induction l as [|[k' v] l IH]; simpl; [discriminate|].
  destruct (str_eqb k k') eqn:E.
  - intros [= <-]. apply str_eqb_eq in E. subst k'. left. reflexivity.
  - intros H. right. apply IH, H.
Qed.

Lemma lookup_key {A} k (l : list (jsstring * A)) :
  In k (map fst l) -> exists x, lookup k l = Some x.
Proof.
  induction l as [|[k' v] l IH]; simpl; [contradiction|].
  destruct (str_eqb k k') eqn:E; [eexists; reflexivity|].
  intros [<-|H]; [|apply IH, H].
  rewrite str_eqb_refl in E. discriminate.
Qed.

Lemma lookup_replace_prop_ne {A} k k' (v : A) l :
  str_eqb k' k = false -> lookup k' (replace_prop k v l) = lookup k' l.
Proof.
  intros Hne. induction l as [|[k0 v0] l IH]; simpl; [reflexivity|].
  destruct (str_eqb k k0) eqn:E; simpl.
  - apply str_eqb_eq in E. subst k0. rewrite Hne. reflexivity.
  - rewrite IH. reflexivity.
Qed.

Lemma lookup_insert_index {A} i k k' (v : A) l :
  lookup k l = None ->
  lookup k' (insert_index i k v l)
  = if str_eqb k' k then Some v else lookup k' l.
Proof.
  induction l as [|[k0 v0] l IH]; simpl; [reflexivity|].
  destruct (str_eqb k k0) eqn:Ek; [discriminate|]. intros Hk.
  destruct (array_index k0) as [i0|]; [destruct (i <? i0)|]; simpl;
    try reflexivity.
  rewrite (IH Hk). destruct (str_eqb k' k0) eqn:E0; [|reflexivity].
  destruct (str_eqb k' k) eqn:E; [|reflexivity].
  apply str_eqb_eq in E0, E. subst k0 k. rewrite str_eqb_refl in Ek.
  discriminate.
Qed.

Lemma lookup_app_prop {A} k k' (v : A) l :
  lookup k l = None ->
  lookup k' (l ++ [(k, v)]) = if str_eqb k' k then Some v else lookup k' l.
Proof.
  induction l as [|[k0 v0] l IH]; simpl.
  - destruct (str_eqb k' k); reflexivity.
  - destruct (str_eqb k k0) eqn:Ek; [discriminate|]. intros Hk.
    rewrite (IH Hk). destruct (str_eqb k' k0) eqn:E0; [|reflexivity].
    destruct (str_eqb k' k) eqn:E; [|reflexivity].
    apply str_eqb_eq in E0, E. subst k0 k. rewrite str_eqb_refl in Ek.
    discriminate.
Qed.

Lemma lookup_set_prop {A} k k' (v : A) l l' :
  set_prop k v l = Ret l' ->
  lookup k' l' = if str_eqb k' k then Some v else lookup k' l.
Proof.
  unfold set_prop. destruct (str_eqb k proto_name); [discriminate|].
  destruct (lookup k l) as [x|] eqn:Hk; [|destruct (array_index k)];
    intros [= <-].
  - destruct (str_eqb k' k) eqn:E.
    + apply str_eqb_eq in E. subst k'. exact (lookup_replace_prop _ _ _ _ Hk).
    + apply lookup_replace_prop_ne, E.
  - apply lookup_insert_index, Hk.
  - apply lookup_app_prop, Hk.
Qed.

Lemma set_prop_total {A} k (v : A) l :
  str_eqb k proto_name = false -> exists l', set_prop k v l = Ret l'.
Proof.
  intros H. unfold set_prop. rewrite H.
  destruct (lookup k l); [|destruct (array_index k)]; eexists; reflexivity.
Qed.

Lemma lookup_remove_ne {A} k k' (l : list (jsstring * A)) :
  str_eqb k' k = false -> lookup k' (remove k l) = lookup k' l.
Proof.
  intros Hne. induction l as [|[k0 v0] l IH]; simpl; [reflexivity|].
  destruct (str_eqb k k0) eqn:E; simpl.
  - apply str_eqb_eq in E. subst k0. rewrite Hne. reflexivity.
  - rewrite IH. reflexivity.
Qed.

(** *** Reading values *)

Lemma read_props_ext (read read' : hval -> option Value) l r :
  (forall x t, read x = Some t -> read' x = Some t) ->
  read_props read l = Some r -> read_props read' l = Some r.
Proof.
  intros H. revert r. induction l as [|[k x] l IH]; simpl; intros r; [auto|].
  destruct (read x) as [y|] eqn:E; [|discriminate].
  destruct (read_props read l) as [r'|]; [|discriminate].
  rewrite (H x y E), (IH r' eq_refl). auto.
Qed.

Lemma read_elems_ext (read read' : hval -> option Value) l r :
  (forall x t, read x = Some t -> read' x = Some t) ->
  read_elems read l = Some r -> read_elems read' l = Some r.
Proof.
  intros H. revert r. induction l as [|x l IH]; simpl; intros r; [auto|].
  destruct (read x) as [y|] eqn:E; [|discriminate].
  destruct (read_elems read l) as [r'|]; [|discriminate].
  rewrite (H x y E), (IH r' eq_refl). auto.
Qed.

Lemma read_value_preserved d : forall h h' v t,
  preserved h h' -> read_value d h v = Some t -> read_value d h' v = Some t.
Proof.
  induction d as [|d IH]; intros h h' v t Hp; destruct v; simpl; auto.
  destruct (cells h !! l) as [c|] eqn:E; [|discriminate].
  rewrite (Hp l c E). destruct c as [props|elems].
  - destruct (read_props (read_value d h) props) as [r|] eqn:Er; [|discriminate].
    rewrite (read_props_ext _ (read_value d h') _ _ (fun x t => IH h h' x t Hp) Er).
    auto.
  - destruct (read_elems (read_value d h) elems) as [r|] eqn:Er; [|discriminate].
    rewrite (read_elems_ext _ (read_value d h') _ _ (fun x t => IH h h' x t Hp) Er).
    auto.
Qed.

Lemma read_props_readable read props tprops :
  read_props read props = Some tprops -> no_proto (VObj tprops) = true ->
  Forall (fun kx => str_eqb (fst kx) proto_name = false /\ readable read (snd kx))
         props.
Proof.
  revert tprops. induction props as [|[k x] l IH]; simpl; intros tprops;
    [constructor|].
  destruct (read x) as [y|] eqn:E; [|discriminate].
  destruct (read_props read l) as [r|]; [|discriminate].
  intros [= <-]. cbn [no_proto forallb fst snd].
  intros H. apply andb_prop in H as [H1 H2]. apply andb_prop in H1 as [Hk Hy].
  constructor; [|exact (IH r eq_refl H2)].
  split; [apply negb_true_iff, Hk | exists y; split; assumption].
Qed.

Lemma read_elems_readable read elems ts :
  read_elems read elems = Some ts -> no_proto (VArr ts) = true ->
  Forall (readable read) elems.
Proof.
  revert ts. induction elems as [|x l IH]; simpl; intros ts; [constructor|].
  destruct (read x) as [y|] eqn:E; [|discriminate].
  destruct (read_elems read l) as [r|]; [|discriminate].
  intros [= <-]. cbn [no_proto forallb].
  intros H. apply andb_prop in H as [Hy H2].
  constructor; [exists y; split; assumption | exact (IH r eq_refl H2)].
Qed.

Lemma readable_preserved d h h' x :
  preserved h h' -> readable (read_value d h) x -> readable (read_value d h') x.
Proof.
  intros Hp (t & Ht & Hn). exists t. split; [|exact Hn].
  exact (read_value_preserved d h h' x t Hp Ht).
Qed.

Lemma hset_elem_total l i v :
  0 <= i -> exists l', hset_elem l i v = Ret l'.
Proof.
  intros Hi. unfold hset_elem.
  destruct (Z.ltb_spec i 0); [lia|].
  destruct (i <? alen l); eexists; reflexivity.
Qed.

Lemma frame_wf n h0 h : frame n h0 h -> wf h.
Proof. intros (_ & _ & _ & H). exact H. Qed.

Lemma wf_lt h l c : wf h -> cells h !! l = Some c -> (l < next h)%nat.
Proof.
  intros Hwf Hc. destruct (Nat.lt_ge_cases l (next h)) as [Hl|Hl]; [exact Hl|].
  rewrite (Hwf l Hl) in Hc. discriminate.
Qed.

(** A computation that keeps every frame leaves the cells it finds as they
    are. *)
Lemma kept {A} (m : HM A) (Q : nat -> A -> Prop) st l c :
  (forall n h0, hoare (frame n h0) m (Q n)) ->
  wf (fst st) -> cells (fst st) !! l = Some c ->
  cells (fst (snd (m st))) !! l = Some c.
Proof.
  intros Hm Hwf Hc.
  destruct (Hm (next (fst st)) (fst st) st (frame_refl _ Hwf)) as [Hfr _].
  exact (frame_preserved _ _ Hwf Hfr l c Hc).
Qed.

Section Copy.
Variables (copy : hval -> HM hval) (d : nat).
Hypothesis copy_frame :
  forall n h0 x, hoare (frame n h0) (copy x) (new_from n).
Hypothesis copy_total :
  forall x st, wf (fst st) -> readable (read_value d (fst st)) x ->
    exists y, fst (copy x st) = Ret y /\ forall s, x = HStr s -> y = HStr s.

Variables (h : heap) (l out : nat).
Hypothesis Hwf : wf h.
Hypothesis Hout : (next h <= out)%nat.

Lemma copy_props_total props :
  cells h !! l = Some (CObj props) ->
  Forall (fun kx => str_eqb (fst kx) proto_name = false /\
                    readable (read_value d h) (snd kx)) props ->
  forall keys, (forall k, In k keys -> In k (map fst props)) ->
  forall st acc,
    frame (next h) h (fst st) ->
    cells (fst st) !! out = Some (CObj acc) ->
    exists acc',
      fst (copy_props copy (HRef l) (HRef out) keys st) = Ret tt /\
      cells (fst (snd (copy_props copy (HRef l) (HRef out) keys st))) !! out
      = Some (CObj acc') /\
      forall k s, lookup k props = Some (HStr s) ->
                  In k keys \/ lookup k acc = Some (HStr s) ->
                  lookup k acc' = Some (HStr s).
Proof.
  intros Hl Hprops keys.
  induction keys as [|i keys IH]; intros Hkeys st acc Hfr Hacc.
  - exists acc. cbn. split; [reflexivity|]. split; [exact Hacc|].
    intros k s _ [[]|H]. exact H.
  - pose proof (frame_preserved _ _ Hwf Hfr) as Hpres.
    pose proof (frame_wf _ _ _ Hfr) as Hwf_st.
    destruct (lookup_key i props (Hkeys i (or_introl eq_refl))) as [x Hx].
    pose proof (hget_obj l props i x st (Hpres _ _ Hl) Hx) as Hget.
    assert (str_eqb i proto_name = false /\ readable (read_value d h) x)
      as [Hi Hrx].
    { apply lookup_In in Hx.
      exact (proj1 (List.Forall_forall _ _) Hprops (i, x) Hx). }
    destruct (copy_total x st Hwf_st (readable_preserved _ _ _ _ Hpres Hrx))
      as (y & Hy & Hstr).
    destruct (copy_frame (next h) h x st Hfr) as [Hfr1 Hnew].
    pose proof (kept (copy x) _ st out _ (fun n h0 => copy_frame n h0 x)
                  Hwf_st Hacc) as Hacc1.
    destruct (copy x st) as [r st1] eqn:Hcopy. cbn [fst snd] in *. subst r.
    specialize (Hnew y eq_refl).
    destruct (set_prop_total i y acc Hi) as [acc1 Hset].
    pose proof (hset_obj out acc acc1 i y st1 Hacc1 Hset) as Hhset.
    destruct (hoare_hset (next h) h (HRef out) i y Hout Hnew st1 Hfr1)
      as [Hfr2 _].
    rewrite Hhset in Hfr2. cbn [fst snd] in Hfr2.
    match type of Hhset with _ = (_, ?s) => set (st2 := s) in * end.
    assert (cells (fst st2) !! out = Some (CObj acc1)) as Hacc2.
    { subst st2. cbn. apply lookup_insert_eq. }
    destruct (IH (fun k Hk => Hkeys k (or_intror Hk)) st2 acc1 Hfr2 Hacc2)
      as (acc' & Hrun & Hcell & Hcontent).
    exists acc'. cbn [copy_props].
    rewrite (hbind_ret _ _ _ _ _ Hget), (hbind_ret _ _ _ _ _ Hcopy),
      (hbind_ret _ _ _ _ _ Hhset).
    split; [exact Hrun|]. split; [exact Hcell|].
    intros k s Hk Hor. apply (Hcontent k s Hk).
    rewrite (lookup_set_prop _ k _ _ _ Hset).
    destruct (str_eqb k i) eqn:E.
    + right. apply str_eqb_eq in E. subst k.
      rewrite Hx in Hk. injection Hk as ->. rewrite (Hstr s eq_refl).
      reflexivity.
    + destruct Hor as [[<-|Hin]|Hacc0].
      * rewrite str_eqb_refl in E. discriminate.
      * left. exact Hin.
      * right. exact Hacc0.
Qed.

Lemma copy_elems_total elems :
  cells h !! l = Some (CArr elems) ->
  Forall (readable (read_value d h)) elems ->
  forall k i st acc,
    0 <= i ->
    frame (next h) h (fst st) ->
    cells (fst st) !! out = Some (CArr acc) ->
    fst (copy_elems copy (HRef l) (HRef out) k i st) = Ret tt.
Proof.
  intros Hl Helems k.
  induction k as [|k IH]; intros i st acc Hi Hfr Hacc; [reflexivity|].
  pose proof (frame_preserved _ _ Hwf Hfr) as Hpres.
  pose proof (frame_wf _ _ _ Hfr) as Hwf_st.
  pose proof (hget_index_arr l elems i st (Hpres _ _ Hl)) as Hget.
  assert (readable (read_value d h) (helem elems i)) as Hrx.
  { apply helem_Forall; [|exact Helems].
    exists VUndefined. split; [destruct d|]; reflexivity. }
  destruct (copy_total _ st Hwf_st (readable_preserved _ _ _ _ Hpres Hrx))
    as (y & Hy & _).
  destruct (copy_frame (next h) h (helem elems i) st Hfr) as [Hfr1 Hnew].
  pose proof (kept (copy (helem elems i)) _ st out _
                (fun n h0 => copy_frame n h0 _) Hwf_st Hacc) as Hacc1.
  destruct (copy (helem elems i) st) as [r st1] eqn:Hcopy.
  cbn [fst snd] in *. subst r. specialize (Hnew y eq_refl).
  destruct (hset_elem_total acc i y Hi) as [acc1 Hset].
  pose proof (hset_index_arr out acc acc1 i y st1 Hacc1 Hset) as Hhset.
  destruct (hoare_hset_index (next h) h (HRef out) i y Hout Hnew st1 Hfr1)
    as [Hfr2 _].
  rewrite Hhset in Hfr2. cbn [fst snd] in Hfr2.
  cbn [copy_elems].
  rewrite (hbind_ret _ _ _ _ _ Hget), (hbind_ret _ _ _ _ _ Hcopy),
    (hbind_ret _ _ _ _ _ Hhset).
  apply (IH (i + 1) _ acc1); [lia | exact Hfr2|].
  cbn. apply lookup_insert_eq.
Qed.
End Copy.

(** [deepCopy] returns for a value that can be read to a depth below the
    fuel: a string is returned as it is, and the copy of an object has the
    strings of the object under their keys. *)
Lemma deepCopy_total fuel : forall d v st,
  (d < fuel)%nat -> wf (fst st) -> readable (read_value d (fst st)) v ->
  exists v',
    fst (deepCopy_h fuel v st) = Ret v' /\
    (forall s, v = HStr s -> v' = HStr s) /\
    (forall l props, v = HRef l -> cells (fst st) !! l = Some (CObj props) ->
       exists out acc,
         v' = HRef out /\
         cells (fst (snd (deepCopy_h fuel v st))) !! out = Some (CObj acc) /\
         forall k s, lookup k props = Some (HStr s) ->
                     lookup k acc = Some (HStr s)).
Proof.
  induction fuel as [|fuel IH]; intros d v st Hd Hwf (t & Ht & Hnp); [lia|].
  destruct v; cbn [deepCopy_h];
    try (eexists; split; [reflexivity|]; split;
         [intros s0 Hs0; first [exact Hs0 | discriminate]
         | intros l0 props0 Hl0; discriminate]).
  destruct d as [|d]; [discriminate|]. cbn [read_value] in Ht.
  destruct (cells (fst st) !! l) as [c|] eqn:Hc; [|discriminate].
  assert (read_cell l st = (Ret c, st)) as Hread.
  { unfold read_cell. rewrite Hc. reflexivity. }
  rewrite (hbind_ret _ _ _ _ _ Hread).
  pose proof (frame_refl _ Hwf) as Hfr.
  assert (forall x st0, wf (fst st0) -> readable (read_value d (fst st0)) x ->
            exists y, fst (deepCopy_h fuel x st0) = Ret y /\
                      forall s, x = HStr s -> y = HStr s) as Htotal.
  { intros x st0 Hwf0 Hr.
    destruct (IH d x st0 ltac:(lia) Hwf0 Hr) as (y & H1 & H2 & _).
    exists y. split; assumption. }
  destruct c as [props|elems].
  - destruct (read_props (read_value d (fst st)) props) as [tprops|] eqn:Hr;
      [|discriminate].
    cbn in Ht. injection Ht as <-.
    pose proof (read_props_readable _ _ _ Hr Hnp) as Hprops.
    set (st0 := (Heap (<[next (fst st) := CObj []]> (cells (fst st)))
                      (S (next (fst st))), snd st)).
    assert (alloc (CObj []) st = (Ret (next (fst st)), st0)) as Halloc
        by reflexivity.
    destruct (hoare_alloc (next (fst st)) (fst st) (CObj [])
                ltac:(constructor) st Hfr) as [Hfr0 _].
    rewrite Halloc in Hfr0. cbn [fst snd] in Hfr0.
    rewrite (hbind_ret _ _ _ _ _ Halloc).
    destruct (copy_props_total (deepCopy_h fuel) d
                (fun n h0 x => hoare_deepCopy n h0 fuel x) Htotal
                (fst st) l (next (fst st)) Hwf (Nat.le_refl _) props Hc Hprops
                (map fst props) (fun k Hk => Hk) st0 []
                Hfr0 ltac:(subst st0; cbn; apply lookup_insert_eq))
      as (acc & Hrun & Hcell & Hcontent).
    exists (HRef (next (fst st))).
    unfold hbind, hret.
    destruct (copy_props _ _ _ _ st0) as [r st1]. cbn [fst snd] in *. subst r.
    cbn [fst snd].
    split; [reflexivity|]. split; [discriminate|].
    intros l0 props0 [= <-] Hp0. rewrite Hc in Hp0. injection Hp0 as <-.
    exists (next (fst st)), acc. split; [reflexivity|]. split; [exact Hcell|].
    intros k s Hk. apply (Hcontent k s Hk). left.
    apply lookup_In in Hk. apply (in_map fst) in Hk. exact Hk.
  - destruct (read_elems (read_value d (fst st)) elems) as [ts|] eqn:Hr;
      [|discriminate].
    cbn in Ht. injection Ht as <-.
    pose proof (read_elems_readable _ _ _ Hr Hnp) as Helems.
    set (st0 := (Heap (<[next (fst st) := CArr []]> (cells (fst st)))
                      (S (next (fst st))), snd st)).
    assert (alloc (CArr []) st = (Ret (next (fst st)), st0)) as Halloc
        by reflexivity.
    destruct (hoare_alloc (next (fst st)) (fst st) (CArr [])
                ltac:(constructor) st Hfr) as [Hfr0 _].
    rewrite Halloc in Hfr0. cbn [fst snd] in Hfr0.
    rewrite (hbind_ret _ _ _ _ _ Halloc).
    pose proof (copy_elems_total (deepCopy_h fuel) d
                  (fun n h0 x => hoare_deepCopy n h0 fuel x) Htotal
                  (fst st) l (next (fst st)) Hwf (Nat.le_refl _) elems Hc Helems
                  (length elems) 0 st0 [] ltac:(lia)
                  Hfr0 ltac:(subst st0; cbn; apply lookup_insert_eq)) as Hrun.
    exists (HRef (next (fst st))).
    unfold hbind, hret.
    destruct (copy_elems _ _ _ _ _ st0) as [r st1]. cbn [fst snd] in *. subst r.
    cbn [fst snd].
    split; [reflexivity|]. split; [discriminate|].
    intros l0 props0 [= <-] Hp0. rewrite Hc in Hp0. discriminate.
Qed.

(** *** The object under construction *)

Lemma wf_write h l c c' :
  wf h -> cells h !! l = Some c -> wf (Heap (<[l := c']> (cells h)) (next h)).
Proof.
  intros Hwf Hc l' Hl'. cbn in *.
  destruct (decide (l = l')) as [<-|Hne].
  - rewrite (Hwf l Hl') in Hc. discriminate.
  - rewrite lookup_insert_ne by assumption. apply Hwf, Hl'.
Qed.

Section Text.
Variables (out : nat) (key text : jsstring).

Lemma text_frame {A} (m : HM A) (Q : nat -> A -> Prop) :
  (forall n h0, hoare (frame n h0) m (Q n)) ->
  hoare (has_text out key text) m any.
Proof.
  intros Hm st (Hwf & props & Hc & Hk). split; [|intros; exact I].
  split.
  - destruct (Hm (next (fst st)) (fst st) st (frame_refl _ Hwf)) as [Hfr _].
    exact (frame_wf _ _ _ Hfr).
  - exists props. split; [|exact Hk].
    exact (kept m Q st out _ Hm Hwf Hc).
Qed.

Lemma text_hset k v :
  str_eqb key k = false ->
  hoare (has_text out key text) (hset (HRef out) k v) any.
Proof.
  intros Hne st (Hwf & props & Hc & Hk). split; [|intros; exact I].
  unfold hset, hbind, read_cell, hliftR, write_cell. rewrite Hc.
  destruct (set_prop k v props) as [props'| |] eqn:Hset; cbn [fst snd];
    try (split; [exact Hwf | exists props; split; assumption]).
  rewrite Hc. cbn [fst snd]. split; [exact (wf_write _ _ _ _ Hwf Hc)|].
  exists props'. split; [cbn; apply lookup_insert_eq|].
  rewrite (lookup_set_prop _ key _ _ _ Hset), Hne. exact Hk.
Qed.

Lemma text_hdelete k :
  str_eqb key k = false ->
  hoare (has_text out key text) (hdelete (HRef out) k) any.
Proof.
  intros Hne st (Hwf & props & Hc & Hk). split; [|intros; exact I].
  unfold hdelete, hbind, read_cell, write_cell. rewrite Hc.
  cbn [fst snd]. rewrite Hc. cbn [fst snd].
  split; [exact (wf_write _ _ _ _ Hwf Hc)|].
  exists (remove k props). split; [cbn; apply lookup_insert_eq|].
  rewrite (lookup_remove_ne _ _ _ Hne). exact Hk.
Qed.

Lemma text_apply_object_op fuel rec k o :
  str_eqb key k = false ->
  (forall n h0 s, hoare (frame n h0) (rec o s) (new_from n)) ->
  hoare (has_text out key text) (apply_object_op fuel rec (HRef out) k o) any.
Proof.
  intros Hne Hrec. unfold apply_object_op.
  destruct o;
    try (eapply hoare_bind;
         [first [ apply (text_frame _ (fun _ => any));
                  intros n h0; apply hoare_hget_any
                | apply (text_frame _ new_from);
                  intros n h0; apply hoare_alloc_value ]
         | intros ? _]);
    try (eapply hoare_bind;
         [first [ apply hoare_liftR
                | apply (text_frame _ new_from); intros n h0; apply Hrec
                | apply (text_frame _ new_from);
                  intros n h0; apply hoare_apply_delta ]
         | intros ? _]);
    first [ apply text_hset, Hne | apply text_hdelete, Hne
          | apply hoare_ret; exact I | apply hoare_throw ].
Qed.

Lemma text_apply_object_each fuel rec pre :
  existsb (str_eqb key) (map fst pre) = false ->
  Forall (fun kv : jsstring * op =>
            forall n h0 s, hoare (frame n h0) (rec (snd kv) s) (new_from n))
         pre ->
  hoare (has_text out key text) (apply_object_each fuel rec (HRef out) pre) any.
Proof.
  intros Hkeys Hpre. induction Hpre as [|[k o] pre Ho Hpre IH];
    cbn [apply_object_each].
  - apply hoare_ret. exact I.
  - cbn [map existsb fst] in Hkeys. apply orb_false_elim in Hkeys as [Hk Hkeys].
    eapply hoare_bind; [apply text_apply_object_op; [exact Hk | exact Ho]|].
    intros _ _. exact (IH Hkeys).
Qed.

(** The operation with the malformed delta throws. *)
Lemma text_throws fuel rec delta post st e :
  has_text out key text (fst st) ->
  diff_fromDelta text delta = Throw e ->
  fst (apply_object_each fuel rec (HRef out) ((key, OpText delta) :: post) st)
  = Throw e.
Proof.
  intros (Hwf & props & Hc & Hk) He. cbn [apply_object_each apply_object_op].
  unfold hbind at 1. unfold hbind at 1.
  rewrite (hget_obj out props key (HStr text) st Hc Hk).
  unfold hbind at 1. cbn [apply_delta_h]. unfold hbind at 1, hliftR.
  rewrite He. reflexivity.
Qed.
End Text.

Lemma hbind_assoc {A B C} (m : HM A) (k : A -> HM B) (k' : B -> HM C) st :
  hbind (hbind m k) k' st = hbind m (fun a => hbind (k a) k') st.
Proof.
  unfold hbind. destruct (m st) as [[a| |] st1]; reflexivity.
Qed.

Lemma hbind_ext {A B} (m : HM A) (k k' : A -> HM B) st :
  (forall a st', k a st' = k' a st') -> hbind m k st = hbind m k' st.
Proof.
  intros H. unfold hbind. destruct (m st) as [[a| |] st1]; [apply H|..];
    reflexivity.
Qed.

Lemma apply_object_each_app fuel rec patched pre rest : forall st,
  apply_object_each fuel rec patched (pre ++ rest) st
  = hbind (apply_object_each fuel rec patched pre)
          (fun _ => apply_object_each fuel rec patched rest) st.
Proof.
  induction pre as [|[k o] pre IH]; intros st; cbn [app apply_object_each].
  - reflexivity.
  - rewrite hbind_assoc. apply hbind_ext. intros _ st1. apply IH.
Qed.

Lemma read_props_lookup read props tprops k tv :
  read_props read props = Some tprops -> lookup k tprops = Some tv ->
  exists x, lookup k props = Some x /\ read x = Some tv.
Proof.
  revert tprops. induction props as [|[k' x] l IH]; simpl; intros tprops.
  - intros [= <-]. discriminate.
  - destruct (read x) as [y|] eqn:E; [|discriminate].
    destruct (read_props read l) as [r|]; [|discriminate].
    intros [= <-]. simpl. destruct (str_eqb k k').
    + intros [= <-]. exists x. split; [reflexivity | exact E].
    + apply IH. reflexivity.
Qed.

Lemma read_value_str d h x s : read_value d h x = Some (VStr s) -> x = HStr s.
Proof.
  destruct d, x; simpl; try discriminate; try (intros [= ->]; reflexivity).
  destruct (cells h !! l) as [[props|elems]|]; [| |discriminate].
  - destruct (read_props _ props); discriminate.
  - destruct (read_elems _ elems); discriminate.
Qed.

(** X1: [apply_object_diff] on an object that has a string under [key],
    with a diff whose operation at [key] is a ['d'] with a delta that is
    malformed for that string.  When the operations before it stay inside
    the embedding, the call throws; and whatever the operations before it
    did, every object that existed before the call is as it was, so the
    source object still reads as the same value. *)
Theorem apply_object_diff_malformed_delta
    fuel d h clk s tprops pre key delta post text :
  wf h ->
  read_value d h s = Some (VObj tprops) ->
  no_proto (VObj tprops) = true ->
  (d < fuel)%nat ->
  lookup key tprops = Some (VStr text) ->
  existsb (str_eqb key) (map fst pre) = false ->
  malformed_delta text delta = true ->
  is_unknown (fst (apply_object_diff_h fuel s (Some pre) (h, clk))) = false ->
  let r := apply_object_diff_h fuel s
             (Some (pre ++ (key, OpText delta) :: post)) (h, clk) in
  (exists e, fst r = Throw e) /\
  preserved h (fst (snd r)) /\
  read_value d (fst (snd r)) s = Some (VObj tprops).
Proof.
  intros Hwf Hs Hnp Hd Hkey Hpre Hbad Hknown r.
  assert (preserved h (fst (snd r))) as Hpres.
  { destruct (hoare_apply_diff (next h) h fuel
                (OpObj (pre ++ (key, OpText delta) :: post)) s (h, clk)
                (frame_refl _ Hwf)) as [Hfr _].
    exact (frame_preserved _ _ Hwf Hfr). }
  split; [|split; [exact Hpres | exact (read_value_preserved _ _ _ _ _ Hpres Hs)]].
  (* s is an object of the heap with the text under the key *)
  destruct d as [|d]; destruct s as [| | | | | |l]; try discriminate.
  pose proof Hs as Hs'. cbn [read_value] in Hs'.
  destruct (cells h !! l) as [[props|elems]|] eqn:Hc; try discriminate;
    [|destruct (read_elems _ elems); discriminate].
  destruct (read_props (read_value d h) props) as [tp|] eqn:Hr; [|discriminate].
  cbn in Hs'. injection Hs' as ->.
  destruct (read_props_lookup _ _ _ _ _ Hr Hkey) as (x & Hx & Hrx).
  apply read_value_str in Hrx. subst x.
  (* the copy *)
  destruct (deepCopy_total fuel (S d) (HRef l) (h, clk) Hd Hwf
              (ex_intro _ _ (conj Hs Hnp)))
    as (patched & Hcopy & _ & Hobj).
  destruct (Hobj l props eq_refl Hc) as (out & acc & -> & Hacc & Hcontent).
  destruct (hoare_deepCopy (next h) h fuel (HRef l) (h, clk) (frame_refl _ Hwf))
    as [Hfr1 _].
  subst r. unfold apply_object_diff_h in *. cbn [default apply_diff_h] in *.
  unfold id in *.
  unfold apply_object_with in *. unfold hbind at 1. unfold hbind at 1 in Hknown.
  destruct (deepCopy_h fuel (HRef l) (h, clk)) as [r1 st1].
  cbn [fst snd] in *. subst r1.
  assert (has_text out key text (fst st1)) as Htext.
  { split; [exact (frame_wf _ _ _ Hfr1)|]. exists acc.
    split; [exact Hacc | exact (Hcontent key text Hx)]. }
  destruct (text_apply_object_each out key text fuel (apply_diff_h fuel) pre Hpre
              ltac:(apply List.Forall_forall; intros kv _ n h0 s0;
                    apply hoare_apply_diff) st1 Htext) as [Htext2 _].
  unfold hbind at 1. rewrite apply_object_each_app. unfold hbind at 1.
  unfold hbind at 1 in Hknown.
  destruct (apply_object_each fuel (apply_diff_h fuel) (HRef out) pre st1)
    as [[[]|e|] st2]; cbn [fst snd] in *.
  - pose proof (diff_fromDelta_malformed text delta) as Hthrow.
    rewrite Hbad in Hthrow. destruct Hthrow as [e He].
    pose proof (text_throws out key text fuel (apply_diff_h fuel) delta post st2 e
                  Htext2 He) as Hrun.
    destruct (apply_object_each _ _ _ (_ :: post) st2) as [r3 st3].
    cbn [fst] in Hrun. subst r3. exists e. reflexivity.
  - exists e. reflexivity.
  - discriminate.
Qed.

Lemma wf_one_note : wf one_note.
Proof.
  intros l Hl. unfold one_note in *. cbn in *.
  apply lookup_singleton_ne. lia.
Qed.

(** The delta [=2] keeps two characters of ["abc"]: the call throws after
    the first operation has been carried out on the copy. *)
Lemma apply_object_diff_malformed_delta_witness :
  let r := apply_object_diff_h 100 (HRef 0) (Some bad_diff) (one_note, still) in
  (exists e, fst r = Throw e) /\
  preserved one_note (fst (snd r)) /\
  read_value 1 (fst (snd r)) (HRef 0)
  = Some (VObj [(js "n", VNum 1); (js "t", VStr (js "abc"))]).
Proof.
  exact (apply_object_diff_malformed_delta 100 1 one_note still (HRef 0)
           [(js "n", VNum 1); (js "t", VStr (js "abc"))]
           [(js "n", OpInt 1)] (js "t") (js "=2") [(js "z", OpDel)] (js "abc")
           wf_one_note eq_refl eq_refl ltac:(lia) eq_refl eq_refl eq_refl
           ltac:(vm_compute; reflexivity)).
Defined.

(** X2: [diff_fromDelta] throws on the deltas that are malformed for the
    text, and returns a diff on every other delta. *)
Theorem diff_fromDelta_throws_on_malformed text delta :
  if malformed_delta text delta
  then exists e, diff_fromDelta text delta = Throw e
  else exists ds, diff_fromDelta text delta = Ret ds.
Proof. exact (diff_fromDelta_malformed text delta). Qed.

(** *** The copy that [get] returns *)

Lemma reach_new n h v l :
  new_closed n h -> new_from n v -> reach h v l -> (n <= l)%nat.
Proof.
  intros Hclosed Hv Hr. induction Hr as [l|l props k v l' Hc Hin Hr IH
                                        |l elems v l' Hc Hin Hr IH].
  - exact Hv.
  - apply IH. pose proof (Hclosed l _ Hv Hc) as Hcell. cbn in Hcell.
    exact (proj1 (List.Forall_forall _ _) Hcell (k, v) Hin).
  - apply IH. pose proof (Hclosed l _ Hv Hc) as Hcell. cbn in Hcell.
    exact (proj1 (List.Forall_forall _ _) Hcell v Hin).
Qed.

Lemma hoare_get n h0 fuel store id :
  hoare (frame n h0) (get_h fuel store id) (new_from n).
Proof.
  unfold get_h. eapply hoare_bind; [apply hoare_liftR|].
  intros [e|] _; [apply hoare_deepCopy | apply hoare_ret; exact I].
Qed.

(** X3: [get] leaves every object of the heap as it was, the snapshots of
    the store among them, and no object that can be reached from the value
    it returns existed before the call: writing to such an object, whatever
    is written, leaves the objects that existed before the call as they
    were. *)
Theorem get_isolated fuel store id h clk r st' :
  wf h ->
  get_h fuel store id (h, clk) = (r, st') ->
  preserved h (fst st') /\
  forall v l, r = Ret v -> reach (fst st') v l ->
    cells h !! l = None /\
    forall c, preserved h (Heap (<[l := c]> (cells (fst st'))) (next (fst st'))).
Proof.
  intros Hwf Hget.
  destruct (hoare_get (next h) h fuel store id (h, clk) (frame_refl _ Hwf))
    as [Hfr Hnew].
  rewrite Hget in Hfr, Hnew. cbn [fst snd] in Hfr, Hnew.
  pose proof (frame_preserved _ _ Hwf Hfr) as Hpres.
  split; [exact Hpres|].
  intros v l -> Hreach.
  destruct Hfr as (_ & _ & Hclosed & _).
  pose proof (reach_new _ _ _ _ Hclosed (Hnew v eq_refl) Hreach) as Hl.
  split; [exact (Hwf l Hl)|].
  intros c l' c' Hc'. cbn.
  rewrite lookup_insert_ne; [exact (Hpres l' c' Hc')|].
  intros <-. rewrite (Hwf l Hl) in Hc'. discriminate.
Qed.

Lemma wf_one_entity : wf one_entity.
Proof.
  intros l Hl. unfold one_entity in *. cbn in *.
  rewrite lookup_insert_ne by lia. apply lookup_singleton_ne. lia.
Qed.

(** The copy of [{a: [1, null]}] is the new object at address 2, and
    overwriting it leaves the snapshot as it was. *)
Lemma get_isolated_witness :
  let r := get_h 100 [(js "A", HEntity (HRef 0) (Some 1))] (js "A")
             (one_entity, still) in
  fst r = Ret (HRef 2) /\
  preserved one_entity (fst (snd r)) /\
  cells one_entity !! 2%nat = None /\
  preserved one_entity
    (Heap (<[2%nat := CObj []]> (cells (fst (snd r)))) (next (fst (snd r)))).
Proof.
  cbv zeta.
  destruct (get_isolated 100 [(js "A", HEntity (HRef 0) (Some 1))] (js "A")
              one_entity still _ _ wf_one_entity (surjective_pairing _))
    as [Hpres Hnew].
  assert (fst (get_h 100 [(js "A", HEntity (HRef 0) (Some 1))] (js "A")
                 (one_entity, still)) = Ret (HRef 2)) as Hr
      by (vm_compute; reflexivity).
  destruct (Hnew (HRef 2) 2%nat Hr (reach_here _ 2%nat)) as [Hnone Hwrite].
  split; [exact Hr|]. split; [exact Hpres|].
  split; [exact Hnone | exact (Hwrite (CObj []))].
Defined.

(** ** Further properties of the text engine *)

(** *** The tokens of a delta, one at a time *)

Lemma fromDelta_loop_blank text tokens p :
  fromDelta_loop text ([] :: tokens) p = fromDelta_loop text tokens p.
Proof. reflexivity. Qed.

Lemma fromDelta_loop_insert text token tokens p :
  classify token = TInsert ->
  exists s, decodeURI (tl token) = Ret s /\
    fromDelta_loop text (token :: tokens) p
    = let! (ds, q) := fromDelta_loop text tokens p in
      Ret ((DIFF_INSERT, s) :: ds, q).
Proof.
  destruct token as [|c param]; [discriminate|].
  destruct (N.eq_dec c 43%N) as [->|H43].
  - cbn [classify fromDelta_loop tl]. rewrite substring_from_1.
    destruct (decodeURI param) as [s| |]; try discriminate.
    intros _. exists s. split; reflexivity.
  - destruct (N.eq_dec c 45%N) as [->|H45];
      [|destruct (N.eq_dec c 61%N) as [->|H61]].
    + cbn [classify]. destruct (parseInt10 param) as [k|]; [|discriminate].
      destruct (k <? 0); discriminate.
    + cbn [classify]. destruct (parseInt10 param) as [k|]; [|discriminate].
      destruct (k <? 0); discriminate.
    + by_code c; try congruence; discriminate.
Qed.

Lemma fromDelta_loop_count text token tokens p n :
  classify token = TCount n ->
  0 <= n /\
  exists op, op <> DIFF_INSERT /\
    fromDelta_loop text (token :: tokens) p
    = let! (ds, q) := fromDelta_loop text tokens (p + n) in
      Ret ((op, substring text p (p + n)) :: ds, q).
Proof.
  destruct token as [|c param]; [discriminate|].
  destruct (N.eq_dec c 43%N) as [->|H43].
  - cbn [classify]. destruct (decodeURI param); discriminate.
  - destruct (N.eq_dec c 45%N) as [->|H45];
      [|destruct (N.eq_dec c 61%N) as [->|H61]].
    + cbn [classify fromDelta_loop]. rewrite substring_from_1.
      destruct (parseInt10 param) as [k|]; [|discriminate].
      destruct (Z.ltb_spec k 0); [discriminate|]. intros [= <-].
      split; [assumption|]. exists DIFF_DELETE. split; [discriminate|].
      reflexivity.
    + cbn [classify fromDelta_loop]. rewrite substring_from_1.
      destruct (parseInt10 param) as [k|]; [|discriminate].
      destruct (Z.ltb_spec k 0); [discriminate|]. intros [= <-].
      split; [assumption|]. exists DIFF_EQUAL. split; [discriminate|].
      reflexivity.
    + by_code c; try congruence; discriminate.
Qed.

Lemma classify_blank token : classify token = TBlank -> token = [].
Proof.
  destruct token as [|c param]; [reflexivity|].
  destruct (N.eq_dec c 43%N) as [->|H43].
  - cbn [classify]. destruct (decodeURI param); discriminate.
  - destruct (N.eq_dec c 45%N) as [->|H45];
      [|destruct (N.eq_dec c 61%N) as [->|H61]].
    + cbn [classify]. destruct (parseInt10 param) as [k|]; [|discriminate].
      destruct (k <? 0); discriminate.
    + cbn [classify]. destruct (parseInt10 param) as [k|]; [|discriminate].
      destruct (k <? 0); discriminate.
    + by_code c; try congruence; discriminate.
Qed.

(** *** Substrings *)

Lemma substring_inside s a b :
  0 <= a <= b -> b <= len s ->
  substring s a b = firstn (Z.to_nat (b - a)) (skipn (Z.to_nat a) s).
Proof.
  intros Ha Hb. unfold substring, clamp.
  replace (Z.to_nat (Z.min (Z.max a 0) (len s))) with (Z.to_nat a) by lia.
  replace (Z.to_nat (Z.min (Z.max b 0) (len s))) with (Z.to_nat b) by lia.
  rewrite Nat.min_l, Nat.max_r by lia. f_equal. lia.
Qed.

Lemma substring_app s a b c :
  0 <= a <= b -> b <= c -> c <= len s ->
  substring s a b ++ substring s b c = substring s a c.
Proof.
  intros Ha Hb Hc.
  rewrite !substring_inside by lia.
  replace (Z.to_nat (c - a)) with (Z.to_nat (b - a) + Z.to_nat (c - b))%nat
    by lia.
  rewrite <- (firstn_skipn (Z.to_nat (b - a))
                (firstn (Z.to_nat (b - a) + Z.to_nat (c - b))
                   (skipn (Z.to_nat a) s))).
  rewrite firstn_firstn, Nat.min_l by lia. f_equal.
  rewrite skipn_firstn_comm.
  replace (Z.to_nat (b - a) + Z.to_nat (c - b) - Z.to_nat (b - a))%nat
    with (Z.to_nat (c - b)) by lia.
  rewrite skipn_skipn. f_equal. f_equal. lia.
Qed.

Lemma substring_all s : substring s 0 (len s) = s.
Proof.
  rewrite substring_inside by (unfold len; lia).
  cbn [Z.to_nat skipn]. rewrite Z.sub_0_r. unfold len.
  rewrite Nat2Z.id. apply firstn_all.
Qed.

Lemma substring_empty s a : 0 <= a <= len s -> substring s a a = [].
Proof.
  intros Ha. rewrite substring_inside by lia.
  rewrite Z.sub_diag. reflexivity.
Qed.

(** The source text of a diff that [diff_fromDelta] has read from pointer
    [p] on is the text between [p] and the pointer it arrives at. *)
Lemma fromDelta_loop_text1 text tokens : forall p ds q,
  0 <= p ->
  fromDelta_loop text tokens p = Ret (ds, q) ->
  p <= q /\ (q <= len text -> diff_text1 ds = substring text p q).
Proof.
  induction tokens as [|token tokens IH]; intros p ds q Hp.
  - cbn. intros [= <- <-]. split; [lia|]. intros Hq.
    rewrite substring_empty by lia. reflexivity.
  - destruct (classify token) as [|n| |] eqn:Hc.
    + destruct (fromDelta_loop_insert text token tokens p Hc) as (s & _ & ->).
      destruct (fromDelta_loop text tokens p) as [[ds' q']| |] eqn:E;
        try discriminate.
      cbn. intros [= <- <-]. destruct (IH p ds' q' Hp E) as [H1 H2].
      split; [exact H1|]. intros Hq. unfold diff_text1. cbn.
      exact (H2 Hq).
    + destruct (fromDelta_loop_count text token tokens p n Hc)
        as (Hn & op & Hop & ->).
      destruct (fromDelta_loop text tokens (p + n)) as [[ds' q']| |] eqn:E;
        try discriminate.
      cbn. intros [= <- <-].
      destruct (IH (p + n) ds' q' ltac:(lia) E) as [H1 H2].
      split; [lia|]. intros Hq. unfold diff_text1. cbn [map concat fst snd].
      destruct (dop_eqb op DIFF_INSERT) eqn:Eo;
        [destruct op; try discriminate; congruence|].
      fold (diff_text1 ds'). rewrite (H2 Hq).
      apply substring_app; lia.
    + apply classify_blank in Hc. subst token. rewrite fromDelta_loop_blank.
      apply IH, Hp.
    + pose proof (fromDelta_loop_spec text (token :: tokens) p) as H.
      cbn [existsb] in H. unfold is_bad at 1 in H. rewrite Hc in H.
      cbn [orb] in H. destruct H as [e ->]. discriminate.
Qed.

(** X4: the diff that [diff_fromDelta] returns for a text has that text as
    its source: the equalities and deletions, in order, make up the text. *)
Theorem diff_fromDelta_text1 text delta diffs :
  diff_fromDelta text delta = Ret diffs -> diff_text1 diffs = text.
Proof.
  unfold diff_fromDelta.
  destruct (fromDelta_loop text (split_tab delta []) 0) as [[ds q]| |] eqn:E;
    try discriminate.
  cbn [rbind]. destruct (Z.eqb_spec q (len text)) as [->|Hne];
    [|discriminate].
  cbn [negb]. intros [= <-].
  destruct (fromDelta_loop_text1 text _ 0 ds (len text) ltac:(lia) E) as [_ H].
  rewrite (H ltac:(lia)). apply substring_all.
Qed.

(** *** Levenshtein *)

Lemma len_app (a b : jsstring) : len (a ++ b) = len a + len b.
Proof. unfold len. rewrite length_app. lia. Qed.

Lemma len_nonneg (a : jsstring) : 0 <= len a.
Proof. unfold len. lia. Qed.

Lemma levenshtein_loop_bounds diffs : forall lev ins del,
  0 <= ins -> 0 <= del ->
  lev + Z.max (ins + inserted diffs) (del + deleted diffs)
  <= levenshtein_loop diffs lev ins del
  <= lev + ins + del + inserted diffs + deleted diffs.
Proof.
  induction diffs as [|[op data] ds IH]; intros lev ins del Hi Hd.
  - unfold inserted, deleted, len. cbn. lia.
  - pose proof (len_nonneg data) as Hdata.
    unfold inserted, deleted in *. destruct op; cbn [levenshtein_loop].
    + cbn [map concat fst snd dop_eqb]. rewrite ?len_app. change (len []) with 0.
      specialize (IH lev ins (del + len data) Hi ltac:(lia)).
      change (Z.of_nat 0) with 0. lia.
    + cbn [map concat fst snd dop_eqb]. rewrite ?len_app. change (len []) with 0.
      specialize (IH lev (ins + len data) del ltac:(lia) Hd).
      change (Z.of_nat 0) with 0. lia.
    + cbn [map concat fst snd dop_eqb]. rewrite ?len_app.
      change (len []) with 0.
      specialize (IH (lev + Z.max ins del) 0 0 ltac:(lia) ltac:(lia)).
      lia.
Qed.

(** X5: the distance [diff_levenshtein] gives for a diff is at least the
    larger of the numbers of characters it inserts and deletes, and at most
    their sum. *)
Theorem diff_levenshtein_bounds diffs :
  Z.max (inserted diffs) (deleted diffs) <= diff_levenshtein diffs
  <= inserted diffs + deleted diffs.
Proof.
  pose proof (levenshtein_loop_bounds diffs 0 0 0 ltac:(lia) ltac:(lia)).
  unfold diff_levenshtein. lia.
Qed.

(** The delta [=1], tab, [-2], tab, [+x] read against ["abc"]. *)
Lemma diff_fromDelta_text1_witness :
  diff_fromDelta (js "abc") (js "=1" ++ tab ++ js "-2" ++ tab ++ js "+x")
  = Ret [(DIFF_EQUAL, js "a"); (DIFF_DELETE, js "bc"); (DIFF_INSERT, js "x")] /\
  diff_text1 [(DIFF_EQUAL, js "a"); (DIFF_DELETE, js "bc"); (DIFF_INSERT, js "x")]
  = js "abc".
Proof.
  assert (diff_fromDelta (js "abc")
            (js "=1" ++ tab ++ js "-2" ++ tab ++ js "+x")
          = Ret [(DIFF_EQUAL, js "a"); (DIFF_DELETE, js "bc");
                 (DIFF_INSERT, js "x")]) as H by (vm_compute; reflexivity).
  split; [exact H | exact (diff_fromDelta_text1 _ _ _ H)].
Defined.

(** ** Further properties of the client and of the structural diff *)

(** X6: [_make_change] for an id that has a change in the send queue returns
    null and leaves the client as it is: no change number is used up. *)
Theorem make_change_refuses_pending fuel id c e :
  get_prop id (store c) = Ret e ->
  existsb (fun change => str_eqb id (c_id change)) (send_queue c) = true ->
  _make_change fuel id c = (Ret None, c).
Proof. exact (make_change_pending fuel id c e). Qed.

Lemma make_change_refuses_pending_witness :
  _make_change 100 (js "A") pending_client = (Ret None, pending_client).
Proof.
  exact (make_change_refuses_pending 100 (js "A") pending_client
           (Some (Entity (VObj []) None (VObj [(js "x", VNum 1)]) None false))
           eq_refl eq_refl).
Defined.

(** X7: when no key of the local diff is a key of the remote one,
    [transform_object_diff] returns undefined, whatever the operations
    are: the loop ends without reaching its [return]. *)
Theorem transform_object_diff_disjoint fuel ad ad' bd s clk :
  deepCopy_diff ad = Ret ad' ->
  forallb (fun kv => match has_in (fst kv) bd with
                     | Ret false => true
                     | _ => false
                     end) ad = true ->
  transform_object_diff fuel ad bd s clk = (Ret None, clk).
Proof.
  intros Hcopy Hkeys.
  unfold transform_object_diff, transform_object_with, mbind', lift.
  rewrite Hcopy. apply transform_object_each_disjoint, Hkeys.
Qed.

Lemma transform_object_diff_disjoint_witness :
  transform_object_diff 100 [(js "a", OpIns (VNum 1))] [(js "b", OpIns (VNum 2))]
    (VObj []) still
  = (Ret None, still).
Proof.
  exact (transform_object_diff_disjoint 100 [(js "a", OpIns (VNum 1))]
           [(js "a", OpIns (VNum 1))] [(js "b", OpIns (VNum 2))] (VObj []) still
           eq_refl eq_refl).
Defined.

(** ** Common prefix and suffix of two texts *)

Lemma commonPrefix_loop_halving t1 t2 fuel : forall a b c d,
  commonPrefix_loop fuel t1 t2 a b c d
  = halving (fun s m => str_eqb (substring t1 s m) (substring t2 s m))
            fuel a b c d.
Proof.
  induction fuel as [|fuel IH]; intros a b c d; [reflexivity|].
  cbn [commonPrefix_loop halving]. rewrite !IH. reflexivity.
Qed.

Lemma commonSuffix_loop_halving t1 t2 fuel : forall a b c d,
  commonSuffix_loop fuel t1 t2 a b c d
  = halving (fun e m =>
               str_eqb (substring t1 (len t1 - m) (len t1 - e))
                       (substring t2 (len t2 - m) (len t2 - e)))
            fuel a b c d.
Proof.
  induction fuel as [|fuel IH]; intros a b c d; [reflexivity|].
  cbn [commonSuffix_loop halving]. rewrite !IH. reflexivity.
Qed.

(** The search finds [L] when the test of a segment that starts at or
    below [L] says whether it ends at or below [L]. *)
Lemma halving_finds same L bound
  (Hsame : forall s m, 0 <= s <= L -> s <= m <= bound ->
                       same s m = (m <=? L)) :
  forall fuel pmin pmax pmid,
    0 <= pmin <= pmid -> pmid <= pmax -> pmax <= bound ->
    pmin <= L <= pmax ->
    (pmid = pmax \/ (L < pmax /\ pmid = (pmax - pmin) / 2 + pmin)) ->
    2 * (pmax - pmin) + (if pmid =? pmax then 1 else 0) < Z.of_nat fuel ->
    halving same fuel pmin pmax pmid pmin = Ret L.
Proof.
  induction fuel as [|fuel IH]; intros pmin pmax pmid Hmin Hmid Hmax HL Hor Hfuel.
  - destruct (pmid =? pmax); lia.
  - cbn [halving]. destruct (Z.ltb_spec pmin pmid) as [Hlt|Hge].
    + rewrite (Hsame pmin pmid) by lia.
      destruct (Z.leb_spec pmid L) as [Hle|Hgt].
      * apply IH;
          [ Z.to_euclidean_division_equations; lia
          | Z.to_euclidean_division_equations; lia
          | lia | lia | | ].
        -- destruct Hor as [->|[H1 H2]].
           ++ left. rewrite Z.sub_diag. reflexivity.
           ++ right. split; [exact H1 | reflexivity].
        -- destruct (Z.eqb_spec ((pmax - pmid) / 2 + pmid) pmax);
             destruct (Z.eqb_spec pmid pmax);
             Z.to_euclidean_division_equations; lia.
      * apply IH;
          [ Z.to_euclidean_division_equations; lia
          | Z.to_euclidean_division_equations; lia
          | lia | lia | | ].
        -- right. split; [lia | reflexivity].
        -- destruct (Z.eqb_spec ((pmid - pmin) / 2 + pmin) pmid);
             destruct (Z.eqb_spec pmid pmax);
             Z.to_euclidean_division_equations; lia.
    + f_equal. destruct Hor as [->|[H1 H2]];
        Z.to_euclidean_division_equations; lia.
Qed.

Lemma str_eqb_iff a b : str_eqb a b = true <-> a = b.
Proof.
  split; [apply str_eqb_eq | intros ->; apply str_eqb_refl].
Qed.

Lemma firstn_plus {A} s k (t : list A) :
  firstn (s + k) t = firstn s t ++ firstn k (skipn s t).
Proof.
  revert t. induction s as [|s IH]; intros [|x t]; cbn;
    rewrite ?firstn_nil; try reflexivity.
  rewrite IH. reflexivity.
Qed.

Lemma prefix_length_le a b :
  (prefix_length a b <= length a)%nat /\ (prefix_length a b <= length b)%nat.
Proof.
  revert b. induction a as [|x a IH]; intros [|y b]; cbn; try lia.
  destruct (N.eqb x y); [|lia]. specialize (IH b). lia.
Qed.

Lemma prefix_length_firstn a : forall b m,
  (m <= length a)%nat -> (m <= length b)%nat ->
  (firstn m a = firstn m b <-> (m <= prefix_length a b)%nat).
Proof.
  induction a as [|x a IH]; intros [|y b] [|m]; cbn; intros Ha Hb;
    try lia; try (split; [lia | reflexivity]).
  destruct (N.eqb_spec x y) as [->|Hne].
  - rewrite <- Nat.succ_le_mono, <- (IH b m) by lia.
    split; [intros [= H]; exact H | intros ->; reflexivity].
  - split; [intros [= H _]; contradiction | lia].
Qed.

(** The test of a segment in [diff_commonPrefix]. *)
Lemma prefix_segment t1 t2 s m :
  0 <= s <= Z.of_nat (prefix_length t1 t2) ->
  s <= m <= Z.min (len t1) (len t2) ->
  str_eqb (substring t1 s m) (substring t2 s m)
  = (m <=? Z.of_nat (prefix_length t1 t2)).
Proof.
  intros Hs Hm. unfold len in *.
  pose proof (prefix_length_le t1 t2) as [Hl1 Hl2].
  rewrite !substring_inside by (unfold len; lia).
  assert (firstn (Z.to_nat s) t1 = firstn (Z.to_nat s) t2) as Hpre
      by (apply prefix_length_firstn; lia).
  pose proof (prefix_length_firstn t1 t2 (Z.to_nat m) ltac:(lia) ltac:(lia))
    as Hiff.
  replace (Z.to_nat m) with (Z.to_nat s + Z.to_nat (m - s))%nat in Hiff by lia.
  rewrite !firstn_plus, Hpre in Hiff.
  destruct (Z.leb_spec m (Z.of_nat (prefix_length t1 t2))) as [Hle|Hgt].
  - apply str_eqb_iff. apply (app_inv_head (firstn (Z.to_nat s) t2)).
    apply Hiff. lia.
  - destruct (str_eqb _ _) eqn:E; [|reflexivity].
    apply str_eqb_iff in E. rewrite E in Hiff.
    pose proof (proj1 Hiff eq_refl). lia.
Qed.

Lemma charAt_0 x t : charAt (x :: t) 0 = [x].
Proof. unfold charAt, len. cbn [length]. destruct (_ && _) eqn:E; [reflexivity|].
       apply andb_false_iff in E as [E|E]; [discriminate|].
       apply Z.ltb_ge in E. lia. Qed.

Lemma commonPrefix_finds fuel text1 text2 :
  2 * Z.min (len text1) (len text2) + 1 < Z.of_nat fuel ->
  diff_commonPrefix fuel text1 text2
  = Ret (Z.of_nat (prefix_length text1 text2)).
Proof.
  intros Hfuel. unfold diff_commonPrefix.
  destruct text1 as [|x t1]; [reflexivity|].
  destruct text2 as [|y t2]; [reflexivity|].
  cbn [is_empty orb]. rewrite !charAt_0. cbn [str_eqb].
  rewrite andb_true_r.
  destruct (N.eqb_spec x y) as [->|Hne];
    [|cbn [negb prefix_length]; destruct (N.eqb_spec x y); [contradiction|];
      reflexivity].
  cbn [negb]. rewrite commonPrefix_loop_halving.
  pose proof (prefix_length_le (y :: t1) (y :: t2)) as [H1 H2].
  unfold len in *.
  apply (halving_finds _ _ (Z.min (Z.of_nat (length (y :: t1)))
                                  (Z.of_nat (length (y :: t2)))));
    try lia.
  - intros s m Hs Hm. apply prefix_segment; unfold len; lia.
  - rewrite Z.eqb_refl. lia.
Qed.

(** The test of a segment in [diff_commonSuffix]. *)
Lemma len_rev (t : jsstring) : len (rev t) = len t.
Proof. unfold len. rewrite length_rev. reflexivity. Qed.

Lemma substring_rev t e m :
  0 <= e <= m -> m <= len t ->
  substring t (len t - m) (len t - e) = rev (substring (rev t) e m).
Proof.
  intros He Hm. rewrite !substring_inside by (rewrite ?len_rev; unfold len in *; lia).
  unfold len in *. rewrite skipn_rev, firstn_rev, rev_involutive.
  rewrite length_firstn.
  replace (Z.to_nat (Z.of_nat (length t) - e - (Z.of_nat (length t) - m)))
    with (Z.to_nat (m - e)) by lia.
  rewrite skipn_firstn_comm.
  replace (Nat.min (length t - Z.to_nat e) (length t) - Z.to_nat (m - e))%nat
    with (Z.to_nat (Z.of_nat (length t) - m)) by lia.
  f_equal. lia.
Qed.

Lemma str_eqb_rev a b : str_eqb (rev a) (rev b) = str_eqb a b.
Proof.
  destruct (str_eqb a b) eqn:E.
  - apply str_eqb_iff in E. subst. apply str_eqb_refl.
  - destruct (str_eqb (rev a) (rev b)) eqn:E'; [|reflexivity].
    apply str_eqb_iff in E'. apply (f_equal (@rev _)) in E'.
    rewrite !rev_involutive in E'. subst. rewrite str_eqb_refl in E.
    discriminate.
Qed.

Lemma charAt_last t x : charAt (t ++ [x]) (len (t ++ [x]) - 1) = [x].
Proof.
  unfold charAt, len. rewrite length_app. cbn [length].
  destruct (_ && _) eqn:E.
  - replace (Z.to_nat (Z.of_nat (length t + 1) - 1)) with (length t) by lia.
    rewrite skipn_app, skipn_all, Nat.sub_diag. reflexivity.
  - apply andb_false_iff in E as [E|E]; [apply Z.leb_gt in E|apply Z.ltb_ge in E];
      lia.
Qed.

Lemma commonSuffix_finds fuel text1 text2 :
  2 * Z.min (len text1) (len text2) + 1 < Z.of_nat fuel ->
  diff_commonSuffix fuel text1 text2
  = Ret (Z.of_nat (suffix_length text1 text2)).
Proof.
  intros Hfuel. unfold diff_commonSuffix, suffix_length.
  destruct (rev text1) as [|x r1] eqn:E1.
  { apply (f_equal (@rev _)) in E1. rewrite rev_involutive in E1. subst.
    reflexivity. }
  destruct (rev text2) as [|y r2] eqn:E2.
  { apply (f_equal (@rev _)) in E2. rewrite rev_involutive in E2. subst.
    cbn. rewrite orb_true_r. reflexivity. }
  apply (f_equal (@rev _)) in E1, E2. rewrite rev_involutive in E1, E2.
  cbn [rev] in E1, E2. subst text1 text2.
  assert (forall (a : jsstring) (b : N), is_empty (a ++ [b]) = false) as Hne
      by (intros [|] ?; reflexivity).
  rewrite !Hne, !charAt_last. cbn [orb str_eqb]. rewrite andb_true_r.
  cbn [prefix_length].
  destruct (N.eqb_spec x y) as [->|Hxy]; [|reflexivity].
  cbn [negb]. rewrite commonSuffix_loop_halving.
  set (t1 := rev r1 ++ [y]) in *. set (t2 := rev r2 ++ [y]) in *.
  assert (rev t1 = y :: r1) as Hr1
      by (subst t1; rewrite rev_app_distr, rev_involutive; reflexivity).
  assert (rev t2 = y :: r2) as Hr2
      by (subst t2; rewrite rev_app_distr, rev_involutive; reflexivity).
  replace (S (prefix_length r1 r2)) with (prefix_length (rev t1) (rev t2))
    by (rewrite Hr1, Hr2; cbn; rewrite N.eqb_refl; reflexivity).
  pose proof (prefix_length_le (rev t1) (rev t2)) as [H1 H2].
  rewrite !length_rev in H1, H2.
  apply (halving_finds _ _ (Z.min (len t1) (len t2))); unfold len in *; try lia.
  - intros s m Hs Hm.
    rewrite !substring_rev by (unfold len; lia).
    rewrite str_eqb_rev. apply prefix_segment; rewrite ?len_rev; unfold len; lia.
  - rewrite Z.eqb_refl. lia.
Qed.

(** X8: [diff_commonPrefix] returns the length of the longest common
    prefix of the two texts, given fuel for the steps of its search. *)
Theorem diff_commonPrefix_length fuel text1 text2 :
  2 * Z.min (len text1) (len text2) + 1 < Z.of_nat fuel ->
  diff_commonPrefix fuel text1 text2
  = Ret (Z.of_nat (prefix_length text1 text2)).
Proof. exact (commonPrefix_finds fuel text1 text2). Qed.

(** X9: [diff_commonSuffix] returns the length of the longest common
    suffix of the two texts, given fuel for the steps of its search. *)
Theorem diff_commonSuffix_length fuel text1 text2 :
  2 * Z.min (len text1) (len text2) + 1 < Z.of_nat fuel ->
  diff_commonSuffix fuel text1 text2
  = Ret (Z.of_nat (suffix_length text1 text2)).
Proof. exact (commonSuffix_finds fuel text1 text2). Qed.

Lemma diff_commonPrefix_length_witness :
  diff_commonPrefix 100 (js "1234abcdef") (js "1234xyz") = Ret 4.
Proof.
  exact (diff_commonPrefix_length 100 (js "1234abcdef") (js "1234xyz") eq_refl).
Defined.

Lemma diff_commonSuffix_length_witness :
  diff_commonSuffix 100 (js "abcdef1234") (js "xyz1234") = Ret 4.
Proof.
  exact (diff_commonSuffix_length 100 (js "abcdef1234") (js "xyz1234") eq_refl).
Defined.

(** ** The delta codec, there and back *)

(** *** Decimal numerals *)

Lemma digit_is_digit d : 0 <= d < 10 -> is_digit (digit d) = true.
Proof.
  intros Hd. unfold is_digit, digit.
  apply andb_true_iff. split; apply N.leb_le; lia.
Qed.

Lemma digit_value d : 0 <= d < 10 -> Z.of_N (digit d - 48) = d.
Proof. intros Hd. unfold digit. lia. Qed.

(** Reading the digits that [digits_of] has written gives the number
    back. *)
Lemma digits_of_value fuel : forall n rest,
  0 <= n < 2 ^ Z.of_nat (S fuel) ->
  exists m, 0 < m /\
    forall a seen,
      digits_value (digits_of (S fuel) n rest) a seen
      = digits_value rest (a * m + n) true.
Proof.
  induction fuel as [|fuel IH]; intros n rest Hn.
  - exists 10. split; [lia|]. intros a seen.
    assert (n < 10) by (cbn in Hn; lia).
    cbn [digits_of]. destruct (Z.ltb_spec n 10); [|lia].
    rewrite Z.mod_small by lia. cbn [digits_value].
    fold (digit n). rewrite digit_is_digit, digit_value by lia. reflexivity.
  - cbn [digits_of]. destruct (Z.ltb_spec n 10) as [Hlt|Hge].
    + exists 10. split; [lia|]. intros a seen.
      rewrite Z.mod_small by lia. cbn [digits_value].
      fold (digit n). rewrite digit_is_digit, digit_value by lia. reflexivity.
    + assert (0 <= n / 10 < 2 ^ Z.of_nat (S fuel)) as Hq.
      { split; [apply Z.div_pos; lia|].
        apply Z.div_lt_upper_bound; [lia|].
        rewrite Nat2Z.inj_succ, Z.pow_succ_r in Hn by lia. lia. }
      destruct (IH (n / 10) (Z.to_N (48 + n mod 10) :: rest) Hq) as (m & Hm & H).
      exists (m * 10). split; [lia|]. intros a seen.
      rewrite H. cbn [digits_value]. fold (digit (n mod 10)).
      pose proof (Z.mod_pos_bound n 10 ltac:(lia)) as Hmod.
      rewrite digit_is_digit, digit_value by lia.
      f_equal. pose proof (Z.div_mod n 10 ltac:(lia)). lia.
Qed.

Lemma digits_of_S fuel n acc :
  digits_of (S fuel) n acc
  = if n <? 10 then Z.to_N (48 + n mod 10) :: acc
    else digits_of fuel (n / 10) (Z.to_N (48 + n mod 10) :: acc).
Proof. reflexivity. Qed.

Lemma digits_of_head fuel : forall n rest,
  exists c tail, digits_of (S fuel) n rest = c :: tail /\
                 (is_digit c = true \/ exists t, rest = c :: t).
Proof.
  assert (forall n, is_digit (Z.to_N (48 + n mod 10)) = true) as Hdig.
  { intros n. fold (digit (n mod 10)). apply digit_is_digit, Z.mod_pos_bound.
    lia. }
  induction fuel as [|fuel IH]; intros n rest; rewrite digits_of_S.
  - destruct (n <? 10); eexists _, _; (split; [reflexivity|]); left; apply Hdig.
  - destruct (n <? 10).
    + eexists _, _; split; [reflexivity|]. left. apply Hdig.
    + destruct (IH (n / 10) (Z.to_N (48 + n mod 10) :: rest))
        as (c & tail & -> & [Hc|[t Ht]]).
      * eexists _, _; split; [reflexivity|]. left. exact Hc.
      * eexists _, _; split; [reflexivity|]. left. injection Ht as <- _.
        apply Hdig.
Qed.

Lemma decimal_digits n :
  0 <= n ->
  exists c tail, decimal n = c :: tail /\ is_digit c = true /\
                 digits_value (c :: tail) 0 false = Some n.
Proof.
  intros Hn. unfold decimal. destruct (Z.ltb_spec n 0); [lia|].
  destruct (digits_of_head (Z.to_nat (Z.log2 n)) n [])
    as (c & tail & Hd & [Hc|[t Ht]]); [|discriminate].
  exists c, tail. split; [exact Hd|]. split; [exact Hc|].
  rewrite <- Hd.
  assert (0 <= n < 2 ^ Z.of_nat (S (Z.to_nat (Z.log2 n)))) as Hb.
  { split; [lia|]. destruct (Z.eq_dec n 0) as [->|Hne]; [reflexivity|].
    pose proof (Z.log2_spec n ltac:(lia)) as [_ Hs].
    pose proof (Z.log2_nonneg n).
    rewrite Nat2Z.inj_succ, Z2Nat.id by lia. exact Hs. }
  destruct (digits_of_value _ n [] Hb) as (m & _ & Hval).
  rewrite Hval. cbn. reflexivity.
Qed.

Lemma parseInt10_digits c tail :
  is_digit c = true -> parseInt10 (c :: tail) = digits_value (c :: tail) 0 false.
Proof.
  intros Hc. unfold parseInt10. cbn [skip_whitespace].
  assert (whitespace c = false) as ->.
  { unfold is_digit in Hc. apply andb_true_iff in Hc as [H1 H2].
    apply N.leb_le in H1, H2. unfold whitespace.
    repeat (apply orb_false_iff; split);
      try (apply andb_false_iff; left; apply N.leb_gt; lia);
      try (apply andb_false_iff; right; apply N.leb_gt; lia);
      apply N.eqb_neq; lia. }
  unfold is_digit in Hc. by_code c; try discriminate; reflexivity.
Qed.

Lemma parseInt10_decimal n : 0 <= n -> parseInt10 (decimal n) = Some n.
Proof.
  intros Hn. destruct (decimal_digits n Hn) as (c & tail & -> & Hc & Hv).
  rewrite parseInt10_digits by exact Hc. exact Hv.
Qed.

(** *** Escapes *)

Ltac nlia := zify; Z.to_euclidean_division_equations; lia.

(** Decide the comparisons of the goal by arithmetic. *)
Ltac ncompare :=
  repeat match goal with
  | |- context [(?a <=? ?b)%N] =>
    first [ replace (a <=? b)%N with true by (symmetry; apply N.leb_le; nlia)
          | replace (a <=? b)%N with false by (symmetry; apply N.leb_gt; nlia) ]
  | |- context [(?a <? ?b)%N] =>
    first [ replace (a <? b)%N with true by (symmetry; apply N.ltb_lt; nlia)
          | replace (a <? b)%N with false by (symmetry; apply N.ltb_ge; nlia) ]
  | |- context [(?a =? ?b)%N] =>
    first [ replace (a =? b)%N with true by (symmetry; apply N.eqb_eq; nlia)
          | replace (a =? b)%N with false by (symmetry; apply N.eqb_neq; nlia) ]
  end.

Lemma hex_value_digit n : (n < 16)%N -> hex_value (hex_digit n) = Some n.
Proof.
  intros Hn. unfold hex_value, hex_digit, is_digit.
  destruct (N.ltb_spec n 10).
  - ncompare. cbn. f_equal. lia.
  - ncompare. cbn. f_equal. lia.
Qed.

Lemma read_percent_octet b r :
  (b < 256)%N -> read_octet (percent_octet b ++ r) = Some (b, r).
Proof.
  intros Hb. unfold percent_octet. cbn [app read_octet].
  rewrite !hex_value_digit by nlia. f_equal. f_equal. nlia.
Qed.

Lemma hex_digit_range n :
  (n < 16)%N ->
  (48 <= hex_digit n <= 57 /\ n = hex_digit n - 48
   \/ 65 <= hex_digit n <= 70)%N.
Proof. intros Hn. unfold hex_digit. destruct (N.ltb_spec n 10); lia. Qed.

Lemma replace_percent20_other c s :
  c <> 37%N -> replace_percent20 (c :: s) = c :: replace_percent20 s.
Proof.
  intros Hc. by_code c; try reflexivity. contradiction.
Qed.

Lemma replace_percent20_escape h l s :
  h <> 37%N -> l <> 37%N ->
  replace_percent20 (37%N :: h :: l :: s)
  = if ((h =? 50) && (l =? 48))%N then 32%N :: replace_percent20 s
    else 37%N :: h :: l :: replace_percent20 s.
Proof.
  intros Hh Hl.
  destruct (N.eqb_spec h 50) as [->|Hh50].
  - destruct (N.eqb_spec l 48) as [->|Hl48]; [reflexivity|].
    cbn [andb]. rewrite <- (replace_percent20_other l s Hl).
    by_code l; try reflexivity. contradiction.
  - cbn [andb]. rewrite <- (replace_percent20_other l s Hl).
    rewrite <- (replace_percent20_other h (l :: s) Hh).
    by_code h; try reflexivity. contradiction.
Qed.

Lemma replace_percent_octet b s :
  (b < 256)%N ->
  replace_percent20 (percent_octet b ++ s)
  = (if (b =? 32)%N then [32%N] else percent_octet b) ++ replace_percent20 s.
Proof.
  intros Hb. unfold percent_octet. cbn [app].
  destruct (hex_digit_range (b / 16) ltac:(nlia)) as [[H1 H1']|H1];
    destruct (hex_digit_range (b mod 16) ltac:(nlia)) as [[H2 H2']|H2];
    rewrite replace_percent20_escape by lia.
  - destruct (N.eqb_spec b 32) as [->|Hne]; [reflexivity|].
    destruct (N.eqb_spec (hex_digit (b / 16)) 50);
      destruct (N.eqb_spec (hex_digit (b mod 16)) 48); try reflexivity.
    exfalso. nlia.
  - destruct (N.eqb_spec b 32) as [->|Hne]; [vm_compute in H2; destruct H2 as [H2 _]; exfalso; apply H2; reflexivity|].
    destruct (N.eqb_spec (hex_digit (b mod 16)) 48); [lia|].
    rewrite andb_false_r. reflexivity.
  - destruct (N.eqb_spec b 32) as [->|Hne]; [vm_compute in H1; destruct H1 as [H1 _]; exfalso; apply H1; reflexivity|].
    destruct (N.eqb_spec (hex_digit (b / 16)) 50); [lia|]. reflexivity.
  - destruct (N.eqb_spec b 32) as [->|Hne]; [vm_compute in H1; destruct H1 as [H1 _]; exfalso; apply H1; reflexivity|].
    destruct (N.eqb_spec (hex_digit (b / 16)) 50); [lia|]. reflexivity.
Qed.

(** *** Decoding what was encoded *)

Lemma decode_literal fuel c R :
  c <> 37%N ->
  decodeURI_loop (S fuel) (c :: R)
  = let! r := decodeURI_loop fuel R in Ret (c :: r).
Proof.
  intros Hc. cbn [decodeURI_loop].
  destruct (N.eqb_spec c 37); [contradiction|]. reflexivity.
Qed.

Lemma decode_escape fuel b rest :
  (b < 256)%N ->
  decodeURI_loop (S fuel) (percent_octet b ++ rest)
  = if (b <? 128)%N then
      let! r := decodeURI_loop fuel rest in
      if uriReserved b || (b =? 35)%N
      then Ret (percent_octet b ++ r)
      else Ret (b :: r)
    else
      let lead :=
        (if (192 <=? b) && (b <? 224) then Some (1%nat, b - 192, 128)
         else if (224 <=? b) && (b <? 240) then Some (2%nat, b - 224, 2048)
         else if (240 <=? b) && (b <? 248) then Some (3%nat, b - 240, 65536)
         else None)%N in
      match lead with
      | None => Throw URIError
      | Some (n, v0, least) =>
        match read_continuation n rest v0 with
        | None => Throw URIError
        | Some (v, rest') =>
          if ((v <? least) || ((55296 <=? v) && (v <=? 57343))
              || (1114111 <? v))%N
          then Throw URIError
          else
            let! r := decodeURI_loop fuel rest' in
            if (v <? 65536)%N then Ret (v :: r)
            else
              Ret ((((v - 65536) / 1024) mod 1024 + 55296)%N
                   :: (((v - 65536) mod 1024) + 56320)%N :: r)
        end
      end.
Proof.
  intros Hb.
  pose proof (read_percent_octet b rest Hb) as Hread.
  unfold percent_octet in *. cbn [app] in *.
  cbn [decodeURI_loop]. change (negb (37 =? 37)%N) with false. cbv iota.
  rewrite Hread. reflexivity.
Qed.

Lemma read_continuation_1 b R v :
  (128 <= b < 192)%N ->
  read_continuation 1 (percent_octet b ++ R) v
  = Some ((v * 64 + (b - 128))%N, R).
Proof.
  intros Hb. cbn [read_continuation].
  rewrite read_percent_octet by lia. ncompare. reflexivity.
Qed.

Lemma read_continuation_S n b R v :
  (128 <= b < 192)%N ->
  read_continuation (S n) (percent_octet b ++ R) v
  = read_continuation n R (v * 64 + (b - 128))%N.
Proof.
  intros Hb. cbn [read_continuation].
  rewrite read_percent_octet by lia. ncompare. reflexivity.
Qed.

Lemma decode_one fuel c R :
  (c < 128)%N -> uriReserved c = false -> c <> 35%N ->
  decodeURI_loop (S fuel) (percent_octet c ++ R)
  = let! r := decodeURI_loop fuel R in Ret (c :: r).
Proof.
  intros Hc Hr H35. rewrite decode_escape by lia. ncompare.
  rewrite Hr. reflexivity.
Qed.

Lemma decode_two fuel c R :
  (128 <= c < 2048)%N ->
  decodeURI_loop (S fuel)
    (percent_octet (192 + c / 64) ++ percent_octet (128 + c mod 64) ++ R)
  = let! r := decodeURI_loop fuel R in Ret (c :: r).
Proof.
  intros Hc. rewrite decode_escape by nlia. ncompare.
  cbn [andb]. cbv zeta. cbv iota beta.
  rewrite read_continuation_S by nlia. cbn [read_continuation].
  replace ((192 + c / 64 - 192) * 64 + (128 + c mod 64 - 128))%N with c
    by nlia.
  ncompare. reflexivity.
Qed.

Lemma decode_three fuel c R :
  (2048 <= c < 65536)%N -> ~ (55296 <= c <= 57343)%N ->
  decodeURI_loop (S fuel)
    (percent_octet (224 + c / 4096)
     ++ percent_octet (128 + (c / 64) mod 64)
     ++ percent_octet (128 + c mod 64) ++ R)
  = let! r := decodeURI_loop fuel R in Ret (c :: r).
Proof.
  intros Hc Hs. rewrite decode_escape by nlia. ncompare.
  cbn [andb]. cbv zeta. cbv iota beta.
  rewrite !read_continuation_S by nlia. cbn [read_continuation].
  replace (((224 + c / 4096 - 224) * 64 + (128 + (c / 64) mod 64 - 128)) * 64
           + (128 + c mod 64 - 128))%N with c by nlia.
  destruct (N.leb_spec 55296 c); destruct (N.leb_spec c 57343);
    try (exfalso; lia); ncompare; reflexivity.
Qed.

Lemma decode_four fuel v R :
  (65536 <= v <= 1114111)%N ->
  decodeURI_loop (S fuel)
    (percent_octet (240 + v / 262144)
     ++ percent_octet (128 + (v / 4096) mod 64)
     ++ percent_octet (128 + (v / 64) mod 64)
     ++ percent_octet (128 + v mod 64) ++ R)
  = let! r := decodeURI_loop fuel R in
    Ret ((((v - 65536) / 1024) mod 1024 + 55296)%N
         :: (((v - 65536) mod 1024) + 56320)%N :: r).
Proof.
  intros Hv. rewrite decode_escape by nlia. ncompare.
  cbn [andb]. cbv zeta. cbv iota beta.
  rewrite !read_continuation_S by nlia. cbn [read_continuation].
  replace ((((240 + v / 262144 - 240) * 64
             + (128 + (v / 4096) mod 64 - 128)) * 64
            + (128 + (v / 64) mod 64 - 128)) * 64
           + (128 + v mod 64 - 128))%N with v by nlia.
  ncompare. reflexivity.
Qed.

Lemma decoded_nil : decoded [] [].
Proof.
  split; [reflexivity|]. split; [constructor|].
  intros [|fuel] Hf; [cbn in Hf; lia|reflexivity].
Qed.

Lemma decoded_unit u u' out e text :
  u' <> [] -> Forall (fun c => c <> 9%N) u' ->
  (forall R, replace_percent20 (u ++ R) = u' ++ replace_percent20 R) ->
  (forall fuel R, decodeURI_loop (S fuel) (u' ++ R)
                  = let! r := decodeURI_loop fuel R in Ret (out ++ r)) ->
  decoded e text -> decoded (u ++ e) (out ++ text).
Proof.
  intros Hne Htab Hrep Hdec (He1 & He2 & He3).
  assert (Hue : replace_percent20 (u ++ e) = u' ++ replace_percent20 e)
    by apply Hrep.
  split; [|split].
  - intros R. rewrite <- List.app_assoc, Hrep, He1, Hue, List.app_assoc.
    reflexivity.
  - rewrite Hue. apply Forall_app. split; assumption.
  - intros fuel Hf. rewrite Hue in *. rewrite length_app in Hf.
    destruct u' as [|x u']; [contradiction|]. cbn [length] in Hf.
    destruct fuel as [|fuel]; [lia|].
    rewrite Hdec, He3 by lia. reflexivity.
Qed.

Lemma range_true lo hi c :
  ((lo <=? c) && (c <=? hi))%N = true -> (lo <= c <= hi)%N.
Proof.
  intros H. apply andb_true_iff in H as [H1 H2].
  apply N.leb_le in H1, H2. lia.
Qed.

Lemma range_false lo hi c :
  ((lo <=? c) && (c <=? hi))%N = false -> ~ (lo <= c <= hi)%N.
Proof.
  intros H [H1 H2]. apply N.leb_le in H1, H2. rewrite H1, H2 in H.
  discriminate.
Qed.

Lemma percent_octet_no_tab b :
  (b < 256)%N -> Forall (fun c => c <> 9%N) (percent_octet b).
Proof.
  intros Hb. unfold percent_octet.
  pose proof (hex_digit_range (b / 16) ltac:(nlia)).
  pose proof (hex_digit_range (b mod 16) ltac:(nlia)).
  repeat constructor; lia.
Qed.

Lemma percent_octet_not_nil b R : percent_octet b ++ R <> [].
Proof. discriminate. Qed.

Lemma replace_high_octet b R :
  (128 <= b < 256)%N ->
  replace_percent20 (percent_octet b ++ R)
  = percent_octet b ++ replace_percent20 R.
Proof.
  intros Hb. rewrite replace_percent_octet by lia. ncompare. reflexivity.
Qed.

Lemma literal_not_escape c :
  uriReserved c || uriUnescaped c || (c =? 35)%N = true ->
  c <> 37%N /\ c <> 9%N.
Proof. intros H. split; intros ->; vm_compute in H; discriminate. Qed.

Lemma encodeURI_decoded n : forall text e,
  (length text <= n)%nat -> code_units text ->
  encodeURI text = Ret e -> decoded e text.
Proof.
  induction n as [|n IH]; intros text e Hlen Hu Henc;
    (destruct text as [|c s']; [injection Henc as <-; apply decoded_nil|]);
    [cbn in Hlen; lia|].
  cbn [length] in Hlen.
  apply Forall_cons in Hu as [Hc Hu].
  cbn [encodeURI] in Henc.
  destruct (uriReserved c || uriUnescaped c || (c =? 35)%N) eqn:Hlit.
  { destruct (encodeURI s') as [r| |] eqn:He'; try discriminate.
    cbn in Henc. injection Henc as <-.
    destruct (literal_not_escape c Hlit) as [H37 H9].
    apply (decoded_unit [c] [c] [c]).
    - discriminate.
    - repeat constructor; assumption.
    - intros R. apply replace_percent20_other. exact H37.
    - intros fuel R. apply decode_literal. exact H37.
    - apply (IH s' r); [lia|assumption|assumption]. }
  apply orb_false_iff in Hlit as [Hlit H35].
  apply orb_false_iff in Hlit as [Hres Hun].
  apply N.eqb_neq in H35.
  destruct ((56320 <=? c) && (c <=? 57343))%N eqn:Hlow; [discriminate|].
  apply range_false in Hlow.
  destruct ((55296 <=? c) && (c <=? 56319))%N eqn:Hhigh; cbn [negb] in Henc.
  - apply range_true in Hhigh.
    destruct s' as [|k s'']; [discriminate|].
    destruct ((56320 <=? k) && (k <=? 57343))%N eqn:Hk;
      cbn [negb] in Henc; [|discriminate].
    apply range_true in Hk.
    destruct (encodeURI s'') as [r| |] eqn:He'; try discriminate.
    cbv zeta in Henc. cbn [rbind] in Henc. injection Henc as <-.
    apply Forall_cons in Hu as [_ Hu]. cbn [length] in Hlen.
    set (v := ((c - 55296) * 1024 + (k - 56320) + 65536)%N).
    assert (Hv : (65536 <= v <= 1114111)%N) by (subst v; lia).
    assert (Hck : [c; k]
                  = [(((v - 65536) / 1024) mod 1024 + 55296)%N;
                     (((v - 65536) mod 1024) + 56320)%N]).
    { subst v. f_equal; [|f_equal]; nlia. }
    clearbody v. unfold utf8_octets. ncompare.
    cbn [map concat]. rewrite List.app_nil_r.
    change (c :: k :: s'') with ([c; k] ++ s''). rewrite Hck.
    eapply decoded_unit with
      (u' := percent_octet (240 + v / 262144)
             ++ percent_octet (128 + (v / 4096) mod 64)
             ++ percent_octet (128 + (v / 64) mod 64)
             ++ percent_octet (128 + v mod 64)).
    + apply percent_octet_not_nil.
    + rewrite !Forall_app. repeat split; apply percent_octet_no_tab; nlia.
    + intros R. rewrite <- !List.app_assoc.
      rewrite !replace_high_octet by nlia. reflexivity.
    + intros fuel R. rewrite <- !List.app_assoc.
      rewrite decode_four by exact Hv. reflexivity.
    + apply (IH s'' r); [lia|assumption|assumption].
  - apply range_false in Hhigh.
    destruct (encodeURI s') as [r| |] eqn:He'; try discriminate.
    cbn [rbind] in Henc. injection Henc as <-.
    change (c :: s') with ([c] ++ s').
    assert (IH' : decoded r s') by (apply (IH s' r); [lia|assumption..]).
    unfold utf8_octets.
    destruct (N.ltb_spec c 128) as [H128|H128];
      [|destruct (N.ltb_spec c 2048) as [H2048|H2048]];
      [| |replace (c <? 65536)%N with true by (symmetry; apply N.ltb_lt; lia)];
      cbn [map concat]; rewrite List.app_nil_r.
    + destruct (N.eq_dec c 32%N) as [->|H32].
      * apply (decoded_unit _ [32%N]); [discriminate| |reflexivity| |exact IH'].
        -- repeat constructor; discriminate.
        -- intros fuel R. apply decode_literal. discriminate.
      * apply (decoded_unit _ (percent_octet c));
          [discriminate| | | |exact IH'].
        -- apply percent_octet_no_tab; lia.
        -- intros R. rewrite replace_percent_octet by lia. ncompare.
           reflexivity.
        -- intros fuel R. apply decode_one; assumption.
    + eapply decoded_unit with
        (u' := percent_octet (192 + c / 64) ++ percent_octet (128 + c mod 64));
        [apply percent_octet_not_nil| | | |exact IH'].
      * rewrite !Forall_app. repeat split; apply percent_octet_no_tab; nlia.
      * intros R. rewrite <- !List.app_assoc.
        rewrite !replace_high_octet by nlia. reflexivity.
      * intros fuel R. rewrite <- !List.app_assoc.
        rewrite decode_two by lia. reflexivity.
    + eapply decoded_unit with
        (u' := percent_octet (224 + c / 4096)
               ++ percent_octet (128 + (c / 64) mod 64)
               ++ percent_octet (128 + c mod 64));
        [apply percent_octet_not_nil| | | |exact IH'].
      * rewrite !Forall_app. repeat split; apply percent_octet_no_tab; nlia.
      * intros R. rewrite <- !List.app_assoc.
        rewrite !replace_high_octet by nlia. reflexivity.
      * intros fuel R. rewrite <- !List.app_assoc.
        rewrite decode_three; [reflexivity|lia|lia].
Qed.

(** *** Tokens *)

Lemma split_tab_plain x : forall cur,
  Forall (fun c => c <> 9%N) x -> split_tab x cur = [rev cur ++ x].
Proof.
  induction x as [|c x IH]; intros cur Hx.
  - cbn. rewrite List.app_nil_r. reflexivity.
  - apply Forall_cons in Hx as [Hc Hx]. cbn [split_tab].
    destruct (N.eqb_spec c 9); [contradiction|].
    rewrite IH by assumption. cbn [rev]. rewrite <- List.app_assoc.
    reflexivity.
Qed.

Lemma split_tab_app x y : forall cur,
  Forall (fun c => c <> 9%N) x ->
  split_tab (x ++ 9%N :: y) cur = (rev cur ++ x) :: split_tab y [].
Proof.
  induction x as [|c x IH]; intros cur Hx.
  - cbn. rewrite List.app_nil_r. reflexivity.
  - apply Forall_cons in Hx as [Hc Hx]. cbn [split_tab app].
    destruct (N.eqb_spec c 9); [contradiction|].
    rewrite IH by assumption. cbn [rev]. rewrite <- List.app_assoc.
    reflexivity.
Qed.

Lemma replace_percent20_plain x R :
  Forall (fun c => c <> 37%N) x ->
  replace_percent20 (x ++ R) = x ++ replace_percent20 R.
Proof.
  induction 1 as [|c x Hc Hx IH]; [reflexivity|].
  cbn [app]. rewrite replace_percent20_other, IH by assumption. reflexivity.
Qed.

Lemma digits_of_digits fuel : forall n acc,
  0 <= n -> Forall (fun c => is_digit c = true) acc ->
  Forall (fun c => is_digit c = true) (digits_of fuel n acc).
Proof.
  induction fuel as [|fuel IH]; intros n acc Hn Hacc; [exact Hacc|].
  rewrite digits_of_S.
  assert (Forall (fun c => is_digit c = true) (digit (n mod 10) :: acc)).
  { constructor; [|exact Hacc]. apply digit_is_digit.
    apply Z.mod_pos_bound. lia. }
  destruct (n <? 10); [assumption|].
  apply IH; [apply Z.div_pos; lia|assumption].
Qed.

Lemma decimal_all_digits n :
  0 <= n -> Forall (fun c => is_digit c = true) (decimal n).
Proof.
  intros Hn. unfold decimal.
  destruct (Z.ltb_spec n 0); [lia|].
  apply digits_of_digits; [assumption|constructor].
Qed.

Lemma is_digit_plain c : is_digit c = true -> c <> 37%N /\ c <> 9%N.
Proof. intros H. split; intros ->; discriminate H. Qed.

Lemma substring_middle (pre text post : jsstring) :
  substring (pre ++ text ++ post) (len pre) (len pre + len text) = text.
Proof.
  rewrite substring_inside.
  - unfold len. rewrite Nat2Z.id.
    replace (Z.to_nat (Z.of_nat (length pre) + Z.of_nat (length text)
                       - Z.of_nat (length pre))) with (length text) by lia.
    rewrite drop_app_length. apply take_app_length.
  - pose proof (len_nonneg pre). pose proof (len_nonneg text). lia.
  - rewrite !len_app. pose proof (len_nonneg post). lia.
Qed.

Lemma fromDelta_loop_plus text1 e text tokens p :
  decodeURI e = Ret text ->
  fromDelta_loop text1 ((43%N :: e) :: tokens) p
  = let! (ds, q) := fromDelta_loop text1 tokens p in
    Ret ((DIFF_INSERT, text) :: ds, q).
Proof.
  intros H. cbn [fromDelta_loop]. rewrite substring_from_1, H. reflexivity.
Qed.

Lemma fromDelta_loop_minus text1 n tokens p :
  0 <= n ->
  fromDelta_loop text1 ((45%N :: decimal n) :: tokens) p
  = let! (ds, q) := fromDelta_loop text1 tokens (p + n) in
    Ret ((DIFF_DELETE, substring text1 p (p + n)) :: ds, q).
Proof.
  intros H. cbn [fromDelta_loop].
  rewrite substring_from_1, parseInt10_decimal by exact H.
  destruct (Z.ltb_spec n 0); [lia|]. reflexivity.
Qed.

Lemma fromDelta_loop_equal text1 n tokens p :
  0 <= n ->
  fromDelta_loop text1 ((61%N :: decimal n) :: tokens) p
  = let! (ds, q) := fromDelta_loop text1 tokens (p + n) in
    Ret ((DIFF_EQUAL, substring text1 p (p + n)) :: ds, q).
Proof.
  intros H. cbn [fromDelta_loop].
  rewrite substring_from_1, parseInt10_decimal by exact H.
  destruct (Z.ltb_spec n 0); [lia|]. reflexivity.
Qed.

Lemma toDelta_tokens_nil diffs : toDelta_tokens diffs = Ret [] -> diffs = [].
Proof.
  destruct diffs as [|[op text] ds]; [reflexivity|]. cbn [toDelta_tokens].
  destruct op; cbn [rbind];
    try destruct (encodeURI text); cbn [rbind];
    destruct (toDelta_tokens ds); discriminate.
Qed.

(** One token of a delta, read back. *)
Lemma token_read op text token :
  code_units text ->
  match op with
  | DIFF_INSERT => let! e := encodeURI text in Ret (43%N :: e)
  | DIFF_DELETE => Ret (45%N :: decimal (len text))
  | DIFF_EQUAL => Ret (61%N :: decimal (len text))
  end = Ret token ->
  exists token',
    (forall R, replace_percent20 (token ++ R) = token' ++ replace_percent20 R) /\
    Forall (fun c => c <> 9%N) token' /\
    forall pre post tokens,
      fromDelta_loop (pre ++ (if dop_eqb op DIFF_INSERT then [] else text)
                          ++ post)
        (token' :: tokens) (len pre)
      = let! (ds, q) :=
          fromDelta_loop (pre ++ (if dop_eqb op DIFF_INSERT then [] else text)
                              ++ post)
            tokens
            (len pre + len (if dop_eqb op DIFF_INSERT then [] else text)) in
        Ret ((op, text) :: ds, q).
Proof.
  intros Hu Htok.
  pose proof (decimal_all_digits (len text) (len_nonneg text)) as Hdig.
  assert (H37 : Forall (fun c => c <> 37%N) (decimal (len text))).
  { eapply Forall_impl; [exact Hdig|]. intros c Hc.
    apply (is_digit_plain c Hc). }
  assert (H9 : Forall (fun c => c <> 9%N) (decimal (len text))).
  { eapply Forall_impl; [exact Hdig|]. intros c Hc.
    apply (is_digit_plain c Hc). }
  destruct op.
  - injection Htok as <-. exists (45%N :: decimal (len text)).
    split; [|split].
    + intros R. apply (replace_percent20_plain (45%N :: _)).
      constructor; [discriminate|exact H37].
    + constructor; [discriminate|exact H9].
    + intros pre post tokens. cbn [dop_eqb].
      rewrite fromDelta_loop_minus by apply len_nonneg.
      rewrite substring_middle. reflexivity.
  - destruct (encodeURI text) as [e| |] eqn:He; try discriminate.
    injection Htok as <-.
    destruct (encodeURI_decoded (length text) text e (le_n _) Hu He)
      as (H1 & H2 & H3).
    exists (43%N :: replace_percent20 e). split; [|split].
    + intros R. cbn [app]. rewrite replace_percent20_other by discriminate.
      rewrite H1. reflexivity.
    + constructor; [discriminate|exact H2].
    + intros pre post tokens. cbn [dop_eqb].
      rewrite (fromDelta_loop_plus _ _ text)
        by (apply H3; lia).
      change (len []) with 0. rewrite Z.add_0_r. reflexivity.
  - injection Htok as <-. exists (61%N :: decimal (len text)).
    split; [|split].
    + intros R. apply (replace_percent20_plain (61%N :: _)).
      constructor; [discriminate|exact H37].
    + constructor; [discriminate|exact H9].
    + intros pre post tokens. cbn [dop_eqb].
      rewrite fromDelta_loop_equal by apply len_nonneg.
      rewrite substring_middle. reflexivity.
Qed.

Lemma toDelta_tokens_read : forall diffs tokens,
  Forall (fun d : Diff => code_units (snd d)) diffs ->
  toDelta_tokens diffs = Ret tokens ->
  forall pre post,
    fromDelta_loop (pre ++ diff_text1 diffs ++ post)
      (split_tab (replace_percent20 (join tab tokens)) []) (len pre)
    = Ret (diffs, len pre + len (diff_text1 diffs)).
Proof.
  induction diffs as [|[op text] ds IH]; intros tokens Hu Htok pre post.
  - injection Htok as <-. cbn. rewrite Z.add_0_r. reflexivity.
  - apply Forall_cons in Hu as [Hu Hus]. cbn [snd] in Hu.
    cbn [toDelta_tokens] in Htok.
    destruct (match op with
              | DIFF_INSERT => let! e := encodeURI text in Ret (43%N :: e)
              | DIFF_DELETE => Ret (45%N :: decimal (len text))
              | DIFF_EQUAL => Ret (61%N :: decimal (len text))
              end) as [token| |] eqn:Hop; try discriminate.
    cbn [rbind] in Htok.
    destruct (toDelta_tokens ds) as [rest| |] eqn:Hrest; try discriminate.
    cbn [rbind] in Htok. injection Htok as <-.
    destruct (token_read op text token Hu Hop) as (token' & H1 & H2 & H3).
    change (diff_text1 ((op, text) :: ds))
      with ((if dop_eqb op DIFF_INSERT then [] else text) ++ diff_text1 ds).
    set (t := if dop_eqb op DIFF_INSERT then [] else text) in *.
    rewrite len_app, <- List.app_assoc.
    destruct rest as [|t2 rest].
    + apply toDelta_tokens_nil in Hrest. subst ds.
      cbn [join]. rewrite <- (List.app_nil_r token), H1.
      cbn [replace_percent20]. rewrite List.app_nil_r.
      rewrite split_tab_plain by exact H2. cbn [rev app].
      rewrite H3.
      change (len (if dop_eqb op DIFF_INSERT then [] else text)) with (len t).
      cbn. rewrite Z.add_0_r. reflexivity.
    + change (join tab (token :: t2 :: rest))
        with (token ++ 9%N :: join tab (t2 :: rest)).
      rewrite H1, replace_percent20_other by discriminate.
      rewrite split_tab_app by exact H2. cbn [rev app].
      rewrite H3.
      change (len (if dop_eqb op DIFF_INSERT then [] else text)) with (len t).
      specialize (IH (t2 :: rest) Hus eq_refl (pre ++ t) post).
      rewrite <- List.app_assoc, len_app in IH. rewrite IH.
      cbn [rbind]. rewrite Z.add_assoc. reflexivity.
Qed.

(** X10: a delta written by [diff_toDelta] for a diff whose texts are
    strings of 16-bit code units is read back by [diff_fromDelta], against
    the source text of the diff, as that same diff. *)
Theorem diff_toDelta_fromDelta diffs delta :
  Forall (fun d : Diff => code_units (snd d)) diffs ->
  diff_toDelta diffs = Ret delta ->
  diff_fromDelta (diff_text1 diffs) delta = Ret diffs.
Proof.
  intros Hu Hd. unfold diff_toDelta in Hd.
  destruct (toDelta_tokens diffs) as [tokens| |] eqn:Htok; try discriminate.
  cbn [rbind] in Hd. injection Hd as <-.
  pose proof (toDelta_tokens_read diffs tokens Hu Htok [] []) as H.
  rewrite List.app_nil_r in H. cbn [app] in H. change (len []) with 0 in H.
  unfold diff_fromDelta. cbv zeta. rewrite H. cbn [rbind].
  rewrite Z.add_0_l, Z.eqb_refl. reflexivity.
Qed.

(** The diff ["ab"] kept, ["x y%"] inserted, ["c"] deleted. *)
Lemma diff_toDelta_fromDelta_witness :
  diff_toDelta [(DIFF_EQUAL, js "ab"); (DIFF_INSERT, js "x y%");
                (DIFF_DELETE, js "c")]
  = Ret (js "=2" ++ tab ++ js "+x y%25" ++ tab ++ js "-1") /\
  diff_fromDelta (js "abc")
    (js "=2" ++ tab ++ js "+x y%25" ++ tab ++ js "-1")
  = Ret [(DIFF_EQUAL, js "ab"); (DIFF_INSERT, js "x y%");
         (DIFF_DELETE, js "c")].
Proof.
  assert (diff_toDelta [(DIFF_EQUAL, js "ab"); (DIFF_INSERT, js "x y%");
                        (DIFF_DELETE, js "c")]
          = Ret (js "=2" ++ tab ++ js "+x y%25" ++ tab ++ js "-1")) as H
    by (vm_compute; reflexivity).
  split; [exact H|].
  refine (diff_toDelta_fromDelta _ _ _ H).
  repeat constructor.
Defined.

(** ** The diff of two texts rebuilds them *)

(** *** Results *)

Lemma rbind_ret {A B} (m : res A) (k : A -> res B) v :
  rbind m k = Ret v -> exists a, m = Ret a /\ k a = Ret v.
Proof. destruct m; cbn; try discriminate. eauto. Qed.

Lemma mbind_ret {A B} (m : M A) (k : A -> M B) c v c' :
  mbind' m k c = (Ret v, c') ->
  exists a c1, m c = (Ret a, c1) /\ k a c1 = (Ret v, c').
Proof.
  unfold mbind'. destruct (m c) as [[a| |] c1]; try discriminate. eauto.
Qed.

Lemma lift_ret {A} (r : res A) c v c' :
  lift r c = (Ret v, c') -> r = Ret v.
Proof. unfold lift. congruence. Qed.

Lemma mret_ret {A} (a : A) c v c' : mret a c = (Ret v, c') -> v = a.
Proof. unfold mret. congruence. Qed.

(** *** Texts of a diff *)

Lemma diff_text1_app a b : diff_text1 (a ++ b) = diff_text1 a ++ diff_text1 b.
Proof. unfold diff_text1. rewrite map_app, concat_app. reflexivity. Qed.

Lemma diff_text2_app a b : diff_text2 (a ++ b) = diff_text2 a ++ diff_text2 b.
Proof. unfold diff_text2. rewrite map_app, concat_app. reflexivity. Qed.

Lemma diff_text1_cons d l :
  diff_text1 (d :: l)
  = (if dop_eqb (fst d) DIFF_INSERT then [] else snd d) ++ diff_text1 l.
Proof. reflexivity. Qed.

Lemma diff_text2_cons d l :
  diff_text2 (d :: l)
  = (if dop_eqb (fst d) DIFF_DELETE then [] else snd d) ++ diff_text2 l.
Proof. reflexivity. Qed.

Lemma rebuilds_app a b s1 s2 t1 t2 :
  rebuilds a s1 s2 -> rebuilds b t1 t2 -> rebuilds (a ++ b) (s1 ++ t1) (s2 ++ t2).
Proof.
  intros [H1 H2] [H3 H4]. split.
  - rewrite diff_text1_app. congruence.
  - rewrite diff_text2_app. congruence.
Qed.

(** *** Substrings *)

Lemma clamp_0 s : clamp s 0 = O.
Proof. unfold clamp, len. lia. Qed.

Lemma substring_0 s x : substring s 0 x = firstn (clamp s x) s.
Proof.
  unfold substring. rewrite clamp_0. cbv zeta.
  rewrite Nat.min_0_l, Nat.max_0_l, Nat.sub_0_r. reflexivity.
Qed.

Lemma substring_split s x : substring s 0 x ++ substring_from s x = s.
Proof. rewrite substring_0. apply firstn_skipn. Qed.

Lemma clamp_le s x : (clamp s x <= length s)%nat.
Proof. unfold clamp, len. lia. Qed.

Lemma clamp_inside s x : 0 <= x <= len s -> clamp s x = Z.to_nat x.
Proof. unfold clamp, len. lia. Qed.

Lemma len_substring_0 s x : len (substring s 0 x) <= len s.
Proof.
  rewrite substring_0. unfold len. rewrite length_firstn. lia.
Qed.

Lemma len_substring_from s x : len (substring_from s x) <= len s.
Proof.
  unfold substring_from, len. rewrite length_skipn. lia.
Qed.

(** *** Arrays *)

Lemma at_app {A} (pre : list A) x post i :
  i = alen pre -> at_ (pre ++ x :: post) i = Ret x.
Proof.
  intros ->. unfold at_, alen.
  destruct (Z.ltb_spec (Z.of_nat (length pre)) 0); [lia|].
  rewrite Nat2Z.id, nth_error_app2, Nat.sub_diag by lia. reflexivity.
Qed.

Lemma at_ret {A} (l : list A) i x :
  at_ l i = Ret x ->
  exists pre post, l = pre ++ x :: post /\ alen pre = i.
Proof.
  unfold at_, alen. destruct (Z.ltb_spec i 0); [discriminate|].
  destruct (nth_error l (Z.to_nat i)) as [y|] eqn:E; [|discriminate].
  intros [= ->]. apply nth_error_split in E as (pre & post & -> & Hlen).
  exists pre, post. split; [reflexivity|lia].
Qed.

Lemma alen_app {A} (a b : list A) : alen (a ++ b) = alen a + alen b.
Proof. unfold alen. rewrite length_app. lia. Qed.

Lemma alen_nonneg {A} (a : list A) : 0 <= alen a.
Proof. unfold alen. lia. Qed.

Lemma splice_app {A} (pre mid post items : list A) i c :
  i = alen pre -> c = alen mid ->
  splice (pre ++ mid ++ post) i c items = pre ++ items ++ post.
Proof.
  intros -> ->. unfold splice. rewrite !alen_app. unfold alen.
  replace (Z.to_nat (Z.min (Z.max (Z.of_nat (length pre)) 0)
             (Z.of_nat (length pre) + (Z.of_nat (length mid)
                                       + Z.of_nat (length post)))))
    with (length pre) by lia.
  replace (Z.to_nat (Z.max (Z.of_nat (length mid)) 0)) with (length mid) by lia.
  rewrite firstn_app, firstn_all, Nat.sub_diag, firstn_O, List.app_nil_r.
  rewrite skipn_app, skipn_all2 by lia.
  replace (length pre + length mid - length pre)%nat with (length mid) by lia.
  rewrite skipn_app, skipn_all, Nat.sub_diag. reflexivity.
Qed.

Lemma set_at_app {A} (pre : list A) x post i y :
  i = alen pre -> set_at (pre ++ x :: post) i y = pre ++ y :: post.
Proof.
  intros ->. unfold set_at. rewrite alen_app.
  pose proof (alen_nonneg pre). pose proof (alen_nonneg post).
  replace (alen (x :: post)) with (1 + alen post)
    by (unfold alen; cbn [length]; lia).
  destruct (Z.leb_spec 0 (alen pre)); [|lia].
  destruct (Z.ltb_spec (alen pre) (alen pre + (1 + alen post))); [|lia].
  cbn [andb].
  apply (splice_app pre [x] post [y]); reflexivity.
Qed.

Lemma set_text_app pre (x : Diff) post i t :
  i = alen pre ->
  set_text (pre ++ x :: post) i t = Ret (pre ++ (fst x, t) :: post).
Proof.
  intros Hi. unfold set_text. rewrite at_app by exact Hi. cbn [rbind].
  rewrite set_at_app by exact Hi. reflexivity.
Qed.

Lemma splice_head {A} (l items : list A) : splice l 0 0 items = items ++ l.
Proof.
  unfold splice, alen.
  replace (Z.to_nat (Z.min (Z.max 0 0) (Z.of_nat (length l)))) with O by lia.
  reflexivity.
Qed.

(** *** What the searches return *)

Lemma halving_mono same fuel : forall a b c d v,
  halving same fuel a b c d = Ret v ->
  forall fuel', (fuel <= fuel')%nat -> halving same fuel' a b c d = Ret v.
Proof.
  induction fuel as [|fuel IH]; intros a b c d v H fuel' Hle; [discriminate|].
  destruct fuel' as [|fuel']; [lia|].
  cbn [halving] in *.
  destruct (a <? c); [|exact H].
  destruct (same d c); (apply IH; [exact H|lia]).
Qed.

Lemma commonPrefix_mono n t1 t2 v n' :
  diff_commonPrefix n t1 t2 = Ret v -> (n <= n')%nat ->
  diff_commonPrefix n' t1 t2 = Ret v.
Proof.
  unfold diff_commonPrefix. destruct (_ || _); [trivial|].
  rewrite !commonPrefix_loop_halving. intros H Hle.
  exact (halving_mono _ _ _ _ _ _ _ H _ Hle).
Qed.

Lemma commonSuffix_mono n t1 t2 v n' :
  diff_commonSuffix n t1 t2 = Ret v -> (n <= n')%nat ->
  diff_commonSuffix n' t1 t2 = Ret v.
Proof.
  unfold diff_commonSuffix. destruct (_ || _); [trivial|].
  rewrite !commonSuffix_loop_halving. intros H Hle.
  exact (halving_mono _ _ _ _ _ _ _ H _ Hle).
Qed.

Lemma commonPrefix_ret n t1 t2 v :
  diff_commonPrefix n t1 t2 = Ret v -> v = Z.of_nat (prefix_length t1 t2).
Proof.
  intros H.
  set (n' := (n + Z.to_nat (2 * Z.min (len t1) (len t2) + 2))%nat).
  pose proof (commonPrefix_mono n t1 t2 v n' H ltac:(lia)) as H1.
  rewrite commonPrefix_finds in H1 by (unfold len in *; lia).
  congruence.
Qed.

Lemma commonSuffix_ret n t1 t2 v :
  diff_commonSuffix n t1 t2 = Ret v -> v = Z.of_nat (suffix_length t1 t2).
Proof.
  intros H.
  set (n' := (n + Z.to_nat (2 * Z.min (len t1) (len t2) + 2))%nat).
  pose proof (commonSuffix_mono n t1 t2 v n' H ltac:(lia)) as H1.
  rewrite commonSuffix_finds in H1 by (unfold len in *; lia).
  congruence.
Qed.

Lemma commonPrefix_sound n t1 t2 v :
  diff_commonPrefix n t1 t2 = Ret v ->
  0 <= v <= len t1 /\ v <= len t2 /\ substring t1 0 v = substring t2 0 v.
Proof.
  intros H. apply commonPrefix_ret in H. subst v.
  pose proof (prefix_length_le t1 t2) as [H1 H2]. unfold len.
  split; [lia|]. split; [lia|].
  rewrite !substring_0, !clamp_inside by (unfold len; lia).
  rewrite Nat2Z.id. apply prefix_length_firstn; lia.
Qed.

Lemma skipn_rev_firstn {A} (l : list A) m :
  (m <= length l)%nat ->
  skipn (length l - m) l = rev (firstn m (rev l)).
Proof.
  intros Hm. rewrite firstn_rev, rev_involutive. reflexivity.
Qed.

Lemma commonSuffix_sound n t1 t2 v :
  diff_commonSuffix n t1 t2 = Ret v ->
  0 <= v <= len t1 /\ v <= len t2 /\
  substring_from t1 (len t1 - v) = substring_from t2 (len t2 - v).
Proof.
  intros H. apply commonSuffix_ret in H. subst v. unfold suffix_length.
  pose proof (prefix_length_le (rev t1) (rev t2)) as [H1 H2].
  rewrite !length_rev in H1, H2. unfold len.
  split; [lia|]. split; [lia|].
  unfold substring_from. rewrite !clamp_inside by (unfold len; lia).
  replace (Z.to_nat (Z.of_nat (length t1)
                     - Z.of_nat (prefix_length (rev t1) (rev t2))))
    with (length t1 - prefix_length (rev t1) (rev t2))%nat by lia.
  replace (Z.to_nat (Z.of_nat (length t2)
                     - Z.of_nat (prefix_length (rev t1) (rev t2))))
    with (length t2 - prefix_length (rev t1) (rev t2))%nat by lia.
  rewrite !skipn_rev_firstn by lia. f_equal.
  apply prefix_length_firstn; rewrite ?length_rev; lia.
Qed.

(** *** [indexOf] *)

Lemma starts_with_firstn p : forall s,
  starts_with p s = true -> firstn (length p) s = p.
Proof.
  induction p as [|x p IH]; intros [|y s]; cbn; try discriminate;
    try reflexivity.
  intros H. apply andb_true_iff in H as [Hx Hp]. apply N.eqb_eq in Hx.
  subst. rewrite IH by assumption. reflexivity.
Qed.

Lemma starts_with_app p : forall s,
  starts_with p s = true -> s = p ++ skipn (length p) s.
Proof.
  intros s H. rewrite <- (firstn_skipn (length p) s) at 1.
  rewrite starts_with_firstn by assumption. reflexivity.
Qed.

Lemma find_from_found p : forall s i r,
  find_from p s i = r -> 0 <= i -> r <> -1 ->
  exists k, r = i + Z.of_nat k /\ (k <= length s)%nat /\
            starts_with p (skipn k s) = true.
Proof.
  induction s as [|c s IH]; intros i r H Hi Hr.
  - cbn in H. destruct (starts_with p []) eqn:E; [|congruence].
    exists O. cbn. split; [lia|]. split; [lia|exact E].
  - cbn [find_from] in H. destruct (starts_with p (c :: s)) eqn:E.
    + exists O. cbn [skipn]. split; [lia|]. split; [lia|exact E].
    + destruct (IH (i + 1) r H ltac:(lia) Hr) as (k & -> & Hk & Hs).
      exists (S k). cbn [skipn length]. split; [lia|]. split; [lia|exact Hs].
Qed.

(** Where [indexOf] finds the pattern, the pattern is. *)
Lemma indexOf_found s p from i :
  indexOf s p from = i -> i <> -1 ->
  exists pre post, s = pre ++ p ++ post /\ len pre = i /\
                   Z.of_nat (clamp s from) <= i.
Proof.
  unfold indexOf. intros H Hi.
  destruct (find_from_found p _ _ _ H ltac:(lia) Hi) as (k & -> & Hk & Hs).
  rewrite skipn_skipn in Hs. apply starts_with_app in Hs.
  exists (firstn (k + clamp s from) s), (skipn (length p) (skipn (k + clamp s from) s)).
  rewrite length_skipn in Hk. pose proof (clamp_le s from).
  split; [|split].
  - rewrite <- Hs. symmetry. apply firstn_skipn.
  - unfold len. rewrite length_firstn. lia.
  - lia.
Qed.

Ltac alia := unfold alen, Diff, diffs_t in *; cbn [length] in *; lia.

Lemma diff_text1_equal e : diff_text1 [(DIFF_EQUAL, e)] = e.
Proof. cbn. apply List.app_nil_r. Qed.

Lemma diff_text2_equal e : diff_text2 [(DIFF_EQUAL, e)] = e.
Proof. cbn. apply List.app_nil_r. Qed.

(** Factoring out a common prefix. *)
Lemma factor_prefix cd ci text1 text2 diffs pointer td ti c prev
    diffs' pointer' :
  factor_inv cd ci text1 text2 diffs pointer td ti ->
  substring ti 0 c = substring td 0 c ->
  (if 0 <? pointer - cd - ci then
     let! d := at_ diffs (pointer - cd - ci - 1) in
     Ret (dop_eqb (fst d) DIFF_EQUAL)
   else Ret false) = Ret prev ->
  (if prev then
     let! d := at_ diffs (pointer - cd - ci - 1) in
     let! diffs' := set_text diffs (pointer - cd - ci - 1)
                      (snd d ++ substring ti 0 c) in
     Ret (diffs', pointer)
   else
     Ret (splice diffs 0 0 [(DIFF_EQUAL, substring ti 0 c)], pointer + 1))
  = Ret (diffs', pointer') ->
  factor_inv cd ci text1 text2 diffs' pointer'
    (substring_from td c) (substring_from ti c).
Proof.
  intros (pre & run & e & post & Hd & Hp & Hrun & Hpre & H1 & H2) Hc Hprev H.
  assert (Htd : td = substring ti 0 c ++ substring_from td c)
    by (rewrite Hc; symmetry; apply substring_split).
  assert (Hti : ti = substring ti 0 c ++ substring_from ti c)
    by (symmetry; apply substring_split).
  destruct Hpre as [->|(pre' & p & ->)].
  - (* Nothing before the run. *)
    change (alen []) with 0 in Hp.
    replace (pointer - cd - ci) with 0 in Hprev by lia.
    cbn in Hprev. injection Hprev as <-. injection H as <- <-.
    exists [(DIFF_EQUAL, substring ti 0 c)], run, e, post.
    subst diffs. split; [apply splice_head|].
    split; [change (alen [(DIFF_EQUAL, substring ti 0 c)]) with 1; lia|].
    split; [exact Hrun|]. split; [right; exists [], (substring ti 0 c); reflexivity|].
    rewrite diff_text1_equal, diff_text2_equal.
    cbn [diff_text1 diff_text2 map concat app] in H1, H2.
    split.
    + rewrite H1, Htd at 1. rewrite <- !List.app_assoc. reflexivity.
    + rewrite H2, Hti at 1. rewrite <- !List.app_assoc. reflexivity.
  - (* An equality before the run. *)
    rewrite alen_app in Hp. change (alen [(DIFF_EQUAL, p)]) with 1 in Hp.
    pose proof (alen_nonneg pre').
    destruct (Z.ltb_spec 0 (pointer - cd - ci)); [|lia].
    subst diffs. rewrite <- !List.app_assoc in H, Hprev. cbn [app] in H, Hprev.
    rewrite at_app in Hprev by alia. cbn [rbind fst snd dop_eqb] in Hprev.
    injection Hprev as <-.
    rewrite at_app in H by alia. cbn [rbind fst snd dop_eqb] in H.
    rewrite set_text_app in H by alia. cbn [rbind fst] in H.
    injection H as <- <-.
    exists (pre' ++ [(DIFF_EQUAL, p ++ substring ti 0 c)]), run, e, post.
    split; [rewrite <- !List.app_assoc; reflexivity|].
    split; [rewrite alen_app;
            change (alen [(DIFF_EQUAL, p ++ substring ti 0 c)]) with 1; lia|].
    split; [exact Hrun|]. split; [right; eauto|].
    rewrite !diff_text1_app, !diff_text2_app, !diff_text1_equal,
      !diff_text2_equal in *.
    split.
    + rewrite H1, Htd at 1. rewrite <- !List.app_assoc. reflexivity.
    + rewrite H2, Hti at 1. rewrite <- !List.app_assoc. reflexivity.
Qed.

(** Factoring out a common suffix. *)
Lemma factor_suffix cd ci text1 text2 diffs pointer td ti c diffs' :
  factor_inv cd ci text1 text2 diffs pointer td ti ->
  substring_from ti (len ti - c) = substring_from td (len td - c) ->
  (let! d := at_ diffs pointer in
   set_text diffs pointer (substring_from ti (len ti - c) ++ snd d))
  = Ret diffs' ->
  factor_inv cd ci text1 text2 diffs' pointer
    (substring td 0 (len td - c)) (substring ti 0 (len ti - c)).
Proof.
  intros (pre & run & e & post & Hd & Hp & Hrun & Hpre & H1 & H2) Hc H.
  assert (Htd : td = substring td 0 (len td - c)
                     ++ substring_from ti (len ti - c))
    by (rewrite Hc; symmetry; apply substring_split).
  assert (Hti : ti = substring ti 0 (len ti - c)
                     ++ substring_from ti (len ti - c))
    by (symmetry; apply substring_split).
  subst diffs. rewrite List.app_assoc in H.
  rewrite at_app in H by (rewrite alen_app; exact Hp).
  cbn [rbind snd] in H.
  rewrite set_text_app in H by (rewrite alen_app; exact Hp).
  injection H as <-. cbn [fst].
  exists pre, run, (substring_from ti (len ti - c) ++ e), post.
  split; [rewrite <- List.app_assoc; reflexivity|].
  split; [exact Hp|]. split; [exact Hrun|]. split; [exact Hpre|].
  split.
  - rewrite H1, Htd at 1. rewrite <- !List.app_assoc. reflexivity.
  - rewrite H2, Hti at 1. rewrite <- !List.app_assoc. reflexivity.
Qed.

Lemma at_app_ret {A} (l post : list A) i d :
  i = alen l -> at_ (l ++ post) i = Ret d -> exists post', post = d :: post'.
Proof.
  intros -> H. destruct post as [|x post].
  - unfold at_, alen in H.
    destruct (Z.ltb_spec (Z.of_nat (length l)) 0); [lia|].
    rewrite Nat2Z.id, List.app_nil_r in H.
    rewrite (proj2 (nth_error_None l (length l))) in H by lia. discriminate.
  - rewrite at_app in H by reflexivity. injection H as ->. eauto.
Qed.

Lemma sweep_inv_start diffs : sweep_inv (MergeState diffs 0 0 0 [] []).
Proof.
  exists [], [], diffs. cbn. repeat split; try lia; try reflexivity.
  left. reflexivity.
Qed.

(** The body of the sweep at an equality that follows two or more edits. *)
Lemma merge_factor_texts n st st' e :
  sweep_inv st ->
  at_ (ms_diffs st) (ms_pointer st) = Ret (DIFF_EQUAL, e) ->
  1 < ms_count_delete st + ms_count_insert st ->
  merge_factor n st = Ret st' ->
  diff_text1 (ms_diffs st') = diff_text1 (ms_diffs st) /\
  diff_text2 (ms_diffs st') = diff_text2 (ms_diffs st) /\
  sweep_inv (MergeState (ms_diffs st') (ms_pointer st') 0 0 [] []).
Proof.
  intros (pre & run & post & Hd & Hp & Hrun & Hcd & Hci & Htd0 & Hti0
          & Htd & Hti & Hpre) Hat Hcount H.
  destruct st as [diffs pointer cd ci td ti]. cbn [ms_diffs ms_pointer
    ms_count_delete ms_count_insert ms_text_delete ms_text_insert] in *.
  subst diffs. rewrite List.app_assoc in Hat.
  apply at_app_ret in Hat as (post' & ->); [|rewrite alen_app; exact Hp].
  assert (Hinv : factor_inv cd ci
                   (diff_text1 (pre ++ run ++ (DIFF_EQUAL, e) :: post'))
                   (diff_text2 (pre ++ run ++ (DIFF_EQUAL, e) :: post'))
                   (pre ++ run ++ (DIFF_EQUAL, e) :: post') pointer td ti).
  { exists pre, run, e, post'. split; [reflexivity|]. split; [exact Hp|].
    split; [alia|]. split; [exact Hpre|].
    rewrite !diff_text1_app, !diff_text2_app, Htd, Hti. split; reflexivity. }
  set (T1 := diff_text1 (pre ++ run ++ (DIFF_EQUAL, e) :: post')) in *.
  set (T2 := diff_text2 (pre ++ run ++ (DIFF_EQUAL, e) :: post')) in *.
  unfold merge_factor in H. cbv zeta in H.
  cbn [ms_diffs ms_pointer ms_count_delete ms_count_insert ms_text_delete
       ms_text_insert] in H.
  apply rbind_ret in H as ([[[diffs2 pointer2] td2] ti2] & Hphase & H).
  assert (Hinv2 : factor_inv cd ci T1 T2 diffs2 pointer2 td2 ti2 /\
                  (cd = 0 -> td2 = []) /\ (ci = 0 -> ti2 = [])).
  { destruct (Z.eqb_spec cd 0) as [Hcd0|Hcd0];
      [|destruct (Z.eqb_spec ci 0) as [Hci0|Hci0]];
      cbn [negb andb] in Hphase.
    - injection Hphase as <- <- <- <-. split; [exact Hinv|]. split; auto.
    - injection Hphase as <- <- <- <-. split; [exact Hinv|]. split; auto.
    - split; [|split; intros; contradiction].
      apply rbind_ret in Hphase as (c & Hc & Hphase).
      apply commonPrefix_sound in Hc as (_ & _ & Hc).
      apply rbind_ret in Hphase as ([[[diffs1 pointer1] td1] ti1] & Hpfx & Hsfx).
      assert (Hinv1 : factor_inv cd ci T1 T2 diffs1 pointer1 td1 ti1).
      { destruct (negb (c =? 0)).
        - apply rbind_ret in Hpfx as (prev & Hprev & Hpfx).
          apply rbind_ret in Hpfx as ([d' p'] & Hif & Hret).
          injection Hret as <- <- <- <-.
          eapply factor_prefix; [exact Hinv|exact Hc|exact Hprev|exact Hif].
        - injection Hpfx as <- <- <- <-. exact Hinv. }
      clear Hpfx Hinv.
      apply rbind_ret in Hsfx as (c2 & Hc2 & Hsfx).
      apply commonSuffix_sound in Hc2 as (_ & _ & Hc2).
      destruct (negb (c2 =? 0)).
      + apply rbind_ret in Hsfx as (d & Hd & Hsfx).
        apply rbind_ret in Hsfx as (diffs' & Hset & Hret).
        injection Hret as <- <- <- <-.
        eapply factor_suffix; [exact Hinv1|exact Hc2|].
        rewrite Hd. exact Hset.
      + injection Hsfx as <- <- <- <-. exact Hinv1. }
  clear Hphase Hinv.
  destruct Hinv2 as ((pre2 & run2 & e2 & post2 & Hd2 & Hp2 & Hrun2 & Hpre2
                      & H1 & H2) & Htd2 & Hti2).
  injection H as <-.
  cbn [ms_diffs ms_pointer].
  set (merged := if cd =? 0 then [(DIFF_INSERT, ti2)]
                 else if ci =? 0 then [(DIFF_DELETE, td2)]
                 else [(DIFF_DELETE, td2); (DIFF_INSERT, ti2)]).
  assert (Hsplice :
    (if cd =? 0
     then splice diffs2 (pointer2 - cd - ci) (cd + ci) [(DIFF_INSERT, ti2)]
     else if ci =? 0
     then splice diffs2 (pointer2 - cd - ci) (cd + ci) [(DIFF_DELETE, td2)]
     else splice diffs2 (pointer2 - cd - ci) (cd + ci)
            [(DIFF_DELETE, td2); (DIFF_INSERT, ti2)])
    = pre2 ++ merged ++ (DIFF_EQUAL, e2) :: post2).
  { subst merged diffs2.
    destruct (cd =? 0); [|destruct (ci =? 0)];
      apply splice_app; alia. }
  rewrite Hsplice.
  assert (Hm1 : diff_text1 merged = td2).
  { subst merged. destruct (Z.eqb_spec cd 0) as [Hcd0|Hcd0];
      [|destruct (ci =? 0)]; cbn; rewrite ?List.app_nil_r; auto.
    symmetry; auto. }
  assert (Hm2 : diff_text2 merged = ti2).
  { subst merged. destruct (Z.eqb_spec cd 0) as [Hcd0|Hcd0];
      [|destruct (Z.eqb_spec ci 0) as [Hci0|Hci0]];
      cbn; rewrite ?List.app_nil_r; auto.
    symmetry; auto. }
  assert (Hml : alen merged
                = (if cd =? 0 then 0 else 1) + (if ci =? 0 then 0 else 1)).
  { subst merged. destruct (Z.eqb_spec cd 0) as [Hcd0|Hcd0];
      [|destruct (Z.eqb_spec ci 0) as [Hci0|Hci0]]; cbn.
    - destruct (Z.eqb_spec ci 0); [lia|reflexivity].
    - reflexivity.
    - reflexivity. }
  clearbody merged. subst T1 T2.
  split; [|split].
  - etransitivity; [|symmetry; exact H1].
    rewrite !diff_text1_app, diff_text1_cons, Hm1. reflexivity.
  - etransitivity; [|symmetry; exact H2].
    rewrite !diff_text2_app, diff_text2_cons, Hm2. reflexivity.
  - exists (pre2 ++ merged ++ [(DIFF_EQUAL, e2)]), [], post2.
    cbn [ms_diffs ms_pointer ms_count_delete ms_count_insert ms_text_delete
         ms_text_insert].
    split; [rewrite <- !List.app_assoc; reflexivity|].
    split; [rewrite !alen_app; alia|].
    repeat (split; [first [reflexivity | lia]|]).
    right. exists (pre2 ++ merged), e2. rewrite <- List.app_assoc. reflexivity.
Qed.

Lemma dop_eqb_eq a b : dop_eqb a b = true -> a = b.
Proof. destruct a, b; cbn; congruence. Qed.

Lemma app_eq_len {A} (l1 r1 l2 r2 : list A) :
  l1 ++ r1 = l2 ++ r2 -> alen l1 = alen l2 -> l1 = l2 /\ r1 = r2.
Proof.
  intros H Hl. apply app_inj_1; [unfold alen in Hl; lia|exact H].
Qed.

(** The first sweep keeps the two texts. *)
Lemma merge_sweep_texts n fuel : forall st st',
  sweep_inv st -> merge_sweep fuel n st = Ret st' ->
  diff_text1 (ms_diffs st') = diff_text1 (ms_diffs st) /\
  diff_text2 (ms_diffs st') = diff_text2 (ms_diffs st).
Proof.
  induction fuel as [|fuel IH]; intros st st' Hinv H; [discriminate|].
  cbn [merge_sweep] in H.
  destruct (ms_pointer st <? alen (ms_diffs st));
    [|injection H as <-; split; reflexivity].
  apply rbind_ret in H as ([o e] & Hat & H). cbn [fst snd] in H.
  pose proof Hinv as (pre & run & post & Hd & Hp & Hrun & Hcd & Hci & Htd0
                      & Hti0 & Htd & Hti & Hpre).
  pose proof Hat as Hat'. rewrite Hd, List.app_assoc in Hat'.
  apply at_app_ret in Hat' as (post' & ->); [|rewrite alen_app; exact Hp].
  destruct o.
  - (* a deletion *)
    apply IH in H; [exact H|].
    exists pre, (run ++ [(DIFF_DELETE, e)]), post'.
    cbn [ms_diffs ms_pointer ms_count_delete ms_count_insert ms_text_delete
         ms_text_insert].
    split; [rewrite Hd, <- !List.app_assoc; reflexivity|].
    split; [rewrite alen_app; alia|]. split; [rewrite alen_app; alia|].
    split; [lia|]. split; [lia|]. split; [intros; lia|].
    split; [intros Hz; rewrite (Hti0 Hz); reflexivity|].
    rewrite diff_text1_app, diff_text2_app, Htd, Hti. cbn.
    rewrite !List.app_nil_r. repeat split. exact Hpre.
  - (* an insertion *)
    apply IH in H; [exact H|].
    exists pre, (run ++ [(DIFF_INSERT, e)]), post'.
    cbn [ms_diffs ms_pointer ms_count_delete ms_count_insert ms_text_delete
         ms_text_insert].
    split; [rewrite Hd, <- !List.app_assoc; reflexivity|].
    split; [rewrite alen_app; alia|]. split; [rewrite alen_app; alia|].
    split; [lia|]. split; [lia|].
    split; [intros Hz; rewrite (Htd0 Hz); reflexivity|].
    split; [intros; lia|].
    rewrite diff_text1_app, diff_text2_app, Htd, Hti. cbn.
    rewrite !List.app_nil_r. repeat split. exact Hpre.
  - (* an equality *)
    apply rbind_ret in H as ([diffs2 pointer2] & Hbody & H).
    apply IH in H; cbn [ms_diffs] in H.
    + destruct H as [H1 H2]. rewrite H1, H2. clear H1 H2 IH.
      destruct (1 <? ms_count_delete st + ms_count_insert st) eqn:Hmany.
      * apply rbind_ret in Hbody as (st1 & Hf & Hret). injection Hret as <- <-.
        apply Z.ltb_lt in Hmany.
        destruct (merge_factor_texts n st st1 e Hinv Hat Hmany Hf)
          as (H1 & H2 & _).
        split; assumption.
      * apply rbind_ret in Hbody as (prev & Hprev & Hbody).
        destruct prev.
        -- destruct (Z.eqb_spec (ms_pointer st) 0) as [H0|H0];
             cbn [negb] in Hprev; [discriminate|].
           apply rbind_ret in Hbody as (p & Hp' & Hbody).
           rewrite Hp' in Hprev. cbn [rbind] in Hprev.
           injection Hprev as Hprev. apply dop_eqb_eq in Hprev.
           destruct p as [po pt]. cbn [fst snd] in *. subst po.
           apply at_ret in Hp' as (P & Q & HPQ & HP).
           rewrite Hd, List.app_assoc in HPQ.
           change (P ++ (DIFF_EQUAL, pt) :: Q)
             with (P ++ [(DIFF_EQUAL, pt)] ++ Q) in HPQ.
           rewrite (List.app_assoc P) in HPQ.
           apply app_eq_len in HPQ as [HA HQ];
             [|rewrite !alen_app; alia].
           subst Q. rewrite Hd, List.app_assoc, HA in Hbody |- *.
           rewrite <- (List.app_assoc P) in Hbody. cbn [app] in Hbody.
           rewrite set_text_app in Hbody by alia. cbn [rbind fst] in Hbody.
           injection Hbody as <- <-.
           change (P ++ (DIFF_EQUAL, pt ++ e) :: (DIFF_EQUAL, e) :: post')
             with (P ++ [(DIFF_EQUAL, pt ++ e)] ++ [(DIFF_EQUAL, e)] ++ post').
           rewrite (List.app_assoc P).
           rewrite splice_app by (rewrite ?alen_app; alia).
           rewrite !diff_text1_app, !diff_text2_app, !diff_text1_equal,
             !diff_text2_equal.
           cbn [app]. rewrite !diff_text1_cons, !diff_text2_cons.
           cbn [fst snd dop_eqb]. rewrite <- !List.app_assoc.
           split; reflexivity.
        -- injection Hbody as <- <-. split; reflexivity.
    + (* the invariant after the equality *)
      clear IH H.
      destruct (1 <? ms_count_delete st + ms_count_insert st) eqn:Hmany.
      * apply rbind_ret in Hbody as (st1 & Hf & Hret). injection Hret as <- <-.
        apply Z.ltb_lt in Hmany.
        destruct (merge_factor_texts n st st1 e Hinv Hat Hmany Hf)
          as (_ & _ & H3).
        exact H3.
      * apply rbind_ret in Hbody as (prev & Hprev & Hbody).
        destruct prev.
        -- destruct (Z.eqb_spec (ms_pointer st) 0) as [H0|H0];
             cbn [negb] in Hprev; [discriminate|].
           apply rbind_ret in Hbody as (p & Hp' & Hbody).
           rewrite Hp' in Hprev. cbn [rbind] in Hprev.
           injection Hprev as Hprev. apply dop_eqb_eq in Hprev.
           destruct p as [po pt]. cbn [fst snd] in *. subst po.
           apply at_ret in Hp' as (P & Q & HPQ & HP).
           rewrite Hd, List.app_assoc in HPQ.
           change (P ++ (DIFF_EQUAL, pt) :: Q)
             with (P ++ [(DIFF_EQUAL, pt)] ++ Q) in HPQ.
           rewrite (List.app_assoc P) in HPQ.
           apply app_eq_len in HPQ as [HA HQ];
             [|rewrite !alen_app; alia].
           subst Q. rewrite Hd, List.app_assoc, HA in Hbody.
           rewrite <- (List.app_assoc P) in Hbody. cbn [app] in Hbody.
           rewrite set_text_app in Hbody by alia. cbn [rbind fst] in Hbody.
           injection Hbody as <- <-.
           change (P ++ (DIFF_EQUAL, pt ++ e) :: (DIFF_EQUAL, e) :: post')
             with (P ++ [(DIFF_EQUAL, pt ++ e)] ++ [(DIFF_EQUAL, e)] ++ post').
           rewrite (List.app_assoc P).
           rewrite splice_app by (rewrite ?alen_app; alia).
           exists (P ++ [(DIFF_EQUAL, pt ++ e)]), [], post'.
           cbn [ms_diffs ms_pointer ms_count_delete ms_count_insert
                ms_text_delete ms_text_insert].
           split; [reflexivity|].
           split; [rewrite alen_app; alia|].
           repeat (split; [first [reflexivity | lia]|]).
           right. eauto.
        -- injection Hbody as <- <-.
           exists ((pre ++ run) ++ [(DIFF_EQUAL, e)]), [], post'.
           cbn [ms_diffs ms_pointer ms_count_delete ms_count_insert
                ms_text_delete ms_text_insert].
           split; [rewrite Hd, <- !List.app_assoc; reflexivity|].
           split; [rewrite !alen_app; alia|].
           repeat (split; [first [reflexivity | lia]|]).
           right. eauto.
Qed.

(** Three neighbouring entries. *)
Lemma at_three {A} (l : list A) i a b c :
  at_ l (i - 1) = Ret a -> at_ l i = Ret b -> at_ l (i + 1) = Ret c ->
  exists P R, l = P ++ a :: b :: c :: R /\ alen P = i - 1.
Proof.
  intros Ha Hb Hc. apply at_ret in Ha as (P & Q & -> & HP).
  change (P ++ a :: Q) with (P ++ [a] ++ Q) in Hb, Hc |- *.
  rewrite List.app_assoc in Hb, Hc.
  apply at_app_ret in Hb as (Q' & ->); [|rewrite alen_app; alia].
  change ((P ++ [a]) ++ b :: Q') with ((P ++ [a]) ++ [b] ++ Q') in Hc.
  rewrite List.app_assoc in Hc.
  apply at_app_ret in Hc as (R & ->); [|rewrite !alen_app; alia].
  exists P, R. split; [reflexivity|exact HP].
Qed.

Lemma text_of_op (o : dop) (x y : jsstring) (o' : dop) :
  (if dop_eqb o o' then [] else x ++ y)
  = (if dop_eqb o o' then [] else x) ++ (if dop_eqb o o' then [] else y).
Proof. destruct (dop_eqb o o'); reflexivity. Qed.

(** The second pass keeps the two texts. *)
Lemma merge_shift_texts fuel : forall diffs pointer changes diffs' changes',
  merge_shift fuel diffs pointer changes = Ret (diffs', changes') ->
  diff_text1 diffs' = diff_text1 diffs /\ diff_text2 diffs' = diff_text2 diffs.
Proof.
  induction fuel as [|fuel IH]; intros diffs pointer changes diffs' changes' H;
    [discriminate|].
  cbn [merge_shift] in H.
  destruct (pointer <? alen diffs - 1);
    [|injection H as <- <-; split; reflexivity].
  apply rbind_ret in H as ([po pt] & Hprev & H).
  apply rbind_ret in H as ([no nt] & Hnext & H).
  apply rbind_ret in H as ([co ct] & Hcur & H).
  cbn [fst snd] in H.
  destruct (dop_eqb po DIFF_EQUAL && dop_eqb no DIFF_EQUAL) eqn:Hops;
    [|exact (IH _ _ _ _ _ H)].
  apply andb_true_iff in Hops as [Hpo Hno].
  apply dop_eqb_eq in Hpo, Hno. subst po no.
  destruct (at_three diffs pointer _ _ _ Hprev Hcur Hnext)
    as (P & R & -> & HP).
  destruct (str_eqb (substring_from ct (len ct - len pt)) pt) eqn:Hend;
    [|destruct (str_eqb (substring ct 0 (len nt)) nt) eqn:Hstart;
      [|exact (IH _ _ _ _ _ H)]].
  - (* shift the edit over the previous equality *)
    apply str_eqb_eq in Hend.
    pose proof (substring_split ct (len ct - len pt)) as Hct.
    rewrite Hend in Hct.
    set (x := substring ct 0 (len ct - len pt)) in *.
    apply IH in H. destruct H as [H1 H2]. rewrite H1, H2. clear H1 H2.
    change (P ++ (DIFF_EQUAL, pt) :: (co, ct) :: (DIFF_EQUAL, nt) :: R)
      with (P ++ [(DIFF_EQUAL, pt)] ++ (co, ct) :: (DIFF_EQUAL, nt) :: R).
    rewrite (List.app_assoc P).
    rewrite set_at_app by (rewrite alen_app; alia).
    change ((P ++ [(DIFF_EQUAL, pt)]) ++ (co, pt ++ x) :: (DIFF_EQUAL, nt) :: R)
      with ((P ++ [(DIFF_EQUAL, pt)]) ++ [(co, pt ++ x)]
            ++ (DIFF_EQUAL, nt) :: R).
    rewrite (List.app_assoc (P ++ _)).
    rewrite set_at_app by (rewrite !alen_app; alia).
    rewrite <- !List.app_assoc.
    rewrite splice_app by alia.
    rewrite !diff_text1_app, !diff_text2_app. cbn [app].
    rewrite !diff_text1_cons, !diff_text2_cons. cbn [fst snd].
    cbn [dop_eqb]. rewrite <- Hct. rewrite !text_of_op.
    rewrite <- !List.app_assoc.
    destruct co; cbn [dop_eqb app]; split; reflexivity.
  - (* shift the edit over the next equality *)
    apply str_eqb_eq in Hstart.
    pose proof (substring_split ct (len nt)) as Hct.
    rewrite Hstart in Hct.
    set (y := substring_from ct (len nt)) in *.
    apply IH in H. destruct H as [H1 H2]. rewrite H1, H2. clear H1 H2.
    rewrite set_at_app by alia.
    change (P ++ (DIFF_EQUAL, pt ++ nt) :: (co, ct) :: (DIFF_EQUAL, nt) :: R)
      with (P ++ [(DIFF_EQUAL, pt ++ nt)] ++ (co, ct) :: (DIFF_EQUAL, nt) :: R).
    rewrite (List.app_assoc P).
    rewrite set_at_app by (rewrite alen_app; alia).
    change ((P ++ [(DIFF_EQUAL, pt ++ nt)]) ++ (co, y ++ nt)
            :: (DIFF_EQUAL, nt) :: R)
      with ((P ++ [(DIFF_EQUAL, pt ++ nt)]) ++ [(co, y ++ nt)]
            ++ [(DIFF_EQUAL, nt)] ++ R).
    rewrite (List.app_assoc (P ++ _)).
    rewrite splice_app by (rewrite ?alen_app; alia).
    rewrite !diff_text1_app, !diff_text2_app. cbn [app].
    rewrite !diff_text1_cons, !diff_text2_cons. cbn [fst snd].
    cbn [dop_eqb]. rewrite <- Hct. rewrite !text_of_op.
    rewrite <- !List.app_assoc.
    destruct co; cbn [dop_eqb app diff_text1 diff_text2 map concat];
      rewrite ?List.app_nil_r, <- ?List.app_assoc; split; reflexivity.
Qed.

Lemma pop_dummy_texts diffs diffs' :
  pop_dummy diffs = Ret diffs' ->
  diff_text1 diffs' = diff_text1 diffs /\ diff_text2 diffs' = diff_text2 diffs.
Proof.
  unfold pop_dummy. intros H.
  apply rbind_ret in H as ([o t] & Hat & H). cbn [snd] in H.
  destruct t as [|c t]; cbn [is_empty] in H;
    [|injection H as <-; split; reflexivity].
  injection H as <-.
  apply at_ret in Hat as (P & Q & -> & HP).
  assert (Q = []) as ->.
  { rewrite alen_app in HP. destruct Q; [reflexivity|]. alia. }
  rewrite length_app. cbn [length].
  replace (length P + 1 - 1)%nat with (length P) by lia.
  rewrite firstn_app, firstn_all, Nat.sub_diag, firstn_O, List.app_nil_r.
  rewrite diff_text1_app, diff_text2_app. cbn.
  destruct o; cbn; rewrite !List.app_nil_r; split; reflexivity.
Qed.

Lemma cleanupMerge_texts n fuel : forall diffs diffs',
  diff_cleanupMerge fuel n diffs = Ret diffs' ->
  diff_text1 diffs' = diff_text1 diffs /\ diff_text2 diffs' = diff_text2 diffs.
Proof.
  induction fuel as [|fuel IH]; intros diffs diffs' H; [discriminate|].
  cbn [diff_cleanupMerge] in H.
  apply rbind_ret in H as (st & Hsweep & H).
  apply rbind_ret in H as (diffs1 & Hpop & H).
  apply rbind_ret in H as ([diffs2 changes] & Hshift & H).
  apply merge_sweep_texts in Hsweep as [S1 S2]; [|apply sweep_inv_start].
  cbn [ms_diffs] in S1, S2.
  apply pop_dummy_texts in Hpop as [P1 P2].
  apply merge_shift_texts in Hshift as [M1 M2].
  assert (diff_text1 diffs2 = diff_text1 diffs /\
          diff_text2 diffs2 = diff_text2 diffs) as [E1 E2].
  { rewrite M1, M2, P1, P2, S1, S2, diff_text1_app, diff_text2_app.
    cbn. rewrite !List.app_nil_r. split; reflexivity. }
  destruct changes.
  - apply IH in H as [H1 H2]. rewrite H1, H2. split; assumption.
  - injection H as <-. split; assumption.
Qed.

(** *** Pieces of substrings *)

Lemma len_firstn_le (s : jsstring) k :
  (k <= length s)%nat -> len (firstn k s) = Z.of_nat k.
Proof. intros H. unfold len. rewrite length_firstn. lia. Qed.

Lemma substring_0_inside s a :
  0 <= a <= len s -> substring s 0 a = firstn (Z.to_nat a) s.
Proof. intros H. rewrite substring_0, clamp_inside by exact H. reflexivity. Qed.

Lemma substring_from_inside s a :
  0 <= a <= len s -> substring_from s a = skipn (Z.to_nat a) s.
Proof. intros H. unfold substring_from. rewrite clamp_inside by exact H. reflexivity. Qed.

(** The end of a prefix. *)
Lemma substring_from_prefix s a b :
  0 <= b <= a -> a <= len s ->
  substring_from (substring s 0 a) b = substring s b a.
Proof.
  intros Hb Ha. rewrite substring_0_inside by lia.
  rewrite substring_from_inside
    by (rewrite len_firstn_le by (unfold len in *; lia); lia).
  rewrite substring_inside by lia.
  rewrite skipn_firstn_comm. f_equal. lia.
Qed.

(** The start of a suffix. *)
Lemma substring_suffix_0 s a b :
  0 <= a -> 0 <= b -> a + b <= len s ->
  substring (substring_from s a) 0 b = substring s a (a + b).
Proof.
  intros Ha Hb Hab. rewrite substring_from_inside by lia.
  rewrite substring_0_inside
    by (unfold len in *; rewrite length_skipn; lia).
  rewrite substring_inside by lia. f_equal. lia.
Qed.

Lemma len_substring_from_inside s a :
  0 <= a <= len s -> len (substring_from s a) = len s - a.
Proof.
  intros H. rewrite substring_from_inside by exact H.
  unfold len in *. rewrite length_skipn. lia.
Qed.

Lemma len_substring_0_inside s a :
  0 <= a <= len s -> len (substring s 0 a) = a.
Proof.
  intros H. rewrite substring_0_inside by exact H.
  rewrite len_firstn_le by (unfold len in *; lia). lia.
Qed.

(** A text cut in four. *)
Lemma substring_four s a b c :
  0 <= a <= b -> b <= c -> c <= len s ->
  s = substring s 0 a ++ (substring s a b ++ substring s b c)
      ++ substring_from s c.
Proof.
  intros Ha Hb Hc.
  rewrite (substring_app s a b c) by lia.
  rewrite List.app_assoc, (substring_app s 0 a c) by lia.
  symmetry. apply substring_split.
Qed.

(** *** The half match *)

Lemma halfMatchI_loop_inv n longtext shorttext seed i fuel : forall j st st',
  0 <= i <= len longtext ->
  half_inv longtext shorttext st ->
  halfMatchI_loop fuel n longtext shorttext seed i j st = Ret st' ->
  half_inv longtext shorttext st'.
Proof.
  induction fuel as [|fuel IH]; intros j st st' Hi Hinv H; [discriminate|].
  cbn [halfMatchI_loop] in H. cbv zeta in H.
  set (j' := indexOf shorttext seed (j + 1)) in *.
  destruct (Z.eqb_spec j' (-1)) as [Hj|Hj]; [injection H as <-; exact Hinv|].
  destruct (indexOf_found shorttext seed (j + 1) j' eq_refl Hj)
    as (pre & post & Hs & Hpre & _).
  assert (Hj' : 0 <= j' <= len shorttext).
  { rewrite Hs, len_app. pose proof (len_nonneg pre).
    pose proof (len_nonneg (seed ++ post)). lia. }
  clearbody j'. clear Hs Hpre pre post.
  apply rbind_ret in H as (pl & Hpl & H).
  apply rbind_ret in H as (sl & Hsl & H).
  apply IH in H; [exact H|exact Hi|]. clear IH H.
  destruct (len (best_common st) <? sl + pl); [|exact Hinv].
  right. cbn [best_common best_longtext_a best_longtext_b best_shorttext_a
              best_shorttext_b].
  apply commonPrefix_sound in Hpl as (Hpl0 & Hpl1 & Hpl).
  apply commonSuffix_sound in Hsl as (Hsl0 & Hsl1 & Hsl).
  rewrite len_substring_from_inside in Hpl0 by lia.
  rewrite len_substring_from_inside in Hpl1 by lia.
  rewrite len_substring_0_inside in Hsl0 by lia.
  rewrite len_substring_0_inside in Hsl1 by lia.
  rewrite !len_substring_0_inside in Hsl by lia.
  rewrite !substring_suffix_0 in Hpl by lia.
  rewrite !substring_from_prefix in Hsl by lia.
  split.
  - rewrite <- Hsl, <- Hpl. apply substring_four; lia.
  - apply substring_four; lia.
Qed.

Lemma halfMatchI_sound fuel longtext shorttext i hm :
  0 <= i <= len longtext -> 0 < len longtext ->
  diff_halfMatchI_ fuel longtext shorttext i = Ret (Some hm) ->
  longtext = hm0 hm ++ hm4 hm ++ hm1 hm /\
  shorttext = hm2 hm ++ hm4 hm ++ hm3 hm /\
  len longtext <= len (hm4 hm) * 2.
Proof.
  intros Hi Hlen H. unfold diff_halfMatchI_ in H. cbv zeta in H.
  apply rbind_ret in H as (st & Hloop & H).
  apply halfMatchI_loop_inv in Hloop; [|exact Hi|left; reflexivity].
  destruct (Z.leb_spec (len longtext) (len (best_common st) * 2)) as [Hle|];
    [|discriminate].
  injection H as <-. cbn [hm0 hm1 hm2 hm3 hm4].
  destruct Hloop as [Hnil|[H1 H2]].
  - rewrite Hnil in Hle. change (len []) with 0 in Hle. lia.
  - split; [exact H1|]. split; [exact H2|exact Hle].
Qed.

Lemma halfMatch_sound n text1 text2 hm :
  diff_halfMatch_ n text1 text2 = Ret (Some hm) ->
  text1 = hm0 hm ++ hm4 hm ++ hm1 hm /\
  text2 = hm2 hm ++ hm4 hm ++ hm3 hm /\
  Z.max (len text1) (len text2) <= len (hm4 hm) * 2.
Proof.
  unfold diff_halfMatch_. destruct (Diff_Timeout_ms <=? 0); [discriminate|].
  cbv zeta.
  set (longtext := if len text2 <? len text1 then text1 else text2).
  set (shorttext := if len text2 <? len text1 then text2 else text1).
  destruct (Z.ltb_spec (len longtext) 4) as [|H4]; [discriminate|].
  cbn [orb]. destruct (len shorttext * 2 <? len longtext); [discriminate|].
  intros H.
  apply rbind_ret in H as (h1 & Hh1 & H).
  apply rbind_ret in H as (h2 & Hh2 & H).
  assert (Hsound : forall h, h1 = Some h \/ h2 = Some h ->
            longtext = hm0 h ++ hm4 h ++ hm1 h /\
            shorttext = hm2 h ++ hm4 h ++ hm3 h /\
            len longtext <= len (hm4 h) * 2).
  { intros h [->| ->].
    - apply halfMatchI_sound in Hh1; [exact Hh1| |lia].
      unfold ceil_div. Z.to_euclidean_division_equations; lia.
    - apply halfMatchI_sound in Hh2; [exact Hh2| |lia].
      unfold ceil_div. Z.to_euclidean_division_equations; lia. }
  assert (Hpick : exists h, (h1 = Some h \/ h2 = Some h) /\
            (if len text2 <? len text1
             then Ret (Some (HalfMatch (hm0 h) (hm1 h) (hm2 h) (hm3 h) (hm4 h)))
             else Ret (Some (HalfMatch (hm2 h) (hm3 h) (hm0 h) (hm1 h) (hm4 h))))
            = Ret (Some hm)).
  { destruct h1 as [a|], h2 as [b|]; try discriminate.
    - destruct (len (hm4 b) <? len (hm4 a)); eauto.
    - eauto.
    - eauto. }
  clear H. destruct Hpick as (h & Hh & H).
  destruct (Hsound h Hh) as (HL & HS & Hhalf).
  subst longtext shorttext.
  destruct (Z.ltb_spec (len text2) (len text1));
    injection H as <-; cbn [hm0 hm1 hm2 hm3 hm4];
    (split; [|split]); try assumption; lia.
Qed.

Lemma line_mode_off_shorter checklines text1 text2 s1 s2 :
  line_mode_off checklines text1 text2 ->
  len s1 <= len text1 -> len s2 <= len text2 ->
  line_mode_off checklines s1 s2.
Proof. unfold line_mode_off. intros [H|[H|H]] H1 H2; [left|right; left|right; right]; lia || exact H. Qed.

Lemma lines_fit_shorter checklines text1 text2 s1 s2 :
  lines_fit checklines text1 text2 ->
  len s1 <= len text1 -> len s2 <= len text2 ->
  lines_fit checklines s1 s2.
Proof.
  intros [H|H] H1 H2.
  - left. exact (line_mode_off_shorter _ _ _ _ _ H H1 H2).
  - right. lia.
Qed.

Lemma rebuilds_delete_insert text1 text2 :
  rebuilds [(DIFF_DELETE, text1); (DIFF_INSERT, text2)] text1 text2.
Proof. split; cbn; rewrite ?List.app_nil_r; reflexivity. Qed.

Lemma bisectSplit_rebuilds dm text1 text2 x y deadline clk diffs clk' :
  rebuilding dm ->
  diff_bisectSplit_ dm text1 text2 x y deadline clk = (Ret diffs, clk') ->
  rebuilds diffs text1 text2.
Proof.
  intros Hdm H. unfold diff_bisectSplit_ in H. cbv zeta in H.
  apply mbind_ret in H as (da & c1 & Ha & H).
  apply mbind_ret in H as (db & c2 & Hb & H).
  apply mret_ret in H. subst diffs.
  apply Hdm in Ha; [|left; left; reflexivity].
  apply Hdm in Hb; [|left; left; reflexivity].
  rewrite <- (substring_split text1 x), <- (substring_split text2 y).
  apply rebuilds_app; assumption.
Qed.

Lemma bisect_rebuilds dm n text1 text2 deadline clk diffs clk' :
  rebuilding dm ->
  diff_bisect_ dm n text1 text2 deadline clk = (Ret diffs, clk') ->
  rebuilds diffs text1 text2.
Proof.
  intros Hdm H. unfold diff_bisect_ in H. cbv zeta in H.
  apply mbind_ret in H as (r & c1 & _ & H).
  destruct r as [[x y]|].
  - exact (bisectSplit_rebuilds _ _ _ _ _ _ _ _ _ Hdm H).
  - apply mret_ret in H. subst diffs. apply rebuilds_delete_insert.
Qed.

(** *** The cleanup passes *)

Lemma eq_read_ret equalities i e :
  eq_read equalities i = Ret e -> equalities !! i = Some e.
Proof. unfold eq_read. destruct (equalities !! i); congruence. Qed.

(** An equality turned into a deletion and an insertion of the same text. *)
Lemma split_equality diffs e lastequality diffs' :
  at_ diffs e = Ret (DIFF_EQUAL, lastequality) ->
  set_op (splice diffs e 0 [(DIFF_DELETE, lastequality)]) (e + 1) DIFF_INSERT
  = Ret diffs' ->
  diff_text1 diffs' = diff_text1 diffs /\ diff_text2 diffs' = diff_text2 diffs.
Proof.
  intros Hat H. apply at_ret in Hat as (P & Q & -> & HP).
  change (P ++ (DIFF_EQUAL, lastequality) :: Q)
    with (P ++ [] ++ (DIFF_EQUAL, lastequality) :: Q) in H.
  rewrite splice_app in H by alia.
  change (P ++ [(DIFF_DELETE, lastequality)] ++ (DIFF_EQUAL, lastequality) :: Q)
    with (P ++ [(DIFF_DELETE, lastequality)]
          ++ (DIFF_EQUAL, lastequality) :: Q) in H.
  rewrite List.app_assoc in H. unfold set_op in H.
  rewrite at_app in H by (rewrite alen_app; alia). cbn [rbind snd] in H.
  rewrite set_at_app in H by (rewrite alen_app; alia).
  injection H as <-.
  rewrite !diff_text1_app, !diff_text2_app, !diff_text1_cons, !diff_text2_cons.
  cbn. rewrite ?List.app_nil_r, <- ?List.app_assoc. split; reflexivity.
Qed.

Lemma efficiency_loop_texts fuel : forall st st',
  efficiency_inv st -> efficiency_loop fuel st = Ret st' ->
  diff_text1 (es_diffs st') = diff_text1 (es_diffs st) /\
  diff_text2 (es_diffs st') = diff_text2 (es_diffs st).
Proof.
  induction fuel as [|fuel IH]; intros st st' Hinv H; [discriminate|].
  cbn [efficiency_loop] in H.
  destruct (es_pointer st <? alen (es_diffs st));
    [|injection H as <-; split; reflexivity].
  apply rbind_ret in H as ([o t] & Hat & H). cbn [fst snd] in H.
  destruct (dop_eqb o DIFF_EQUAL) eqn:Ho.
  - apply dop_eqb_eq in Ho. subst o.
    destruct ((len t <? Diff_EditCost) && (post_ins st || post_del st)).
    + apply IH in H; [exact H|].
      intros _. cbn [es_diffs es_equalities es_equalitiesLength es_lastequality].
      exists (es_pointer st). split; [|exact Hat].
      replace (es_equalitiesLength st + 1 - 1) with (es_equalitiesLength st)
        by lia.
      apply lookup_insert_eq.
    + apply IH in H; [exact H|]. intros Hne. discriminate Hne.
  - destruct (negb (is_empty (es_lastequality st)) && _) eqn:Helim.
    + apply andb_true_iff in Helim as [Hne _]. apply negb_true_iff in Hne.
      destruct (Hinv Hne) as (e & He & Hate).
      apply rbind_ret in H as (e' & He' & H).
      apply eq_read_ret in He'. rewrite He in He'. injection He' as <-.
      apply rbind_ret in H as (diffs' & Hset & H).
      destruct (split_equality _ _ _ _ Hate Hset) as [T1 T2].
      destruct (pre_ins st && pre_del st).
      * apply IH in H; [|intros Hx; discriminate Hx].
        cbn [es_diffs] in H. destruct H as [H1 H2].
        rewrite H1, H2. split; assumption.
      * apply rbind_ret in H as (p & _ & H).
        apply IH in H; [|intros Hx; discriminate Hx].
        cbn [es_diffs] in H. destruct H as [H1 H2].
        rewrite H1, H2. split; assumption.
    + apply IH in H; [exact H|]. exact Hinv.
Qed.

Lemma cleanupEfficiency_texts fuel diffs diffs' :
  diff_cleanupEfficiency fuel diffs = Ret diffs' ->
  diff_text1 diffs' = diff_text1 diffs /\ diff_text2 diffs' = diff_text2 diffs.
Proof.
  unfold diff_cleanupEfficiency. intros H.
  apply rbind_ret in H as (st & Hloop & H).
  apply efficiency_loop_texts in Hloop as [L1 L2];
    [|intros Hx; discriminate Hx].
  cbn [es_diffs] in L1, L2.
  destruct (es_changes st).
  - apply cleanupMerge_texts in H as [H1 H2]. rewrite H1, H2.
    split; assumption.
  - injection H as <-. split; assumption.
Qed.

Lemma semantic_loop_texts fuel : forall st st',
  semantic_inv st -> semantic_loop fuel st = Ret st' ->
  diff_text1 (ss_diffs st') = diff_text1 (ss_diffs st) /\
  diff_text2 (ss_diffs st') = diff_text2 (ss_diffs st).
Proof.
  induction fuel as [|fuel IH]; intros st st' Hinv H; [discriminate|].
  cbn [semantic_loop] in H.
  destruct (ss_pointer st <? alen (ss_diffs st));
    [|injection H as <-; split; reflexivity].
  apply rbind_ret in H as ([o t] & Hat & H). cbn [fst snd] in H.
  destruct (dop_eqb o DIFF_EQUAL) eqn:Ho.
  - apply dop_eqb_eq in Ho. subst o.
    apply IH in H; [exact H|].
    intros le Hle. cbn [ss_lastequality] in Hle. injection Hle as <-.
    cbn [ss_diffs ss_equalities ss_equalitiesLength].
    exists (ss_pointer st). split; [|exact Hat].
    replace (ss_equalitiesLength st + 1 - 1) with (ss_equalitiesLength st)
      by lia.
    apply lookup_insert_eq.
  - cbv zeta in H.
    destruct (ss_lastequality st) as [le|] eqn:Ele;
      [|apply IH in H; [exact H|]; intros le Hle; cbn in Hle; congruence].
    destruct ((len le <=? Z.max (length_insertions1 st) (length_deletions1 st))
              && _) eqn:Helim.
    + destruct (Hinv le Ele) as (e & He & Hate).
      apply rbind_ret in H as (e' & He' & H).
      apply eq_read_ret in He'. rewrite He in He'. injection He' as <-.
      apply rbind_ret in H as (diffs' & Hset & H).
      destruct (split_equality _ _ _ _ Hate Hset) as [T1 T2].
      apply rbind_ret in H as (p & _ & H).
      apply IH in H; [|intros x Hx; discriminate Hx].
      cbn [ss_diffs] in H. destruct H as [H1 H2].
      rewrite H1, H2. split; assumption.
    + apply IH in H; [exact H|].
      intros x Hx. cbn [ss_lastequality] in Hx.
      injection Hx as <-. exact (Hinv le Ele).
Qed.

Lemma charAt_split s : s = charAt s 0 ++ substring_from s 1.
Proof.
  destruct s as [|c t]; [reflexivity|].
  rewrite charAt_0, substring_from_1. reflexivity.
Qed.

Lemma lossless_slide_slid whole sides fuel : forall e1 ed e2 best best',
  e1 ++ ed ++ e2 = whole -> e1 ++ e2 = sides ->
  slid whole sides best ->
  lossless_slide fuel e1 ed e2 best = Ret best' ->
  slid whole sides best'.
Proof.
  induction fuel as [|fuel IH]; intros e1 ed e2 best best' HA HB Hbest H;
    [discriminate|].
  cbn [lossless_slide] in H.
  destruct (str_eqb (charAt ed 0) (charAt e2 0)) eqn:E;
    [|injection H as <-; exact Hbest].
  apply str_eqb_eq in E. cbv zeta in H.
  assert (HA' : (e1 ++ charAt ed 0) ++ (substring_from ed 1 ++ charAt e2 0)
                ++ substring_from e2 1 = whole).
  { rewrite <- HA. rewrite (charAt_split ed) at 3.
    rewrite (charAt_split e2) at 3. rewrite <- !List.app_assoc. reflexivity. }
  assert (HB' : (e1 ++ charAt ed 0) ++ substring_from e2 1 = sides).
  { rewrite <- HB. rewrite (charAt_split e2) at 2. rewrite E.
    rewrite <- !List.app_assoc. reflexivity. }
  apply (IH _ _ _ _ _ HA' HB') in H; [exact H|].
  destruct (bestScore best <=? _); [|exact Hbest].
  split; [exact HA'|exact HB'].
Qed.

Lemma text1_equality_or_nothing t : diff_text1 (equality_or_nothing t) = t.
Proof. destruct t; cbn; rewrite ?List.app_nil_r; reflexivity. Qed.

Lemma text2_equality_or_nothing t : diff_text2 (equality_or_nothing t) = t.
Proof. destruct t; cbn; rewrite ?List.app_nil_r; reflexivity. Qed.

(** Array updates past a few entries. *)
Lemma set_at_mid {A} (P mid : list A) x post i y :
  i = alen P + alen mid ->
  set_at (P ++ mid ++ x :: post) i y = P ++ mid ++ y :: post.
Proof.
  intros Hi. rewrite !List.app_assoc. apply set_at_app.
  rewrite alen_app. exact Hi.
Qed.

Lemma set_text_mid (P mid : diffs_t) x post i t :
  i = alen P + alen mid ->
  set_text (P ++ mid ++ x :: post) i t = Ret (P ++ mid ++ (fst x, t) :: post).
Proof.
  intros Hi. rewrite !List.app_assoc. apply set_text_app.
  rewrite alen_app. exact Hi.
Qed.

Lemma splice_mid {A} (P mid out post items : list A) i c :
  i = alen P + alen mid -> c = alen out ->
  splice (P ++ mid ++ out ++ post) i c items = P ++ mid ++ items ++ post.
Proof.
  intros Hi Hc. rewrite !(List.app_assoc P). apply splice_app; [|exact Hc].
  rewrite alen_app. exact Hi.
Qed.

Lemma set_at_1 {A} (P : list A) a x post i y :
  i = alen P + 1 -> set_at (P ++ a :: x :: post) i y = P ++ a :: y :: post.
Proof. intros H. apply (set_at_mid P [a]). exact H. Qed.

Lemma set_text_1 (P : diffs_t) a x post i t :
  i = alen P + 1 ->
  set_text (P ++ a :: x :: post) i t = Ret (P ++ a :: (fst x, t) :: post).
Proof. intros H. apply (set_text_mid P [a]). exact H. Qed.

Lemma set_text_2 (P : diffs_t) a b x post i t :
  i = alen P + 2 ->
  set_text (P ++ a :: b :: x :: post) i t
  = Ret (P ++ a :: b :: (fst x, t) :: post).
Proof. intros H. apply (set_text_mid P [a; b]). exact H. Qed.

Lemma splice_drop_0 {A} (P : list A) x post i :
  i = alen P -> splice (P ++ x :: post) i 1 [] = P ++ post.
Proof.
  intros H. apply (splice_mid P [] [x] post []); [|reflexivity].
  change (alen (@nil A)) with 0. lia.
Qed.

Lemma splice_drop_1 {A} (P : list A) a x post i :
  i = alen P + 1 -> splice (P ++ a :: x :: post) i 1 [] = P ++ a :: post.
Proof. intros H. apply (splice_mid P [a] [x] post []); [exact H|reflexivity]. Qed.

Lemma splice_drop_2 {A} (P : list A) a b x post i :
  i = alen P + 2 ->
  splice (P ++ a :: b :: x :: post) i 1 [] = P ++ a :: b :: post.
Proof.
  intros H. apply (splice_mid P [a; b] [x] post []); [exact H|reflexivity].
Qed.

Lemma splice_put_0 {A} (P : list A) post i y :
  i = alen P -> splice (P ++ post) i 0 [y] = P ++ y :: post.
Proof.
  intros H. apply (splice_mid P [] [] post [y]); [|reflexivity].
  change (alen (@nil A)) with 0. lia.
Qed.

Lemma splice_put_1 {A} (P : list A) a post i y :
  i = alen P + 1 -> splice (P ++ a :: post) i 0 [y] = P ++ a :: y :: post.
Proof. intros H. apply (splice_mid P [a] [] post [y]); [exact H|reflexivity]. Qed.

(** Writing the best fit back. *)
Lemma lossless_write P R pointer co eq1 edit eq2 best d1 p1 d2 d3 p3 :
  alen P = pointer - 1 ->
  (if negb (is_empty (bestEquality1 best))
   then (set_at (P ++ (DIFF_EQUAL, eq1) :: (co, edit) :: (DIFF_EQUAL, eq2) :: R)
           (pointer - 1) (DIFF_EQUAL, bestEquality1 best), pointer)
   else (splice (P ++ (DIFF_EQUAL, eq1) :: (co, edit) :: (DIFF_EQUAL, eq2) :: R)
           (pointer - 1) 1 [], pointer - 1)) = (d1, p1) ->
  set_text d1 p1 (bestEdit best) = Ret d2 ->
  (if negb (is_empty (bestEquality2 best))
   then (let! diffs := set_text d2 (p1 + 1) (bestEquality2 best) in
         Ret (diffs, p1))
   else Ret (splice d2 (p1 + 1) 1 [], p1 - 1)) = Ret (d3, p3) ->
  d3 = P ++ equality_or_nothing (bestEquality1 best)
         ++ [(co, bestEdit best)]
         ++ equality_or_nothing (bestEquality2 best) ++ R.
Proof.
  intros HP H1 H2 H3. unfold equality_or_nothing.
  destruct (negb (is_empty (bestEquality1 best))).
  - injection H1 as <- <-.
    rewrite set_at_app in H2 by alia.
    rewrite set_text_1 in H2 by alia. cbn [fst] in H2. injection H2 as <-.
    destruct (negb (is_empty (bestEquality2 best))).
    + rewrite set_text_2 in H3 by alia.
      cbn [rbind fst] in H3. injection H3 as <- _. reflexivity.
    + injection H3 as <- _. apply splice_drop_2. alia.
  - injection H1 as <- <-.
    rewrite splice_drop_0 in H2 by alia.
    rewrite set_text_app in H2 by alia. cbn [fst] in H2. injection H2 as <-.
    destruct (negb (is_empty (bestEquality2 best))).
    + rewrite set_text_1 in H3 by alia.
      cbn [rbind fst] in H3. injection H3 as <- _. reflexivity.
    + injection H3 as <- _. apply splice_drop_1. alia.
Qed.

Lemma text_of_edit (o : dop) (whole sides e1 ed e2 : jsstring) :
  e1 ++ ed ++ e2 = whole -> e1 ++ e2 = sides ->
  e1 ++ (if dop_eqb o DIFF_INSERT then [] else ed) ++ e2
  = (if dop_eqb o DIFF_INSERT then sides else whole) /\
  e1 ++ (if dop_eqb o DIFF_DELETE then [] else ed) ++ e2
  = (if dop_eqb o DIFF_DELETE then sides else whole).
Proof. intros <- <-. destruct o; cbn; split; reflexivity. Qed.

Lemma lossless_loop_texts n fuel : forall diffs pointer diffs',
  lossless_loop fuel n diffs pointer = Ret diffs' ->
  diff_text1 diffs' = diff_text1 diffs /\ diff_text2 diffs' = diff_text2 diffs.
Proof.
  induction fuel as [|fuel IH]; intros diffs pointer diffs' H; [discriminate|].
  cbn [lossless_loop] in H.
  destruct (pointer <? alen diffs - 1);
    [|injection H as <-; split; reflexivity].
  apply rbind_ret in H as ([po eq1] & Hprev & H).
  apply rbind_ret in H as ([no eq2] & Hnext & H).
  cbn [fst snd] in H.
  destruct (dop_eqb po DIFF_EQUAL && dop_eqb no DIFF_EQUAL) eqn:Hops;
    [|exact (IH _ _ _ H)].
  apply andb_true_iff in Hops as [Hpo Hno].
  apply dop_eqb_eq in Hpo, Hno. subst po no.
  apply rbind_ret in H as ([co edit] & Hcur & H). cbn [fst snd] in H.
  destruct (at_three diffs pointer _ _ _ Hprev Hcur Hnext)
    as (P & R & -> & HP).
  apply rbind_ret in H as (c & Hc & H).
  apply commonSuffix_sound in Hc as (_ & _ & Hc).
  (* The edit shifted as far left as possible. *)
  assert (Hshift : exists e1 ed e2,
    (if negb (c =? 0)
     then (substring eq1 0 (len eq1 - c),
           substring_from edit (len edit - c)
           ++ substring edit 0 (len edit - c),
           substring_from edit (len edit - c) ++ eq2)
     else (eq1, edit, eq2)) = (e1, ed, e2) /\
    e1 ++ ed ++ e2 = eq1 ++ edit ++ eq2 /\ e1 ++ e2 = eq1 ++ eq2).
  { assert (Heq1 : substring eq1 0 (len eq1 - c)
                   ++ substring_from edit (len edit - c) = eq1)
      by (rewrite <- Hc; apply substring_split).
    assert (Hedit : substring edit 0 (len edit - c)
                    ++ substring_from edit (len edit - c) = edit)
      by apply substring_split.
    set (e1' := substring eq1 0 (len eq1 - c)) in *.
    set (ef := substring edit 0 (len edit - c)) in *.
    set (cs := substring_from edit (len edit - c)) in *.
    clearbody e1' ef cs. clear H.
    destruct (negb (c =? 0)).
    - eexists _, _, _. split; [reflexivity|].
      rewrite <- Heq1, <- Hedit, <- !List.app_assoc. split; reflexivity.
    - eexists _, _, _. split; [reflexivity|]. split; reflexivity. }
  destruct Hshift as (e1 & ed & e2 & Hif & HA & HB).
  rewrite Hif in H. clear Hif.
  apply rbind_ret in H as (best & Hbest & H).
  apply (lossless_slide_slid _ _ _ _ _ _ _ _ HA HB) in Hbest;
    [|split; [exact HA|exact HB]].
  destruct (negb (str_eqb eq1 (bestEquality1 best)));
    [|exact (IH _ _ _ H)].
  assert (Hw : exists diffs1 pointer1,
    lossless_loop fuel n diffs1 (pointer1 + 1) = Ret diffs' /\
    diffs1 = P ++ equality_or_nothing (bestEquality1 best)
               ++ [(co, bestEdit best)]
               ++ equality_or_nothing (bestEquality2 best) ++ R).
  { destruct (if negb (is_empty (bestEquality1 best)) then _ else _)
      as [d1 p1] eqn:E1.
    apply rbind_ret in H as (d2 & Hd2 & H).
    apply rbind_ret in H as ([d3 p3] & Hd3 & H).
    exists d3, p3. split; [exact H|].
    exact (lossless_write P R pointer co eq1 edit eq2 best d1 p1 d2 d3 p3
             HP E1 Hd2 Hd3). }
  destruct Hw as (diffs1 & pointer1 & Hloop & ->).
  apply IH in Hloop as [H1 H2]. rewrite H1, H2.
  destruct Hbest as [BA BB].
  destruct (text_of_edit co _ _ _ _ _ BA BB) as [T1 T2].
  rewrite !diff_text1_app, !diff_text2_app,
    !text1_equality_or_nothing, !text2_equality_or_nothing.
  rewrite !diff_text1_cons, !diff_text2_cons. cbn [fst snd dop_eqb].
  cbn [diff_text1 diff_text2 map concat]. rewrite !List.app_nil_r.
  rewrite (List.app_assoc _ _ (_ ++ diff_text1 R)),
          (List.app_assoc _ _ (diff_text1 R)).
  rewrite (List.app_assoc _ _ (_ ++ diff_text2 R)),
          (List.app_assoc _ _ (diff_text2 R)).
  rewrite <- (List.app_assoc (bestEquality1 best) _ (bestEquality2 best)).
  rewrite <- (List.app_assoc (bestEquality1 best) _ (bestEquality2 best)).
  rewrite T1, T2.
  destruct co; cbn [dop_eqb app]; rewrite <- ?List.app_assoc;
    split; reflexivity.
Qed.

Lemma cleanupSemanticLossless_texts fuel diffs diffs' :
  diff_cleanupSemanticLossless fuel diffs = Ret diffs' ->
  diff_text1 diffs' = diff_text1 diffs /\ diff_text2 diffs' = diff_text2 diffs.
Proof. apply lossless_loop_texts. Qed.

Lemma substring_from_all s a : a <= 0 -> substring_from s a = s.
Proof.
  intros H. unfold substring_from, clamp.
  replace (Z.to_nat (Z.min (Z.max a 0) (len s))) with O
    by (pose proof (len_nonneg s); lia).
  reflexivity.
Qed.

Lemma substring_0_all s a : len s <= a -> substring s 0 a = s.
Proof.
  intros H. rewrite substring_0. unfold clamp.
  replace (Z.to_nat (Z.min (Z.max a 0) (len s))) with (length s)
    by (unfold len in *; lia).
  apply firstn_all.
Qed.

Lemma len_substring_from_0 s : substring_from s (len s) = [].
Proof.
  rewrite substring_from_inside by (pose proof (len_nonneg s); lia).
  unfold len. rewrite Nat2Z.id. apply skipn_all.
Qed.

Lemma commonOverlap_loop_sound text1 text2 text_length fuel :
  len text1 = text_length -> len text2 = text_length -> text1 <> text2 ->
  forall best length k,
    overlap text1 text2 best -> 1 <= length ->
    commonOverlap_loop fuel text1 text2 text_length best length = Ret k ->
    overlap text1 text2 k.
Proof.
  intros L1 L2 Hne.
  induction fuel as [|fuel IH]; intros best length k Hbest Hlen H;
    [discriminate|].
  cbn [commonOverlap_loop] in H. cbv zeta in H.
  set (pattern := substring_from text1 (text_length - length)) in *.
  destruct (Z.eqb_spec (indexOf text2 pattern 0) (-1)) as [|Hfound];
    [injection H as <-; exact Hbest|].
  destruct (indexOf_found text2 pattern 0 _ eq_refl Hfound)
    as (pre & post & Ht2 & Hpre & _).
  set (found := indexOf text2 pattern 0) in *. clearbody found.
  assert (Hf0 : 0 <= found) by (rewrite <- Hpre; apply len_nonneg).
  assert (Hnew : (found =? 0)
                 || str_eqb (substring_from text1
                               (text_length - (length + found)))
                            (substring text2 0 (length + found)) = true ->
                 overlap text1 text2 (length + found)).
  { intros Hor.
    assert (Heq : substring_from text1 (text_length - (length + found))
                  = substring text2 0 (length + found)).
    { apply orb_true_iff in Hor as [H0|Heq]; [|apply str_eqb_eq, Heq].
      apply Z.eqb_eq in H0. rewrite H0, Z.add_0_r. rewrite H0 in Hpre.
      destruct pre; [|unfold len in Hpre; cbn in Hpre; lia]. cbn [app] in Ht2.
      fold pattern.
      destruct (Z.le_gt_cases length text_length) as [Hle|Hgt].
      - assert (len pattern = length) as Hpl.
        { subst pattern. rewrite len_substring_from_inside by lia. lia. }
        rewrite Ht2, substring_0_inside
          by (rewrite len_app; pose proof (len_nonneg post); lia).
        rewrite <- Hpl. unfold len. rewrite Nat2Z.id.
        symmetry. apply take_app_length.
      - exfalso. apply Hne.
        assert (pattern = text1) as Hp
            by (subst pattern; apply substring_from_all; lia).
        rewrite Hp in Ht2. rewrite Ht2 in L2. rewrite len_app in L2.
        assert (post = []) as ->
            by (destruct post; [reflexivity|unfold len in *; cbn [List.length] in *; lia]).
        rewrite List.app_nil_r in Ht2. congruence. }
    destruct (Z.le_gt_cases (length + found) text_length) as [Hle|Hgt].
    - split; [lia|]. split; [lia|]. rewrite L1. exact Heq.
    - exfalso. apply Hne.
      rewrite substring_from_all in Heq by lia.
      rewrite substring_0_all in Heq by lia. exact Heq. }
  destruct ((found =? 0) || _) eqn:Hor.
  - apply (IH _ _ _ (Hnew eq_refl)) in H; [exact H|lia].
  - apply (IH _ _ _ Hbest) in H; [exact H|lia].
Qed.

Lemma commonOverlap_sound fuel text1 text2 k :
  diff_commonOverlap_ fuel text1 text2 = Ret k -> overlap text1 text2 k.
Proof.
  unfold diff_commonOverlap_. cbv zeta.
  pose proof (len_nonneg text1) as N1. pose proof (len_nonneg text2) as N2.
  destruct ((len text1 =? 0) || (len text2 =? 0)) eqn:E0.
  { intros [= <-]. split; [lia|]. split; [lia|].
    rewrite Z.sub_0_r, len_substring_from_0. rewrite substring_empty by lia.
    reflexivity. }
  set (t1 := if len text2 <? len text1
             then substring_from text1 (len text1 - len text2) else text1).
  set (t2 := if len text1 <? len text2
             then substring text2 0 (len text1) else text2).
  set (L := Z.min (len text1) (len text2)).
  assert (HL : 0 <= L /\ L <= len text1 /\ L <= len text2
               /\ (L = len text1 \/ L = len text2)) by (subst L; lia).
  clearbody L.
  assert (Ht1 : t1 = substring_from text1 (len text1 - L)).
  { subst t1. destruct (Z.ltb_spec (len text2) (len text1)).
    - replace L with (len text2) by lia. reflexivity.
    - replace L with (len text1) by lia. rewrite Z.sub_diag.
      symmetry. apply substring_from_all. lia. }
  assert (Ht2 : t2 = substring text2 0 L).
  { subst t2. destruct (Z.ltb_spec (len text1) (len text2)).
    - replace L with (len text1) by lia. reflexivity.
    - replace L with (len text2) by lia. symmetry. apply substring_0_all. lia. }
  assert (HL1 : len t1 = L)
    by (rewrite Ht1, len_substring_from_inside by lia; lia).
  assert (HL2 : len t2 = L)
    by (rewrite Ht2, len_substring_0_inside by lia; lia).
  assert (Hback : forall j, overlap t1 t2 j -> overlap text1 text2 j).
  { intros j (Hj1 & Hj2 & Hj). rewrite HL1 in Hj1, Hj. rewrite HL2 in Hj2.
    split; [lia|]. split; [lia|].
    rewrite Ht1, Ht2 in Hj.
    rewrite !substring_from_inside in Hj
      by (rewrite ?len_substring_from_inside by lia; lia).
    rewrite !substring_0_inside in Hj
      by (rewrite ?len_substring_0_inside by lia; lia).
    rewrite substring_from_inside, substring_0_inside by lia.
    rewrite skipn_skipn, firstn_firstn in Hj.
    replace (Z.to_nat (L - j) + Z.to_nat (len text1 - L))%nat
      with (Z.to_nat (len text1 - j)) in Hj by lia.
    replace (Z.to_nat j `min` Z.to_nat L)%nat with (Z.to_nat j) in Hj by lia.
    exact Hj. }
  clearbody t1 t2.
  destruct (str_eqb t1 t2) eqn:Eq.
  - intros [= <-]. apply Hback. apply str_eqb_eq in Eq.
    split; [lia|]. split; [lia|].
    rewrite HL1, Z.sub_diag, substring_from_all by lia.
    rewrite substring_0_all by lia. exact Eq.
  - intros H. apply Hback.
    refine (commonOverlap_loop_sound t1 t2 L fuel HL1 HL2 _ 0 1 k _ _ H);
      [|split; [lia|split; [lia|]]|lia].
    + intros ->. rewrite str_eqb_refl in Eq. discriminate.
    + rewrite Z.sub_0_r, HL1. rewrite <- HL1 at 1.
      rewrite len_substring_from_0, substring_empty by lia. reflexivity.
Qed.

Lemma starts_with_self p post : starts_with p (p ++ post) = true.
Proof.
  induction p as [|c p IH]; [reflexivity|].
  cbn [app starts_with]. rewrite N.eqb_refl. exact IH.
Qed.

(** [indexOf] finds the first place. *)
Lemma find_from_first p : forall pre post i,
  i <= find_from p (pre ++ p ++ post) i <= i + len pre.
Proof.
  induction pre as [|c pre IH]; intros post i.
  - cbn [app]. change (len []) with 0.
    destruct (p ++ post) as [|x s] eqn:E; cbn [find_from]; rewrite <- E;
      rewrite starts_with_self; lia.
  - cbn [app find_from].
    destruct (starts_with p (c :: pre ++ p ++ post)).
    + pose proof (len_nonneg (c :: pre)). lia.
    + specialize (IH post (i + 1)).
      replace (len (c :: pre)) with (1 + len pre)
        by (unfold len; cbn [List.length]; lia).
      lia.
Qed.

Lemma indexOf_first s p pre post :
  s = pre ++ p ++ post -> 0 <= indexOf s p 0 <= len pre.
Proof.
  intros ->. unfold indexOf. rewrite clamp_0. cbn [skipn].
  apply find_from_first.
Qed.

(** An overlap puts every shorter end of [text1] inside [text2]. *)
Lemma overlap_occurs t1 t2 T m length :
  len t1 = T -> len t2 = T -> overlap t1 t2 m -> 1 <= length <= m ->
  exists pre post,
    t2 = pre ++ substring_from t1 (T - length) ++ post /\
    len pre = m - length.
Proof.
  intros L1 L2 (Hm1 & Hm2 & Heq) Hlen.
  rewrite L1 in Heq, Hm1. rewrite L2 in Hm2.
  rewrite substring_from_inside in Heq by lia.
  rewrite substring_0_inside in Heq by lia.
  rewrite substring_from_inside by lia.
  replace (Z.to_nat (T - length))
    with (Z.to_nat (m - length) + Z.to_nat (T - m))%nat by lia.
  rewrite <- skipn_skipn, Heq.
  exists (firstn (Z.to_nat (m - length)) (firstn (Z.to_nat m) t2)),
         (skipn (Z.to_nat m) t2).
  split.
  - rewrite List.app_assoc, firstn_skipn, firstn_skipn. reflexivity.
  - unfold len in *. rewrite !length_firstn. lia.
Qed.

Lemma commonOverlap_loop_longest text1 text2 text_length fuel :
  len text1 = text_length -> len text2 = text_length ->
  forall best length k,
    1 <= length -> best < length ->
    (forall m, overlap text1 text2 m -> m <= best \/ length <= m) ->
    commonOverlap_loop fuel text1 text2 text_length best length = Ret k ->
    forall m, overlap text1 text2 m -> m <= k.
Proof.
  intros L1 L2.
  induction fuel as [|fuel IH]; intros best length k Hlen Hbest Hinv H;
    [discriminate|].
  cbn [commonOverlap_loop] in H. cbv zeta in H.
  set (pattern := substring_from text1 (text_length - length)) in *.
  assert (Hocc : forall m, overlap text1 text2 m ->
                   m <= best \/
                   (length + indexOf text2 pattern 0 <= m /\
                    0 <= indexOf text2 pattern 0)).
  { intros m Hm. destruct (Hinv m Hm) as [Hle|Hge]; [left; exact Hle|right].
    destruct (overlap_occurs _ _ _ _ length L1 L2 Hm ltac:(lia))
      as (pre & post & Ht2 & Hpre).
    pose proof (indexOf_first _ _ _ _ Ht2). fold pattern in H0. lia. }
  destruct (Z.eqb_spec (indexOf text2 pattern 0) (-1)) as [Hnone|Hfound].
  { injection H as <-. intros m Hm. destruct (Hocc m Hm); lia. }
  assert (Hf0 : 0 <= indexOf text2 pattern 0).
  { destruct (indexOf_found text2 pattern 0 _ eq_refl Hfound)
      as (pre & post & _ & Hpre & _).
    rewrite <- Hpre. apply len_nonneg. }
  set (found := indexOf text2 pattern 0) in *. clearbody found.
  destruct ((found =? 0) || _).
  - refine (IH _ _ _ _ _ _ H); [| |intros m Hm; destruct (Hocc m Hm)]; lia.
  - refine (IH _ _ _ _ _ _ H); [| |intros m Hm; destruct (Hocc m Hm)]; lia.
Qed.

Lemma commonOverlap_longest fuel text1 text2 k :
  diff_commonOverlap_ fuel text1 text2 = Ret k ->
  forall m, overlap text1 text2 m -> m <= k.
Proof.
  unfold diff_commonOverlap_. cbv zeta.
  pose proof (len_nonneg text1) as N1. pose proof (len_nonneg text2) as N2.
  destruct ((len text1 =? 0) || (len text2 =? 0)) eqn:E0.
  { intros [= <-] m (Hm1 & Hm2 & _).
    apply orb_true_iff in E0 as [E0|E0]; apply Z.eqb_eq in E0; lia. }
  set (t1 := if len text2 <? len text1
             then substring_from text1 (len text1 - len text2) else text1).
  set (t2 := if len text1 <? len text2
             then substring text2 0 (len text1) else text2).
  set (L := Z.min (len text1) (len text2)).
  assert (HL : 0 <= L /\ L <= len text1 /\ L <= len text2
               /\ (L = len text1 \/ L = len text2)) by (subst L; lia).
  clearbody L.
  assert (Ht1 : t1 = substring_from text1 (len text1 - L)).
  { subst t1. destruct (Z.ltb_spec (len text2) (len text1)).
    - replace L with (len text2) by lia. reflexivity.
    - replace L with (len text1) by lia. rewrite Z.sub_diag.
      symmetry. apply substring_from_all. lia. }
  assert (Ht2 : t2 = substring text2 0 L).
  { subst t2. destruct (Z.ltb_spec (len text1) (len text2)).
    - replace L with (len text1) by lia. reflexivity.
    - replace L with (len text2) by lia. symmetry. apply substring_0_all. lia. }
  assert (HL1 : len t1 = L)
    by (rewrite Ht1, len_substring_from_inside by lia; lia).
  assert (HL2 : len t2 = L)
    by (rewrite Ht2, len_substring_0_inside by lia; lia).
  assert (Hforth : forall j, overlap text1 text2 j -> overlap t1 t2 j).
  { intros j (Hj1 & Hj2 & Hj). unfold overlap. rewrite HL1, HL2.
    split; [lia|]. split; [lia|].
    rewrite Ht1, Ht2.
    rewrite !substring_from_inside
      by (rewrite ?len_substring_from_inside by lia; lia).
    rewrite !substring_0_inside
      by (rewrite ?len_substring_0_inside by lia; lia).
    rewrite substring_from_inside, substring_0_inside in Hj by lia.
    rewrite skipn_skipn, firstn_firstn.
    replace (Z.to_nat (L - j) + Z.to_nat (len text1 - L))%nat
      with (Z.to_nat (len text1 - j)) by lia.
    replace (Z.to_nat j `min` Z.to_nat L)%nat with (Z.to_nat j) by lia.
    exact Hj. }
  clearbody t1 t2.
  destruct (str_eqb t1 t2) eqn:Eq.
  - intros [= <-] m (Hm1 & Hm2 & _). lia.
  - intros H m Hm. apply Hforth in Hm.
    refine (commonOverlap_loop_longest t1 t2 L fuel HL1 HL2 0 1 k _ _ _ H m Hm);
      [lia|lia|].
    intros j (Hj & _). lia.
Qed.

Lemma at_two {A} (l : list A) i a b :
  at_ l (i - 1) = Ret a -> at_ l i = Ret b ->
  exists P R, l = P ++ a :: b :: R /\ alen P = i - 1.
Proof.
  intros Ha Hb. apply at_ret in Ha as (P & Q & -> & HP).
  change (P ++ a :: Q) with (P ++ [a] ++ Q) in Hb |- *.
  rewrite List.app_assoc in Hb.
  apply at_app_ret in Hb as (R & ->); [|rewrite alen_app; alia].
  exists P, R. split; [reflexivity|exact HP].
Qed.

Lemma set_at_2 {A} (P : list A) a b x post i y :
  i = alen P + 2 ->
  set_at (P ++ a :: b :: x :: post) i y = P ++ a :: b :: y :: post.
Proof. intros H. apply (set_at_mid P [a; b]). exact H. Qed.

Lemma overlap_loop_texts n fuel : forall diffs pointer diffs',
  overlap_loop fuel n diffs pointer = Ret diffs' ->
  diff_text1 diffs' = diff_text1 diffs /\ diff_text2 diffs' = diff_text2 diffs.
Proof.
  induction fuel as [|fuel IH]; intros diffs pointer diffs' H; [discriminate|].
  cbn [overlap_loop] in H.
  destruct (pointer <? alen diffs);
    [|injection H as <-; split; reflexivity].
  apply rbind_ret in H as ([po deletion] & Hprev & H).
  apply rbind_ret in H as ([co insertion] & Hcur & H).
  cbn [fst snd] in H.
  destruct (dop_eqb po DIFF_DELETE && dop_eqb co DIFF_INSERT) eqn:Hops;
    [|exact (IH _ _ _ H)].
  apply andb_true_iff in Hops as [Hpo Hco].
  apply dop_eqb_eq in Hpo, Hco. subst po co.
  destruct (at_two diffs pointer _ _ Hprev Hcur) as (P & R & -> & HP).
  apply rbind_ret in H as (k1 & Hk1 & H).
  apply rbind_ret in H as (k2 & Hk2 & H).
  apply commonOverlap_sound in Hk1 as (_ & _ & Hk1).
  apply commonOverlap_sound in Hk2 as (_ & _ & Hk2).
  destruct (k2 <=? k1).
  - destruct ((len deletion <=? 2 * k1) || (len insertion <=? 2 * k1));
      [|exact (IH _ _ _ H)].
    rewrite splice_put_1 in H by alia.
    rewrite set_text_app in H by alia. cbn [rbind fst] in H.
    rewrite set_text_2 in H by alia. cbn [rbind fst] in H.
    apply IH in H as [H1 H2]. rewrite H1, H2.
    rewrite !diff_text1_app, !diff_text2_app.
    rewrite !diff_text1_cons, !diff_text2_cons. cbn [fst snd dop_eqb app].
    rewrite <- Hk1 at 1.
    rewrite (List.app_assoc (substring deletion 0 _)), substring_split.
    rewrite (List.app_assoc (substring insertion 0 _)), substring_split.
    split; reflexivity.
  - destruct ((len deletion <=? 2 * k2) || (len insertion <=? 2 * k2));
      [|exact (IH _ _ _ H)].
    rewrite splice_put_1 in H by alia.
    rewrite set_at_app in H by alia.
    rewrite set_at_2 in H by alia.
    apply IH in H as [H1 H2]. rewrite H1, H2.
    rewrite !diff_text1_app, !diff_text2_app.
    rewrite !diff_text1_cons, !diff_text2_cons. cbn [fst snd dop_eqb app].
    rewrite <- Hk2 at 2.
    rewrite (List.app_assoc (substring deletion 0 _)), substring_split.
    rewrite (List.app_assoc (substring insertion 0 _)), substring_split.
    split; reflexivity.
Qed.

Lemma cleanupSemantic_texts fuel diffs diffs' :
  diff_cleanupSemantic fuel diffs = Ret diffs' ->
  diff_text1 diffs' = diff_text1 diffs /\ diff_text2 diffs' = diff_text2 diffs.
Proof.
  unfold diff_cleanupSemantic. intros H.
  apply rbind_ret in H as (st & Hloop & H).
  apply semantic_loop_texts in Hloop as [L1 L2];
    [|intros x Hx; discriminate Hx].
  cbn [ss_diffs] in L1, L2.
  apply rbind_ret in H as (d1 & Hmerge & H).
  apply rbind_ret in H as (d2 & Hless & H).
  apply overlap_loop_texts in H as [O1 O2].
  apply cleanupSemanticLossless_texts in Hless as [S1 S2].
  assert (diff_text1 d1 = diff_text1 (ss_diffs st) /\
          diff_text2 d1 = diff_text2 (ss_diffs st)) as [M1 M2].
  { destruct (ss_changes st).
    - exact (cleanupMerge_texts _ _ _ _ Hmerge).
    - injection Hmerge as <-. split; reflexivity. }
  split; congruence.
Qed.

Lemma lines_of_app la a b : lines_of la (a ++ b) = lines_of la a ++ lines_of la b.
Proof. unfold lines_of. rewrite map_app, concat_app. reflexivity. Qed.

Lemma lines_of_char la i line :
  0 <= i < 65536 -> la !! i = Some line ->
  lines_of la (fromCharCode i) = line.
Proof.
  intros Hi Hla. unfold lines_of, fromCharCode.
  rewrite Z.mod_small by lia. cbn [map concat].
  rewrite Z2N.id by lia.
  replace (la !! i) with (Some line) by (symmetry; exact Hla).
  cbn. apply List.app_nil_r.
Qed.

Lemma lineHash_has_ret h line known :
  lineHash_has h line = Ret known ->
  known = match h !! line with Some _ => true | None => false end.
Proof.
  unfold lineHash_has. destruct (h !! hasOwnProperty_name); [discriminate|].
  congruence.
Qed.

Lemma munge_lines fuel : forall text t chars t',
  tables_ok t -> lineArrayLength t + len text <= 65536 ->
  diff_linesToCharsMunge_ fuel text t = Ret (chars, t') ->
  tables_ok t' /\
  lineArrayLength t' <= lineArrayLength t + len text /\
  (forall i line, lineArray t !! i = Some line -> lineArray t' !! i = Some line) /\
  forall la,
    (forall i line, lineArray t' !! i = Some line -> la !! i = Some line) ->
    lines_of la chars = text.
Proof.
  induction fuel as [|fuel IH]; intros text t chars t' Hok Hsize H;
    [discriminate|].
  cbn [diff_linesToCharsMunge_] in H.
  destruct text as [|c0 text0] eqn:Etext.
  { cbn [is_empty] in H. injection H as <- <-.
    split; [exact Hok|]. split; [change (len []) with 0; lia|].
    split; [auto|]. intros la _. reflexivity. }
  rewrite <- Etext in *.
  replace (is_empty text) with false in H by (rewrite Etext; reflexivity).
  cbv zeta in H.
  assert (Hpos : 1 <= len text) by (rewrite Etext; unfold len; cbn; lia).
  set (lineEnd := if indexOf text [10%N] 0 =? -1 then len text - 1
                  else indexOf text [10%N] 0) in *.
  assert (HlineEnd : 0 <= lineEnd).
  { subst lineEnd. destruct (Z.eqb_spec (indexOf text [10%N] 0) (-1)); [lia|].
    destruct (indexOf_found text [10%N] 0 _ eq_refl n) as (pre & _ & _ & Hp & _).
    rewrite <- Hp. apply len_nonneg. }
  clearbody lineEnd.
  set (line := substring text 0 (lineEnd + 1)) in *.
  set (rest := substring_from text (lineEnd + 1)) in *.
  assert (Hsplit : line ++ rest = text) by apply substring_split.
  assert (Hline : 1 <= len line).
  { subst line. rewrite substring_0. unfold len, clamp.
    rewrite length_firstn. unfold len in *. lia. }
  assert (Hrest : len rest = len text - len line).
  { pose proof (f_equal len Hsplit) as Hl. rewrite len_app in Hl. lia. }
  clearbody line rest.
  apply rbind_ret in H as (known & Hknown & H).
  apply lineHash_has_ret in Hknown.
  apply rbind_ret in H as ([c t1] & Hc & H).
  apply rbind_ret in H as ([chars' t2] & Hrec & H).
  injection H as <- <-.
  destruct Hok as (Hlen & Hfree & Hhash).
  assert (Hstep : tables_ok t1 /\
                  lineArrayLength t1 <= lineArrayLength t + 1 /\
                  (forall i l, lineArray t !! i = Some l ->
                               lineArray t1 !! i = Some l) /\
                  exists i, c = fromCharCode i /\ 0 <= i < 65536 /\
                            lineArray t1 !! i = Some line).
  { destruct (lineHash t !! line) as [i|] eqn:Ei; subst known.
    - injection Hc as <- <-. destruct (Hhash _ _ Ei) as [Hi1 Hi2].
      split; [exact (conj Hlen (conj Hfree Hhash))|]. split; [lia|].
      split; [auto|]. exists i. split; [reflexivity|]. split; [lia|exact Hi1].
    - injection Hc as <- <-. unfold tables_ok.
      cbn [lineArray lineArrayLength lineHash].
      split; [|split; [lia|split]].
      + split; [lia|]. split.
        * intros i Hi. rewrite lookup_insert_ne by lia. apply Hfree. lia.
        * intros l i Hl. unfold lineHash_set in Hl.
          assert (Hcases : (l = line /\ i = lineArrayLength t)
                           \/ lineHash t !! l = Some i).
          { destruct (str_eqb line proto_name); [right; exact Hl|].
            destruct (decide (line = l)) as [->|Hne].
            - rewrite lookup_insert_eq in Hl. injection Hl as <-. left; auto.
            - rewrite lookup_insert_ne in Hl by exact Hne. right; exact Hl. }
          destruct Hcases as [[-> ->]|Hold].
          -- rewrite lookup_insert_eq. split; [reflexivity|lia].
          -- destruct (Hhash _ _ Hold) as [Ha Hb].
             rewrite lookup_insert_ne by lia. split; [exact Ha|lia].
      + intros i l Hl. rewrite lookup_insert_ne; [exact Hl|].
        intros <-. rewrite Hfree in Hl by lia. discriminate.
      + exists (lineArrayLength t). split; [reflexivity|].
        split; [unfold len in *; lia|]. apply lookup_insert_eq. }
  destruct Hstep as (Hok1 & Hlen1 & Hext1 & i & -> & Hi & Hi1).
  assert (Hsize1 : lineArrayLength t1 + len rest <= 65536) by lia.
  destruct (IH _ _ _ _ Hok1 Hsize1 Hrec) as (Hok2 & Hlen2 & Hext2 & Hdec).
  split; [exact Hok2|]. split; [lia|]. split; [auto|].
  intros la Hla. rewrite lines_of_app.
  rewrite (lines_of_char la i line Hi) by (apply Hla, Hext2, Hi1).
  rewrite (Hdec la Hla). exact Hsplit.
Qed.

Lemma linesToChars_lines fuel text1 text2 chars1 chars2 la :
  len text1 + len text2 < 65535 ->
  diff_linesToChars_ fuel text1 text2 = Ret (chars1, chars2, la) ->
  lines_of la chars1 = text1 /\ lines_of la chars2 = text2.
Proof.
  intros Hsize H. unfold diff_linesToChars_ in H. cbv zeta in H.
  apply rbind_ret in H as ([c1 t1] & H1 & H).
  apply rbind_ret in H as ([c2 t2] & H2 & H).
  injection H as <- <- <-.
  pose proof (len_nonneg text1). pose proof (len_nonneg text2).
  assert (Hok0 : tables_ok (LineTables {[0 := []]} 1 ∅)).
  { split; [cbn; lia|]. split.
    - intros i Hi. cbn in *. apply lookup_singleton_ne. lia.
    - intros line i Hl. cbn in Hl. rewrite lookup_empty in Hl. discriminate. }
  assert (Hsize0 : lineArrayLength (LineTables {[0 := []]} 1 ∅) + len text1
                   <= 65536) by (cbn [lineArrayLength]; lia).
  destruct (munge_lines _ _ _ _ _ Hok0 Hsize0 H1)
    as (Hok1 & Hlen1 & _ & Hdec1).
  cbn [lineArrayLength] in Hlen1.
  assert (Hsize1 : lineArrayLength t1 + len text2 <= 65536) by lia.
  destruct (munge_lines _ _ _ _ _ Hok1 Hsize1 H2)
    as (_ & _ & Hext2 & Hdec2).
  split; [apply Hdec1; exact Hext2|apply Hdec2; auto].
Qed.

Lemma charsToLines_text1 la diffs :
  diff_text1 (diff_charsToLines_ diffs la) = lines_of la (diff_text1 diffs).
Proof.
  induction diffs as [|[o t] diffs IH]; [reflexivity|].
  cbn [diff_charsToLines_ map]. rewrite !diff_text1_cons. cbn [fst snd].
  rewrite lines_of_app. fold (diff_charsToLines_ diffs la). rewrite IH.
  destruct o; reflexivity.
Qed.

Lemma charsToLines_text2 la diffs :
  diff_text2 (diff_charsToLines_ diffs la) = lines_of la (diff_text2 diffs).
Proof.
  induction diffs as [|[o t] diffs IH]; [reflexivity|].
  cbn [diff_charsToLines_ map]. rewrite !diff_text2_cons. cbn [fst snd].
  rewrite lines_of_app. fold (diff_charsToLines_ diffs la). rewrite IH.
  destruct o; reflexivity.
Qed.

Lemma same_last {A} (l l' : list A) d p body x :
  l ++ d :: p = body ++ [x] -> exists body', l' ++ d :: p = body' ++ [x].
Proof.
  intros H.
  destruct (exists_last (l := d :: p) ltac:(discriminate)) as (q & y & Hq).
  rewrite Hq in *. rewrite List.app_assoc in H.
  apply app_inj_tail in H as [_ ->].
  exists (l' ++ q). rewrite List.app_assoc. reflexivity.
Qed.

Lemma pop_last_texts body (o : dop) :
  let diffs := body ++ [(o, [])] in
  rebuilds (firstn (length diffs - 1) diffs) (diff_text1 diffs) (diff_text2 diffs).
Proof.
  cbv zeta. rewrite length_app. cbn [length].
  replace (length body + 1 - 1)%nat with (length body) by lia.
  rewrite firstn_app, firstn_all, Nat.sub_diag, firstn_O, List.app_nil_r.
  rewrite diff_text1_app, diff_text2_app.
  destruct o; cbn; rewrite !List.app_nil_r; split; reflexivity.
Qed.

Lemma lineMode_loop_texts dm deadline text1 text2 :
  rebuilding dm ->
  forall fuel st clk diffs clk',
    rediff_inv text1 text2 st ->
    lineMode_loop fuel dm deadline st clk = (Ret diffs, clk') ->
    rebuilds diffs text1 text2 /\ exists body, diffs = body ++ [(DIFF_EQUAL, [])].
Proof.
  intros Hdm. induction fuel as [|fuel IH]; intros st clk diffs clk' Hinv H;
    [discriminate|].
  cbn [lineMode_loop] in H. cbv zeta in H.
  destruct Hinv as (pre & run & post & Hd & Hp & Hrun & Hcd & Hci & Htd & Hti
                    & Hreb & Hlast).
  destruct (ms_pointer st <? alen (ms_diffs st)).
  2:{ apply mret_ret in H. subst diffs. split; assumption. }
  apply mbind_ret in H as ([o e] & c1 & Hat & H). apply lift_ret in Hat.
  cbn [fst snd] in H.
  pose proof Hat as Hat'. rewrite Hd, List.app_assoc in Hat'.
  apply at_app_ret in Hat' as (post' & ->); [|rewrite alen_app; exact Hp].
  destruct o.
  - (* a deletion *)
    apply IH in H; [exact H|].
    exists pre, (run ++ [(DIFF_DELETE, e)]), post'.
    cbn [ms_diffs ms_pointer ms_count_delete ms_count_insert ms_text_delete
         ms_text_insert].
    split; [rewrite Hd, <- !List.app_assoc; reflexivity|].
    split; [rewrite alen_app; alia|]. split; [rewrite alen_app; alia|].
    split; [lia|]. split; [lia|].
    rewrite diff_text1_app, diff_text2_app, Htd, Hti. cbn.
    rewrite !List.app_nil_r. repeat split; try apply Hreb. exact Hlast.
  - (* an insertion *)
    apply IH in H; [exact H|].
    exists pre, (run ++ [(DIFF_INSERT, e)]), post'.
    cbn [ms_diffs ms_pointer ms_count_delete ms_count_insert ms_text_delete
         ms_text_insert].
    split; [rewrite Hd, <- !List.app_assoc; reflexivity|].
    split; [rewrite alen_app; alia|]. split; [rewrite alen_app; alia|].
    split; [lia|]. split; [lia|].
    rewrite diff_text1_app, diff_text2_app, Htd, Hti. cbn.
    rewrite !List.app_nil_r. repeat split; try apply Hreb. exact Hlast.
  - (* an equality *)
    apply mbind_ret in H as ([diffs2 pointer2] & c2 & Hbody & H).
    apply IH in H; [exact H|]. clear IH H.
    assert (Hnew : exists pre2,
               diffs2 = pre2 ++ (DIFF_EQUAL, e) :: post' /\
               pointer2 = alen pre2 /\
               rebuilds diffs2 text1 text2).
    { destruct ((1 <=? ms_count_delete st) && (1 <=? ms_count_insert st)).
      - apply mbind_ret in Hbody as (a & c3 & Ha & Hbody).
        apply mret_ret in Hbody. injection Hbody as -> ->.
        apply Hdm in Ha; [|left; left; reflexivity]. destruct Ha as [A1 A2].
        rewrite Hd.
        rewrite (splice_app pre run _ []) by alia. cbn [app].
        change (pre ++ (DIFF_EQUAL, e) :: post')
          with (pre ++ [] ++ (DIFF_EQUAL, e) :: post').
        rewrite (splice_app pre [] _ a) by first [reflexivity | alia].
        exists (pre ++ a). rewrite <- List.app_assoc.
        split; [reflexivity|]. split; [rewrite alen_app; alia|].
        destruct Hreb as [R1 R2]. rewrite Hd in R1, R2.
        rewrite !diff_text1_app in R1. rewrite !diff_text2_app in R2.
        split.
        + rewrite !diff_text1_app, A1, Htd. exact R1.
        + rewrite !diff_text2_app, A2, Hti. exact R2.
      - apply mret_ret in Hbody. injection Hbody as -> ->.
        exists (pre ++ run). rewrite Hd, <- List.app_assoc.
        split; [reflexivity|]. split; [rewrite alen_app; alia|].
        rewrite <- Hd. exact Hreb. }
    destruct Hnew as (pre2 & -> & -> & Hreb2).
    exists (pre2 ++ [(DIFF_EQUAL, e)]), [], post'.
    cbn [ms_diffs ms_pointer ms_count_delete ms_count_insert ms_text_delete
         ms_text_insert].
    split; [rewrite <- List.app_assoc; reflexivity|].
    split; [rewrite alen_app; alia|].
    repeat (split; [first [reflexivity | lia | exact Hreb2]|]).
    destruct Hlast as [body Hlast]. rewrite Hd, List.app_assoc in Hlast.
    exact (same_last _ pre2 _ _ _ _ Hlast).
Qed.

Lemma lineMode_rebuilds dm n text1 text2 deadline clk diffs clk' :
  rebuilding dm -> len text1 + len text2 < 65535 ->
  diff_lineMode_ dm n text1 text2 deadline clk = (Ret diffs, clk') ->
  rebuilds diffs text1 text2.
Proof.
  intros Hdm Hsize H. unfold diff_lineMode_ in H.
  apply mbind_ret in H as ([[chars1 chars2] la] & c1 & Hl & H).
  apply lift_ret in Hl.
  apply (linesToChars_lines _ _ _ _ _ _ Hsize) in Hl as [L1 L2].
  apply mbind_ret in H as (d1 & c2 & Hb & H).
  apply bisect_rebuilds in Hb as [B1 B2]; [|exact Hdm].
  cbv zeta in H.
  apply mbind_ret in H as (d2 & c3 & Hs & H). apply lift_ret in Hs.
  apply cleanupSemantic_texts in Hs as [S1 S2].
  rewrite charsToLines_text1, B1, L1 in S1.
  rewrite charsToLines_text2, B2, L2 in S2.
  apply mbind_ret in H as (d3 & c4 & Hloop & H).
  apply mret_ret in H. subst diffs.
  apply (lineMode_loop_texts dm deadline text1 text2 Hdm) in Hloop.
  - destruct Hloop as [[R1 R2] [body ->]].
    rewrite <- R1, <- R2. apply pop_last_texts.
  - exists [], [], (d2 ++ [(DIFF_EQUAL, [])]).
    cbn [ms_diffs ms_pointer ms_count_delete ms_count_insert ms_text_delete
         ms_text_insert app].
    repeat (split; [first [reflexivity | lia]|]).
    split; [|exists d2; reflexivity].
    split.
    + rewrite diff_text1_app, diff_text1_equal, List.app_nil_r. exact S1.
    + rewrite diff_text2_app, diff_text2_equal, List.app_nil_r. exact S2.
Qed.

(** *** The whole diff *)

Lemma is_empty_nil s : is_empty s = true -> s = [].
Proof. destruct s; [reflexivity|discriminate]. Qed.

Lemma compute_rebuilds dm n text1 text2 checklines deadline clk diffs clk' :
  rebuilding dm -> lines_fit checklines text1 text2 ->
  diff_compute_ dm n text1 text2 checklines deadline clk = (Ret diffs, clk') ->
  rebuilds diffs text1 text2.
Proof.
  intros Hdm Hoff H. unfold diff_compute_ in H.
  destruct (is_empty text1) eqn:E1.
  { apply is_empty_nil in E1. apply mret_ret in H. subst.
    split; cbn; rewrite ?List.app_nil_r; reflexivity. }
  destruct (is_empty text2) eqn:E2.
  { apply is_empty_nil in E2. apply mret_ret in H. subst.
    split; cbn; rewrite ?List.app_nil_r; reflexivity. }
  cbv zeta in H.
  set (longtext := if len text2 <? len text1 then text1 else text2) in *.
  set (shorttext := if len text2 <? len text1 then text2 else text1) in *.
  destruct (Z.eqb_spec (indexOf longtext shorttext 0) (-1)) as [Hi|Hi];
    cbn [negb] in H.
  - destruct (len shorttext =? 1).
    { apply mret_ret in H. subst diffs. apply rebuilds_delete_insert. }
    apply mbind_ret in H as (hm & c1 & Hhm & H).
    apply lift_ret in Hhm.
    destruct hm as [hm|].
    + apply halfMatch_sound in Hhm as (H1 & H2 & _).
      apply mbind_ret in H as (da & c2 & Ha & H).
      apply mbind_ret in H as (db & c3 & Hb & H).
      apply mret_ret in H. subst diffs.
      assert (L1 : len text1 = len (hm0 hm) + len (hm4 hm) + len (hm1 hm))
        by (rewrite H1 at 1; rewrite !len_app; lia).
      assert (L2 : len text2 = len (hm2 hm) + len (hm4 hm) + len (hm3 hm))
        by (rewrite H2 at 1; rewrite !len_app; lia).
      pose proof (len_nonneg (hm0 hm)). pose proof (len_nonneg (hm1 hm)).
      pose proof (len_nonneg (hm2 hm)). pose proof (len_nonneg (hm3 hm)).
      pose proof (len_nonneg (hm4 hm)).
      apply Hdm in Ha; [|apply (lines_fit_shorter _ _ _ _ _ Hoff); lia].
      apply Hdm in Hb; [|apply (lines_fit_shorter _ _ _ _ _ Hoff); lia].
      rewrite H1, H2.
      apply rebuilds_app; [exact Ha|]. apply rebuilds_app; [|exact Hb].
      split; cbn; rewrite List.app_nil_r; reflexivity.
    + destruct (checklines && (100 <? len text1) && (100 <? len text2))
        eqn:Hlines.
      * apply andb_prop in Hlines as [Hlines L2].
        apply andb_prop in Hlines as [-> L1].
        apply Z.ltb_lt in L1, L2.
        destruct Hoff as [[Hoff|[Hoff|Hoff]]|Hfit];
          [discriminate|lia|lia|].
        exact (lineMode_rebuilds _ _ _ _ _ _ _ _ Hdm Hfit H).
      * exact (bisect_rebuilds _ _ _ _ _ _ _ _ Hdm H).
  - apply mret_ret in H. subst diffs.
    destruct (indexOf_found longtext shorttext 0 _ eq_refl Hi)
      as (pre & post & HL & Hpre & _).
    set (i := indexOf longtext shorttext 0) in *. clearbody i.
    assert (Hpre' : substring longtext 0 i = pre).
    { rewrite HL, <- Hpre.
      rewrite substring_0_inside
        by (rewrite len_app; pose proof (len_nonneg pre);
            pose proof (len_nonneg (shorttext ++ post)); lia).
      unfold len. rewrite Nat2Z.id. apply take_app_length. }
    assert (Hpost : substring_from longtext (i + len shorttext) = post).
    { rewrite HL at 1. rewrite <- Hpre.
      rewrite substring_from_inside
        by (rewrite !len_app; pose proof (len_nonneg pre);
            pose proof (len_nonneg shorttext); pose proof (len_nonneg post);
            lia).
      rewrite List.app_assoc. unfold len.
      replace (Z.to_nat (Z.of_nat (length pre) + Z.of_nat (length shorttext)))
        with (length (pre ++ shorttext)) by (rewrite length_app; lia).
      apply drop_app_length. }
    rewrite Hpre', Hpost. subst longtext shorttext.
    destruct (len text2 <? len text1);
      split; cbn; rewrite ?List.app_nil_r;
      first [reflexivity | symmetry; exact HL].
Qed.

Lemma main_rec_rebuilds n fuel : rebuilding (diff_main_rec fuel n).
Proof.
  induction fuel as [|fuel IH];
    intros text1 text2 checklines deadline clk diffs clk' Hoff H;
    [discriminate|].
  cbn [diff_main_rec] in H.
  destruct (str_eqb text1 text2) eqn:Heq.
  { apply str_eqb_eq in Heq. subst text2.
    destruct text1 as [|c t]; cbn [is_empty negb] in H;
      apply mret_ret in H; subst diffs;
      split; cbn; rewrite ?List.app_nil_r; reflexivity. }
  apply mbind_ret in H as (c1 & k1 & Hc1 & H). apply lift_ret in Hc1.
  cbv zeta in H.
  apply mbind_ret in H as (c2 & k2 & Hc2 & H). apply lift_ret in Hc2.
  apply mbind_ret in H as (mid & k3 & Hmid & H). apply lift_ret in H.
  apply cleanupMerge_texts in H as [T1 T2].
  apply commonPrefix_sound in Hc1 as (_ & _ & Hc1).
  apply commonSuffix_sound in Hc2 as (_ & _ & Hc2).
  apply compute_rebuilds in Hmid as [M1 M2]; [|exact IH|].
  2:{ apply (lines_fit_shorter _ _ _ _ _ Hoff).
      - etransitivity; [apply len_substring_0|apply len_substring_from].
      - etransitivity; [apply len_substring_0|apply len_substring_from]. }
  set (t1 := substring_from text1 c1) in *.
  set (t2 := substring_from text2 c1) in *.
  set (cp := substring text1 0 c1) in *.
  set (cs := substring_from t1 (len t1 - c2)) in *.
  assert (E1 : text1 = cp ++ substring t1 0 (len t1 - c2) ++ cs).
  { subst cp cs t1. rewrite substring_split, substring_split. reflexivity. }
  assert (E2 : text2 = cp ++ substring t2 0 (len t2 - c2) ++ cs).
  { subst cp cs. rewrite Hc1, Hc2. subst t2.
    rewrite substring_split, substring_split. reflexivity. }
  assert (forall l, diff_text1 (if negb (is_empty cp)
                                then (DIFF_EQUAL, cp) :: l else l)
                    = cp ++ diff_text1 l) as P1.
  { intros l. destruct cp; reflexivity. }
  assert (forall l, diff_text2 (if negb (is_empty cp)
                                then (DIFF_EQUAL, cp) :: l else l)
                    = cp ++ diff_text2 l) as P2.
  { intros l. destruct cp; reflexivity. }
  assert (forall l, diff_text1 (if negb (is_empty cs)
                                then l ++ [(DIFF_EQUAL, cs)] else l)
                    = diff_text1 l ++ cs) as S1.
  { intros l. destruct cs; cbn [is_empty negb].
    - rewrite List.app_nil_r. reflexivity.
    - rewrite diff_text1_app, diff_text1_equal. reflexivity. }
  assert (forall l, diff_text2 (if negb (is_empty cs)
                                then l ++ [(DIFF_EQUAL, cs)] else l)
                    = diff_text2 l ++ cs) as S2.
  { intros l. destruct cs; cbn [is_empty negb].
    - rewrite List.app_nil_r. reflexivity.
    - rewrite diff_text2_app, diff_text2_equal. reflexivity. }
  split.
  - rewrite T1, S1, P1, M1, <- List.app_assoc. symmetry. exact E1.
  - rewrite T2, S2, P2, M2, <- List.app_assoc. symmetry. exact E2.
Qed.

(** X11: whenever [diff_cleanupMerge] returns, the diff it returns has the
    source text and the destination text of the diff it was given: merging,
    factoring and shifting the entries changes neither. *)
Theorem diff_cleanupMerge_texts fuel n diffs diffs' :
  diff_cleanupMerge fuel n diffs = Ret diffs' ->
  diff_text1 diffs' = diff_text1 diffs /\ diff_text2 diffs' = diff_text2 diffs.
Proof. apply cleanupMerge_texts. Qed.

(** A deletion and an insertion with a common start, two equalities in a
    row, an insertion that ends like the equality before it. *)
Lemma diff_cleanupMerge_texts_witness :
  diff_cleanupMerge 40 40
    [(DIFF_DELETE, js "ab"); (DIFF_INSERT, js "abc"); (DIFF_EQUAL, js "d");
     (DIFF_EQUAL, js "e"); (DIFF_INSERT, js "xe"); (DIFF_EQUAL, js "f")]
  = Ret [(DIFF_EQUAL, js "ab"); (DIFF_DELETE, []); (DIFF_INSERT, js "c");
         (DIFF_EQUAL, js "de"); (DIFF_INSERT, js "xe"); (DIFF_EQUAL, js "f")] /\
  diff_text1 [(DIFF_EQUAL, js "ab"); (DIFF_DELETE, []); (DIFF_INSERT, js "c");
              (DIFF_EQUAL, js "de"); (DIFF_INSERT, js "xe"); (DIFF_EQUAL, js "f")]
  = js "abdef" /\
  diff_text2 [(DIFF_EQUAL, js "ab"); (DIFF_DELETE, []); (DIFF_INSERT, js "c");
              (DIFF_EQUAL, js "de"); (DIFF_INSERT, js "xe"); (DIFF_EQUAL, js "f")]
  = js "abcdexef".
Proof.
  assert (diff_cleanupMerge 40 40
            [(DIFF_DELETE, js "ab"); (DIFF_INSERT, js "abc");
             (DIFF_EQUAL, js "d"); (DIFF_EQUAL, js "e");
             (DIFF_INSERT, js "xe"); (DIFF_EQUAL, js "f")]
          = Ret [(DIFF_EQUAL, js "ab"); (DIFF_DELETE, []);
                 (DIFF_INSERT, js "c"); (DIFF_EQUAL, js "de");
                 (DIFF_INSERT, js "xe"); (DIFF_EQUAL, js "f")]) as H
    by (vm_compute; reflexivity).
  split; [exact H|].
  exact (diff_cleanupMerge_texts _ _ _ _ H).
Defined.

(** X12: a half match that [diff_halfMatch_] returns splits both texts
    around the same middle, which is at least half as long as the longer
    text. *)
Theorem diff_halfMatch_splits n text1 text2 hm :
  diff_halfMatch_ n text1 text2 = Ret (Some hm) ->
  text1 = hm0 hm ++ hm4 hm ++ hm1 hm /\
  text2 = hm2 hm ++ hm4 hm ++ hm3 hm /\
  Z.max (len text1) (len text2) <= len (hm4 hm) * 2.
Proof. apply halfMatch_sound. Qed.

Lemma diff_halfMatch_splits_witness :
  diff_halfMatch_ 40 (js "1234567890") (js "a345678z")
  = Ret (Some (HalfMatch (js "12") (js "90") (js "a") (js "z") (js "345678"))) /\
  js "1234567890" = js "12" ++ js "345678" ++ js "90" /\
  js "a345678z" = js "a" ++ js "345678" ++ js "z" /\
  Z.max (len (js "1234567890")) (len (js "a345678z")) <= len (js "345678") * 2.
Proof.
  assert (diff_halfMatch_ 40 (js "1234567890") (js "a345678z")
          = Ret (Some (HalfMatch (js "12") (js "90") (js "a") (js "z")
                                 (js "345678")))) as H
    by (vm_compute; reflexivity).
  split; [exact H|].
  exact (diff_halfMatch_splits _ _ _ _ H).
Defined.

(** X13: whenever [diff_main] returns a diff, the diff rebuilds the two
    texts: [diff_text1] of it is [text1] and [diff_text2] of it is [text2].
    This holds when the line-by-line pass is not taken (it is switched off,
    or one of the texts has at most 100 characters), and when the two texts
    have fewer than 65535 characters together, so that every line gets a
    code unit of its own. *)
Theorem diff_main_rebuilds fuel text1 text2 opt_checklines opt_deadline clk
    diffs clk' :
  lines_fit (default true opt_checklines) text1 text2 ->
  diff_main fuel text1 text2 opt_checklines opt_deadline clk
  = (Ret diffs, clk') ->
  diff_text1 diffs = text1 /\ diff_text2 diffs = text2.
Proof.
  intros Hoff H. unfold diff_main in H.
  apply mbind_ret in H as (deadline & c1 & _ & H). cbv zeta in H.
  exact (main_rec_rebuilds fuel fuel _ _ _ _ _ _ _ Hoff H).
Qed.

(** Two texts that go through the line-by-line pass. *)
Lemma diff_main_rebuilds_witness :
  100 < len report_before /\ 100 < len report_after /\
  exists diffs,
    outcome (diff_main 400 report_before report_after None None) = Ret diffs /\
    alen diffs = 28 /\
    diff_text1 diffs = report_before /\ diff_text2 diffs = report_after.
Proof.
  split; [reflexivity|]. split; [reflexivity|].
  let r := eval vm_compute in
           (diff_main 400 report_before report_after None None still) in
  match r with
  | (Ret ?d, ?c') =>
    assert (diff_main 400 report_before report_after None None still
            = (Ret d, c')) as H by (vm_compute; reflexivity);
    exists d
  end.
  split; [unfold outcome; rewrite H; reflexivity|].
  split; [reflexivity|].
  refine (diff_main_rebuilds _ _ _ _ _ _ _ _ _ H).
  right. reflexivity.
Defined.

(** ** The cleanup passes keep the texts *)

(** X17: whenever [diff_cleanupEfficiency] returns, the diff it returns has
    the source text and the destination text of the diff it was given:
    turning short equalities into edits changes neither. *)
Theorem diff_cleanupEfficiency_texts fuel diffs diffs' :
  diff_cleanupEfficiency fuel diffs = Ret diffs' ->
  diff_text1 diffs' = diff_text1 diffs /\ diff_text2 diffs' = diff_text2 diffs.
Proof. apply cleanupEfficiency_texts. Qed.

(** An equality of three characters between four edits. *)
Lemma diff_cleanupEfficiency_texts_witness :
  diff_cleanupEfficiency 40
    [(DIFF_DELETE, js "ab"); (DIFF_INSERT, js "12"); (DIFF_EQUAL, js "xyz");
     (DIFF_DELETE, js "cd"); (DIFF_INSERT, js "34")]
  = Ret [(DIFF_DELETE, js "abxyzcd"); (DIFF_INSERT, js "12xyz34")] /\
  diff_text1 [(DIFF_DELETE, js "abxyzcd"); (DIFF_INSERT, js "12xyz34")]
  = js "abxyzcd" /\
  diff_text2 [(DIFF_DELETE, js "abxyzcd"); (DIFF_INSERT, js "12xyz34")]
  = js "12xyz34".
Proof.
  assert (diff_cleanupEfficiency 40
            [(DIFF_DELETE, js "ab"); (DIFF_INSERT, js "12");
             (DIFF_EQUAL, js "xyz"); (DIFF_DELETE, js "cd");
             (DIFF_INSERT, js "34")]
          = Ret [(DIFF_DELETE, js "abxyzcd"); (DIFF_INSERT, js "12xyz34")])
    as H by (vm_compute; reflexivity).
  split; [exact H|].
  exact (diff_cleanupEfficiency_texts _ _ _ H).
Defined.

(** X18: whenever [diff_cleanupSemanticLossless] returns, the diff it
    returns has the source text and the destination text of the diff it was
    given: sliding an edit sideways changes neither. *)
Theorem diff_cleanupSemanticLossless_texts fuel diffs diffs' :
  diff_cleanupSemanticLossless fuel diffs = Ret diffs' ->
  diff_text1 diffs' = diff_text1 diffs /\ diff_text2 diffs' = diff_text2 diffs.
Proof. apply cleanupSemanticLossless_texts. Qed.

(** An insertion slid to a word boundary. *)
Lemma diff_cleanupSemanticLossless_texts_witness :
  diff_cleanupSemanticLossless 40
    [(DIFF_EQUAL, js "The c"); (DIFF_INSERT, js "ow and the c");
     (DIFF_EQUAL, js "at.")]
  = Ret [(DIFF_EQUAL, js "The "); (DIFF_INSERT, js "cow and the ");
         (DIFF_EQUAL, js "cat.")] /\
  diff_text1 [(DIFF_EQUAL, js "The "); (DIFF_INSERT, js "cow and the ");
              (DIFF_EQUAL, js "cat.")]
  = js "The cat." /\
  diff_text2 [(DIFF_EQUAL, js "The "); (DIFF_INSERT, js "cow and the ");
              (DIFF_EQUAL, js "cat.")]
  = js "The cow and the cat.".
Proof.
  assert (diff_cleanupSemanticLossless 40
            [(DIFF_EQUAL, js "The c"); (DIFF_INSERT, js "ow and the c");
             (DIFF_EQUAL, js "at.")]
          = Ret [(DIFF_EQUAL, js "The "); (DIFF_INSERT, js "cow and the ");
                 (DIFF_EQUAL, js "cat.")])
    as H by (vm_compute; reflexivity).
  split; [exact H|].
  exact (diff_cleanupSemanticLossless_texts _ _ _ H).
Defined.

(** X19: whenever [diff_cleanupSemantic] returns, the diff it returns has
    the source text and the destination text of the diff it was given:
    neither eliminating the small equalities, nor the merge and the slide
    that follow, nor taking the overlap out of a deletion and an insertion
    changes them. *)
Theorem diff_cleanupSemantic_texts fuel diffs diffs' :
  diff_cleanupSemantic fuel diffs = Ret diffs' ->
  diff_text1 diffs' = diff_text1 diffs /\ diff_text2 diffs' = diff_text2 diffs.
Proof. apply cleanupSemantic_texts. Qed.

(** A deletion that ends as the insertion begins. *)
Lemma diff_cleanupSemantic_texts_witness :
  diff_cleanupSemantic 40 [(DIFF_DELETE, js "abcxxx"); (DIFF_INSERT, js "xxxdef")]
  = Ret [(DIFF_DELETE, js "abc"); (DIFF_EQUAL, js "xxx"); (DIFF_INSERT, js "def")] /\
  diff_text1 [(DIFF_DELETE, js "abc"); (DIFF_EQUAL, js "xxx");
              (DIFF_INSERT, js "def")]
  = js "abcxxx" /\
  diff_text2 [(DIFF_DELETE, js "abc"); (DIFF_EQUAL, js "xxx");
              (DIFF_INSERT, js "def")]
  = js "xxxdef".
Proof.
  assert (diff_cleanupSemantic 40
            [(DIFF_DELETE, js "abcxxx"); (DIFF_INSERT, js "xxxdef")]
          = Ret [(DIFF_DELETE, js "abc"); (DIFF_EQUAL, js "xxx");
                 (DIFF_INSERT, js "def")])
    as H by (vm_compute; reflexivity).
  split; [exact H|].
  exact (diff_cleanupSemantic_texts _ _ _ H).
Defined.

(** X20: the number that [diff_commonOverlap_] returns is the length of the
    longest end of [text1] that is a start of [text2]: the two pieces of
    that length are equal, and no longer pieces are. *)
Theorem diff_commonOverlap_longest fuel text1 text2 k :
  diff_commonOverlap_ fuel text1 text2 = Ret k ->
  overlap text1 text2 k /\ forall m, overlap text1 text2 m -> m <= k.
Proof.
  intros H. split.
  - exact (commonOverlap_sound _ _ _ _ H).
  - exact (commonOverlap_longest _ _ _ _ H).
Qed.

Lemma diff_commonOverlap_longest_witness :
  diff_commonOverlap_ 40 (js "123456xxx") (js "xxxabcd") = Ret 3 /\
  overlap (js "123456xxx") (js "xxxabcd") 3 /\
  forall m, overlap (js "123456xxx") (js "xxxabcd") m -> m <= 3.
Proof.
  assert (diff_commonOverlap_ 40 (js "123456xxx") (js "xxxabcd") = Ret 3)
    as H by (vm_compute; reflexivity).
  split; [exact H|].
  exact (diff_commonOverlap_longest _ _ _ _ H).
Defined.

(** X21: the lines of two texts, encoded by [diff_linesToChars_] and decoded
    by [diff_charsToLines_] with the array of lines that came with them, are
    the two texts again, when the texts have fewer than 65535 characters
    together. *)
Theorem diff_linesToChars_charsToLines fuel text1 text2 chars1 chars2
    lineArray :
  len text1 + len text2 < 65535 ->
  diff_linesToChars_ fuel text1 text2 = Ret (chars1, chars2, lineArray) ->
  diff_charsToLines_ [(DIFF_DELETE, chars1); (DIFF_INSERT, chars2)] lineArray
  = [(DIFF_DELETE, text1); (DIFF_INSERT, text2)].
Proof.
  intros Hsize H.
  destruct (linesToChars_lines _ _ _ _ _ _ Hsize H) as [H1 H2].
  unfold diff_charsToLines_. cbn [map fst snd].
  fold (lines_of lineArray chars1). fold (lines_of lineArray chars2).
  rewrite H1, H2. reflexivity.
Qed.

(** Three lines against three, two of them shared and one without its end
    of line. *)
Lemma diff_linesToChars_charsToLines_witness :
  exists chars1 chars2 lineArray,
    diff_linesToChars_ 40
      (js "alpha" ++ [10%N] ++ js "beta" ++ [10%N] ++ js "alpha" ++ [10%N])
      (js "beta" ++ [10%N] ++ js "alpha" ++ [10%N] ++ js "beta")
    = Ret (chars1, chars2, lineArray) /\
    chars1 = [1%N; 2%N; 1%N] /\ chars2 = [2%N; 1%N; 3%N] /\
    diff_charsToLines_ [(DIFF_DELETE, chars1); (DIFF_INSERT, chars2)] lineArray
    = [(DIFF_DELETE,
        js "alpha" ++ [10%N] ++ js "beta" ++ [10%N] ++ js "alpha" ++ [10%N]);
       (DIFF_INSERT,
        js "beta" ++ [10%N] ++ js "alpha" ++ [10%N] ++ js "beta")].
Proof.
  let r := eval vm_compute in
           (diff_linesToChars_ 40
              (js "alpha" ++ [10%N] ++ js "beta" ++ [10%N] ++ js "alpha"
               ++ [10%N])
              (js "beta" ++ [10%N] ++ js "alpha" ++ [10%N] ++ js "beta")) in
  match r with
  | Ret (?c1, ?c2, ?la) =>
    assert (diff_linesToChars_ 40
              (js "alpha" ++ [10%N] ++ js "beta" ++ [10%N] ++ js "alpha"
               ++ [10%N])
              (js "beta" ++ [10%N] ++ js "alpha" ++ [10%N] ++ js "beta")
            = Ret (c1, c2, la)) as H by (vm_compute; reflexivity);
    exists c1, c2, la
  end.
  split; [exact H|]. split; [reflexivity|]. split; [reflexivity|].
  refine (diff_linesToChars_charsToLines _ _ _ _ _ _ _ H). reflexivity.
Defined.

(** ** The diff of two objects, applied *)

(** *** Objects in enumeration order *)

Lemma equals_obj pa pb :
  equals (VObj pa) (VObj pb)
  = let! r := object_equals_a pb pa in
    if negb r then Ret false else object_equals_b pa pb.
Proof. reflexivity. Qed.

Lemma equals_arr la lb :
  equals (VArr la) (VArr lb)
  = if negb (alen la =? alen lb) then Ret false else list_equals la lb.
Proof. reflexivity. Qed.

Lemma deepCopy_arr l :
  deepCopy (VArr l) = let! out := copy_list l in Ret (VArr out).
Proof. reflexivity. Qed.

Lemma deepCopy_obj props :
  deepCopy (VObj props) = let! out := copy_object props [] in Ret (VObj out).
Proof. reflexivity. Qed.

Lemma object_equals_a_cons pb key x l :
  object_equals_a pb ((key, x) :: l)
  = let! present := has_in key pb in
    if negb present then Ret false
    else
      let! e := equals x (default VUndefined (lookup key pb)) in
      if negb e then Ret false else object_equals_a pb l.
Proof. reflexivity. Qed.

Lemma object_equals_b_cons pa key (x : Value) l :
  object_equals_b pa ((key, x) :: l)
  = let! present := has_in key pa in
    if negb present then Ret false else object_equals_b pa l.
Proof. reflexivity. Qed.

Lemma apply_diff_obj fuel diffs s :
  apply_diff fuel (OpObj diffs) s
  = do! patched := lift (deepCopy s) in apply_each fuel diffs patched.
Proof. reflexivity. Qed.

(** *** Keys *)

Lemma lookup_none_keys {A} k (l : list (jsstring * A)) :
  lookup k l = None <-> existsb (str_eqb k) (map fst l) = false.
Proof.
  induction l as [|[k' v] l IH]; cbn; [tauto|].
  destruct (str_eqb k k'); cbn; [split; discriminate|exact IH].
Qed.

Lemma unique_keys_cons {A} k (v : A) l :
  unique_keys ((k, v) :: l) = true <-> lookup k l = None /\ unique_keys l = true.
Proof.
  cbn [unique_keys]. rewrite andb_true_iff, negb_true_iff, lookup_none_keys.
  tauto.
Qed.

Lemma str_eqb_sym a b : str_eqb a b = str_eqb b a.
Proof.
  destruct (str_eqb a b) eqn:E.
  - apply str_eqb_eq in E. subst. symmetry. apply str_eqb_refl.
  - destruct (str_eqb b a) eqn:E'; [|reflexivity].
    apply str_eqb_eq in E'. subst. rewrite str_eqb_refl in E. discriminate.
Qed.

Lemma lookup_eq_key {A} k k' (l : list (jsstring * A)) :
  str_eqb k k' = true -> lookup k l = lookup k' l.
Proof. intros H. apply str_eqb_eq in H. subst. reflexivity. Qed.

(** An entry of a list with unique keys is what its key looks up. *)
Lemma In_lookup {A} k (x : A) l :
  unique_keys l = true -> In (k, x) l -> lookup k l = Some x.
Proof.
  induction l as [|[k' v] l IH]; intros Hu Hin; [destruct Hin|].
  apply unique_keys_cons in Hu as [Hk Hu].
  cbn [lookup]. destruct Hin as [[= -> ->]|Hin].
  - rewrite str_eqb_refl. reflexivity.
  - destruct (str_eqb k k') eqn:E; [|exact (IH Hu Hin)].
    apply str_eqb_eq in E. subst k'. rewrite (IH Hu Hin) in Hk. discriminate.
Qed.

Lemma lookup_remove_eq {A} k (l : list (jsstring * A)) :
  unique_keys l = true -> lookup k (remove k l) = None.
Proof.
  induction l as [|[k' v] l IH]; intros Hu; [reflexivity|].
  apply unique_keys_cons in Hu as [Hk Hu]. cbn [remove].
  destruct (str_eqb k k') eqn:E.
  - apply str_eqb_eq in E. subst. exact Hk.
  - cbn [lookup]. rewrite E. exact (IH Hu).
Qed.

Lemma lookup_remove {A} k k' (l : list (jsstring * A)) :
  unique_keys l = true ->
  lookup k' (remove k l) = if str_eqb k' k then None else lookup k' l.
Proof.
  intros Hu. destruct (str_eqb k' k) eqn:E.
  - apply str_eqb_eq in E. subst. apply lookup_remove_eq, Hu.
  - apply lookup_remove_ne, E.
Qed.

Lemma unique_remove {A} k (l : list (jsstring * A)) :
  unique_keys l = true -> unique_keys (remove k l) = true.
Proof.
  induction l as [|[k' v] l IH]; intros Hu; [reflexivity|].
  apply unique_keys_cons in Hu as [Hk Hu]. cbn [remove].
  destruct (str_eqb k k') eqn:E; [exact Hu|].
  apply unique_keys_cons. split; [|exact (IH Hu)].
  rewrite lookup_remove_ne; [exact Hk|]. rewrite str_eqb_sym. exact E.
Qed.

Lemma unique_replace_prop {A} k (v : A) l :
  unique_keys l = true -> unique_keys (replace_prop k v l) = true.
Proof.
  induction l as [|[k' v'] l IH]; intros Hu; [reflexivity|].
  apply unique_keys_cons in Hu as [Hk Hu]. cbn [replace_prop].
  destruct (str_eqb k k') eqn:E.
  - apply unique_keys_cons. split; assumption.
  - apply unique_keys_cons. split; [|exact (IH Hu)].
    rewrite lookup_replace_prop_ne; [exact Hk|].
    rewrite str_eqb_sym. exact E.
Qed.

Lemma unique_insert_index {A} n k (v : A) l :
  lookup k l = None -> unique_keys l = true ->
  unique_keys (insert_index n k v l) = true.
Proof.
  induction l as [|[k' v'] l IH]; intros Hk Hu; [reflexivity|].
  cbn [insert_index].
  assert (Hnew : unique_keys ((k, v) :: (k', v') :: l) = true)
    by (apply unique_keys_cons; split; assumption).
  destruct (array_index k') as [n'|]; [|exact Hnew].
  destruct (n <? n'); [exact Hnew|].
  cbn [lookup] in Hk. destruct (str_eqb k k') eqn:E; [discriminate|].
  apply unique_keys_cons in Hu as [Hk' Hu].
  apply unique_keys_cons. split; [|exact (IH Hk Hu)].
  rewrite lookup_insert_index by exact Hk.
  rewrite str_eqb_sym, E. exact Hk'.
Qed.

Lemma unique_app {A} k (v : A) l :
  lookup k l = None -> unique_keys l = true ->
  unique_keys (l ++ [(k, v)]) = true.
Proof.
  induction l as [|[k' v'] l IH]; intros Hk Hu; [reflexivity|].
  cbn [lookup] in Hk. destruct (str_eqb k k') eqn:E; [discriminate|].
  apply unique_keys_cons in Hu as [Hk' Hu]. cbn [app].
  apply unique_keys_cons. split; [|exact (IH Hk Hu)].
  rewrite lookup_app_prop by exact Hk. rewrite str_eqb_sym, E. exact Hk'.
Qed.

Lemma unique_set_prop {A} k (v : A) l l' :
  unique_keys l = true -> set_prop k v l = Ret l' -> unique_keys l' = true.
Proof.
  intros Hu H. unfold set_prop in H.
  destruct (str_eqb k proto_name); [discriminate|].
  destruct (lookup k l) eqn:E.
  - injection H as <-. apply unique_replace_prop, Hu.
  - destruct (array_index k); injection H as <-.
    + apply unique_insert_index; assumption.
    + apply unique_app; assumption.
Qed.

Lemma proto_member_proto_name k :
  proto_member k = false -> str_eqb k proto_name = false.
Proof.
  unfold proto_member, proto_members. cbn [existsb].
  intros H. repeat (apply orb_false_iff in H as [? H]).
  assumption.
Qed.

(** *** Copies of plain values *)

Lemma indices_first_bound ks1 : forall lo k n ks2,
  indices_first lo (ks1 ++ k :: ks2) = true -> array_index k = Some n ->
  lo < n.
Proof.
  induction ks1 as [|k1 ks1 IH]; intros lo k n ks2 H Hk.
  - cbn in H. rewrite Hk in H. apply andb_true_iff in H as [H _].
    apply Z.ltb_lt in H. exact H.
  - cbn [app indices_first] in H. destruct (array_index k1) as [n1|].
    + apply andb_true_iff in H as [H1 H]. apply Z.ltb_lt in H1.
      specialize (IH _ _ _ _ H Hk). lia.
    + rewrite forallb_app in H. apply andb_true_iff in H as [_ H].
      cbn in H. unfold is_name in H at 1. rewrite Hk in H. discriminate.
Qed.

Lemma indices_before ks1 : forall lo k n ks2,
  indices_first lo (ks1 ++ k :: ks2) = true -> array_index k = Some n ->
  Forall (fun k' => exists n', array_index k' = Some n' /\ n' < n) ks1.
Proof.
  induction ks1 as [|k1 ks1 IH]; intros lo k n ks2 H Hk; [constructor|].
  cbn [app indices_first] in H. destruct (array_index k1) as [n1|] eqn:E1.
  - apply andb_true_iff in H as [_ H]. constructor.
    + exists n1. split; [exact E1|]. exact (indices_first_bound _ _ _ _ _ H Hk).
    + exact (IH _ _ _ _ H Hk).
  - rewrite forallb_app in H. apply andb_true_iff in H as [_ H].
    cbn in H. unfold is_name in H at 1. rewrite Hk in H. discriminate.
Qed.

Lemma insert_index_last {A} n k (v : A) l :
  Forall (fun k' => exists n', array_index k' = Some n' /\ n' < n) (map fst l) ->
  insert_index n k v l = l ++ [(k, v)].
Proof.
  induction l as [|[k' v'] l IH]; intros H; [reflexivity|].
  cbn [map fst] in H. apply Forall_cons in H as [(n' & Hn' & Hlt) H].
  cbn [insert_index]. rewrite Hn'.
  destruct (Z.ltb_spec n n'); [lia|]. rewrite IH by exact H. reflexivity.
Qed.

Lemma unique_keys_app_cons {A} (out : list (jsstring * A)) k v l :
  unique_keys (out ++ (k, v) :: l) = true -> lookup k out = None.
Proof.
  induction out as [|[k' v'] out IH]; intros H; [reflexivity|].
  cbn [app] in H. apply unique_keys_cons in H as [Hk' H].
  cbn [lookup]. destruct (str_eqb k k') eqn:E; [|exact (IH H)].
  apply str_eqb_eq in E. subst k'.
  apply lookup_none_keys in Hk'. rewrite map_app, existsb_app in Hk'.
  cbn in Hk'. rewrite str_eqb_refl, orb_true_r in Hk'. discriminate.
Qed.

(** A property that comes next in enumeration order is added at the end. *)
Lemma set_prop_next {A} (out : list (jsstring * A)) k v l :
  enumeration_order (out ++ (k, v) :: l) = true ->
  set_prop k v out = Ret (out ++ [(k, v)]).
Proof.
  unfold enumeration_order. intros H.
  apply andb_true_iff in H as [H Hproto].
  apply andb_true_iff in H as [Hord Huniq].
  rewrite forallb_app in Hproto. apply andb_true_iff in Hproto as [_ Hproto].
  cbn [forallb fst] in Hproto. apply andb_true_iff in Hproto as [Hproto _].
  apply negb_true_iff in Hproto.
  unfold set_prop. rewrite (proto_member_proto_name _ Hproto).
  rewrite (unique_keys_app_cons _ _ _ _ Huniq).
  destruct (array_index k) as [n|] eqn:E; [|reflexivity].
  rewrite map_app in Hord. cbn [map fst] in Hord.
  rewrite insert_index_last; [reflexivity|].
  exact (indices_before _ _ _ _ _ Hord E).
Qed.

Lemma copy_object_plain l : forall out,
  Forall (fun kv => plain (snd kv) = true -> deepCopy (snd kv) = Ret (snd kv)) l ->
  forallb (fun kv => plain (snd kv)) l = true ->
  enumeration_order (out ++ l) = true ->
  copy_object l out = Ret (out ++ l).
Proof.
  induction l as [|[i x] l IH]; intros out HIH Hplain Hord.
  - cbn. rewrite List.app_nil_r. reflexivity.
  - apply Forall_cons in HIH as [Hx HIH]. cbn [snd] in Hx.
    cbn [forallb snd] in Hplain. apply andb_true_iff in Hplain as [Px Hplain].
    cbn [copy_object]. rewrite (Hx Px). cbn [rbind].
    rewrite (set_prop_next _ _ _ _ Hord). cbn [rbind].
    rewrite IH; [rewrite <- List.app_assoc; reflexivity|assumption..|].
    rewrite <- List.app_assoc. exact Hord.
Qed.

Lemma copy_list_plain l :
  Forall (fun x => plain x = true -> deepCopy x = Ret x) l ->
  forallb plain l = true -> copy_list l = Ret l.
Proof.
  induction l as [|x l IH]; intros HIH Hplain; [reflexivity|].
  apply Forall_cons in HIH as [Hx HIH].
  cbn [forallb] in Hplain. apply andb_true_iff in Hplain as [Px Hplain].
  cbn [copy_list]. rewrite (Hx Px), (IH HIH Hplain). reflexivity.
Qed.

Lemma deepCopy_plain_value v : plain v = true -> deepCopy v = Ret v.
Proof.
  induction v as [| | | | | |elems IH|props IH] using Value_ind';
    intros H; try discriminate; try reflexivity.
  - rewrite deepCopy_arr, copy_list_plain by assumption. reflexivity.
  - cbn [plain] in H. apply andb_true_iff in H as [Hord Hplain].
    rewrite deepCopy_obj, (copy_object_plain props []) by assumption.
    reflexivity.
Qed.

(** *** Equal values *)

Lemma has_in_found {A} k (l : list (jsstring * A)) x :
  lookup k l = Some x -> has_in k l = Ret true.
Proof. unfold has_in. intros ->. reflexivity. Qed.

Lemma object_equals_a_true pb l :
  (forall key x, In (key, x) l ->
     exists y, lookup key pb = Some y /\ equals x y = Ret true) ->
  object_equals_a pb l = Ret true.
Proof.
  induction l as [|[key x] l IH]; intros H; [reflexivity|].
  rewrite object_equals_a_cons.
  destruct (H key x (or_introl eq_refl)) as (y & Hy & He).
  rewrite (has_in_found _ _ _ Hy). cbn [rbind negb].
  rewrite Hy. cbn [default]. unfold id. rewrite He. cbn [rbind negb].
  apply IH. intros k v Hin. apply H. right. exact Hin.
Qed.

Lemma object_equals_b_true pa (l : list (jsstring * Value)) :
  (forall key y, In (key, y) l -> exists x, lookup key pa = Some x) ->
  object_equals_b pa l = Ret true.
Proof.
  induction l as [|[key y] l IH]; intros H; [reflexivity|].
  rewrite object_equals_b_cons.
  destruct (H key y (or_introl eq_refl)) as (x & Hx).
  rewrite (has_in_found _ _ _ Hx). cbn [rbind negb].
  apply IH. intros k v Hin. apply (H k v). right. exact Hin.
Qed.

(** Two objects with the same keys, and equal values under them, are
    equal. *)
Lemma equals_by_keys pa pb :
  unique_keys pa = true ->
  (forall k, match lookup k pb with
             | Some y => exists x, lookup k pa = Some x /\ equals x y = Ret true
             | None => lookup k pa = None
             end) ->
  equals (VObj pa) (VObj pb) = Ret true.
Proof.
  intros Hu H. rewrite equals_obj.
  rewrite object_equals_a_true.
  - cbn [rbind negb]. apply object_equals_b_true.
    intros key y Hin. assert (exists y', lookup key pb = Some y') as (y' & Hy').
    { apply lookup_key. apply in_map_iff. exists (key, y).
      split; [reflexivity|exact Hin]. }
    specialize (H key). rewrite Hy' in H. destruct H as (x & Hx & _). eauto.
  - intros key x Hin. apply (In_lookup _ _ _ Hu) in Hin.
    specialize (H key). destruct (lookup key pb) as [y|].
    + destruct H as (x' & Hx' & He). rewrite Hin in Hx'.
      injection Hx' as <-. eauto.
    + congruence.
Qed.

Lemma list_equals_refl l :
  Forall (fun x => plain x = true -> equals x x = Ret true) l ->
  forallb plain l = true -> list_equals l l = Ret true.
Proof.
  induction l as [|x l IH]; intros HIH Hplain; [reflexivity|].
  apply Forall_cons in HIH as [Hx HIH].
  cbn [forallb] in Hplain. apply andb_true_iff in Hplain as [Px Hplain].
  cbn [list_equals]. rewrite (Hx Px). cbn [rbind negb]. exact (IH HIH Hplain).
Qed.

Lemma enumeration_unique {A} (l : list (jsstring * A)) :
  enumeration_order l = true -> unique_keys l = true.
Proof.
  unfold enumeration_order. intros H.
  apply andb_true_iff in H as [H _]. apply andb_true_iff in H as [_ H].
  exact H.
Qed.

Lemma equals_refl v : plain v = true -> equals v v = Ret true.
Proof.
  induction v as [| | | | | |elems IH|props IH] using Value_ind';
    intros H; try discriminate.
  - cbn. rewrite eqb_reflx. reflexivity.
  - cbn. rewrite Z.eqb_refl. reflexivity.
  - cbn. rewrite str_eqb_refl. reflexivity.
  - rewrite equals_arr, Z.eqb_refl. cbn [negb].
    apply list_equals_refl; assumption.
  - cbn [plain] in H. apply andb_true_iff in H as [Hord Hplain].
    apply enumeration_unique in Hord as Hu.
    apply equals_by_keys; [exact Hu|].
    intros k. destruct (lookup k props) as [y|] eqn:E; [|reflexivity].
    exists y. split; [reflexivity|].
    apply lookup_In in E.
    rewrite List.Forall_forall in IH. apply (IH _ E).
    rewrite forallb_forall in Hplain. apply (Hplain _ E).
Qed.

Lemma mret_ret_eq {A} (a : A) c v c' :
  mret a c = (Ret v, c') -> v = a /\ c' = c.
Proof. unfold mret. intros [= -> ->]. split; reflexivity. Qed.

Lemma lift_ret' {A} (r : res A) c v c' :
  lift r c = (Ret v, c') -> r = Ret v /\ c' = c.
Proof. unfold lift. intros [= -> ->]. split; reflexivity. Qed.

Lemma has_in_ret {A} k (l : list (jsstring * A)) b :
  has_in k l = Ret b ->
  if b then exists x, lookup k l = Some x else lookup k l = None.
Proof.
  unfold has_in. destruct (lookup k l) as [x|].
  - intros [= <-]. eauto.
  - destruct (proto_member k); [discriminate|]. intros [= <-]. reflexivity.
Qed.

Lemma lookup_cons_eq {A} k k' (x : A) l :
  str_eqb k k' = true -> lookup k ((k', x) :: l) = Some x.
Proof. intros H. cbn. rewrite H. reflexivity. Qed.

Lemma lookup_cons_ne {A} k k' (x : A) l :
  str_eqb k k' = false -> lookup k ((k', x) :: l) = lookup k l.
Proof. intros H. cbn. rewrite H. reflexivity. Qed.

(** The loop of [object_diff] over the properties of [a]. *)
Lemma object_diff_a_spec fuel pb : forall l diffs clk diffs' clk',
  unique_keys l = true -> unique_keys diffs = true ->
  object_diff_a (diff fuel) pb l diffs clk = (Ret diffs', clk') ->
  unique_keys diffs' = true /\
  forall k,
    match lookup k l with
    | None => lookup k diffs' = lookup k diffs
    | Some x =>
      match lookup k pb with
      | None => lookup k diffs' = Some OpDel
      | Some y =>
        (equals x y = Ret true /\ lookup k diffs' = lookup k diffs) \/
        (equals x y = Ret false /\
         exists o, diff_of fuel x y o /\ lookup k diffs' = Some o)
      end
    end.
Proof.
  induction l as [|[key x] l IH]; intros diffs clk diffs' clk' Hl Hd H.
  - apply mret_ret_eq in H as [-> ->]. split; [exact Hd|]. intros k. reflexivity.
  - apply unique_keys_cons in Hl as [Hkey Hl].
    cbn [object_diff_a] in H.
    apply mbind_ret in H as (present & c1 & Hp & H).
    apply lift_ret' in Hp as [Hp ->]. apply has_in_ret in Hp.
    assert (Hstep : exists diffs1 c2,
      object_diff_a (diff fuel) pb l diffs1 c2 = (Ret diffs', clk') /\
      unique_keys diffs1 = true /\
      (forall k, str_eqb k key = false -> lookup k diffs1 = lookup k diffs) /\
      match lookup key pb with
      | None => lookup key diffs1 = Some OpDel
      | Some y =>
        (equals x y = Ret true /\ lookup key diffs1 = lookup key diffs) \/
        (equals x y = Ret false /\
         exists o, diff_of fuel x y o /\ lookup key diffs1 = Some o)
      end).
    { destruct present.
      - destruct Hp as (y & Hy). rewrite Hy in *. cbn [default] in H.
        unfold id in H.
        apply mbind_ret in H as (e & c2 & He & H).
        apply lift_ret' in He as [He ->].
        destruct e; cbn [negb] in H.
        + exists diffs, clk. split; [exact H|]. split; [exact Hd|].
          split; [reflexivity|]. left. split; [exact He|reflexivity].
        + apply mbind_ret in H as (o & c3 & Ho & H).
          apply mbind_ret in H as (diffs1 & c4 & Hset & H).
          apply lift_ret' in Hset as [Hset ->].
          exists diffs1, c3. split; [exact H|].
          split; [exact (unique_set_prop _ _ _ _ Hd Hset)|].
          split.
          * intros k Hk. rewrite (lookup_set_prop _ k _ _ _ Hset), Hk.
            reflexivity.
          * right. split; [exact He|]. exists o. split; [exists clk, c3; exact Ho|].
            rewrite (lookup_set_prop _ key _ _ _ Hset), str_eqb_refl.
            reflexivity.
      - rewrite Hp.
        apply mbind_ret in H as (diffs1 & c2 & Hset & H).
        apply lift_ret' in Hset as [Hset ->].
        exists diffs1, clk. split; [exact H|].
        split; [exact (unique_set_prop _ _ _ _ Hd Hset)|].
        split.
        + intros k Hk. rewrite (lookup_set_prop _ k _ _ _ Hset), Hk.
          reflexivity.
        + rewrite (lookup_set_prop _ key _ _ _ Hset), str_eqb_refl.
          reflexivity. }
    clear H Hp. destruct Hstep as (diffs1 & c2 & H & Hd1 & Hother & Hkey1).
    destruct (IH _ _ _ _ Hl Hd1 H) as [Hu Hspec]. split; [exact Hu|].
    intros k. destruct (str_eqb k key) eqn:E.
    + rewrite (lookup_cons_eq _ _ _ _ E).
      apply str_eqb_eq in E. subst k.
      specialize (Hspec key). rewrite Hkey in Hspec. rewrite Hspec.
      exact Hkey1.
    + rewrite (lookup_cons_ne _ _ _ _ E).
      specialize (Hspec k). rewrite (Hother k E) in Hspec. exact Hspec.
Qed.

(** The loop of [object_diff] over the properties of [b]. *)
Lemma object_diff_b_spec pa : forall l diffs clk diffs' clk',
  unique_keys l = true -> unique_keys diffs = true ->
  object_diff_b pa l diffs clk = (Ret diffs', clk') ->
  unique_keys diffs' = true /\
  forall k,
    match lookup k l with
    | None => lookup k diffs' = lookup k diffs
    | Some y =>
      match lookup k pa with
      | None => lookup k diffs' = Some (OpIns y)
      | Some _ => lookup k diffs' = lookup k diffs
      end
    end.
Proof.
  induction l as [|[key y] l IH]; intros diffs clk diffs' clk' Hl Hd H.
  - apply mret_ret_eq in H as [-> ->]. split; [exact Hd|]. intros k. reflexivity.
  - apply unique_keys_cons in Hl as [Hkey Hl].
    cbn [object_diff_b] in H.
    apply mbind_ret in H as (present & c1 & Hp & H).
    apply lift_ret' in Hp as [Hp ->]. apply has_in_ret in Hp.
    assert (Hstep : exists diffs1 c2,
      object_diff_b pa l diffs1 c2 = (Ret diffs', clk') /\
      unique_keys diffs1 = true /\
      (forall k, str_eqb k key = false -> lookup k diffs1 = lookup k diffs) /\
      match lookup key pa with
      | None => lookup key diffs1 = Some (OpIns y)
      | Some _ => lookup key diffs1 = lookup key diffs
      end).
    { destruct present; cbn [negb] in H.
      - destruct Hp as (x & Hx). rewrite Hx.
        exists diffs, clk. split; [exact H|]. split; [exact Hd|].
        split; reflexivity.
      - rewrite Hp.
        apply mbind_ret in H as (diffs1 & c2 & Hset & H).
        apply lift_ret' in Hset as [Hset ->].
        exists diffs1, clk. split; [exact H|].
        split; [exact (unique_set_prop _ _ _ _ Hd Hset)|].
        split.
        + intros k Hk. rewrite (lookup_set_prop _ k _ _ _ Hset), Hk.
          reflexivity.
        + rewrite (lookup_set_prop _ key _ _ _ Hset), str_eqb_refl.
          reflexivity. }
    clear H Hp. destruct Hstep as (diffs1 & c2 & H & Hd1 & Hother & Hkey1).
    destruct (IH _ _ _ _ Hl Hd1 H) as [Hu Hspec]. split; [exact Hu|].
    intros k. destruct (str_eqb k key) eqn:E.
    + rewrite (lookup_cons_eq _ _ _ _ E).
      apply str_eqb_eq in E. subst k.
      specialize (Hspec key). rewrite Hkey in Hspec. rewrite Hspec.
      exact Hkey1.
    + rewrite (lookup_cons_ne _ _ _ _ E).
      specialize (Hspec k). rewrite (Hother k E) in Hspec. exact Hspec.
Qed.

(** The entries of the diff of two objects. *)
Lemma object_diff_entries fuel pa pb clk d clk' :
  unique_keys pa = true -> unique_keys pb = true ->
  object_diff fuel (VObj pa) (VObj pb) clk = (Ret d, clk') ->
  unique_keys d = true /\
  forall k, diff_entry fuel pa pb k (lookup k d).
Proof.
  intros Ha Hb H. cbn [object_diff] in H.
  apply mbind_ret in H as (d1 & c1 & H1 & H2).
  destruct (object_diff_a_spec fuel pb pa [] clk d1 c1 Ha eq_refl H1) as [U1 S1].
  destruct (object_diff_b_spec _ _ _ _ _ _ Hb U1 H2) as [U2 S2].
  split; [exact U2|]. intros k. unfold diff_entry.
  specialize (S1 k). specialize (S2 k).
  destruct (lookup k pa) as [x|], (lookup k pb) as [y|].
  - rewrite S2. destruct S1 as [[He S1]|[He (o & Ho & S1)]].
    + left. split; [exact He|exact S1].
    + right. split; [exact He|]. exists o. split; [exact Ho|exact S1].
  - rewrite S2. exact S1.
  - rewrite S2. reflexivity.
  - rewrite S2. exact S1.
Qed.

(** The operation [diff] gives for two plain values that differ, when it
    is a structural one. *)
Lemma diff_structural fuel x y o :
  diff_of fuel x y o -> equals x y = Ret false ->
  plain x = true -> structural o = true ->
  o = OpRep y \/
  exists px py d c c',
    x = VObj px /\ y = VObj py /\ o = OpObj d /\
    object_diff fuel (VObj px) (VObj py) c = (Ret d, c').
Proof.
  intros (c & c' & H) He Hx Ho.
  destruct x; try discriminate Hx; cbn [diff] in H;
    apply mbind_ret in H as (e & c1 & He' & H);
    apply lift_ret' in He' as [He' ->];
    rewrite He in He'; injection He' as <-;
    (destruct (negb (jstype_eqb _ (typeOf y))) eqn:Ht;
     [apply mret_ret_eq in H as [-> _]; left; reflexivity|]).
  - apply mret_ret_eq in H as [-> _]. left; reflexivity.
  - apply mret_ret_eq in H as [-> _]. left; reflexivity.
  - destruct y; try discriminate Ht.
    apply mbind_ret in H as (ds & c2 & _ & H).
    apply mbind_ret in H as (ds' & c3 & _ & H).
    destruct (0 <? alen ds').
    + apply mbind_ret in H as (delta & c4 & _ & H).
      apply mret_ret_eq in H as [-> _]. discriminate Ho.
    + apply mret_ret_eq in H as [-> _]. discriminate Ho.
  - apply mret_ret_eq in H as [-> _]. left; reflexivity.
  - destruct y; try discriminate Ht. right.
    apply mbind_ret in H as (d1 & c2 & H1 & H).
    apply mbind_ret in H as (d2 & c3 & H2 & H).
    apply mret_ret_eq in H as [-> ->].
    exists props, props0, d2, c, c3. repeat split.
    cbn [object_diff]. unfold mbind'. rewrite H1. exact H2.
Qed.

Lemma enumeration_not_proto {A} (l : list (jsstring * A)) k x :
  enumeration_order l = true -> lookup k l = Some x ->
  str_eqb k proto_name = false.
Proof.
  unfold enumeration_order. intros H Hk.
  apply andb_true_iff in H as [_ H]. apply lookup_In in Hk.
  rewrite forallb_forall in H. specialize (H _ Hk). cbn [fst] in H.
  apply negb_true_iff in H. apply proto_member_proto_name, H.
Qed.

Lemma plain_lookup props k x :
  plain (VObj props) = true -> lookup k props = Some x -> plain x = true.
Proof.
  cbn [plain]. intros H Hk. apply andb_true_iff in H as [_ H].
  apply lookup_In in Hk. rewrite forallb_forall in H. exact (H _ Hk).
Qed.

Lemma get_prop_found {A} k (l : list (jsstring * A)) x :
  lookup k l = Some x -> get_prop k l = Ret (Some x).
Proof. unfold get_prop. intros ->. reflexivity. Qed.

Section Apply.
Variable fuel : nat.
Variables pa pb : list (jsstring * Value).
Variable d : objdiff.
Hypothesis Hpa : plain (VObj pa) = true.
Hypothesis Hpb : plain (VObj pb) = true.
Hypothesis Hd : forall k, diff_entry fuel pa pb k (lookup k d).
Hypothesis Hnested : forall k x, lookup k pa = Some x -> round_trip fuel x.

Lemma pa_order : enumeration_order pa = true.
Proof. cbn [plain] in Hpa. apply andb_true_iff in Hpa as [H _]. exact H. Qed.

Lemma pb_order : enumeration_order pb = true.
Proof. cbn [plain] in Hpb. apply andb_true_iff in Hpb as [H _]. exact H. Qed.

(** One operation of the diff, applied. *)
Lemma apply_entry key o props :
  lookup key d = Some o -> structural o = true ->
  unique_keys props = true -> lookup key props = lookup key pa ->
  exists props',
    (forall ds clk,
       apply_each fuel ((key, o) :: ds) (VObj props) clk
       = apply_each fuel ds (VObj props') clk) /\
    unique_keys props' = true /\
    (forall k, str_eqb k key = false -> lookup k props' = lookup k props) /\
    agrees pb props' key.
Proof.
  intros Ho Hs Hu Hcur. pose proof (Hd key) as He. unfold diff_entry in He.
  rewrite Ho in He. unfold agrees.
  assert (Hset : forall v,
            str_eqb key proto_name = false ->
            lookup key pb = Some v -> plain v = true ->
            (forall ds clk,
               apply_each fuel ((key, o) :: ds) (VObj props) clk
               = (do! props' := lift (set_prop key v props) in
                  apply_each fuel ds (VObj props')) clk) ->
            exists props',
              (forall ds clk,
                 apply_each fuel ((key, o) :: ds) (VObj props) clk
                 = apply_each fuel ds (VObj props') clk) /\
              unique_keys props' = true /\
              (forall k, str_eqb k key = false ->
                         lookup k props' = lookup k props) /\
              match lookup key pb with
              | Some y => exists v, lookup key props' = Some v /\
                                    equals v y = Ret true
              | None => lookup key props' = None
              end).
  { intros v Hproto Hv Pv Hstep.
    destruct (set_prop_total key v props Hproto) as (props' & Hp').
    exists props'. split; [|split; [|split]].
    - intros ds clk. rewrite Hstep. unfold mbind', lift. rewrite Hp'.
      reflexivity.
    - exact (unique_set_prop _ _ _ _ Hu Hp').
    - intros k Hk. rewrite (lookup_set_prop _ k _ _ _ Hp'), Hk. reflexivity.
    - rewrite Hv. exists v. split.
      + rewrite (lookup_set_prop _ key _ _ _ Hp'), str_eqb_refl. reflexivity.
      + apply equals_refl, Pv. }
  destruct (lookup key pa) as [x|] eqn:Ex, (lookup key pb) as [y|] eqn:Ey.
  - destruct He as [[_ He]|[Hne (o' & Hdiff & He)]]; [discriminate|].
    injection He as <-.
    pose proof (plain_lookup _ _ _ Hpa Ex) as Px.
    pose proof (plain_lookup _ _ _ Hpb Ey) as Py.
    destruct (diff_structural _ _ _ _ Hdiff Hne Px Hs)
      as [->|(px & py & dd & c & c' & -> & -> & -> & Hdd)].
    + apply (Hset y); [exact (enumeration_not_proto _ _ _ pa_order Ex)
                      |reflexivity|exact Py|].
      intros ds clk. reflexivity.
    + destruct (Hnested key _ Ex px py dd c c' eq_refl Px Py Hdd Hs)
        as (r & Hr & Heq).
      destruct (set_prop_total key r props
                  (enumeration_not_proto _ _ _ pa_order Ex)) as (props' & Hp').
      exists props'. split; [|split; [|split]].
      * intros ds clk.
        change (apply_each fuel ((key, OpObj dd) :: ds) (VObj props) clk)
          with ((do! props' :=
                   (do! cur := lift (get_prop key props) in
                    do! r := apply_diff fuel (OpObj dd) (default VUndefined cur) in
                    lift (set_prop key r props)) in
                 apply_each fuel ds (VObj props')) clk).
        unfold mbind' at 1 2. unfold lift at 1.
        rewrite (get_prop_found _ _ _ Hcur). cbn [default]. unfold id.
        unfold mbind'. rewrite Hr. unfold lift. rewrite Hp'. reflexivity.
      * exact (unique_set_prop _ _ _ _ Hu Hp').
      * intros k Hk. rewrite (lookup_set_prop _ k _ _ _ Hp'), Hk. reflexivity.
      * exists r. split; [|exact Heq].
        rewrite (lookup_set_prop _ key _ _ _ Hp'), str_eqb_refl. reflexivity.
  - injection He as ->. exists (remove key props).
    split; [|split; [|split]].
    + intros ds clk. reflexivity.
    + apply unique_remove, Hu.
    + intros k Hk. apply lookup_remove_ne, Hk.
    + apply lookup_remove_eq, Hu.
  - injection He as ->.
    apply (Hset y); [exact (enumeration_not_proto _ _ _ pb_order Ey)
                    |reflexivity|exact (plain_lookup _ _ _ Hpb Ey)|].
    intros ds clk. reflexivity.
  - discriminate.
Qed.

(** The loop of [apply_object_diff] over the operations that are left. *)
Lemma apply_each_agrees : forall ds props,
  (forall key o, In (key, o) ds -> lookup key d = Some o) ->
  structural_diff ds = true ->
  unique_keys ds = true -> unique_keys props = true ->
  (forall k,
     match lookup k ds, lookup k d with
     | None, Some _ => agrees pb props k
     | _, _ => lookup k props = lookup k pa
     end) ->
  exists r,
    (forall clk, apply_each fuel ds (VObj props) clk = (Ret (VObj r), clk)) /\
    unique_keys r = true /\ forall k, agrees pb r k.
Proof.
  induction ds as [|[key o] ds IH]; intros props Hin Hs Hu Hp Hinv.
  - exists props. split; [reflexivity|]. split; [exact Hp|].
    intros k. specialize (Hinv k). cbn [lookup] in Hinv.
    destruct (lookup k d) as [o|] eqn:Ek; [exact Hinv|].
    pose proof (Hd k) as He. unfold diff_entry in He. rewrite Ek in He.
    unfold agrees.
    destruct (lookup k pa) as [x|] eqn:Ex, (lookup k pb) as [y|] eqn:Ey;
      try discriminate.
    + destruct He as [[He _]|[_ (o & _ & He)]]; [|discriminate].
      exists x. split; [exact Hinv|exact He].
    + exact Hinv.
  - apply unique_keys_cons in Hu as [Hkey Hu].
    unfold structural_diff in Hs. cbn [forallb snd] in Hs.
    apply andb_true_iff in Hs as [Ho Hs].
    pose proof (Hin key o (or_introl eq_refl)) as Hko.
    pose proof (Hinv key) as Hcur.
    rewrite (lookup_cons_eq _ _ _ _ (str_eqb_refl key)) in Hcur.
    destruct (apply_entry key o props Hko Ho Hp Hcur)
      as (props' & Hstep & Hu' & Hother & Hag).
    destruct (IH props') as (r & Hr & Hur & Hagr).
    + intros k o' Hin'. apply Hin. right. exact Hin'.
    + exact Hs.
    + exact Hu.
    + exact Hu'.
    + intros k. destruct (str_eqb k key) eqn:E.
      * apply str_eqb_eq in E. subst k. rewrite Hkey, Hko. exact Hag.
      * specialize (Hinv k). rewrite (lookup_cons_ne _ _ _ _ E) in Hinv.
        unfold agrees in *. rewrite (Hother k E).
        exact Hinv.
    + exists r. split; [|split; assumption].
      intros clk. rewrite Hstep. apply Hr.
Qed.

End Apply.

Lemma round_trip_all fuel a : round_trip fuel a.
Proof.
  induction a as [| | | | | |elems IH|props IH] using Value_ind';
    intros pa pb d c c' Ha Hpa Hpb Hdiff Hs; try discriminate Ha.
  injection Ha as <-.
  pose proof Hpa as Hpa'. pose proof Hpb as Hpb'.
  cbn [plain] in Hpa', Hpb'.
  apply andb_true_iff in Hpa' as [Oa _]. apply andb_true_iff in Hpb' as [Ob _].
  destruct (object_diff_entries _ _ _ _ _ _ (enumeration_unique _ Oa)
              (enumeration_unique _ Ob) Hdiff) as [Ud Hd].
  destruct (apply_each_agrees fuel props pb d Hpa Hpb Hd) with (ds := d)
                                                               (props := props)
    as (r & Hr & Hur & Hag).
  - intros k x Hk. apply lookup_In in Hk.
    rewrite List.Forall_forall in IH. exact (IH _ Hk).
  - intros key o Hin. exact (In_lookup _ _ _ Ud Hin).
  - exact Hs.
  - exact Ud.
  - exact (enumeration_unique _ Oa).
  - intros k. destruct (lookup k d); reflexivity.
  - exists (VObj r). split.
    + intros clk. rewrite apply_diff_obj. unfold mbind', lift.
      rewrite (deepCopy_plain_value _ Hpa). apply Hr.
    + apply equals_by_keys; [exact Hur|]. exact Hag.
Qed.

(** X14: for two objects made of booleans, numbers, strings, arrays and
    objects, whose diff as [object_diff] returns it holds only ['+'], ['-'],
    ['r'] and ['O'] operations, [apply_object_diff] of the first object and
    that diff returns, and returns an object that [equals] finds equal to
    the second. *)
Theorem object_diff_round_trip fuel pa pb clk d clk' :
  plain (VObj pa) = true -> plain (VObj pb) = true ->
  object_diff fuel (VObj pa) (VObj pb) clk = (Ret d, clk') ->
  structural_diff d = true ->
  exists r,
    (forall c, apply_object_diff fuel (VObj pa) (Some d) c = (Ret r, c)) /\
    equals r (VObj pb) = Ret true.
Proof.
  intros Hpa Hpb H Hs.
  exact (round_trip_all fuel (VObj pa) pa pb d clk clk' eq_refl Hpa Hpb H Hs).
Qed.

Lemma object_diff_round_trip_witness :
  outcome (object_diff 10 (VObj record_before) (VObj record_after))
  = Ret [(js "a", OpRep (VNum 2)); (js "b", OpObj [(js "f", OpIns (VNum 3))]);
         (js "e", OpDel); (js "g", OpIns (VStr (js "new")))] /\
  exists r,
    (forall c,
       apply_object_diff 10 (VObj record_before)
         (Some [(js "a", OpRep (VNum 2));
                (js "b", OpObj [(js "f", OpIns (VNum 3))]);
                (js "e", OpDel); (js "g", OpIns (VStr (js "new")))]) c
       = (Ret r, c)) /\
    equals r (VObj record_after) = Ret true.
Proof.
  assert (object_diff 10 (VObj record_before) (VObj record_after) still
          = (Ret [(js "a", OpRep (VNum 2));
                  (js "b", OpObj [(js "f", OpIns (VNum 3))]);
                  (js "e", OpDel); (js "g", OpIns (VStr (js "new")))], still))
    as H by (vm_compute; reflexivity).
  split; [unfold outcome; rewrite H; reflexivity|].
  refine (object_diff_round_trip 10 record_before record_after still _ still
            _ _ H _); vm_compute; reflexivity.
Defined.

(** X15: [deepCopy] of a value made of booleans, numbers, strings, arrays
    and objects returns that value, with the properties of every object in
    the same order. *)
Theorem deepCopy_plain v : plain v = true -> deepCopy v = Ret v.
Proof. apply deepCopy_plain_value. Qed.

Lemma deepCopy_plain_witness :
  deepCopy (VObj record_before) = Ret (VObj record_before).
Proof.
  apply (deepCopy_plain (VObj record_before)). vm_compute. reflexivity.
Defined.

(** *** What a diff holds *)

Lemma forallb_Forall {A} (f : A -> bool) l :
  forallb f l = true <-> Forall (fun x => f x = true) l.
Proof.
  rewrite forallb_forall, List.Forall_forall. reflexivity.
Qed.

Lemma object_diff_a_no_list fuel pb : forall l diffs clk diffs' clk',
  Forall (fun kv : jsstring * Value =>
            forall y o c c', diff fuel (snd kv) y c = (Ret o, c') ->
                             no_list_op o = true) l ->
  Forall (fun kv : jsstring * op => no_list_op (snd kv) = true) diffs ->
  object_diff_a (diff fuel) pb l diffs clk = (Ret diffs', clk') ->
  Forall (fun kv : jsstring * op => no_list_op (snd kv) = true) diffs'.
Proof.
  induction l as [|[key x] l IH]; intros diffs clk diffs' clk' HIH Hd H.
  - apply mret_ret_eq in H as [-> _]. exact Hd.
  - apply Forall_cons in HIH as [Hx HIH]. cbn [snd] in Hx.
    cbn [object_diff_a] in H.
    apply mbind_ret in H as (present & c1 & _ & H).
    destruct present.
    + apply mbind_ret in H as (e & c2 & _ & H).
      destruct e; cbn [negb] in H; [exact (IH _ _ _ _ HIH Hd H)|].
      apply mbind_ret in H as (o & c3 & Ho & H).
      apply mbind_ret in H as (diffs1 & c4 & Hset & H).
      apply lift_ret in Hset.
      apply (IH _ _ _ _ HIH) in H; [exact H|].
      apply (Forall_set_prop (fun o => no_list_op o = true) _ _ _ _
               (Hx _ _ _ _ Ho) Hd Hset).
    + apply mbind_ret in H as (diffs1 & c2 & Hset & H).
      apply lift_ret in Hset.
      apply (IH _ _ _ _ HIH) in H; [exact H|].
      apply (Forall_set_prop (fun o => no_list_op o = true) key OpDel _ _
               eq_refl Hd Hset).
Qed.

Lemma object_diff_b_no_list pa : forall l diffs clk diffs' clk',
  Forall (fun kv : jsstring * op => no_list_op (snd kv) = true) diffs ->
  object_diff_b pa l diffs clk = (Ret diffs', clk') ->
  Forall (fun kv : jsstring * op => no_list_op (snd kv) = true) diffs'.
Proof.
  induction l as [|[key y] l IH]; intros diffs clk diffs' clk' Hd H.
  - apply mret_ret_eq in H as [-> _]. exact Hd.
  - cbn [object_diff_b] in H.
    apply mbind_ret in H as (present & c1 & _ & H).
    destruct present; cbn [negb] in H; [exact (IH _ _ _ _ Hd H)|].
    apply mbind_ret in H as (diffs1 & c2 & Hset & H).
    apply lift_ret in Hset.
    apply IH in H; [exact H|].
    apply (Forall_set_prop (fun o => no_list_op o = true) key (OpIns y) _ _
             eq_refl Hd Hset).
Qed.

Lemma diff_no_list fuel a : forall b o c c',
  diff fuel a b c = (Ret o, c') -> no_list_op o = true.
Proof.
  induction a as [| |bb|n| |s|elems IH|props IH] using Value_ind';
    intros b o c c' H; cbn [diff] in H;
    apply mbind_ret in H as (e & c1 & _ & H);
    (destruct e; [apply mret_ret_eq in H as [-> _]; reflexivity|]);
    (destruct (negb (jstype_eqb _ (typeOf b))) eqn:Ht;
     [apply mret_ret_eq in H as [-> _]; reflexivity|]);
    try (apply mret_ret_eq in H as [-> _]; reflexivity).
  - destruct b; try discriminate Ht.
    apply mbind_ret in H as (ds & c2 & _ & H).
    apply mbind_ret in H as (ds' & c3 & _ & H).
    destruct (0 <? alen ds').
    + apply mbind_ret in H as (delta & c4 & _ & H).
      apply mret_ret_eq in H as [-> _]. reflexivity.
    + apply mret_ret_eq in H as [-> _]. reflexivity.
  - destruct b; try discriminate Ht.
    apply mbind_ret in H as (d1 & c2 & H1 & H).
    apply mbind_ret in H as (d2 & c3 & H2 & H).
    apply mret_ret_eq in H as [-> _].
    cbn [no_list_op]. apply forallb_Forall.
    apply (object_diff_b_no_list _ _ _ _ _ _ ) with (2 := H2).
    apply (object_diff_a_no_list _ _ _ _ _ _ _) with (3 := H1);
      [exact IH|constructor].
Qed.

(** X16: a diff that [diff] returns holds no ['L'] and no ['I'] operation,
    at any depth: an array that changed is replaced as a whole, and so is a
    number. *)
Theorem diff_no_list_operation fuel a b o clk clk' :
  diff fuel a b clk = (Ret o, clk') -> no_list_op o = true.
Proof. apply diff_no_list. Qed.

(** An object whose array and whose number changed. *)
Lemma diff_no_list_operation_witness :
  outcome (diff 40 (VObj [(js "l", VArr [VNum 1; VNum 2]); (js "n", VNum 1)])
                   (VObj [(js "l", VArr [VNum 1; VNum 3]); (js "n", VNum 2)]))
  = Ret (OpObj [(js "l", OpRep (VArr [VNum 1; VNum 3]));
                (js "n", OpRep (VNum 2))]) /\
  no_list_op (OpObj [(js "l", OpRep (VArr [VNum 1; VNum 3]));
                     (js "n", OpRep (VNum 2))]) = true.
Proof.
  assert (diff 40 (VObj [(js "l", VArr [VNum 1; VNum 2]); (js "n", VNum 1)])
                  (VObj [(js "l", VArr [VNum 1; VNum 3]); (js "n", VNum 2)])
               still
          = (Ret (OpObj [(js "l", OpRep (VArr [VNum 1; VNum 3]));
                         (js "n", OpRep (VNum 2))]), still))
    as H by (vm_compute; reflexivity).
  split; [unfold outcome; rewrite H; reflexivity|].
  exact (diff_no_list_operation _ _ _ _ _ _ H).
Defined.

(** ** Locations, alphabets, sources and deadlines *)

(** *** Locations *)

Lemma diff_text1_len_nonneg (diffs : diffs_t) : 0 <= len (diff_text1 diffs).
Proof. apply len_nonneg. Qed.

Lemma xIndex_loop_skip loc : forall pre rest c1 c2,
  c1 + len (diff_text1 pre) <= loc ->
  xIndex_loop (pre ++ rest) loc c1 c2 c1 c2
  = xIndex_loop rest loc (c1 + len (diff_text1 pre)) (c2 + len (diff_text2 pre))
      (c1 + len (diff_text1 pre)) (c2 + len (diff_text2 pre)).
Proof.
  induction pre as [|[o t] pre IH]; intros rest c1 c2 Hloc.
  - cbn [app]. change (len (diff_text1 [])) with 0.
    change (len (diff_text2 [])) with 0. rewrite !Z.add_0_r. reflexivity.
  - cbn [app xIndex_loop]. cbv zeta.
    rewrite diff_text1_cons, diff_text2_cons in *. cbn [fst snd] in *.
    rewrite !len_app in *.
    pose proof (len_nonneg t). pose proof (len_nonneg (diff_text1 pre)).
    destruct o; cbn [dop_eqb] in *;
      change (len []) with 0 in *.
    + destruct (Z.ltb_spec loc (c1 + len t)); [lia|].
      rewrite IH by lia. f_equal; lia.
    + destruct (Z.ltb_spec loc c1); [lia|].
      rewrite IH by lia. f_equal; lia.
    + destruct (Z.ltb_spec loc (c1 + len t)); [lia|].
      rewrite IH by lia. f_equal; lia.
Qed.

Lemma xIndex_inside pre op text post loc :
  op <> DIFF_INSERT ->
  len (diff_text1 pre) <= loc < len (diff_text1 pre) + len text ->
  diff_xIndex (pre ++ (op, text) :: post) loc
  = len (diff_text2 pre)
    + (if dop_eqb op DIFF_DELETE then 0 else loc - len (diff_text1 pre)).
Proof.
  intros Hop Hloc. unfold diff_xIndex.
  rewrite xIndex_loop_skip by lia. cbn [xIndex_loop]. cbv zeta.
  rewrite !Z.add_0_l.
  destruct op; [| contradiction |]; cbn [dop_eqb].
  - destruct (Z.ltb_spec loc (len (diff_text1 pre) + len text)); lia.
  - destruct (Z.ltb_spec loc (len (diff_text1 pre) + len text)); lia.
Qed.

Lemma xIndex_end diffs loc :
  len (diff_text1 diffs) <= loc ->
  diff_xIndex diffs loc = len (diff_text2 diffs) + (loc - len (diff_text1 diffs)).
Proof.
  intros Hloc. unfold diff_xIndex.
  rewrite <- (List.app_nil_r diffs) at 1.
  rewrite xIndex_loop_skip by lia. reflexivity.
Qed.

(** *** Bits of 32-bit integers *)

Lemma ToInt32_mod z : ToInt32 z mod 4294967296 = z mod 4294967296.
Proof.
  unfold ToInt32. rewrite Zminus_mod_idemp_l. f_equal. lia.
Qed.

Lemma testbit_ToInt32 z j :
  0 <= j < 32 -> Z.testbit (ToInt32 z) j = Z.testbit z j.
Proof.
  intros Hj.
  rewrite <- (Z.mod_pow2_bits_low (ToInt32 z) 32 j) by lia.
  rewrite <- (Z.mod_pow2_bits_low z 32 j) by lia.
  change (2 ^ 32) with 4294967296. rewrite ToInt32_mod. reflexivity.
Qed.

Lemma testbit_shl_1 k j :
  0 <= k < 32 -> 0 <= j < 32 -> Z.testbit (shl 1 k) j = (k =? j).
Proof.
  intros Hk Hj. unfold shl. rewrite testbit_ToInt32 by exact Hj.
  change (ToInt32 1) with 1. rewrite Z.mod_small by lia.
  rewrite Z.shiftl_1_l. apply Z.pow2_bits_eqb. lia.
Qed.

Lemma testbit_bor a b j :
  0 <= j < 32 -> Z.testbit (bor a b) j = Z.testbit a j || Z.testbit b j.
Proof.
  intros Hj. unfold bor. rewrite Z.lor_spec, !testbit_ToInt32 by exact Hj.
  reflexivity.
Qed.

(** *** The alphabet of a pattern *)

Lemma alphabet_loop_bits pattern plen :
  plen = len pattern -> plen <= 32 ->
  forall rest done s,
    pattern = done ++ rest ->
    (forall c j, 0 <= j < 32 ->
       Z.testbit (default 0 (s !! c)) j = true <->
       exists i, 0 <= i < len done /\
                 nth_error pattern (Z.to_nat i) = Some c /\
                 j = plen - i - 1) ->
    forall c j, 0 <= j < 32 ->
      Z.testbit (default 0 (alphabet_loop rest plen (len done) s !! c)) j = true
      <->
      exists i, 0 <= i < plen /\
                nth_error pattern (Z.to_nat i) = Some c /\
                j = plen - i - 1.
Proof.
  intros Hplen H32.
  induction rest as [|c0 rest IH]; intros done s Hpat Hinv c j Hj.
  - cbn [alphabet_loop]. rewrite List.app_nil_r in Hpat. subst done.
    rewrite Hinv by exact Hj. rewrite Hplen. reflexivity.
  - cbn [alphabet_loop].
    assert (Hlen : len (done ++ [c0]) = len done + 1)
      by (rewrite len_app; reflexivity).
    rewrite <- Hlen.
    assert (Hhere : nth_error pattern (Z.to_nat (len done)) = Some c0).
    { rewrite Hpat. unfold len. rewrite Nat2Z.id.
      rewrite nth_error_app2, Nat.sub_diag by lia. reflexivity. }
    assert (Hbound : len done + 1 <= plen).
    { rewrite Hplen, Hpat, len_app.
      pose proof (len_nonneg rest).
      replace (len (c0 :: rest)) with (1 + len rest)
        by (unfold len; cbn [List.length]; lia).
      lia. }
    pose proof (len_nonneg done) as Hdone.
    apply IH; [rewrite <- List.app_assoc; exact Hpat| |exact Hj].
    clear c j Hj. intros c j Hj. rewrite Hlen.
    destruct (N.eq_dec c0 c) as [->|Hne].
    + rewrite lookup_insert_eq. cbn [from_option id].
      rewrite testbit_bor by exact Hj.
      rewrite testbit_shl_1 by lia.
      rewrite orb_true_iff, Hinv by exact Hj. split.
      * intros [(i & Hi & Hn & ->)|Hb].
        -- exists i. split; [lia|]. split; [exact Hn|reflexivity].
        -- apply Z.eqb_eq in Hb. exists (len done).
           split; [lia|]. split; [exact Hhere|lia].
      * intros (i & Hi & Hn & ->).
        destruct (Z.eq_dec i (len done)) as [->|Hlt].
        -- right. apply Z.eqb_eq. lia.
        -- left. exists i. split; [lia|]. split; [exact Hn|reflexivity].
    + rewrite lookup_insert_ne by exact Hne.
      rewrite Hinv by exact Hj. split.
      * intros (i & Hi & Hn & ->).
        exists i. split; [lia|]. split; [exact Hn|reflexivity].
      * intros (i & Hi & Hn & ->).
        destruct (Z.eq_dec i (len done)) as [->|Hlt].
        -- rewrite Hhere in Hn. congruence.
        -- exists i. split; [lia|]. split; [exact Hn|reflexivity].
Qed.

Lemma alphabet_bits pattern c j :
  len pattern <= 32 -> 0 <= j < 32 ->
  Z.testbit (default 0 (match_alphabet_ pattern !! c)) j = true <->
  j < len pattern /\
  nth_error pattern (Z.to_nat (len pattern - 1 - j)) = Some c.
Proof.
  intros H32 Hj. unfold match_alphabet_.
  change 0 with (len []) at 2.
  rewrite (alphabet_loop_bits pattern (len pattern) eq_refl H32 pattern [] ∅
             eq_refl); [| |exact Hj].
  - split.
    + intros (i & Hi & Hn & ->). split; [lia|].
      replace (len pattern - 1 - (len pattern - i - 1)) with i by lia.
      exact Hn.
    + intros [Hlt Hn]. exists (len pattern - 1 - j).
      split; [lia|]. split; [exact Hn|lia].
  - intros c' j' Hj'. rewrite lookup_empty. cbn [from_option id].
    rewrite Z.bits_0. change (len []) with 0. split; [discriminate|].
    intros (i & Hi & _). lia.
Qed.

Lemma alphabet_keys pattern c :
  match_alphabet_ pattern !! c = None <-> ~ In c pattern.
Proof.
  unfold match_alphabet_.
  enough (forall rest plen i s,
            alphabet_loop rest plen i s !! c = None <->
            s !! c = None /\ ~ In c rest) as H.
  { rewrite H, lookup_empty. tauto. }
  induction rest as [|c0 rest IH]; intros plen i s; cbn [alphabet_loop In].
  - tauto.
  - rewrite IH. destruct (N.eq_dec c0 c) as [->|Hne].
    + rewrite lookup_insert_eq. split; [intros [? _]; discriminate|tauto].
    + rewrite lookup_insert_ne by exact Hne. tauto.
Qed.

Lemma charAt_mid a t b k :
  0 <= k < len t -> charAt (a ++ t ++ b) (len a + k) = charAt t k.
Proof.
  intros Hk. unfold charAt. rewrite !len_app.
  pose proof (len_nonneg a). pose proof (len_nonneg b).
  destruct (Z.leb_spec 0 (len a + k)); [|lia].
  destruct (Z.ltb_spec (len a + k) (len a + (len t + len b))); [|lia].
  destruct (Z.leb_spec 0 k); [|lia].
  destruct (Z.ltb_spec k (len t)); [|lia].
  cbn [andb]. unfold len in *.
  replace (Z.to_nat (Z.of_nat (length a) + k))
    with (Z.to_nat k + length a)%nat by lia.
  rewrite <- skipn_skipn. rewrite drop_app_length.
  rewrite skipn_app.
  replace (Z.to_nat k - length t)%nat with O by lia.
  cbn [skipn].
  destruct (skipn (Z.to_nat k) t) as [|c r] eqn:E.
  - apply (f_equal (@length N)) in E. rewrite length_skipn in E.
    cbn [length] in E. lia.
  - reflexivity.
Qed.

(** X22: a location of text1 inside an equality or a deletion.
    [diff_xIndex] maps a location inside an equality to the place of the same
    character in text2, and a location inside a deletion to the place in
    text2 where the deletion happened. *)
Theorem diff_xIndex_inside pre op text post loc :
  op <> DIFF_INSERT ->
  len (diff_text1 pre) <= loc < len (diff_text1 pre) + len text ->
  let diffs := pre ++ (op, text) :: post in
  diff_xIndex diffs loc
  = len (diff_text2 pre)
    + (if dop_eqb op DIFF_DELETE then 0 else loc - len (diff_text1 pre)) /\
  (op = DIFF_EQUAL ->
   charAt (diff_text2 diffs) (diff_xIndex diffs loc)
   = charAt (diff_text1 diffs) loc).
Proof.
  intros Hop Hloc diffs. subst diffs.
  rewrite (xIndex_inside pre op text post loc Hop Hloc).
  split; [reflexivity|]. intros ->. cbn [dop_eqb].
  rewrite diff_text1_app, diff_text2_app, diff_text1_cons, diff_text2_cons.
  cbn [fst snd dop_eqb].
  replace loc with (len (diff_text1 pre) + (loc - len (diff_text1 pre)))
    at 2 by lia.
  rewrite !charAt_mid by lia. reflexivity.
Qed.

(** 'The cat' against 'The big cat': location 5 is location 9. *)
Lemma diff_xIndex_inside_witness :
  diff_xIndex [(DIFF_EQUAL, js "The "); (DIFF_INSERT, js "big ");
               (DIFF_EQUAL, js "cat")] 5 = 9 /\
  charAt (js "The big cat") 9 = charAt (js "The cat") 5.
Proof.
  assert (Hop : DIFF_EQUAL <> DIFF_INSERT) by discriminate.
  assert (Hloc : len (diff_text1 [(DIFF_EQUAL, js "The ");
                                  (DIFF_INSERT, js "big ")]) <= 5
                 < len (diff_text1 [(DIFF_EQUAL, js "The ");
                                    (DIFF_INSERT, js "big ")])
                   + len (js "cat"))
    by (vm_compute; split; [discriminate|reflexivity]).
  destruct (diff_xIndex_inside
              [(DIFF_EQUAL, js "The "); (DIFF_INSERT, js "big ")]
              DIFF_EQUAL (js "cat") [] 5 Hop Hloc) as [H1 H2].
  split; [exact H1|exact (H2 eq_refl)].
Defined.

(** X23: a location at or after the end of text1 is mapped as far after the
    end of text2. *)
Theorem diff_xIndex_end diffs loc :
  len (diff_text1 diffs) <= loc ->
  diff_xIndex diffs loc = len (diff_text2 diffs) + (loc - len (diff_text1 diffs)).
Proof. apply xIndex_end. Qed.

Lemma diff_xIndex_end_witness :
  diff_xIndex [(DIFF_EQUAL, js "ab"); (DIFF_INSERT, js "c")] 4 = 5.
Proof.
  assert (Hloc : len (diff_text1 [(DIFF_EQUAL, js "ab"); (DIFF_INSERT, js "c")])
                 <= 4) by (vm_compute; discriminate).
  exact (diff_xIndex_end [(DIFF_EQUAL, js "ab"); (DIFF_INSERT, js "c")] 4 Hloc).
Defined.

(** X24: the alphabet of a pattern of at most 32 characters.  Bit [j] of the
    mask of a character is set when the character stands at [j] places
    before the last one of the pattern, and only then; a character that does
    not occur in the pattern has no mask. *)
Theorem match_alphabet_bits pattern c j :
  len pattern <= Match_MaxBits -> 0 <= j < 32 ->
  (Z.testbit (default 0 (match_alphabet_ pattern !! c)) j = true <->
   j < len pattern /\
   nth_error pattern (Z.to_nat (len pattern - 1 - j)) = Some c) /\
  (match_alphabet_ pattern !! c = None <-> ~ In c pattern).
Proof.
  intros H32 Hj. split.
  - apply alphabet_bits; [exact H32|exact Hj].
  - apply alphabet_keys.
Qed.

(** The mask of [a] in [abca] is 1001 in binary. *)
Lemma match_alphabet_bits_witness :
  match_alphabet_ (js "abca") !! 97%N = Some 9 /\
  (Z.testbit (default 0 (match_alphabet_ (js "abca") !! 97%N)) 3 = true <->
   3 < len (js "abca") /\
   nth_error (js "abca") (Z.to_nat (len (js "abca") - 1 - 3)) = Some 97%N) /\
  (match_alphabet_ (js "abca") !! 97%N = None <-> ~ In 97%N (js "abca")).
Proof.
  split; [vm_compute; reflexivity|].
  assert (H32 : len (js "abca") <= Match_MaxBits)
    by (vm_compute; discriminate).
  assert (Hj : 0 <= 3 < 32) by lia.
  exact (match_alphabet_bits (js "abca") 97%N 3 H32 Hj).
Defined.

(** X25: [apply_object_diff] works on a copy.  Whatever the diff and
    whatever the outcome, every object that existed before the call is as it
    was, the source object among them; and an object that is returned is a
    new one. *)
Theorem apply_object_diff_leaves_source fuel s diffs h clk :
  wf h ->
  let r := apply_object_diff_h fuel s diffs (h, clk) in
  preserved h (fst (snd r)) /\
  (forall d v, read_value d h s = Some v ->
               read_value d (fst (snd r)) s = Some v) /\
  (forall p, fst r = Ret p -> new_from (next h) p).
Proof.
  intros Hwf r.
  destruct (hoare_apply_diff (next h) h fuel (OpObj (default [] diffs)) s
              (h, clk) (frame_refl _ Hwf)) as [Hfr Hnew].
  pose proof (frame_preserved _ _ Hwf Hfr) as Hpres.
  split; [exact Hpres|]. split.
  - intros d v Hv. exact (read_value_preserved _ _ _ _ _ Hpres Hv).
  - exact Hnew.
Qed.

(** The note with its number incremented: the result is the object at 1,
    the note at 0 is as it was. *)
Lemma apply_object_diff_leaves_source_witness :
  let r := apply_object_diff_h 100 (HRef 0) (Some [(js "n", OpInt 1)])
             (one_note, still) in
  fst r = Ret (HRef 1) /\
  read_value 1 (fst (snd r)) (HRef 1)
  = Some (VObj [(js "n", VNum 2); (js "t", VStr (js "abc"))]) /\
  preserved one_note (fst (snd r)) /\
  read_value 1 (fst (snd r)) (HRef 0)
  = Some (VObj [(js "n", VNum 1); (js "t", VStr (js "abc"))]).
Proof.
  cbv zeta.
  destruct (apply_object_diff_leaves_source 100 (HRef 0)
              (Some [(js "n", OpInt 1)]) one_note still wf_one_note)
    as (Hpres & Hread & _).
  split; [vm_compute; reflexivity|]. split; [vm_compute; reflexivity|].
  split; [exact Hpres|].
  apply Hread. vm_compute. reflexivity.
Defined.

(** *** The diff of a value with itself *)

Lemma object_diff_a_same dm pa : forall l diffs clk,
  (forall key x, In (key, x) l -> lookup key pa = Some x /\ plain x = true) ->
  object_diff_a dm pa l diffs clk = (Ret diffs, clk).
Proof.
  induction l as [|[key x] l IH]; intros diffs clk H; [reflexivity|].
  destruct (H key x (or_introl eq_refl)) as [Hk Hx].
  cbn [object_diff_a]. unfold mbind' at 1, lift at 1.
  rewrite (has_in_found _ _ _ Hk), Hk. cbn [from_option id].
  unfold mbind' at 1, lift at 1. rewrite (equals_refl _ Hx). cbn [negb].
  apply IH. intros k y Hin. apply H. right. exact Hin.
Qed.

Lemma object_diff_b_same pa : forall l diffs clk,
  (forall key y, In (key, y) l -> exists x, lookup key pa = Some x) ->
  object_diff_b pa l diffs clk = (Ret diffs, clk).
Proof.
  induction l as [|[key y] l IH]; intros diffs clk H; [reflexivity|].
  destruct (H key y (or_introl eq_refl)) as [x Hk].
  cbn [object_diff_b]. unfold mbind' at 1, lift at 1.
  rewrite (has_in_found _ _ _ Hk). cbn [negb].
  apply IH. intros k z Hin. apply (H k z). right. exact Hin.
Qed.

Lemma object_diff_same fuel pa clk :
  plain (VObj pa) = true ->
  object_diff fuel (VObj pa) (VObj pa) clk = (Ret [], clk).
Proof.
  intros Hp. cbn [object_diff].
  assert (Hu : unique_keys pa = true).
  { cbn [plain] in Hp. apply andb_true_iff in Hp as [Hp _].
    exact (enumeration_unique _ Hp). }
  unfold mbind'. rewrite object_diff_a_same.
  - apply object_diff_b_same. intros key y Hin. exists y.
    exact (In_lookup _ _ _ Hu Hin).
  - intros key x Hin. pose proof (In_lookup _ _ _ Hu Hin) as Hk.
    split; [exact Hk|exact (plain_lookup _ _ _ Hp Hk)].
Qed.

(** X26: the diff of a value with itself is empty.  For a value made of
    booleans, numbers, strings, arrays and objects, [diff] returns the empty
    operation, and [object_diff] of an object with itself has no entry. *)
Theorem diff_same fuel v clk :
  plain v = true ->
  diff fuel v v clk = (Ret OpEmpty, clk) /\
  forall pa, v = VObj pa -> object_diff fuel v v clk = (Ret [], clk).
Proof.
  intros Hp. split.
  - destruct v; cbn [diff]; unfold mbind', lift;
      rewrite (equals_refl _ Hp); reflexivity.
  - intros pa ->. apply object_diff_same. exact Hp.
Qed.

Lemma diff_same_witness :
  diff 10 (VObj record_before) (VObj record_before) still
  = (Ret OpEmpty, still) /\
  object_diff 10 (VObj record_before) (VObj record_before) still
  = (Ret [], still).
Proof.
  assert (Hp : plain (VObj record_before) = true) by (vm_compute; reflexivity).
  destruct (diff_same 10 (VObj record_before) still Hp) as [H1 H2].
  split; [exact H1|exact (H2 record_before eq_refl)].
Defined.

(** *** The deadline *)

Lemma bisect_late dm n text1 text2 deadline clk :
  deadline < readings clk (reads clk) ->
  exists clk',
    diff_bisect_ dm (S n) text1 text2 deadline clk
    = (Ret [(DIFF_DELETE, text1); (DIFF_INSERT, text2)], clk') /\
    readings clk' = readings clk /\
    (reads clk' <= S (reads clk))%nat.
Proof.
  intros Hlate. apply Z.ltb_lt in Hlate.
  unfold diff_bisect_. cbv zeta.
  unfold mbind' at 1. cbn [bisect_loop max_d].
  destruct (0 <? (len text1 + len text2 + 1) / 2).
  - unfold mbind' at 1. unfold getTime at 1. rewrite Hlate.
    eexists. split; [reflexivity|]. split; [reflexivity|]. cbn [reads]. lia.
  - eexists. split; [reflexivity|]. split; [reflexivity|]. lia.
Qed.

(** X27: when the clock is past the deadline at its next reading,
    [diff_bisect_] gives up at once: it returns the deletion of [text1]
    followed by the insertion of [text2], without a call of [diff_main], and
    has read the clock once at most. *)
Theorem diff_bisect_deadline dm n text1 text2 deadline clk :
  deadline < readings clk (reads clk) ->
  let r := diff_bisect_ dm (S n) text1 text2 deadline clk in
  fst r = Ret [(DIFF_DELETE, text1); (DIFF_INSERT, text2)] /\
  readings (snd r) = readings clk /\
  (reads (snd r) <= S (reads clk))%nat.
Proof.
  intros Hlate. cbv zeta.
  destruct (bisect_late dm n text1 text2 deadline clk Hlate)
    as (clk' & -> & H1 & H2).
  split; [reflexivity|]. split; [exact H1|exact H2].
Qed.

Lemma diff_bisect_deadline_witness :
  let r := diff_bisect_ (diff_main_rec 40 40) 40 (js "abc") (js "xbz") 0
             (Clock (fun _ => 5) 0) in
  fst r = Ret [(DIFF_DELETE, js "abc"); (DIFF_INSERT, js "xbz")] /\
  readings (snd r) = (fun _ => 5) /\
  (reads (snd r) <= 1)%nat.
Proof.
  assert (Hlate : 0 < readings (Clock (fun _ => 5) 0)
                        (reads (Clock (fun _ => 5) 0))) by reflexivity.
  exact (diff_bisect_deadline (diff_main_rec 40 40) 39 (js "abc") (js "xbz") 0
           (Clock (fun _ => 5) 0) Hlate).
Defined.
